(** * Nested-repository git status aggregation: model and properties

    A shallow embedding of
      - cli/src/modules/common/handlers/git.ts  (section framing, bounded
        repository discovery and its cache, the command runner, the status,
        numstat and single-file fallbacks, the three handlers), and
      - web/src/lib/gitParsers.ts  (section splitting, porcelain-v2 status
        parser, numstat parser, rename-path normalisation, aggregation).

    JavaScript strings are sequences of UTF-16 code units and are modelled as
    [list N].  [Record<string, _>] objects used as dictionaries are plain
    objects: their own properties are a finite map ([gmap]), and a lookup
    that finds no own property goes on to the prototype, [Object.prototype]
    unless an assignment to [__proto__] installed another one
    ([PlainObject]).  The numbers the parsers make are non-negative integers
    in IEEE 754 double precision: exact below 2^53, rounded to the nearest
    double from there on ([JS.number]). *)

From Stdlib Require Import NArith ZArith List Bool Lia Ascii String Sorted Permutation.
From Stdlib Require Import SpecFloat.
From stdpp Require Import base option list gmap.

Abbreviation jsstr := (list N) (only parsing).

(** ** String primitives of the host language *)

Module JS.

(** A string literal, one code unit per character. *)
Definition lit (s : string) : jsstr :=
  List.map N_of_ascii (list_ascii_of_string s).

Definition LF : N := 10%N.
Definition TAB : N := 9%N.

(** WhiteSpace and LineTerminator code units: what [trim] strips and what
    [\s] matches. *)
Definition isWhiteSpace (c : N) : bool :=
  ((c =? 0x09) || (c =? 0x0A) || (c =? 0x0B) || (c =? 0x0C) || (c =? 0x0D)
   || (c =? 0x20) || (c =? 0xA0) || (c =? 0x1680)
   || ((0x2000 <=? c) && (c <=? 0x200A))
   || (c =? 0x2028) || (c =? 0x2029) || (c =? 0x202F) || (c =? 0x205F)
   || (c =? 0x3000) || (c =? 0xFEFF))%N.

(** LineTerminator code units: what [.] refuses. *)
Definition isLineTerminator (c : N) : bool :=
  ((c =? 0x0A) || (c =? 0x0D) || (c =? 0x2028) || (c =? 0x2029))%N.

Definition isDigit (c : N) : bool := ((0x30 <=? c) && (c <=? 0x39))%N.

Definition str_eqb (a b : jsstr) : bool := bool_decide (a = b).

Fixpoint trimStart (s : jsstr) : jsstr :=
  match s with
  | [] => []
  | c :: t => if isWhiteSpace c then trimStart t else s
  end.

Definition trimEnd (s : jsstr) : jsstr := rev (trimStart (rev s)).

Definition trim (s : jsstr) : jsstr := trimEnd (trimStart s).

Fixpoint startsWith (s p : jsstr) : bool :=
  match p, s with
  | [], _ => true
  | _ :: _, [] => false
  | a :: p', b :: s' => (a =? b)%N && startsWith s' p'
  end.

Definition endsWith (s p : jsstr) : bool := startsWith (rev s) (rev p).

Fixpoint includes (s p : jsstr) : bool :=
  startsWith s p ||
  match s with
  | [] => false
  | _ :: t => includes t p
  end.

(** [s.slice(n)] for [0 <= n]. *)
Definition slice_from (n : nat) (s : jsstr) : jsstr := drop n s.

(** [s.slice(0, -1)] on strings and arrays. *)
Definition drop_last {A} (l : list A) : list A := take (length l - 1) l.

(** [s.split(sep)] for a one-unit separator: never the empty array. *)
Fixpoint split (sep : N) (s : jsstr) : list jsstr :=
  match s with
  | [] => [[]]
  | c :: t =>
      if (c =? sep)%N then [] :: split sep t
      else match split sep t with
           | [] => [[c]]
           | l :: ls => (c :: l) :: ls
           end
  end.

(** [parts.join(sep)]. *)
Fixpoint join (sep : jsstr) (parts : list jsstr) : jsstr :=
  match parts with
  | [] => []
  | [p] => p
  | p :: rest => p ++ sep ++ join sep rest
  end.

(** Truthiness of a string: non-empty. *)
Definition truthy (s : jsstr) : bool :=
  match s with [] => false | _ => true end.

(** The Number type, as far as the parsers use it: the doubles that are
    non-negative integers, and [Infinity].  [finite n] stands for the double
    whose value is [n]; the operations below only ever build it for an [n]
    that a double can hold. *)
Inductive number := finite (n : N) | infinity.

(** The Number value for a non-negative integer (the standard's conversion
    of a mathematical value to a Number): the integer itself below 2^53;
    from there on the nearest integer with 53 significant bits, a tie going
    to the even significand; [Infinity] once that reaches 2^1024. *)
Definition toNumber (n : N) : number :=
  if (n <? 2 ^ 53)%N then finite n
  else
    let e := (N.log2 n - 52)%N in
    let q := (n / 2 ^ e)%N in
    let r := (n mod 2 ^ e)%N in
    let half := (2 ^ (e - 1))%N in
    let q' := if (r <? half)%N then q
              else if (half <? r)%N then (q + 1)%N
              else if N.even q then q else (q + 1)%N in
    if (2 ^ 1024 <=? q' * 2 ^ e)%N then infinity else finite (q' * 2 ^ e).

(** [a + b] on these numbers: the Number value for the exact sum. *)
Definition add (a b : number) : number :=
  match a, b with
  | finite x, finite y => toNumber (x + y)
  | _, _ => infinity
  end.

(** The integer a run of decimal digits writes (what is left of a string
    from its first non-digit on is not read). *)
Fixpoint parseInt_acc (acc : N) (s : jsstr) : N :=
  match s with
  | c :: t => if isDigit c then parseInt_acc (10 * acc + (c - 0x30))%N t else acc
  | [] => acc
  end.

(** [parseInt(s, 10)] on the strings the parsers hand it, which all match
    [\d+]: the Number value for the integer the digits write.  (The standard
    lets an implementation read the digits after the twentieth as zeros; V8
    and JavaScriptCore convert the exact value, as here.) *)
Definition parseInt10 (s : jsstr) : number := toNumber (parseInt_acc 0%N s).

End JS.

(** A numeral of the source, [0] or [1], is the Number with that value. *)
Coercion JS.toNumber : N >-> JS.number.

(** ** Plain objects used as dictionaries

    [const stats: Record<string, V> = {}] is an ordinary object whose
    prototype is [Object.prototype].  [stats[key] = v] defines an own
    property, except for the key [__proto__]: that name is an accessor of
    [Object.prototype], whose setter makes [v] the prototype of [stats] when
    [v] is an object and does nothing when it is a primitive.  [stats[key]]
    reads the own property if there is one and goes on to the prototype
    chain otherwise, so it finds the properties of an installed prototype
    and those of [Object.prototype], which is taken as the standard defines
    it, with nothing added by other code. *)
Module PlainObject.

Definition PROTO : jsstr := JS.lit "__proto__".

(** The property names of [Object.prototype]. *)
Definition OBJECT_PROTOTYPE_NAMES : list jsstr :=
  List.map JS.lit
    ["constructor"; "__defineGetter__"; "__defineSetter__"; "hasOwnProperty";
     "__lookupGetter__"; "__lookupSetter__"; "isPrototypeOf";
     "propertyIsEnumerable"; "toString"; "valueOf"; "__proto__";
     "toLocaleString"]%string.

(** What [obj[key]] evaluates to, for a dictionary of [V]: a value that was
    stored; a value that is not nullish and not a [V] (a function of
    [Object.prototype], [Object.prototype] itself, a property of an installed
    prototype); or [undefined]. *)
Inductive lookup (V : Type) :=
| found (v : V)
| alien
| absent.
Arguments found {V} v.
Arguments alien {V}.
Arguments absent {V}.

Record t (V : Type) := {
  own : gmap (list N) V;
  proto : option V
}.
Arguments own {V} _.
Arguments proto {V} _.

Section Operations.
Context {V : Type}.

(** How the values look to the language: [None] for primitives (strings),
    [Some names] for objects whose own properties are [names]. *)
Variable fields : option (list jsstr).

(** [{}] *)
Definition empty : t V := {| own := ∅; proto := None |}.

(** [obj[key] = v] *)
Definition set (key : jsstr) (v : V) (obj : t V) : t V :=
  if JS.str_eqb key PROTO then
    match fields with
    | Some _ => {| own := own obj; proto := Some v |}
    | None => obj
    end
  else {| own := <[key := v]> (own obj); proto := proto obj |}.

(** Whether [key] is found on the prototype chain of [obj]. *)
Definition inherited (obj : t V) (key : jsstr) : bool :=
  match proto obj, fields with
  | Some _, Some names => bool_decide (key ∈ names)
  | _, _ => false
  end
  || bool_decide (key ∈ OBJECT_PROTOTYPE_NAMES).

(** [obj[key]] *)
Definition get (obj : t V) (key : jsstr) : lookup V :=
  if JS.str_eqb key PROTO then
    match proto obj with
    | Some v => found v
    | None => alien
    end
  else
    match own obj !! key with
    | Some v => found v
    | None => if inherited obj key then alien else absent
    end.

End Operations.

End PlainObject.

(** ** Regular expressions

    A backtracking matcher in continuation-passing style, following the
    matcher semantics of the language standard: a pattern is run against the
    rest of the input with a continuation for what follows it, alternatives
    and quantifiers try their choices in priority order, and the first
    overall success wins.  No pattern of the program puts a capture group
    under a quantifier, so captures are never reset. *)

Module Regex.

Inductive regex : Type :=
| Chr (p : N -> bool)                       (* one code unit satisfying [p] *)
| Seq (a b : regex)
| Alt (a b : regex)
| Rep (greedy : bool) (lo : nat) (hi : option nat) (a : regex)
| Group (i : nat) (a : regex)               (* capture group number [i] *)
| Bol                                       (* ^ without the m flag *)
| Eol.                                      (* $ without the m flag *)

(** Captures: the text of group [i], when it took part in the match. *)
Definition caps := list (nat * jsstr).

Fixpoint cap (cs : caps) (i : nat) : option jsstr :=
  match cs with
  | [] => None
  | (j, v) :: rest => if Nat.eqb i j then Some v else cap rest i
  end.

(** A continuation receives the position reached, the input left and the
    captures so far. *)
Definition cont := nat -> jsstr -> caps -> option (nat * caps).

Definition orelse {A} (x y : option A) : option A :=
  match x with Some _ => x | None => y end.

(** The repeat matcher of the standard: [m] matches one iteration, [k] is
    what follows the quantified term.  An iteration that is not required and
    consumes nothing is rejected; a greedy quantifier tries one more
    iteration before the continuation, a lazy one the continuation first.
    Every turn uses up a required iteration or at least one unit of input,
    so [lo + length s + 1] turns are always enough. *)
Fixpoint RepeatMatcher (m : nat -> jsstr -> caps -> cont -> option (nat * caps))
    (k : cont) (greedy : bool) (fuel lo : nat) (hi : option nat)
    (pos : nat) (s : jsstr) (cs : caps) {struct fuel} : option (nat * caps) :=
  match fuel with
  | O => None
  | S fuel' =>
      match hi with
      | Some O => k pos s cs
      | _ =>
          let d : cont := fun pos' s' cs' =>
            if Nat.eqb lo 0 && Nat.eqb pos' pos then None
            else RepeatMatcher m k greedy fuel' (Nat.pred lo) (Nat.pred <$> hi)
                               pos' s' cs' in
          if negb (Nat.eqb lo 0) then m pos s cs d
          else if greedy
               then orelse (m pos s cs d) (k pos s cs)
               else orelse (k pos s cs) (m pos s cs d)
      end
  end.

Fixpoint rmatch (r : regex) (pos : nat) (s : jsstr) (cs : caps) (k : cont)
  : option (nat * caps) :=
  match r with
  | Chr p =>
      match s with
      | c :: t => if p c then k (S pos) t cs else None
      | [] => None
      end
  | Seq a b => rmatch a pos s cs (fun pos' s' cs' => rmatch b pos' s' cs' k)
  | Alt a b => orelse (rmatch a pos s cs k) (rmatch b pos s cs k)
  | Group i a =>
      rmatch a pos s cs
        (fun pos' s' cs' => k pos' s' ((i, take (pos' - pos) s) :: cs'))
  | Bol => if Nat.eqb pos 0 then k pos s cs else None
  | Eol => match s with [] => k pos s cs | _ :: _ => None end
  | Rep greedy lo hi a =>
      RepeatMatcher (rmatch a) k greedy (lo + length s + 1) lo hi pos s cs
  end.

(** One match attempt at a given position of the subject. *)
Definition match_at (r : regex) (pos : nat) (s : jsstr) : option (nat * caps) :=
  rmatch r pos s [] (fun pos' _ cs' => Some (pos', cs')).

(** [re.exec(s)] for a pattern without flags: the leftmost match, as
    (start, end, captures). [s] is the input from position [pos] on. *)
Fixpoint exec_from (r : regex) (pos : nat) (s : jsstr) : option (nat * nat * caps) :=
  match match_at r pos s with
  | Some (e, cs) => Some (pos, e, cs)
  | None =>
      match s with
      | [] => None
      | _ :: t => exec_from r (S pos) t
      end
  end.

Definition exec (r : regex) (s : jsstr) : option caps :=
  match exec_from r 0 s with
  | Some (_, _, cs) => Some cs
  | None => None
  end.

(** Pattern syntax. *)
Definition chr (c : N) : regex := Chr (N.eqb c).
Definition dot : regex := Chr (fun c => negb (JS.isLineTerminator c)).
Definition digit : regex := Chr JS.isDigit.
Definition space : regex := Chr JS.isWhiteSpace.
Definition plus (a : regex) : regex := Rep true 1 None a.
Definition star (a : regex) : regex := Rep true 0 None a.
Definition plus_lazy (a : regex) : regex := Rep false 1 None a.
Definition times (n : nat) (a : regex) : regex := Rep true n (Some n) a.
Definition between (lo hi : nat) (a : regex) : regex := Rep true lo (Some hi) a.

Fixpoint str (s : jsstr) : regex :=
  match s with
  | [] => Rep true 0 (Some 0) Bol
  | [c] => chr c
  | c :: t => Seq (chr c) (str t)
  end.

Fixpoint seq (rs : list regex) : regex :=
  match rs with
  | [] => Rep true 0 (Some 0) Bol
  | [r] => r
  | r :: rest => Seq r (seq rest)
  end.

End Regex.

(** ** Percent-encoding: [encodeURIComponent] and [decodeURIComponent]

    Both are total here with [None] standing for a thrown [URIError]. *)

Module URI.

Definition inRange (lo hi c : N) : bool := ((lo <=? c) && (c <=? hi))%N.

(** The characters [encodeURIComponent] leaves alone:
    A-Z a-z 0-9 - _ . ! ~ * ' ( ) *)
Definition isUnreserved (c : N) : bool :=
  inRange 0x41 0x5A c || inRange 0x61 0x7A c || inRange 0x30 0x39 c
  || existsb (N.eqb c) (JS.lit "-_.!~*'()").

Definition isLeadingSurrogate (c : N) : bool := inRange 0xD800 0xDBFF c.
Definition isTrailingSurrogate (c : N) : bool := inRange 0xDC00 0xDFFF c.

(** [String.prototype.isWellFormed]: code units, with every surrogate paired. *)
Fixpoint isWellFormed (s : jsstr) : bool :=
  match s with
  | [] => true
  | c :: t =>
      if isTrailingSurrogate c then false
      else if isLeadingSurrogate c then
        match t with
        | d :: t' => isTrailingSurrogate d && isWellFormed t'
        | [] => false
        end
      else (c <? 0x10000)%N && isWellFormed t
  end.

Definition hexDigit (n : N) : N :=
  (if n <? 10 then 0x30 + n else 0x41 + (n - 10))%N.

(** One octet as [%XX], upper-case. *)
Definition escapeOctet (b : N) : jsstr :=
  [0x25%N; hexDigit (b / 16); hexDigit (b mod 16)].

(** The UTF-8 transformation of a code point. *)
Definition utf8 (cp : N) : list N :=
  (if cp <? 0x80 then [cp]
   else if cp <? 0x800 then [0xC0 + cp / 0x40; 0x80 + cp mod 0x40]
   else if cp <? 0x10000 then
     [0xE0 + cp / 0x1000; 0x80 + (cp / 0x40) mod 0x40; 0x80 + cp mod 0x40]
   else
     [0xF0 + cp / 0x40000; 0x80 + (cp / 0x1000) mod 0x40;
      0x80 + (cp / 0x40) mod 0x40; 0x80 + cp mod 0x40])%N.

Definition escapeCodePoint (cp : N) : jsstr :=
  concat (List.map escapeOctet (utf8 cp)).

Definition pairToCodePoint (hi lo : N) : N :=
  ((hi - 0xD800) * 0x400 + (lo - 0xDC00) + 0x10000)%N.

Fixpoint encodeURIComponent (s : jsstr) : option jsstr :=
  match s with
  | [] => Some []
  | c :: t =>
      if isUnreserved c then cons c <$> encodeURIComponent t
      else if isTrailingSurrogate c then None
      else if isLeadingSurrogate c then
        match t with
        | d :: t' =>
            if isTrailingSurrogate d
            then app (escapeCodePoint (pairToCodePoint c d)) <$> encodeURIComponent t'
            else None
        | [] => None
        end
      else app (escapeCodePoint c) <$> encodeURIComponent t
  end.

Definition hexVal (c : N) : option N :=
  (if inRange 0x30 0x39 c then Some (c - 0x30)
   else if inRange 0x41 0x46 c then Some (c - 0x41 + 10)
   else if inRange 0x61 0x66 c then Some (c - 0x61 + 10)
   else None)%N.

Definition parseHexOctet (a b : N) : option N :=
  h ← hexVal a; l ← hexVal b; Some (16 * h + l)%N.

(** Reads one [%XX] escape from the front of [s]. *)
Definition readEscape (s : jsstr) : option (N * jsstr) :=
  match s with
  | p :: a :: b :: t =>
      if (p =? 0x25)%N then (fun o => (o, t)) <$> parseHexOctet a b else None
  | _ => None
  end.

Fixpoint readEscapes (n : nat) (s : jsstr) : option (list N * jsstr) :=
  match n with
  | O => Some ([], s)
  | S n' =>
      '(b, t) ← readEscape s;
      '(bs, t') ← readEscapes n' t;
      Some (b :: bs, t')
  end.

(** Number of leading 1 bits of an octet (5 stands for "more than 4"). *)
Definition leadingOnes (b : N) : nat :=
  if (b <? 0x80)%N then 0 else if (b <? 0xC0)%N then 1
  else if (b <? 0xE0)%N then 2 else if (b <? 0xF0)%N then 3
  else if (b <? 0xF8)%N then 4 else 5.

Definition isContinuation (b : N) : bool := inRange 0x80 0xBF b.

(** The code point of a valid UTF-8 sequence of two to four octets:
    shortest form only, no surrogates, at most U+10FFFF. *)
Definition utf8Decode (octets : list N) : option N :=
  match octets with
  | [b0; b1] =>
      let cp := ((b0 - 0xC0) * 0x40 + (b1 - 0x80))%N in
      if isContinuation b1 && (0x80 <=? cp)%N then Some cp else None
  | [b0; b1; b2] =>
      let cp := ((b0 - 0xE0) * 0x1000 + (b1 - 0x80) * 0x40 + (b2 - 0x80))%N in
      if isContinuation b1 && isContinuation b2 && (0x800 <=? cp)%N
         && negb (inRange 0xD800 0xDFFF cp)
      then Some cp else None
  | [b0; b1; b2; b3] =>
      let cp := ((b0 - 0xF0) * 0x40000 + (b1 - 0x80) * 0x1000
                 + (b2 - 0x80) * 0x40 + (b3 - 0x80))%N in
      if isContinuation b1 && isContinuation b2 && isContinuation b3
         && inRange 0x10000 0x10FFFF cp
      then Some cp else None
  | _ => None
  end.

Definition UTF16EncodeCodePoint (cp : N) : jsstr :=
  (if cp <? 0x10000 then [cp]
   else [0xD800 + (cp - 0x10000) / 0x400; 0xDC00 + (cp - 0x10000) mod 0x400])%N.

(** The decoding loop; it takes at most one turn per code unit of input. *)
Fixpoint Decode (fuel : nat) (s : jsstr) : option jsstr :=
  match s with
  | [] => Some []
  | c :: t =>
      match fuel with
      | O => None
      | S fuel' =>
          if (c =? 0x25)%N then
            '(b, rest) ← readEscape s;
            let n := leadingOnes b in
            match n with
            | 0 => cons b <$> Decode fuel' rest
            | 1 => None
            | S n' =>
                if (4 <? n)%nat then None else
                '(bs, rest') ← readEscapes n' rest;
                cp ← utf8Decode (b :: bs);
                app (UTF16EncodeCodePoint cp) <$> Decode fuel' rest'
            end
          else cons c <$> Decode fuel' t
      end
  end.

Definition decodeURIComponent (s : jsstr) : option jsstr := Decode (length s) s.

End URI.

(** ** Section framing (git.ts and gitParsers.ts) *)

Definition HAPI_REPO_SECTION_PREFIX : jsstr := JS.lit "@@HAPI_REPO ".
Definition HAPI_REPO_SECTION_END : jsstr := JS.lit "@@HAPI_REPO_END".

(** git.ts, wrapRepoSectionOutput. [None]: [encodeURIComponent] threw. *)
Definition wrapRepoSectionOutput (repoName output : jsstr) : option jsstr :=
  encodedRepo ← URI.encodeURIComponent repoName;
  let body := JS.trim output in
  if negb (JS.truthy body)
  then Some (HAPI_REPO_SECTION_PREFIX ++ encodedRepo ++ [JS.LF] ++ HAPI_REPO_SECTION_END)
  else Some (HAPI_REPO_SECTION_PREFIX ++ encodedRepo ++ [JS.LF] ++ body
             ++ [JS.LF] ++ HAPI_REPO_SECTION_END).

Record RepoScopedOutput := {
  repo : option jsstr;
  output : jsstr
}.

Definition decodeRepoSectionName (name : jsstr) : jsstr :=
  match URI.decodeURIComponent name with
  | Some decoded => decoded
  | None => name
  end.

(** The mutable variables of splitRepoSections. *)
Record SplitState := {
  sections : list RepoScopedOutput;
  currentRepo : option jsstr;
  currentLines : list jsstr;
  hasMarkers : bool
}.

Definition flushCurrentSection (st : SplitState) : SplitState :=
  match currentRepo st with
  | None => st
  | Some r =>
      {| sections := sections st ++
                     [ {| repo := Some r;
                          output := JS.trim (JS.join [JS.LF] (currentLines st)) |} ];
         currentRepo := None;
         currentLines := [];
         hasMarkers := hasMarkers st |}
  end.

Definition sawMarker (st : SplitState) : SplitState :=
  {| sections := sections st; currentRepo := currentRepo st;
     currentLines := currentLines st; hasMarkers := true |}.

Definition pushLine (st : SplitState) (line : jsstr) : SplitState :=
  {| sections := sections st; currentRepo := currentRepo st;
     currentLines := currentLines st ++ [line]; hasMarkers := hasMarkers st |}.

Definition isStartMarker (line : jsstr) : bool :=
  JS.startsWith line HAPI_REPO_SECTION_PREFIX.

Definition isEndMarker (line : jsstr) : bool :=
  JS.str_eqb (JS.trim line) HAPI_REPO_SECTION_END.

(** One turn of the line loop. *)
Definition splitStep (st : SplitState) (line : jsstr) : SplitState :=
  if isStartMarker line then
    let st' := flushCurrentSection (sawMarker st) in
    let encodedRepo := JS.trim (JS.slice_from (length HAPI_REPO_SECTION_PREFIX) line) in
    {| sections := sections st';
       currentRepo := Some (decodeRepoSectionName encodedRepo);
       currentLines := [];
       hasMarkers := hasMarkers st' |}
  else if isEndMarker line then flushCurrentSection (sawMarker st)
  else if bool_decide (currentRepo st <> None) then pushLine st line
  else if negb (hasMarkers st) then pushLine st line
  else st.

Definition splitInit : SplitState :=
  {| sections := []; currentRepo := None; currentLines := []; hasMarkers := false |}.

Definition splitRepoSections (rawOutput : jsstr) : list RepoScopedOutput :=
  let st := fold_left splitStep (JS.split JS.LF rawOutput) splitInit in
  if hasMarkers st then sections (flushCurrentSection st)
  else [ {| repo := None; output := JS.trim rawOutput |} ].

(** ** Parsers (gitParsers.ts) *)

Record GitFileEntryV2 := {
  path : jsstr;
  index : jsstr;
  workingDir : jsstr;
  from : option jsstr
}.

Record GitBranchInfo := {
  oid : option jsstr;
  head : option jsstr;
  upstream : option jsstr;
  ahead : option JS.number;
  behind : option JS.number
}.

Record GitStatusSummaryV2 := {
  files : list GitFileEntryV2;
  notAdded : list jsstr;
  ignored : list jsstr;
  branch : GitBranchInfo
}.

Record DiffFileStat := {
  file : jsstr;
  changes : JS.number;
  insertions : JS.number;
  deletions : JS.number;
  binary : bool
}.

Record DiffSummary := {
  dfiles : list DiffFileStat;
  total_insertions : JS.number;
  total_deletions : JS.number;
  total_changes : JS.number;
  changed : JS.number
}.

Module Patterns.
Import Regex.

Definition hex : regex :=
  Chr (fun c => URI.inRange 0x30 0x39 c || URI.inRange 0x61 0x66 c).

Definition sp : regex := chr 0x20.

(** "/^# branch\.oid (.+)$/" *)
Definition BRANCH_OID_REGEX : regex :=
  seq [Bol; str (JS.lit "# branch.oid "); Group 1 (plus dot); Eol].

(** "/^# branch\.head (.+)$/" *)
Definition BRANCH_HEAD_REGEX : regex :=
  seq [Bol; str (JS.lit "# branch.head "); Group 1 (plus dot); Eol].

(** "/^# branch\.upstream (.+)$/" *)
Definition BRANCH_UPSTREAM_REGEX : regex :=
  seq [Bol; str (JS.lit "# branch.upstream "); Group 1 (plus dot); Eol].

(** "/^# branch\.ab \+(\d+) -(\d+)$/" *)
Definition BRANCH_AB_REGEX : regex :=
  seq [Bol; str (JS.lit "# branch.ab +"); Group 1 (plus digit);
       str (JS.lit " -"); Group 2 (plus digit); Eol].

(** "/^1 (.)(.) (.{4}) (\d{6}) (\d{6}) (\d{6}) ([0-9a-f]+) ([0-9a-f]+) (.+)$/" *)
Definition ORDINARY_CHANGE_REGEX : regex :=
  seq [Bol; str (JS.lit "1 "); Group 1 dot; Group 2 dot; sp;
       Group 3 (times 4 dot); sp;
       Group 4 (times 6 digit); sp; Group 5 (times 6 digit); sp;
       Group 6 (times 6 digit); sp;
       Group 7 (plus hex); sp; Group 8 (plus hex); sp;
       Group 9 (plus dot); Eol].

(** "/^2 (.)(.) (.{4}) (\d{6}) (\d{6}) (\d{6}) ([0-9a-f]+) ([0-9a-f]+) ([RC])(\d{1,3}) (.+)\t(.+)$/" *)
Definition RENAME_COPY_REGEX : regex :=
  seq [Bol; str (JS.lit "2 "); Group 1 dot; Group 2 dot; sp;
       Group 3 (times 4 dot); sp;
       Group 4 (times 6 digit); sp; Group 5 (times 6 digit); sp;
       Group 6 (times 6 digit); sp;
       Group 7 (plus hex); sp; Group 8 (plus hex); sp;
       Group 9 (Chr (fun c => (c =? 0x52)%N || (c =? 0x43)%N));
       Group 10 (between 1 3 digit); sp;
       Group 11 (plus dot); chr JS.TAB; Group 12 (plus dot); Eol].

(** "/^u (.)(.) (.{4}) (\d{6}) (\d{6}) (\d{6}) (\d{6}) ([0-9a-f]+) ([0-9a-f]+) ([0-9a-f]+) (.+)$/" *)
Definition UNMERGED_REGEX : regex :=
  seq [Bol; str (JS.lit "u "); Group 1 dot; Group 2 dot; sp;
       Group 3 (times 4 dot); sp;
       Group 4 (times 6 digit); sp; Group 5 (times 6 digit); sp;
       Group 6 (times 6 digit); sp; Group 7 (times 6 digit); sp;
       Group 8 (plus hex); sp; Group 9 (plus hex); sp; Group 10 (plus hex); sp;
       Group 11 (plus dot); Eol].

(** "/^\? (.+)$/" *)
Definition UNTRACKED_REGEX : regex :=
  seq [Bol; str (JS.lit "? "); Group 1 (plus dot); Eol].

(** "/^! (.+)$/" *)
Definition IGNORED_REGEX : regex :=
  seq [Bol; str (JS.lit "! "); Group 1 (plus dot); Eol].

(** "/^(\d+|-)\t(\d+|-)\t( .* )$/", the blanks inside the last group added here *)
Definition NUMSTAT_REGEX : regex :=
  seq [Bol; Group 1 (Alt (plus digit) (chr 0x2D)); chr JS.TAB;
       Group 2 (Alt (plus digit) (chr 0x2D)); chr JS.TAB;
       Group 3 (star dot); Eol].

Definition notBrace (c : N) : bool := negb ((c =? 0x7B)%N || (c =? 0x7D)%N).

(** "/\{([^{}]+?)\s*=>\s*([^{}]+?)\}/g" *)
Definition BRACE_RENAME_REGEX : regex :=
  seq [chr 0x7B; Group 1 (plus_lazy (Chr notBrace)); star space;
       str (JS.lit "=>"); star space;
       Group 2 (plus_lazy (Chr notBrace)); chr 0x7D].

(** "/\s*=>\s*/" *)
Definition ARROW_REGEX : regex :=
  seq [star space; str (JS.lit "=>"); star space].

End Patterns.

(** [matches[i]] of a match array: the empty string stands in for an
    absent group where the caller goes on to test or parse it. *)
Definition group (m : Regex.caps) (i : nat) : jsstr := default [] (Regex.cap m i).

Definition parseOrdinaryChange (m : Regex.caps) : option GitFileEntryV2 :=
  if negb (JS.truthy (group m 1)) || negb (JS.truthy (group m 2))
     || negb (JS.truthy (group m 9)) then None
  else Some {| index := group m 1; workingDir := group m 2;
               path := group m 9; from := None |}.

Definition parseRenameCopy (m : Regex.caps) : option GitFileEntryV2 :=
  if negb (JS.truthy (group m 1)) || negb (JS.truthy (group m 2))
     || negb (JS.truthy (group m 11)) || negb (JS.truthy (group m 12)) then None
  else Some {| index := group m 1; workingDir := group m 2;
               from := Some (group m 11); path := group m 12 |}.

Definition parseUnmerged (m : Regex.caps) : option GitFileEntryV2 :=
  if negb (JS.truthy (group m 1)) || negb (JS.truthy (group m 2))
     || negb (JS.truthy (group m 11)) then None
  else Some {| index := group m 1; workingDir := group m 2;
               path := group m 11; from := None |}.

Definition emptyBranch : GitBranchInfo :=
  {| oid := None; head := None; upstream := None; ahead := None; behind := None |}.

Definition emptySummary : GitStatusSummaryV2 :=
  {| files := []; notAdded := []; ignored := []; branch := emptyBranch |}.

Definition withBranch (r : GitStatusSummaryV2) (b : GitBranchInfo) : GitStatusSummaryV2 :=
  {| files := files r; notAdded := notAdded r; ignored := ignored r; branch := b |}.

Definition pushFile (r : GitStatusSummaryV2) (e : option GitFileEntryV2) : GitStatusSummaryV2 :=
  match e with
  | Some entry => {| files := files r ++ [entry]; notAdded := notAdded r;
                     ignored := ignored r; branch := branch r |}
  | None => r
  end.

(** The lines a parser walks: [text.trim().split('\n').filter(l => l.length > 0)]. *)
Definition nonEmptyLines (text : jsstr) : list jsstr :=
  List.filter JS.truthy (JS.split JS.LF (JS.trim text)).

(** One turn of the line loop of parseStatusSummaryV2. *)
Definition statusStep (result : GitStatusSummaryV2) (line : jsstr) : GitStatusSummaryV2 :=
  let b := branch result in
  if JS.startsWith line (JS.lit "# branch.oid ") then
    match Regex.exec Patterns.BRANCH_OID_REGEX line with
    | Some m => withBranch result
        {| oid := Regex.cap m 1; head := head b; upstream := upstream b;
           ahead := ahead b; behind := behind b |}
    | None => result
    end
  else if JS.startsWith line (JS.lit "# branch.head ") then
    match Regex.exec Patterns.BRANCH_HEAD_REGEX line with
    | Some m => withBranch result
        {| oid := oid b; head := Regex.cap m 1; upstream := upstream b;
           ahead := ahead b; behind := behind b |}
    | None => result
    end
  else if JS.startsWith line (JS.lit "# branch.upstream ") then
    match Regex.exec Patterns.BRANCH_UPSTREAM_REGEX line with
    | Some m => withBranch result
        {| oid := oid b; head := head b; upstream := Regex.cap m 1;
           ahead := ahead b; behind := behind b |}
    | None => result
    end
  else if JS.startsWith line (JS.lit "# branch.ab ") then
    match Regex.exec Patterns.BRANCH_AB_REGEX line with
    | Some m => withBranch result
        {| oid := oid b; head := head b; upstream := upstream b;
           ahead := Some (JS.parseInt10 (group m 1));
           behind := Some (JS.parseInt10 (group m 2)) |}
    | None => result
    end
  else if JS.startsWith line (JS.lit "1 ") then
    match Regex.exec Patterns.ORDINARY_CHANGE_REGEX line with
    | Some m => pushFile result (parseOrdinaryChange m)
    | None => result
    end
  else if JS.startsWith line (JS.lit "2 ") then
    match Regex.exec Patterns.RENAME_COPY_REGEX line with
    | Some m => pushFile result (parseRenameCopy m)
    | None => result
    end
  else if JS.startsWith line (JS.lit "u ") then
    match Regex.exec Patterns.UNMERGED_REGEX line with
    | Some m => pushFile result (parseUnmerged m)
    | None => result
    end
  else if JS.startsWith line (JS.lit "? ") then
    match Regex.exec Patterns.UNTRACKED_REGEX line with
    | Some m => {| files := files result; notAdded := notAdded result ++ [group m 1];
                   ignored := ignored result; branch := b |}
    | None => result
    end
  else if JS.startsWith line (JS.lit "! ") then
    match Regex.exec Patterns.IGNORED_REGEX line with
    | Some m => {| files := files result; notAdded := notAdded result;
                   ignored := ignored result ++ [group m 1]; branch := b |}
    | None => result
    end
  else result.

Definition parseStatusSummaryV2 (statusOutput : jsstr) : GitStatusSummaryV2 :=
  fold_left statusStep (nonEmptyLines statusOutput) emptySummary.

(** What one numstat line adds to [result.files], if it matches. *)
Definition parseNumStatLine (line : jsstr) : option DiffFileStat :=
  match Regex.exec Patterns.NUMSTAT_REGEX line with
  | None => None
  | Some m =>
      let insertionsStr := group m 1 in
      let deletionsStr := group m 2 in
      let isBinary := JS.str_eqb insertionsStr (JS.lit "-")
                      || JS.str_eqb deletionsStr (JS.lit "-") in
      let ins : JS.number := if isBinary then 0%N else JS.parseInt10 insertionsStr in
      let del : JS.number := if isBinary then 0%N else JS.parseInt10 deletionsStr in
      Some {| file := group m 3; changes := JS.add ins del;
              insertions := ins; deletions := del; binary := isBinary |}
  end.

Definition numStatStep (result : DiffSummary) (line : jsstr) : DiffSummary :=
  match parseNumStatLine line with
  | None => result
  | Some f =>
      {| dfiles := dfiles result ++ [f];
         total_insertions := JS.add (total_insertions result) (insertions f);
         total_deletions := JS.add (total_deletions result) (deletions f);
         total_changes := JS.add (total_changes result) (changes f);
         changed := JS.add (changed result) 1%N |}
  end.

Definition emptyDiffSummary : DiffSummary :=
  {| dfiles := []; total_insertions := 0%N; total_deletions := 0%N;
     total_changes := 0%N; changed := 0%N |}.

Definition parseNumStat (numStatOutput : jsstr) : DiffSummary :=
  fold_left numStatStep (nonEmptyLines numStatOutput) emptyDiffSummary.

(** *** Rename-path normalisation and the stats map *)

(** [s.replace(re, fn)] for a global pattern: the matches are found left to
    right, each search resuming where the previous match ended (one unit
    further after an empty match), and each is replaced by [fn] of its
    captures.  [s] is the subject from position [pos] on. *)
Fixpoint replaceAll_from (fuel : nat) (r : Regex.regex) (fn : Regex.caps -> jsstr)
    (pos : nat) (s : jsstr) : jsstr :=
  match fuel with
  | O => s
  | S fuel' =>
      match Regex.exec_from r pos s with
      | None => s
      | Some (b, e, cs) =>
          take (b - pos) s ++ fn cs ++
          (if Nat.eqb e b
           then match drop (b - pos) s with
                | [] => []
                | c :: t => c :: replaceAll_from fuel' r fn (S b) t
                end
           else replaceAll_from fuel' r fn e (drop (e - pos) s))
      end
  end.

Definition replaceAll (r : Regex.regex) (fn : Regex.caps -> jsstr) (s : jsstr) : jsstr :=
  replaceAll_from (length s + 1) r fn 0 s.

(** [s.split(re)] for a pattern without groups: [p] is where the pending
    piece starts, [q] where the next match is tried; [sp] and [sq] are the
    subject from [p] and from [q] on. *)
Fixpoint regexSplit_loop (fuel : nat) (r : Regex.regex) (p q : nat)
    (sp sq : jsstr) : list jsstr :=
  match fuel with
  | O => [sp]
  | S fuel' =>
      match sq with
      | [] => [sp]
      | _ :: sq' =>
          match Regex.match_at r q sq with
          | None => regexSplit_loop fuel' r p (S q) sp sq'
          | Some (e, _) =>
              if Nat.eqb e p then regexSplit_loop fuel' r p (S q) sp sq'
              else take (q - p) sp ::
                   regexSplit_loop fuel' r e e (drop (e - q) sq) (drop (e - q) sq)
          end
      end
  end.

Definition regexSplit (r : Regex.regex) (s : jsstr) : list jsstr :=
  match s with
  | [] => match Regex.match_at r 0 s with Some _ => [] | None => [s] end
  | _ => regexSplit_loop (2 * length s + 2) r 0 0 s s
  end.

Record NumstatPaths := {
  newPath : jsstr;
  oldPath : option jsstr
}.

Definition normalizeNumstatPath (rawPath : jsstr) : NumstatPaths :=
  let trimmed := JS.trim rawPath in
  if JS.includes trimmed (JS.lit "{") && JS.includes trimmed (JS.lit "=>")
     && JS.includes trimmed (JS.lit "}")
  then
    {| newPath := replaceAll Patterns.BRACE_RENAME_REGEX
                    (fun m => JS.trim (group m 2)) trimmed;
       oldPath := Some (replaceAll Patterns.BRACE_RENAME_REGEX
                    (fun m => JS.trim (group m 1)) trimmed) |}
  else
    let plain := {| newPath := trimmed; oldPath := None |} in
    if JS.includes trimmed (JS.lit "=>") then
      let parts := regexSplit Patterns.ARROW_REGEX trimmed in
      let oldP := JS.trim <$> hd_error parts in
      let newP := JS.trim <$> last parts in
      match newP with
      | Some np => if JS.truthy np then {| newPath := np; oldPath := oldP |} else plain
      | None => plain
      end
    else plain.

Record LineStat := {
  added : JS.number;
  removed : JS.number;
  stat_binary : bool
}.

(** The own properties of a stat object. *)
Definition STAT_FIELD_NAMES : list jsstr :=
  List.map JS.lit ["added"; "removed"; "binary"]%string.

Definition STAT_FIELDS : option (list jsstr) := Some STAT_FIELD_NAMES.

(** Truthiness of an optional string: present and non-empty. *)
Definition truthyOpt (o : option jsstr) : bool :=
  match o with Some s => JS.truthy s | None => false end.

Definition diffStatsStep (stats : PlainObject.t LineStat) (f : DiffFileStat)
  : PlainObject.t LineStat :=
  let paths := normalizeNumstatPath (file f) in
  let stat := {| added := insertions f; removed := deletions f;
                 stat_binary := binary f |} in
  let stats1 := PlainObject.set STAT_FIELDS (file f) stat stats in
  let stats2 :=
    if JS.truthy (newPath paths) && negb (JS.str_eqb (newPath paths) (file f))
    then PlainObject.set STAT_FIELDS (newPath paths) stat stats1 else stats1 in
  match oldPath paths with
  | Some op =>
      if JS.truthy op && negb (JS.str_eqb op (file f))
         && negb (JS.str_eqb op (newPath paths))
      then PlainObject.set STAT_FIELDS op stat stats2 else stats2
  | None => stats2
  end.

Definition createDiffStatsMap (summary : DiffSummary) : PlainObject.t LineStat :=
  fold_left diffStatsStep (dfiles summary) PlainObject.empty.

(** *** Aggregation *)

Definition getCurrentBranchV2 (summary : GitStatusSummaryV2) : option jsstr :=
  match head (branch summary) with
  | None => None
  | Some h =>
      if negb (JS.truthy h) || JS.str_eqb h (JS.lit "(detached)")
         || JS.str_eqb h (JS.lit "(initial)")
      then None else Some h
  end.

Inductive FileStatus :=
| modified | added_status | deleted | renamed | untracked | conflicted.

Definition getFileStatus (statusChar : jsstr) : FileStatus :=
  if JS.str_eqb statusChar (JS.lit "M") then modified
  else if JS.str_eqb statusChar (JS.lit "A") then added_status
  else if JS.str_eqb statusChar (JS.lit "D") then deleted
  else if JS.str_eqb statusChar (JS.lit "R") then renamed
  else if JS.str_eqb statusChar (JS.lit "C") then renamed
  else if JS.str_eqb statusChar (JS.lit "?") then untracked
  else if JS.str_eqb statusChar (JS.lit "U") then conflicted
  else modified.

(** A field of type [number] that holds [undefined] when it was read off a
    value that has no such property. *)
Inductive NumberOrUndefined := defined (n : JS.number) | undefined.
Coercion defined : JS.number >-> NumberOrUndefined.

Record GitFileStatus := {
  fileName : jsstr;
  filePath : jsstr;
  fullPath : jsstr;
  file_repo : option jsstr;
  status : FileStatus;
  isStaged : bool;
  linesAdded : NumberOrUndefined;
  linesRemoved : NumberOrUndefined;
  file_oldPath : option jsstr
}.

Record GitRepoStatus := {
  name : jsstr;
  repo_branch : option jsstr
}.

Record GitStatusFiles := {
  stagedFiles : list GitFileStatus;
  unstagedFiles : list GitFileStatus;
  result_branch : option jsstr;
  repos : list GitRepoStatus;
  totalStaged : nat;
  totalUnstaged : nat
}.

Definition getRepoKey (r : option jsstr) : jsstr := default [] r.

(** The values of the per-repository output map are strings. *)
Definition STRING_VALUES : option (list jsstr) := None.

Definition buildRepoOutputMap (secs : list RepoScopedOutput) : PlainObject.t jsstr :=
  fold_left (fun result section =>
               PlainObject.set STRING_VALUES (getRepoKey (repo section)) (output section)
                               result)
            secs PlainObject.empty.

Definition withRepoPrefix (r : option jsstr) (filePath : jsstr) : jsstr :=
  match r with
  | Some rn => if JS.truthy rn then rn ++ JS.lit "/" ++ filePath else filePath
  | None => filePath
  end.

Definition SLASH : N := 0x2F%N.

(** [parts[parts.length - 1] || fallback] *)
Definition lastOr (parts : list jsstr) (fallback : jsstr) : jsstr :=
  match last parts with
  | Some p => if JS.truthy p then p else fallback
  | None => fallback
  end.

Definition zeroStat : LineStat := {| added := 0%N; removed := 0%N; stat_binary := false |}.

(** [stats.added] and [stats.removed] for
    [stats = map[path] ?? { added: 0, removed: 0, binary: false }]: the
    default object stands in for [undefined] only; any other value the
    lookup finds is read, and has the two properties only if it is a stat. *)
Definition addedOf (stats : PlainObject.lookup LineStat) : NumberOrUndefined :=
  match stats with
  | PlainObject.found st => added st
  | PlainObject.absent => added zeroStat
  | PlainObject.alien => undefined
  end.

Definition removedOf (stats : PlainObject.lookup LineStat) : NumberOrUndefined :=
  match stats with
  | PlainObject.found st => removed st
  | PlainObject.absent => removed zeroStat
  | PlainObject.alien => undefined
  end.

(** The staged and unstaged entries one status record contributes. *)
Definition fileEntries (section_repo : option jsstr)
    (stagedStats unstagedStats : PlainObject.t LineStat) (f : GitFileEntryV2)
  : list GitFileStatus * list GitFileStatus :=
  let parts := JS.split SLASH (path f) in
  let fileName := lastOr parts (path f) in
  let filePath := JS.join (JS.lit "/") (JS.drop_last parts) in
  let fullPath := withRepoPrefix section_repo (path f) in
  let oldPath := if truthyOpt (from f)
                 then withRepoPrefix section_repo <$> from f else None in
  let staged :=
    if negb (JS.str_eqb (index f) (JS.lit " ")) && negb (JS.str_eqb (index f) (JS.lit "."))
       && negb (JS.str_eqb (index f) (JS.lit "?"))
    then
      let stats := PlainObject.get STAT_FIELDS stagedStats (path f) in
      [ {| fileName := fileName; filePath := filePath; fullPath := fullPath;
           file_repo := section_repo; status := getFileStatus (index f);
           isStaged := true; linesAdded := addedOf stats;
           linesRemoved := removedOf stats; file_oldPath := oldPath |} ]
    else [] in
  let unstaged :=
    if negb (JS.str_eqb (workingDir f) (JS.lit " "))
       && negb (JS.str_eqb (workingDir f) (JS.lit "."))
    then
      let stats := PlainObject.get STAT_FIELDS unstagedStats (path f) in
      [ {| fileName := fileName; filePath := filePath; fullPath := fullPath;
           file_repo := section_repo; status := getFileStatus (workingDir f);
           isStaged := false; linesAdded := addedOf stats;
           linesRemoved := removedOf stats; file_oldPath := oldPath |} ]
    else [] in
  (staged, unstaged).

(** The unstaged entry one untracked path contributes. *)
Definition untrackedEntries (section_repo : option jsstr) (untrackedPath : jsstr)
  : list GitFileStatus :=
  let cleanPath := if JS.endsWith untrackedPath (JS.lit "/")
                   then JS.drop_last untrackedPath else untrackedPath in
  let parts := JS.split SLASH cleanPath in
  let fileName := lastOr parts cleanPath in
  let filePath := JS.join (JS.lit "/") (JS.drop_last parts) in
  if JS.endsWith untrackedPath (JS.lit "/") then []
  else [ {| fileName := fileName; filePath := filePath;
            fullPath := withRepoPrefix section_repo cleanPath;
            file_repo := section_repo; status := untracked; isStaged := false;
            linesAdded := 0%N; linesRemoved := 0%N; file_oldPath := None |} ].

(** The variables buildGitStatusFiles updates while it walks the sections. *)
Record BuildState := {
  b_stagedFiles : list GitFileStatus;
  b_unstagedFiles : list GitFileStatus;
  b_repos : list GitRepoStatus;
  branchName : option jsstr
}.

(** The argument [map[key] ?? ''] hands to parseNumStat, which starts by
    calling [trim] on it.  [None]: the lookup found a value that is not a
    string and has no [trim], and the call throws a TypeError. *)
Definition outputOrEmpty (found : PlainObject.lookup jsstr) : option jsstr :=
  match found with
  | PlainObject.found text => Some text
  | PlainObject.absent => Some []
  | PlainObject.alien => None
  end.

(** One turn of the loop over the status sections.  [None]: the turn threw. *)
Definition buildStep (hasMultiRepoMetadata : bool)
    (unstagedDiffByRepo stagedDiffByRepo : PlainObject.t jsstr)
    (st : BuildState) (section : RepoScopedOutput) : option BuildState :=
  let statusSummary := parseStatusSummaryV2 (output section) in
  let currentBranch := getCurrentBranchV2 statusSummary in
  let repos' :=
    if truthyOpt (repo section)
    then b_repos st ++ [ {| name := getRepoKey (repo section); repo_branch := currentBranch |} ]
    else b_repos st in
  let branchName' :=
    if truthyOpt (repo section) then branchName st
    else if negb hasMultiRepoMetadata then currentBranch else branchName st in
  let key := getRepoKey (repo section) in
  stagedText ← outputOrEmpty (PlainObject.get STRING_VALUES stagedDiffByRepo key);
  let stagedDiff := parseNumStat stagedText in
  unstagedText ← outputOrEmpty (PlainObject.get STRING_VALUES unstagedDiffByRepo key);
  let unstagedDiff := parseNumStat unstagedText in
  let stagedStats := createDiffStatsMap stagedDiff in
  let unstagedStats := createDiffStatsMap unstagedDiff in
  let perFile := List.map (fileEntries (repo section) stagedStats unstagedStats)
                          (files statusSummary) in
  Some {| b_stagedFiles := b_stagedFiles st ++ concat (List.map fst perFile);
          b_unstagedFiles := b_unstagedFiles st ++ concat (List.map snd perFile)
                             ++ concat (List.map (untrackedEntries (repo section))
                                                 (notAdded statusSummary));
          b_repos := repos';
          branchName := branchName' |}.

(** The loop over the status sections; it ends at the first turn that
    throws. *)
Fixpoint buildLoop (hasMultiRepoMetadata : bool)
    (unstagedDiffByRepo stagedDiffByRepo : PlainObject.t jsstr)
    (statusSections : list RepoScopedOutput) (st : BuildState) : option BuildState :=
  match statusSections with
  | [] => Some st
  | section :: rest =>
      st' ← buildStep hasMultiRepoMetadata unstagedDiffByRepo stagedDiffByRepo st section;
      buildLoop hasMultiRepoMetadata unstagedDiffByRepo stagedDiffByRepo rest st'
  end.

(** [None]: the call threw (a TypeError of parseNumStat). *)
Definition buildGitStatusFiles (statusOutput unstagedDiffOutput stagedDiffOutput : jsstr)
  : option GitStatusFiles :=
  let statusSections := splitRepoSections statusOutput in
  let unstagedDiffByRepo := buildRepoOutputMap (splitRepoSections unstagedDiffOutput) in
  let stagedDiffByRepo := buildRepoOutputMap (splitRepoSections stagedDiffOutput) in
  let hasMultiRepoMetadata :=
    existsb (fun section => bool_decide (repo section <> None)) statusSections in
  st ← buildLoop hasMultiRepoMetadata unstagedDiffByRepo stagedDiffByRepo
                 statusSections
                 {| b_stagedFiles := []; b_unstagedFiles := []; b_repos := [];
                    branchName := None |};
  Some {| stagedFiles := b_stagedFiles st;
          unstagedFiles := b_unstagedFiles st;
          result_branch := if hasMultiRepoMetadata then None else branchName st;
          repos := b_repos st;
          totalStaged := length (b_stagedFiles st);
          totalUnstaged := length (b_unstagedFiles st) |}.

(** ** Repository discovery (git.ts) *)

Definition MAX_DISCOVERY_DEPTH : nat := 4.
Definition MAX_DISCOVERY_REPOS : nat := 64.
Definition MAX_DISCOVERY_DIRECTORIES : nat := 2000.

Definition SKIPPED_DIRECTORY_NAMES : gset (list N) :=
  list_to_set (List.map JS.lit
    [".git"; "node_modules"; ".idea"; ".vscode"; "dist"; "build"; "target";
     ".next"; ".cache"; ".turbo"; ".pnpm-store"; "coverage"]%string).

Definition shouldSkipDirectory (name : jsstr) : bool :=
  if JS.str_eqb name (JS.lit ".git") then true
  else if bool_decide (name ∈ SKIPPED_DIRECTORY_NAMES) then true
  else JS.startsWith name (JS.lit ".").

(** A path at or under the scan root: the root as given, and the
    directory-entry names joined onto it, outermost first.  [join(p, name)]
    appends one name, and [relative(root, p)] is the names put together with
    the platform separator, which [toPosixPath] makes a slash. *)
Record fspath := {
  root : jsstr;
  names : list jsstr
}.

Definition join (p : fspath) (entry : jsstr) : fspath :=
  {| root := root p; names := names p ++ [entry] |}.

Definition relativePosix (p : fspath) : jsstr := JS.join (JS.lit "/") (names p).

Record Dirent := {
  d_name : jsstr;
  isDirectory : bool
}.

Record DiscoveredGitRepo := {
  absolutePath : fspath;
  relativePath : jsstr
}.

Record QueueEntry := {
  q_path : fspath;
  depth : nat
}.

(** The variables of the scan loop. The queue only grows; [q_index] is the
    loop counter. *)
Record ScanState := {
  queue : list QueueEntry;
  q_index : nat;
  discovered : list DiscoveredGitRepo;
  scannedDirectories : nat
}.

(** [Array.prototype.sort] with a comparator: the sort is stable, so for a
    consistent comparator its result is the one a stable insertion sort
    computes. *)
Fixpoint insertSorted {A} (cmp : A -> A -> Z) (x : A) (l : list A) : list A :=
  match l with
  | [] => [x]
  | y :: l' => if (0 <? cmp x y)%Z then y :: insertSorted cmp x l' else x :: l
  end.

Definition sortBy {A} (cmp : A -> A -> Z) (l : list A) : list A :=
  fold_right (insertSorted cmp) [] l.

Section Discovery.

(** The file system as the scan observes it: whether [dir/.git] is a
    directory or a regular file, and the entries of a directory ([None] when
    reading it fails). *)
Variable hasGitMetadata : fspath -> bool.
Variable readdir : fspath -> option (list Dirent).

(** [String.prototype.localeCompare] of the host. *)
Variable localeCompare : jsstr -> jsstr -> Z.

Definition children (current : QueueEntry) (entries : list Dirent) : list QueueEntry :=
  List.map (fun entry => {| q_path := join (q_path current) (d_name entry);
                            depth := depth current + 1 |})
    (List.filter (fun entry => isDirectory entry && negb (shouldSkipDirectory (d_name entry)))
                 entries).

(** One turn of the scan loop; [None] when the loop is left. *)
Definition scanStep (st : ScanState) : option ScanState :=
  if negb (q_index st <? length (queue st)) then None
  else if MAX_DISCOVERY_REPOS <=? length (discovered st) then None
  else if MAX_DISCOVERY_DIRECTORIES <=? scannedDirectories st then None
  else
    match queue st !! q_index st with
    | None => None
    | Some current =>
        let next (q : list QueueEntry) (d : list DiscoveredGitRepo) :=
          Some {| queue := q; q_index := q_index st + 1; discovered := d;
                  scannedDirectories := scannedDirectories st + 1 |} in
        if (0 <? depth current) && hasGitMetadata (q_path current) then
          let relPath := relativePosix (q_path current) in
          if JS.truthy relPath && negb (JS.startsWith relPath (JS.lit "..")) then
            next (queue st)
                 (discovered st ++ [ {| absolutePath := q_path current;
                                        relativePath := relPath |} ])
          else next (queue st) (discovered st)
        else if MAX_DISCOVERY_DEPTH <=? depth current then
          next (queue st) (discovered st)
        else
          match readdir (q_path current) with
          | None => next (queue st) (discovered st)
          | Some entries => next (queue st ++ children current entries) (discovered st)
          end
    end.

Fixpoint scanLoop (turns : nat) (st : ScanState) : ScanState :=
  match turns with
  | O => st
  | S turns' =>
      match scanStep st with
      | None => st
      | Some st' => scanLoop turns' st'
      end
  end.

Definition scanInit (baseCwd : jsstr) : ScanState :=
  {| queue := [ {| q_path := {| root := baseCwd; names := [] |}; depth := 0 |} ];
     q_index := 0; discovered := []; scannedDirectories := 0 |}.

(** The state in which the loop is left: every turn scans one directory, so
    the directory bound is also a bound on the turns. *)
Definition scanFinal (baseCwd : jsstr) : ScanState :=
  scanLoop MAX_DISCOVERY_DIRECTORIES (scanInit baseCwd).

Definition discoverNestedGitRepos (baseCwd : jsstr) : list DiscoveredGitRepo :=
  sortBy (fun a b => localeCompare (relativePath a) (relativePath b))
         (discovered (scanFinal baseCwd)).

End Discovery.

(** ** Fan-out over the discovered repositories (git.ts) *)

Record GitCommandResponse := {
  success : bool;
  stdout : option jsstr;
  stderr : option jsstr;
  exitCode : option Z;
  error : option jsstr
}.

(** Modelled from the spec: [rpcError] of [../rpcResponses], which the
    handlers import and which is not among the sources.  A failure is a
    result object with [success = false] that carries the message in [error];
    the handlers pass at most a [stderr] along with it. *)
Definition rpcError (message : jsstr) (extra_stderr : option jsstr) : GitCommandResponse :=
  {| success := false; stdout := None; stderr := extra_stderr;
     exitCode := None; error := Some message |}.

Definition GIT_STATUS_ARGS : list jsstr :=
  List.map JS.lit ["status"; "--porcelain=v2"; "--branch"; "--untracked-files=all"]%string.

Definition numstatArgs (staged : bool) : list jsstr :=
  if staged then List.map JS.lit ["diff"; "--cached"; "--numstat"]%string
  else List.map JS.lit ["diff"; "--numstat"]%string.

Record FanState := {
  outputs : list jsstr;
  errors : list jsstr;
  hasSuccess : bool
}.

Section FanOut.

(** The external command runner: one call spawns [git] with the given
    arguments in the given directory and yields a result object; the world
    it runs in may change with every call. *)
Variable World : Type.
Variable runGitCommand :
  list jsstr -> fspath -> option N -> World -> GitCommandResponse * World.

(** `[${repo.relativePath}] ${result.error ?? result.stderr ?? fallback}` *)
Definition errorLine (fallback : jsstr) (r : DiscoveredGitRepo) (result : GitCommandResponse)
  : jsstr :=
  JS.lit "[" ++ relativePath r ++ JS.lit "] " ++
  match error result with
  | Some e => e
  | None => default fallback (stderr result)
  end.

(** The [for (const repo of repos)] loop shared, word for word, by the status
    and the numstat fallback. [None]: [wrapRepoSectionOutput] threw. *)
Fixpoint fanLoop (args : list jsstr) (timeout : option N) (fallback : jsstr)
    (rs : list DiscoveredGitRepo) (st : FanState) (w : World)
  : option (FanState * World) :=
  match rs with
  | [] => Some (st, w)
  | r :: rest =>
      let '(result, w') := runGitCommand args (absolutePath r) timeout w in
      if negb (success result) then
        fanLoop args timeout fallback rest
          {| outputs := outputs st;
             errors := errors st ++ [errorLine fallback r result];
             hasSuccess := hasSuccess st |} w'
      else
        wrapped ← wrapRepoSectionOutput (relativePath r) (default [] (stdout result));
        fanLoop args timeout fallback rest
          {| outputs := outputs st ++ [wrapped];
             errors := errors st;
             hasSuccess := true |} w'
  end.

Definition fanOut (args : list jsstr) (fallback unavailable : jsstr)
    (rs : list DiscoveredGitRepo) (timeout : option N) (w : World)
  : option (GitCommandResponse * World) :=
  match rs with
  | [] => Some (rpcError
             (JS.lit "Not a git repository and no nested git repositories were found")
             None, w)
  | _ :: _ =>
      '(st, w') ← fanLoop args timeout fallback rs
                    {| outputs := []; errors := []; hasSuccess := false |} w;
      if negb (hasSuccess st) then
        let fallbackError := default unavailable (hd_error (errors st)) in
        Some (rpcError fallbackError (Some (JS.join [JS.LF] (errors st))), w')
      else
        Some ({| success := true;
                 stdout := Some (JS.join [JS.LF] (outputs st));
                 stderr := Some (JS.join [JS.LF] (errors st));
                 exitCode := Some 0%Z;
                 error := None |}, w')
  end.

(** [rs] is what [await getNestedRepos(baseCwd)] returned. *)
Definition runNestedStatusFallback (rs : list DiscoveredGitRepo) (timeout : option N)
  : World -> option (GitCommandResponse * World) :=
  fanOut GIT_STATUS_ARGS (JS.lit "status failed") (JS.lit "Nested git status unavailable")
         rs timeout.

Definition runNestedNumstatFallback (rs : list DiscoveredGitRepo) (staged : bool)
    (timeout : option N) : World -> option (GitCommandResponse * World) :=
  fanOut (numstatArgs staged) (JS.lit "diff failed") (JS.lit "Nested git diff unavailable")
         rs timeout.

End FanOut.

(** ** Vocabulary of the statements *)

(** A line that is neither a start marker nor an end marker. *)
Definition plainLine (line : jsstr) : Prop :=
  isStartMarker line = false /\ isEndMarker line = false.

(** Every section the splitter emits on the framed path carries a name. *)
Definition allNamed (st : SplitState) : Prop :=
  Forall (fun sec => repo sec <> None) (sections st).

(** The status strings the table of getFileStatus lists. *)
Definition tableChars : list jsstr :=
  List.map JS.lit ["M"; "A"; "D"; "R"; "C"; "?"; "U"]%string.

Definition sample_status_line : jsstr :=
  JS.lit "1 .M N... 100644 100644 100644 aaaaaaa aaaaaaa src/app.ts".

(** A Unicode scalar value: a code point that is not a surrogate. *)
Definition isScalar (cp : N) : Prop :=
  (cp < 0x110000)%N /\ URI.inRange 0xD800 0xDFFF cp = false.

Definition notBlank (c : N) : Prop := JS.isWhiteSpace c = false.

(** The {name, branch} pair a named status section contributes. *)
Definition repoEntry (sec : RepoScopedOutput) : GitRepoStatus :=
  {| name := getRepoKey (repo sec);
     repo_branch := getCurrentBranchV2 (parseStatusSummaryV2 (output sec)) |}.

(** A section with a (non-empty) repository name. *)
Definition isNamed (sec : RepoScopedOutput) : bool := truthyOpt (repo sec).

Section MatchVocabulary.
Import Regex.

(** [r] matches from one configuration to another along its preferred path:
    whatever the continuation answers there is the answer of the match. *)
Definition accepts (r : regex) (pos : nat) (s : jsstr) (cs : caps)
    (pos' : nat) (s' : jsstr) (cs' : caps) : Prop :=
  forall (k : cont) z, k pos' s' cs' = Some z -> rmatch r pos s cs k = Some z.

Definition rejects (r : regex) (pos : nat) (s : jsstr) (cs : caps) : Prop :=
  forall k : cont, rmatch r pos s cs k = None.

(** What stops a run of units satisfying [p]: the end of the input or a unit
    that does not satisfy it. *)
Definition stops (p : N -> bool) (rest : jsstr) : Prop :=
  match rest with [] => True | c :: _ => p c = false end.

End MatchVocabulary.

(** The decimal numeral of a natural number, as [Number.prototype.toString]
    writes it. *)
Fixpoint decimal_rev (fuel : nat) (n : N) : jsstr :=
  match fuel with
  | O => []
  | S fuel' =>
      if (n <? 10)%N then [(0x30 + n)%N]
      else (0x30 + n mod 10)%N :: decimal_rev fuel' (n / 10)%N
  end.

Definition decimal (n : N) : jsstr := rev (decimal_rev (S (N.to_nat (N.log2 n))) n).

(** A count field of a numstat line: a decimal numeral or a single dash. *)
Definition countField (a : jsstr) : Prop :=
  (a <> [] /\ Forall (fun c => JS.isDigit c = true) a) \/ a = JS.lit "-".

(** Text that fits on one line for [.]: no line terminator in it. *)
Definition oneLine (p : jsstr) : Prop :=
  Forall (fun c => JS.isLineTerminator c = false) p.

(** The sum of a field over the files, added up from the left as the
    running totals are. *)
Definition sumOf (f : DiffFileStat -> JS.number) (l : list DiffFileStat) : JS.number :=
  fold_left (fun acc x => JS.add acc (f x)) l (JS.toNumber 0).

(** The number of files, counted by adding 1 for each as [changed] is. *)
Definition countOf (l : list DiffFileStat) : JS.number :=
  fold_left (fun acc _ => JS.add acc (JS.toNumber 1)) l (JS.toNumber 0).

(** The Standard Library's specification of IEEE 754, at the parameters of
    double precision: the double nearest to an integer, the sum of two
    doubles, and the Number a double of the specification stands for. *)
Definition binary64 (n : N) : spec_float :=
  SpecFloat.binary_normalize 53 1024 (Z.of_N n) 0 false.

Definition binary64_add (x y : spec_float) : spec_float := SpecFloat.SFadd 53 1024 x y.

Definition numberOf (f : spec_float) : option JS.number :=
  match f with
  | S754_zero _ => Some (JS.finite 0)
  | S754_infinity false => Some JS.infinity
  | S754_finite false m e =>
      if (0 <=? e)%Z then Some (JS.finite (Z.to_N (Z.pos m * 2 ^ e)))
      else if (Z.pos m mod 2 ^ (- e) =? 0)%Z
           then Some (JS.finite (Z.to_N (Z.pos m / 2 ^ (- e))))
           else None
  | _ => None
  end.

(** Integers around the places where the conversion changes: the last
    exact one, ties to either side, a carry into the next binade, the
    largest finite double and the overflow. *)
Definition NUMBER_SAMPLES : list N :=
  [0; 1; 12; 2 ^ 53 - 1; 2 ^ 53; 2 ^ 53 + 1; 2 ^ 53 + 2; 2 ^ 53 + 3; 2 ^ 54 - 1;
   2 ^ 54 + 2; 2 ^ 54 + 6; 2 ^ 60 + 12345; 10 ^ 30; 10 ^ 308;
   2 ^ 1024 - 2 ^ 971; 2 ^ 1024 - 2 ^ 970 - 1; 2 ^ 1024 - 2 ^ 970; 2 ^ 1024;
   10 ^ 400]%N.

(** The sum of a list of integers. *)
Definition total (ns : list N) : N := fold_right N.add 0%N ns.

(** The bound below which every integer is a Number. *)
Definition EXACT_BOUND : N := (2 ^ 53)%N.

(** A path with a unit that is not white space: trimming the end of the
    body it is the last line of leaves some of it. *)
Definition visible (p : jsstr) : Prop := JS.trimEnd p <> [].


(** The stat a name leads to in a stats map, when it leads to one. *)
Definition statAt (stats : PlainObject.t LineStat) (k : jsstr) : option LineStat :=
  match PlainObject.get STAT_FIELDS stats k with
  | PlainObject.found st => Some st
  | _ => None
  end.

(** The stat object createDiffStatsMap builds for a file. *)
Definition statOf (f : DiffFileStat) : LineStat :=
  {| added := insertions f; removed := deletions f; stat_binary := binary f |}.

(** The names a file's stat is indexed under: the raw numstat path, and the
    normalised new and old paths where they exist and are not empty. *)
Definition statKeys (f : DiffFileStat) : list jsstr :=
  let paths := normalizeNumstatPath (file f) in
  file f
  :: (if JS.truthy (newPath paths) then [newPath paths] else [])
  ++ match oldPath paths with
     | Some op => if JS.truthy op then [op] else []
     | None => []
     end.

Section FanOutVocabulary.

Variable World : Type.
Variable runGitCommand :
  list jsstr -> fspath -> option N -> World -> GitCommandResponse * World.

(** Running the query in every repository, one after the other, in list
    order: the results, and the world afterwards. *)
Fixpoint runAll (args : list jsstr) (timeout : option N)
    (rs : list DiscoveredGitRepo) (w : World) : list GitCommandResponse * World :=
  match rs with
  | [] => ([], w)
  | r :: rest =>
      let '(result, w1) := runGitCommand args (absolutePath r) timeout w in
      let '(results, w2) := runAll args timeout rest w1 in
      (result :: results, w2)
  end.

End FanOutVocabulary.

Definition succeeded (pairs : list (DiscoveredGitRepo * GitCommandResponse))
  : list (DiscoveredGitRepo * GitCommandResponse) :=
  List.filter (fun p => success (snd p)) pairs.

Definition failed (pairs : list (DiscoveredGitRepo * GitCommandResponse))
  : list (DiscoveredGitRepo * GitCommandResponse) :=
  List.filter (fun p => negb (success (snd p))) pairs.

(** The framed section of one repository's result. *)
Definition wrapResult (p : DiscoveredGitRepo * GitCommandResponse) : option jsstr :=
  wrapRepoSectionOutput (relativePath (fst p)) (default [] (stdout (snd p))).

Definition errorOf (fallback : jsstr) (p : DiscoveredGitRepo * GitCommandResponse) : jsstr :=
  errorLine fallback (fst p) (snd p).

(** The overall result of a fan-out, from the per-repository results. *)
Definition fanOutResult (fallback unavailable : jsstr)
    (pairs : list (DiscoveredGitRepo * GitCommandResponse)) (texts : list jsstr)
  : GitCommandResponse :=
  let errs := List.map (errorOf fallback) (failed pairs) in
  match succeeded pairs with
  | [] => {| success := false; stdout := None;
             stderr := Some (JS.join [JS.LF] errs); exitCode := None;
             error := Some (default unavailable (hd_error errs)) |}
  | _ :: _ => {| success := true; stdout := Some (JS.join [JS.LF] texts);
                 stderr := Some (JS.join [JS.LF] errs); exitCode := Some 0%Z;
                 error := None |}
  end.

(** The stdout the fan-out would have if only the non-empty results were
    wrapped. *)
Definition stdoutOfNonEmptyResults (pairs : list (DiscoveredGitRepo * GitCommandResponse))
  : option jsstr :=
  JS.join [JS.LF] <$>
  mapM wrapResult
    (List.filter (fun p => JS.truthy (default [] (stdout (snd p)))) (succeeded pairs)).

(** [a] names a proper ancestor of the directory named by [b]. *)
Definition properPrefix (a b : list jsstr) : Prop :=
  exists more, more <> [] /\ b = a ++ more.

Section ScanInvariant.

Variable hasGitMetadata : fspath -> bool.
Variable baseCwd : jsstr.

(** What holds of a queued directory: it lies at most at the depth bound,
    its depth is the number of names below the root, and no directory
    strictly between the root and it has repository metadata. *)
Definition queuedOk (e : QueueEntry) : Prop :=
  depth e <= MAX_DISCOVERY_DEPTH
  /\ depth e = length (names (q_path e))
  /\ root (q_path e) = baseCwd
  /\ forall anc, anc <> [] -> properPrefix anc (names (q_path e)) ->
       hasGitMetadata {| root := baseCwd; names := anc |} = false.

(** What holds of a recorded repository. *)
Definition foundOk (d : DiscoveredGitRepo) : Prop :=
  relativePath d <> []
  /\ JS.startsWith (relativePath d) (JS.lit "..") = false
  /\ hasGitMetadata (absolutePath d) = true
  /\ names (absolutePath d) <> []
  /\ root (absolutePath d) = baseCwd
  /\ relativePath d = relativePosix (absolutePath d).

Record scanInv (st : ScanState) : Prop := {
  inv_index : q_index st <= length (queue st);
  inv_scanned : scannedDirectories st = q_index st;
  inv_dirs : scannedDirectories st <= MAX_DISCOVERY_DIRECTORIES;
  inv_repos : length (discovered st) <= MAX_DISCOVERY_REPOS;
  inv_queue : Forall queuedOk (queue st);
  inv_found : Forall foundOk (discovered st)
}.

End ScanInvariant.

(** The locale-independent comparison by code units. *)
Fixpoint ordinalCompare (a b : jsstr) : Z :=
  match a, b with
  | [], [] => 0%Z
  | [], _ :: _ => (-1)%Z
  | _ :: _, [] => 1%Z
  | x :: a', y :: b' =>
      match N.compare x y with
      | Lt => (-1)%Z
      | Gt => 1%Z
      | Eq => ordinalCompare a' b'
      end
  end.

(** A collation as the usual hosts have it for unaccented letters: words are
    ordered alphabetically whatever their case, and of two words that differ
    only in case the one with the lower-case letter comes first. *)
Definition foldCase (c : N) : N :=
  if URI.inRange 0x41 0x5A c then (c + 0x20)%N else c.

Definition alphabeticCompare (a b : jsstr) : Z :=
  match ordinalCompare (List.map foldCase a) (List.map foldCase b) with
  | 0%Z => (- ordinalCompare a b)%Z
  | r => r
  end.

(** A scan root with the two repositories [B] and [a] in it. *)
Definition twoRepos_git (p : fspath) : bool :=
  bool_decide (names p = [JS.lit "B"]) || bool_decide (names p = [JS.lit "a"]).

Definition twoRepos_dir (p : fspath) : option (list Dirent) :=
  if bool_decide (names p = [])
  then Some [ {| d_name := JS.lit "B"; isDirectory := true |};
              {| d_name := JS.lit "a"; isDirectory := true |};
              {| d_name := JS.lit "README"; isDirectory := false |} ]
  else Some [].

(** A repository directly under the scan root [/work]. *)
Definition sampleRepo (name : string) : DiscoveredGitRepo :=
  {| absolutePath := {| root := JS.lit "/work"; names := [JS.lit name] |};
     relativePath := JS.lit name |}.

(** A command runner that keeps a log of the directories it was called in;
    the command succeeds in [a] and fails everywhere else. *)
Definition loggingRunner (args : list jsstr) (cwd : fspath) (timeout : option N)
    (log : list jsstr) : GitCommandResponse * list jsstr :=
  (if bool_decide (names cwd = [JS.lit "a"])
   then {| success := true; stdout := Some (JS.lit "# branch.head main
"); stderr := Some []; exitCode := Some 0%Z; error := None |}
   else {| success := false; stdout := Some []; stderr := Some (JS.lit "fatal: bad object");
           exitCode := Some 128%Z; error := Some (JS.lit "Command failed") |},
   log ++ [relativePosix cwd]).

(** A command runner whose command succeeds everywhere and prints nothing,
    as [git diff --numstat] does in a clean repository. *)
Definition quietRunner (args : list jsstr) (cwd : fspath) (timeout : option N)
    (w : unit) : GitCommandResponse * unit :=
  ({| success := true; stdout := Some []; stderr := Some []; exitCode := Some 0%Z;
      error := None |}, w).

Definition legacy_status : jsstr := JS.lit "# branch.oid aaaaaaa
# branch.head main
1 .M N... 100644 100644 100644 aaaaaaa aaaaaaa src/app.ts
? new-file.ts".

Definition framed_status : jsstr := JS.lit "@@HAPI_REPO repo-a
# branch.oid 1111111
# branch.head main
1 .M N... 100644 100644 100644 1111111 1111111 src/a.ts
@@HAPI_REPO_END
@@HAPI_REPO repo-b
# branch.oid 2222222
# branch.head feature
? new-b.ts
@@HAPI_REPO_END".

(** A body of two lines; the path of the second ends in a blank. *)
Definition sample_numstat : jsstr :=
  JS.lit "2" ++ JS.TAB :: JS.lit "1" ++ JS.TAB :: JS.lit "src/app.ts" ++ JS.LF
  :: JS.lit "-" ++ JS.TAB :: JS.lit "-" ++ JS.TAB :: JS.lit "bin/file ".

(** A status with one section named by the empty string, and one with a
    section named like the prototype accessor of [Object.prototype]. *)
Definition empty_name_status : jsstr :=
  HAPI_REPO_SECTION_PREFIX ++ JS.LF :: JS.lit "# branch.head main" ++ JS.LF
  :: HAPI_REPO_SECTION_END.

Definition proto_name_status : jsstr := JS.lit "@@HAPI_REPO __proto__
# branch.head main
@@HAPI_REPO_END".

Definition proto_summary : DiffSummary :=
  {| dfiles := [ {| file := JS.lit "__proto__"; changes := JS.finite 3;
                    insertions := JS.finite 2; deletions := JS.finite 1;
                    binary := false |} ];
     total_insertions := JS.finite 2; total_deletions := JS.finite 1;
     total_changes := JS.finite 3; changed := JS.finite 1 |}.


(** Two continuations that agree wherever a match started at [pos] on [s]
    can get to: on a suffix of [s], at the position that goes with it. *)
Definition agreeFrom (pos : nat) (s : jsstr) (k k' : Regex.cont) : Prop :=
  forall pos' s' cs', length s' <= length s -> pos' = pos + (length s - length s') ->
    k pos' s' cs' = k' pos' s' cs'.

(** A matcher that asks its continuation only about such places. *)
Definition forwardOnly (m : nat -> jsstr -> Regex.caps -> Regex.cont -> option (nat * Regex.caps)) : Prop :=
  forall pos s cs k k', agreeFrom pos s k k' -> m pos s cs k = m pos s cs k'.

(** ** The command runner, the discovery cache and the single-file fallback
    (git.ts) *)

(** Modelled from the spec: [rpcError] called with a message and an object
    of extra fields; the result carries the message in [error] and the extra
    fields as they were given. *)
Definition rpcErrorWith (message : jsstr) (extra_stdout extra_stderr : jsstr)
    (extra_exitCode : Z) : GitCommandResponse :=
  {| success := false; stdout := Some extra_stdout; stderr := Some extra_stderr;
     exitCode := Some extra_exitCode; error := Some message |}.

(** The [code] of the error a failed child process is rejected with. *)
Inductive ErrorCode :=
| code_undefined
| code_number (n : Z)
| code_string (s : jsstr).

(** The fields of that error which runGitCommand reads; a missing [killed]
    counts as false. *)
Record ExecError := {
  message : jsstr;
  e_stdout : option jsstr;
  e_stderr : option jsstr;
  code : ErrorCode;
  killed : bool
}.

(** How [await execFileAsync(...)] ends. *)
Inductive ExecOutcome :=
| resolved (out err : jsstr)
| rejected (execError : ExecError).

(** [x ? x.toString() : fallback] for an optional string. *)
Definition textOr (x : option jsstr) (fallback : jsstr) : jsstr :=
  match x with
  | Some s => if JS.truthy s then s else fallback
  | None => fallback
  end.

(** [a || b] on strings. *)
Definition orElse (a b : jsstr) : jsstr := if JS.truthy a then a else b.

Definition numericCodeOr (c : ErrorCode) (fallback : Z) : Z :=
  match c with code_number n => n | _ => fallback end.

Definition isTimeout (e : ExecError) : bool :=
  match code e with
  | code_string s => JS.str_eqb s (JS.lit "ETIMEDOUT") || killed e
  | _ => killed e
  end.

Section CommandRunner.

Variable World : Type.

(** The child process: [execFileAsync('git', args, { cwd, timeout })]. *)
Variable execFileAsync : list jsstr -> fspath -> N -> World -> ExecOutcome * World.

Definition runGitCommand (args : list jsstr) (cwd : fspath) (timeout : option N)
    (w : World) : GitCommandResponse * World :=
  let '(outcome, w') := execFileAsync args cwd (default 10000%N timeout) w in
  (match outcome with
   | resolved out err =>
       {| success := true; stdout := Some (textOr (Some out) []);
          stderr := Some (textOr (Some err) []); exitCode := Some 0%Z; error := None |}
   | rejected execError =>
       if isTimeout execError then
         rpcErrorWith (JS.lit "Command timed out")
           (textOr (e_stdout execError) [])
           (textOr (e_stderr execError) [])
           (numericCodeOr (code execError) (-1))
       else
         rpcErrorWith (orElse (message execError) (JS.lit "Command failed"))
           (textOr (e_stdout execError) [])
           (textOr (e_stderr execError)
                   (orElse (message execError) (JS.lit "Command failed")))
           (numericCodeOr (code execError) 1)
   end, w').

End CommandRunner.

Definition DISCOVERY_CACHE_TTL_MS : Z := 3000.

Record RepoDiscoveryCacheEntry := {
  expiresAt : Z;
  cached_repos : list DiscoveredGitRepo
}.

Section NestedRepos.

(** The file system and the collation at the time of the call. *)
Variable hasGitMetadata : fspath -> bool.
Variable readdir : fspath -> option (list Dirent).
Variable localeCompare : jsstr -> jsstr -> Z.

(** [now] is what [Date.now()] returns during the call; the cache is the
    [Map] the handlers share. *)
Definition getNestedRepos (baseCwd : jsstr) (now : Z)
    (repoDiscoveryCache : gmap (list N) RepoDiscoveryCacheEntry)
  : list DiscoveredGitRepo * gmap (list N) RepoDiscoveryCacheEntry :=
  let scan :=
    let found := discoverNestedGitRepos hasGitMetadata readdir localeCompare baseCwd in
    (found, <[baseCwd := {| cached_repos := found;
                            expiresAt := (now + DISCOVERY_CACHE_TTL_MS)%Z |}]>
              repoDiscoveryCache) in
  match repoDiscoveryCache !! baseCwd with
  | Some cached =>
      if (now <? expiresAt cached)%Z then (cached_repos cached, repoDiscoveryCache)
      else scan
  | None => scan
  end.

End NestedRepos.

Section DiffFile.

Variable World : Type.
Variable runCommand :
  list jsstr -> fspath -> option N -> World -> GitCommandResponse * World.

(** The path library of the host: [resolve] with one and with two
    arguments, [relative], [isAbsolute]; and the string a discovered
    repository's absolute path is. *)
Variable resolve : jsstr -> jsstr.
Variable resolveIn : jsstr -> jsstr -> jsstr.
Variable relative : jsstr -> jsstr -> jsstr.
Variable isAbsolute : jsstr -> bool.
Variable pathString : fspath -> jsstr.

Definition isPathInside (targetPath parentPath : jsstr) : bool :=
  let resolvedTarget := resolve targetPath in
  let resolvedParent := resolve parentPath in
  let rel := relative resolvedParent resolvedTarget in
  if negb (JS.truthy rel) then true
  else if JS.startsWith rel (JS.lit "..") then false
  else if isAbsolute rel then false
  else true.

(** [matchingRepos]: the repositories the file lies in, the longest
    absolute path first. *)
Definition matchingRepos (rs : list DiscoveredGitRepo) (absoluteFilePath : jsstr)
  : list DiscoveredGitRepo :=
  sortBy (fun a b => (Z.of_nat (length (pathString (absolutePath b)))
                      - Z.of_nat (length (pathString (absolutePath a))))%Z)
         (List.filter (fun r => isPathInside absoluteFilePath (pathString (absolutePath r)))
                      rs).

Definition diffFileArgs (staged : option bool) (repoRelativePath : jsstr) : list jsstr :=
  if default false staged
  then List.map JS.lit ["diff"; "--cached"; "--no-ext-diff"; "--"]%string ++ [repoRelativePath]
  else List.map JS.lit ["diff"; "--no-ext-diff"; "--"]%string ++ [repoRelativePath].

(** [rs] is what [await getNestedRepos(baseCwd)] returned. *)
Definition runNestedDiffFileFallback (rs : list DiscoveredGitRepo) (baseCwd filePath : jsstr)
    (staged : option bool) (timeout : option N) (w : World)
  : GitCommandResponse * World :=
  match rs with
  | [] => (rpcError
             (JS.lit "Not a git repository and no nested git repositories were found")
             None, w)
  | _ :: _ =>
      let absoluteFilePath := resolveIn baseCwd filePath in
      match matchingRepos rs absoluteFilePath with
      | [] => (rpcError (JS.lit "File '" ++ filePath
                         ++ JS.lit "' is not inside a nested git repository") None, w)
      | targetRepo :: _ =>
          let repoRelativePath :=
            relative (pathString (absolutePath targetRepo)) absoluteFilePath in
          if negb (JS.truthy repoRelativePath)
             || JS.startsWith repoRelativePath (JS.lit "..")
             || isAbsolute repoRelativePath
          then (rpcError (JS.lit "Invalid git diff file path '" ++ filePath ++ JS.lit "'")
                         None, w)
          else runCommand (diffFileArgs staged repoRelativePath)
                          (absolutePath targetRepo) timeout w
      end
  end.

End DiffFile.

(** A path library for paths written with slashes, without [.] and [..]
    segments: [resolve] leaves an absolute path alone, and [relative] gives
    what follows the parent and its slash, or a path that climbs out. *)
Definition sampleRelative (parent target : jsstr) : jsstr :=
  if JS.str_eqb parent target then []
  else if JS.startsWith target (parent ++ JS.lit "/")
  then drop (length parent + 1) target
  else JS.lit "../" ++ target.

Definition samplePathString (p : fspath) : jsstr :=
  root p ++ concat (List.map (fun n => JS.lit "/" ++ n) (names p)).

Definition sampleResolveIn (base file : jsstr) : jsstr := base ++ JS.lit "/" ++ file.

Definition sampleIsAbsolute (p : jsstr) : bool := JS.startsWith p (JS.lit "/").

(** ** Vocabulary of the further properties *)

(** A repository name with the text produced for it, and the section the
    splitter is to give back for the pair. *)
Definition wrapItem (item : jsstr * jsstr) : option (list N) :=
  wrapRepoSectionOutput (fst item) (snd item).

Definition sectionOf (item : jsstr * jsstr) : RepoScopedOutput :=
  {| repo := Some (fst item); output := JS.trim (snd item) |}.

(** What can be framed and found again: a well-formed name and a body whose
    trimmed text has no marker line of its own. *)
Definition framable (item : jsstr * jsstr) : Prop :=
  URI.isWellFormed (fst item) = true
  /\ Forall plainLine (JS.split JS.LF (JS.trim (snd item))).

(** The splitter between two sections, after at least one marker. *)
Definition closedWith (secs : list RepoScopedOutput) : SplitState :=
  {| sections := secs; currentRepo := None; currentLines := []; hasMarkers := true |}.

(** The name and the standard output of one repository's result. *)
Definition resultItem (p : DiscoveredGitRepo * GitCommandResponse) : jsstr * jsstr :=
  (relativePath (fst p), default [] (stdout (snd p))).

(** Text with no line feed in it: what one element of a list of lines is. *)
Definition singleLine (l : list N) : Prop := JS.LF ∉ l.

(** A name that [decodeURIComponent] rejects at its first percent sign: the
    sign is not followed by two hexadecimal digits. *)
Definition brokenEscape (name : list N) : Prop :=
  exists pre rest, name = pre ++ 0x25%N :: rest /\ (0x25%N ∉ pre)
    /\ match rest with
       | a :: b :: _ => URI.parseHexOctet a b = None
       | _ => True
       end.

Section ScanTrace.

Variable hasGitMetadata : fspath -> bool.
Variable readdir : fspath -> option (list Dirent).
Variable baseCwd : jsstr.

(** The directories the scan is meant to visit, by their names below the
    root: the root itself, and every entry that [readdir] lists as a
    directory with a name that is not skipped, in a visited directory that
    lies above the depth bound and is not itself a repository (the root
    apart). *)
Inductive listed : list jsstr -> Prop :=
| listed_root : listed []
| listed_child ns entries entry :
    listed ns ->
    length ns < MAX_DISCOVERY_DEPTH ->
    (0 <? length ns) && hasGitMetadata {| root := baseCwd; names := ns |} = false ->
    readdir {| root := baseCwd; names := ns |} = Some entries ->
    entry ∈ entries ->
    isDirectory entry = true ->
    shouldSkipDirectory (d_name entry) = false ->
    listed (ns ++ [d_name entry]).

(** What the loop has done with a queue entry once its turn is over. *)
Definition expanded (q : list QueueEntry) (d : list DiscoveredGitRepo) (e : QueueEntry)
  : Prop :=
  if (0 <? depth e) && hasGitMetadata (q_path e)
  then relativePosix (q_path e) <> [] ->
       JS.startsWith (relativePosix (q_path e)) (JS.lit "..") = false ->
       {| absolutePath := q_path e; relativePath := relativePosix (q_path e) |} ∈ d
  else depth e < MAX_DISCOVERY_DEPTH ->
       forall entries, readdir (q_path e) = Some entries ->
       forall c, c ∈ children e entries -> c ∈ q.

Definition tracedEntry (e : QueueEntry) : Prop :=
  listed (names (q_path e)) /\ root (q_path e) = baseCwd
  /\ depth e = length (names (q_path e)).

Definition tracedRepo (q : list QueueEntry) (d : DiscoveredGitRepo) : Prop :=
  exists e, e ∈ q /\ q_path e = absolutePath d /\ 0 < depth e
            /\ hasGitMetadata (q_path e) = true
            /\ relativePath d = relativePosix (absolutePath d).

(** How the state of the scan relates to the directory tree. *)
Record scanTrace (st : ScanState) : Prop := {
  tr_root : queue st !! 0 = Some {| q_path := {| root := baseCwd; names := [] |};
                                    depth := 0 |};
  tr_listed : Forall tracedEntry (queue st);
  tr_found : Forall (tracedRepo (queue st)) (discovered st);
  tr_done : forall i e, i < q_index st -> queue st !! i = Some e ->
              expanded (queue st) (discovered st) e;
  tr_order : forall i j a b, i <= j -> queue st !! i = Some a -> queue st !! j = Some b ->
              depth a <= depth b;
  tr_front : forall cur e, queue st !! q_index st = Some cur -> e ∈ queue st ->
              depth e <= depth cur + 1
}.

End ScanTrace.

(** What keeps the scan from meeting a directory twice. *)
Record scanDistinct (st : ScanState) : Prop := {
  ds_queue : NoDup (List.map q_path (queue st));
  ds_parent : forall e ns x, e ∈ queue st -> names (q_path e) = ns ++ [x] ->
      exists i p, i < q_index st /\ queue st !! i = Some p /\ names (q_path p) = ns;
  ds_found : forall d, d ∈ discovered st ->
      exists i e, i < q_index st /\ queue st !! i = Some e /\ q_path e = absolutePath d;
  ds_repos : NoDup (List.map absolutePath (discovered st))
}.

(** The fields of a porcelain-v2 status record, as the patterns ask for
    them. *)
Definition dotUnit (c : N) : Prop := JS.isLineTerminator c = false.

Definition isLowerHex (c : N) : bool := URI.inRange 0x30 0x39 c || URI.inRange 0x61 0x66 c.

(** [n] decimal digits. *)
Definition digitsOf (n : nat) (m : jsstr) : Prop :=
  length m = n /\ Forall (fun c => JS.isDigit c = true) m.

(** An object name: lower-case hexadecimal digits, at least one. *)
Definition objectName (h : jsstr) : Prop :=
  h <> [] /\ Forall (fun c => isLowerHex c = true) h.

(** A path field: not empty, on one line. *)
Definition pathField (p : jsstr) : Prop := p <> [] /\ oneLine p.

Definition SP : N := 0x20%N.

(** "1 XY sub mH mI mW hH hI path" *)
Definition ordinaryLine (X Y : N) (sub mH mI mW hH hI path : jsstr) : jsstr :=
  JS.lit "1 " ++ [X; Y; SP] ++ sub ++ SP :: mH ++ SP :: mI ++ SP :: mW ++ SP :: hH
  ++ SP :: hI ++ SP :: path.

(** "2 XY sub mH mI mW hH hI Xscore first TAB second" *)
Definition renameLine (X Y : N) (sub mH mI mW hH hI : jsstr) (kind : N) (score : jsstr)
    (first second : jsstr) : jsstr :=
  JS.lit "2 " ++ [X; Y; SP] ++ sub ++ SP :: mH ++ SP :: mI ++ SP :: mW ++ SP :: hH
  ++ SP :: hI ++ SP :: kind :: score ++ SP :: first ++ JS.TAB :: second.

(** "u XY sub m1 m2 m3 mW h1 h2 h3 path" *)
Definition unmergedLine (X Y : N) (sub m1 m2 m3 mW h1 h2 h3 path : jsstr) : jsstr :=
  JS.lit "u " ++ [X; Y; SP] ++ sub ++ SP :: m1 ++ SP :: m2 ++ SP :: m3 ++ SP :: mW
  ++ SP :: h1 ++ SP :: h2 ++ SP :: h3 ++ SP :: path.

(** The stat parseNumStat makes of the three fields of a numstat line. *)
Definition statOfFields (a b p : jsstr) : DiffFileStat :=
  let isBinary := JS.str_eqb a (JS.lit "-") || JS.str_eqb b (JS.lit "-") in
  let ins : JS.number := if isBinary then 0%N else JS.parseInt10 a in
  let del : JS.number := if isBinary then 0%N else JS.parseInt10 b in
  {| file := p; changes := JS.add ins del; insertions := ins; deletions := del;
     binary := isBinary |}.

(** What every entry of a parsed status has: one unit of index status, one
    of worktree status, a non-empty path, and an origin that is not empty
    when there is one. *)
Definition entryShape (e : GitFileEntryV2) : Prop :=
  length (index e) = 1 /\ length (workingDir e) = 1
  /\ oneLine (index e) /\ oneLine (workingDir e)
  /\ pathField (path e)
  /\ match from e with Some origin => pathField origin | None => True end.



(** The sections that share a key of the per-repository output map. *)
Definition sectionsFor (k : jsstr) (secs : list RepoScopedOutput) : list RepoScopedOutput :=
  List.filter (fun sec => bool_decide (getRepoKey (repo sec) = k)) secs.

(** The names of the skip list that do not start with a dot. *)
Definition skippedPlainNames : list jsstr :=
  List.map JS.lit ["node_modules"; "dist"; "build"; "target"; "coverage"]%string.

(** ** The handlers (git.ts) *)

(** What [validatePath] of [../pathSecurity] answers. *)
Record PathValidation := {
  valid : bool;
  v_error : option jsstr
}.

Record ResolvedCwd := {
  r_cwd : jsstr;
  r_error : option jsstr
}.

Record GitStatusRequest := {
  status_cwd : option jsstr;
  status_timeout : option N
}.

Record GitDiffNumstatRequest := {
  numstat_cwd : option jsstr;
  numstat_staged : option bool;
  numstat_timeout : option N
}.

Record GitDiffFileRequest := {
  file_cwd : option jsstr;
  file_filePath : jsstr;
  file_staged : option bool;
  file_timeout : option N
}.

(** The texts by which a failure counts as "not a repository". *)
Definition FALLBACK_PHRASES : list jsstr :=
  List.map JS.lit
    ["not a git repository";
     "use --no-index to compare two paths outside a working tree";
     "usage: git diff --no-index";
     "unknown option `cached`"]%string.

Section Handlers.

Variable World : Type.
Variable runCommand :
  list jsstr -> fspath -> option N -> World -> GitCommandResponse * World.

(** The collaborators: the path validator, the platform's
    [String.prototype.toLowerCase], the file system and the collation, the
    path library. *)
Variable validatePath : jsstr -> jsstr -> PathValidation.
Variable toLowerCase : jsstr -> jsstr.
Variable hasGitMetadata : fspath -> bool.
Variable readdir : fspath -> option (list Dirent).
Variable localeCompare : jsstr -> jsstr -> Z.
Variable resolve : jsstr -> jsstr.
Variable resolveIn : jsstr -> jsstr -> jsstr.
Variable relative : jsstr -> jsstr -> jsstr.
Variable isAbsolute : jsstr -> bool.
Variable pathString : fspath -> jsstr.

Variable workingDirectory : jsstr.

Definition resolveCwd (requestedCwd : option jsstr) : ResolvedCwd :=
  let cwd := default workingDirectory requestedCwd in
  let validation := validatePath cwd workingDirectory in
  if negb (valid validation)
  then {| r_cwd := cwd;
          r_error := Some (default (JS.lit "Invalid working directory")
                                   (v_error validation)) |}
  else {| r_cwd := cwd; r_error := None |}.

Definition validateFilePath (filePath : jsstr) : option jsstr :=
  let validation := validatePath filePath workingDirectory in
  if negb (valid validation)
  then Some (default (JS.lit "Invalid file path") (v_error validation))
  else None.

Definition shouldFallbackToNestedRepos (response : GitCommandResponse) : bool :=
  if success response then false
  else
    let details := toLowerCase (default [] (error response) ++ [JS.LF]
                                ++ default [] (stderr response)) in
    JS.includes details (JS.lit "not a git repository")
    || JS.includes details
         (JS.lit "use --no-index to compare two paths outside a working tree")
    || JS.includes details (JS.lit "usage: git diff --no-index")
    || JS.includes details (JS.lit "unknown option `cached`").

(** The state a handler works on: the world the commands run in and the
    discovery cache; [now] is the clock during the call.  [None]: an
    exception left the handler. *)
Definition HandlerResult : Type :=
  option (GitCommandResponse * World * gmap (list N) RepoDiscoveryCacheEntry).

Definition atRoot (cwd : jsstr) : fspath := {| root := cwd; names := [] |}.

(** 'git-status' *)
Definition gitStatusHandler (data : GitStatusRequest) (now : Z) (w : World)
    (cache : gmap (list N) RepoDiscoveryCacheEntry) : HandlerResult :=
  let resolved := resolveCwd (status_cwd data) in
  if truthyOpt (r_error resolved)
  then Some (rpcError (default [] (r_error resolved)) None, w, cache)
  else
    let '(result, w1) := runCommand GIT_STATUS_ARGS (atRoot (r_cwd resolved))
                                    (status_timeout data) w in
    if success result || negb (shouldFallbackToNestedRepos result)
    then Some (result, w1, cache)
    else
      let '(rs, cache') := getNestedRepos hasGitMetadata readdir localeCompare
                             (r_cwd resolved) now cache in
      '(resp, w2) ← runNestedStatusFallback World runCommand rs (status_timeout data) w1;
      Some (resp, w2, cache').

(** 'git-diff-numstat' *)
Definition gitDiffNumstatHandler (data : GitDiffNumstatRequest) (now : Z) (w : World)
    (cache : gmap (list N) RepoDiscoveryCacheEntry) : HandlerResult :=
  let resolved := resolveCwd (numstat_cwd data) in
  if truthyOpt (r_error resolved)
  then Some (rpcError (default [] (r_error resolved)) None, w, cache)
  else
    let args := numstatArgs (default false (numstat_staged data)) in
    let '(result, w1) := runCommand args (atRoot (r_cwd resolved))
                                    (numstat_timeout data) w in
    if success result || negb (shouldFallbackToNestedRepos result)
    then Some (result, w1, cache)
    else
      let '(rs, cache') := getNestedRepos hasGitMetadata readdir localeCompare
                             (r_cwd resolved) now cache in
      '(resp, w2) ← runNestedNumstatFallback World runCommand rs
                      (bool_decide (numstat_staged data = Some true))
                      (numstat_timeout data) w1;
      Some (resp, w2, cache').

(** 'git-diff-file' *)
Definition gitDiffFileHandler (data : GitDiffFileRequest) (now : Z) (w : World)
    (cache : gmap (list N) RepoDiscoveryCacheEntry) : HandlerResult :=
  let resolved := resolveCwd (file_cwd data) in
  if truthyOpt (r_error resolved)
  then Some (rpcError (default [] (r_error resolved)) None, w, cache)
  else
    let fileError := validateFilePath (file_filePath data) in
    if truthyOpt fileError
    then Some (rpcError (default [] fileError) None, w, cache)
    else
      let args := diffFileArgs (file_staged data) (file_filePath data) in
      let '(result, w1) := runCommand args (atRoot (r_cwd resolved))
                                      (file_timeout data) w in
      if success result || negb (shouldFallbackToNestedRepos result)
      then Some (result, w1, cache)
      else
        let '(rs, cache') := getNestedRepos hasGitMetadata readdir localeCompare
                               (r_cwd resolved) now cache in
        let '(resp, w2) :=
          runNestedDiffFileFallback World runCommand resolve resolveIn relative
            isAbsolute pathString rs (r_cwd resolved) (file_filePath data)
            (file_staged data) (file_timeout data) w1 in
        Some (resp, w2, cache').

End Handlers.

(** Code units of the ASCII range, for which [toLowerCase] lowers the
    letters A to Z and nothing else. *)
Definition isAscii (s : jsstr) : Prop := Forall (fun c => (c < 0x80)%N) s.

(** A cache all of whose lists hold repositories with well-formed relative
    paths, as the lists that discovery makes are. *)
Definition cacheWellFormed (cache : gmap (list N) RepoDiscoveryCacheEntry) : Prop :=
  forall k entry, cache !! k = Some entry ->
    Forall (fun r => URI.isWellFormed (relativePath r) = true) (cached_repos entry).

(** * Properties *)

(** Membership in a list of literals, decided by evaluation. *)
Ltac not_in_list :=
  let H := fresh in
  vm_compute; intros H;
  repeat (apply elem_of_cons in H as [H|H]; [discriminate H|]);
  now apply elem_of_nil in H.

Ltac in_list :=
  vm_compute; repeat first [apply list_elem_of_here | apply list_elem_of_further].

(** ** Strings *)

Section StringFacts.

Lemma split_cons_sep sep t : JS.split sep (sep :: t) = [] :: JS.split sep t.
Proof. simpl. now rewrite N.eqb_refl. Qed.

Lemma split_not_nil sep s : JS.split sep s <> [].
Proof.
  destruct s as [|c t]; simpl; [discriminate|].
  destruct (c =? sep)%N; [discriminate|].
  destruct (JS.split sep t); discriminate.
Qed.

Lemma split_nosep sep s : sep ∉ s -> JS.split sep s = [s].
Proof.
  induction s as [|c t IH]; intros Hn; simpl; [reflexivity|].
  apply not_elem_of_cons in Hn as [Hc Ht].
  destruct (N.eqb_spec c sep) as [->|_]; [congruence|].
  now rewrite (IH Ht).
Qed.

Lemma split_app_sep sep a b :
  JS.split sep (a ++ sep :: b) = JS.split sep a ++ JS.split sep b.
Proof.
  induction a as [|c t IH]; simpl.
  - now rewrite N.eqb_refl.
  - destruct (c =? sep)%N; [now rewrite IH|].
    rewrite IH. destruct (JS.split sep t) eqn:E; [|reflexivity].
    now apply split_not_nil in E.
Qed.

Lemma split_pieces_nosep sep s : Forall (fun l => sep ∉ l) (JS.split sep s).
Proof.
  induction s as [|c t IH]; simpl.
  - repeat constructor. apply not_elem_of_nil.
  - destruct (N.eqb_spec c sep) as [->|Hne].
    + constructor; [apply not_elem_of_nil|exact IH].
    + destruct (JS.split sep t) as [|l ls]; inversion IH; subst.
      * repeat constructor. rewrite list_elem_of_singleton. congruence.
      * constructor; [|assumption]. rewrite not_elem_of_cons. split; congruence.
Qed.

Lemma join_split sep s : JS.join [sep] (JS.split sep s) = s.
Proof.
  induction s as [|c t IH]; simpl; [reflexivity|].
  destruct (N.eqb_spec c sep) as [->|Hne].
  - destruct (JS.split sep t) eqn:E; [now apply split_not_nil in E|].
    simpl in *. now rewrite IH.
  - destruct (JS.split sep t) as [|l ls] eqn:E; [now apply split_not_nil in E|].
    simpl in *. destruct ls; simpl in *; now rewrite <- IH.
Qed.

Lemma split_join sep ls :
  ls <> [] -> Forall (fun l => sep ∉ l) ls -> JS.split sep (JS.join [sep] ls) = ls.
Proof.
  induction ls as [|l ls IH]; intros Hne Hall; [congruence|].
  inversion Hall as [|? ? Hl Hls]; subst.
  destruct ls as [|l' ls'].
  - simpl. now apply split_nosep.
  - change (JS.join [sep] (l :: l' :: ls')) with (l ++ sep :: JS.join [sep] (l' :: ls')).
    rewrite split_app_sep, IH by (auto; discriminate).
    now rewrite split_nosep.
Qed.

Lemma trimStart_fix s : JS.trimStart (JS.trimStart s) = JS.trimStart s.
Proof.
  induction s as [|c t IH]; simpl; [reflexivity|].
  destruct (JS.isWhiteSpace c) eqn:E; [exact IH|]. simpl. now rewrite E.
Qed.

Lemma trimStart_suffix s : exists w, s = w ++ JS.trimStart s /\ forallb JS.isWhiteSpace w = true.
Proof.
  induction s as [|c t [w [Hw Hall]]]; simpl.
  - now exists [].
  - destruct (JS.isWhiteSpace c) eqn:E.
    + exists (c :: w). simpl. rewrite E, Hall. split; [now f_equal|reflexivity].
    + now exists [].
Qed.

(** A string that starts with a non-blank unit is left alone by trimStart. *)
Lemma trimStart_id c t : JS.isWhiteSpace c = false -> JS.trimStart (c :: t) = c :: t.
Proof. intros H. simpl. now rewrite H. Qed.

Lemma trimStart_head s c t : JS.trimStart s = c :: t -> JS.isWhiteSpace c = false.
Proof.
  induction s as [|d s IH]; simpl; [discriminate|].
  destruct (JS.isWhiteSpace d) eqn:E; [exact IH|]. intros H. now inversion H; subst.
Qed.

Lemma trimStart_app_nonblank s c t :
  JS.isWhiteSpace c = false ->
  JS.trimStart (s ++ c :: t) = JS.trimStart (s ++ [c]) ++ t.
Proof.
  intros Hc. induction s as [|d s IH]; simpl.
  - now rewrite Hc.
  - destruct (JS.isWhiteSpace d); [exact IH|]. simpl. now rewrite <- app_assoc.
Qed.

Lemma trimStart_last_nonblank s c :
  JS.isWhiteSpace c = false -> exists u, JS.trimStart (s ++ [c]) = u ++ [c].
Proof.
  intros Hc. induction s as [|d s [u Hu]]; simpl.
  - rewrite Hc. now exists [].
  - destruct (JS.isWhiteSpace d); [now exists u|]. now exists (d :: s).
Qed.

(** trimEnd does not disturb what trimStart did. *)
Lemma trimStart_trimEnd s : JS.trimStart (JS.trimEnd (JS.trimStart s)) = JS.trimEnd (JS.trimStart s).
Proof.
  unfold JS.trimEnd.
  destruct (JS.trimStart s) as [|c t] eqn:E; [reflexivity|].
  assert (Hc : JS.isWhiteSpace c = false).
  { clear -E. induction s as [|d s IH]; simpl in E; [discriminate|].
    destruct (JS.isWhiteSpace d) eqn:Ed; [auto|]. now inversion E; subst. }
  simpl rev.
  destruct (trimStart_last_nonblank (rev t) c Hc) as [u Hu].
  rewrite Hu, rev_app_distr. simpl. now rewrite Hc.
Qed.

Lemma trimEnd_fix s : JS.trimEnd (JS.trimEnd s) = JS.trimEnd s.
Proof. unfold JS.trimEnd. now rewrite rev_involutive, trimStart_fix. Qed.

Lemma trim_fix s : JS.trim (JS.trim s) = JS.trim s.
Proof. unfold JS.trim. now rewrite trimStart_trimEnd, trimEnd_fix. Qed.

End StringFacts.

(** ** Section framing: splitting *)

Section Framing.

Lemma flush_hasMarkers st : hasMarkers (flushCurrentSection st) = hasMarkers st.
Proof. unfold flushCurrentSection. now destruct (currentRepo st). Qed.

Lemma flush_currentRepo st : currentRepo (flushCurrentSection st) = None.
Proof. unfold flushCurrentSection. now destruct (currentRepo st) eqn:E. Qed.

Lemma splitStep_plain_hasMarkers st line :
  plainLine line -> hasMarkers (splitStep st line) = hasMarkers st.
Proof.
  intros [Hs He]. unfold splitStep. rewrite Hs, He.
  destruct (bool_decide _); [reflexivity|].
  now destruct (negb (hasMarkers st)).
Qed.

Lemma fold_plain_hasMarkers lines st :
  Forall plainLine lines ->
  hasMarkers (fold_left splitStep lines st) = hasMarkers st.
Proof.
  intros H. revert st. induction H as [|l ls Hl _ IH]; intros st; simpl; [reflexivity|].
  now rewrite IH, splitStep_plain_hasMarkers.
Qed.

(** Inside an open section every plain line is collected. *)
Lemma fold_plain_open lines st r :
  Forall plainLine lines -> currentRepo st = Some r ->
  fold_left splitStep lines st =
  {| sections := sections st; currentRepo := Some r;
     currentLines := currentLines st ++ lines; hasMarkers := hasMarkers st |}.
Proof.
  intros H. revert st. induction H as [|l ls [Hs He] _ IH]; intros st Hr; simpl.
  - rewrite app_nil_r. destruct st; simpl in *; congruence.
  - assert (Hstep : splitStep st l = pushLine st l).
    { unfold splitStep. rewrite Hs, He, Hr. rewrite bool_decide_true; [reflexivity|discriminate]. }
    rewrite Hstep, IH by exact Hr. simpl. now rewrite <- app_assoc.
Qed.

Lemma splitStep_start st line :
  isStartMarker line = true ->
  splitStep st line =
  {| sections := sections (flushCurrentSection (sawMarker st));
     currentRepo := Some (decodeRepoSectionName
                            (JS.trim (JS.slice_from (length HAPI_REPO_SECTION_PREFIX) line)));
     currentLines := [];
     hasMarkers := true |}.
Proof. intros H. unfold splitStep. rewrite H. now rewrite flush_hasMarkers. Qed.

Lemma flush_allNamed st : allNamed st -> allNamed (flushCurrentSection st).
Proof.
  unfold allNamed, flushCurrentSection. intros H.
  destruct (currentRepo st); [|exact H]. simpl.
  apply Forall_app. split; [exact H|]. repeat constructor. discriminate.
Qed.

Lemma splitStep_allNamed st line : allNamed st -> allNamed (splitStep st line).
Proof.
  intros H. unfold splitStep.
  destruct (isStartMarker line).
  { unfold allNamed. simpl. now apply (flush_allNamed (sawMarker st)). }
  destruct (isEndMarker line); [now apply (flush_allNamed (sawMarker st))|].
  destruct (bool_decide _); [exact H|].
  destruct (negb _); exact H.
Qed.

Lemma fold_allNamed lines st : allNamed st -> allNamed (fold_left splitStep lines st).
Proof.
  revert st. induction lines as [|l ls IH]; intros st H; simpl; [exact H|].
  apply IH. now apply splitStep_allNamed.
Qed.

(** Plain lines, checked by computation. *)
Lemma plainLines_check lines :
  forallb (fun l => negb (isStartMarker l) && negb (isEndMarker l)) lines = true ->
  Forall (fun line => isStartMarker line = false /\ isEndMarker line = false) lines.
Proof.
  intros H. apply Forall_forall. intros l Hl.
  rewrite forallb_forall in H. specialize (H l (proj1 (list_elem_of_In _ _) Hl)).
  apply andb_true_iff in H as [H1 H2]. now rewrite negb_true_iff in H1, H2.
Qed.

Lemma splitRepoSections_cases rawOutput :
  (splitRepoSections rawOutput = [ {| repo := None; output := JS.trim rawOutput |} ]
   /\ Forall plainLine (JS.split JS.LF rawOutput))
  \/ Forall (fun sec => repo sec <> None) (splitRepoSections rawOutput).
Proof.
  unfold splitRepoSections.
  destruct (hasMarkers (fold_left splitStep (JS.split JS.LF rawOutput) splitInit)) eqn:E.
  - right. apply flush_allNamed, fold_allNamed. constructor.
  - left. split; [reflexivity|].
    revert E. generalize splitInit. induction (JS.split JS.LF rawOutput) as [|l ls IH];
      intros st E; [constructor|].
    simpl in E.
    assert (Hmono : forall ls st, hasMarkers st = true ->
                    hasMarkers (fold_left splitStep ls st) = true).
    { clear. induction ls as [|l ls IH]; intros st H; simpl; [exact H|].
      apply IH. unfold splitStep.
      destruct (isStartMarker l); [simpl; now rewrite flush_hasMarkers|].
      destruct (isEndMarker l); [now rewrite flush_hasMarkers|].
      destruct (bool_decide _); [exact H|]; now destruct (negb _). }
    assert (Hl : plainLine l).
    { unfold plainLine. destruct (isStartMarker l) eqn:Hs.
      - rewrite Hmono in E; [discriminate|]. now rewrite splitStep_start.
      - destruct (isEndMarker l) eqn:He; [|easy].
        rewrite Hmono in E; [discriminate|].
        unfold splitStep. now rewrite Hs, He, flush_hasMarkers. }
    constructor; [exact Hl|]. eapply IH, E.
Qed.

End Framing.

Section FramingClaims.

Lemma split_no_markers rawOutput :
  Forall plainLine (JS.split JS.LF rawOutput) ->
  splitRepoSections rawOutput = [ {| repo := None; output := JS.trim rawOutput |} ].
Proof.
  intros H. unfold splitRepoSections.
  now rewrite (fold_plain_hasMarkers _ splitInit H).
Qed.

(** C6. An input none of whose lines starts with the start marker or is an
    end-marker line is split into exactly one section, which has no
    repository name and whose body is the whole input, trimmed. *)
Theorem split_legacy_single_section (rawOutput : jsstr) :
  Forall (fun line => isStartMarker line = false /\ isEndMarker line = false)
         (JS.split JS.LF rawOutput) ->
  splitRepoSections rawOutput = [ {| repo := None; output := JS.trim rawOutput |} ].
Proof.
  intros Hplain. unfold splitRepoSections.
  assert (Hnone : hasMarkers (fold_left splitStep (JS.split JS.LF rawOutput) splitInit)
                  = false).
  { now rewrite (fold_plain_hasMarkers _ splitInit Hplain). }
  now rewrite Hnone.
Qed.

Lemma split_legacy_single_section_witness :
  splitRepoSections (JS.lit "  # branch.head main
? new-file.ts
") = [ {| repo := None; output := JS.lit "# branch.head main
? new-file.ts" |} ].
Proof.
  apply (split_legacy_single_section (JS.lit "  # branch.head main
? new-file.ts
")).
  apply plainLines_check. vm_compute. reflexivity.
Defined.

Lemma split_open_section rawOutput before marker after :
  JS.split JS.LF rawOutput = before ++ marker :: after ->
  isStartMarker marker = true ->
  Forall plainLine after ->
  splitRepoSections rawOutput =
  sections (flushCurrentSection (sawMarker (fold_left splitStep before splitInit)))
  ++ [ {| repo := Some (decodeRepoSectionName
                          (JS.trim (JS.slice_from (length HAPI_REPO_SECTION_PREFIX) marker)));
          output := JS.trim (JS.join [JS.LF] after) |} ].
Proof.
  intros Hlines Hm Hafter. unfold splitRepoSections.
  rewrite Hlines, fold_left_app. simpl fold_left.
  rewrite (splitStep_start _ _ Hm).
  erewrite fold_plain_open by (try exact Hafter; reflexivity).
  reflexivity.
Qed.

(** C10. When the last start marker of a framed input is not followed by an
    end-marker line, the section it opened is still emitted at the end of the
    input, as the last section: its name is the percent-decoded marker name
    and its body is the lines after the marker, joined and trimmed. *)
Theorem split_flushes_unterminated_section
    (rawOutput : jsstr) (before : list jsstr) (marker : jsstr) (after : list jsstr) :
  JS.split JS.LF rawOutput = before ++ marker :: after ->
  isStartMarker marker = true ->
  Forall (fun line => isStartMarker line = false /\ isEndMarker line = false) after ->
  last (splitRepoSections rawOutput) =
  Some {| repo := Some (decodeRepoSectionName
                          (JS.trim (JS.slice_from (length HAPI_REPO_SECTION_PREFIX) marker)));
          output := JS.trim (JS.join [JS.LF] after) |}.
Proof.
  intros Hlines Hm Hafter.
  rewrite (split_open_section _ _ _ _ Hlines Hm Hafter).
  apply last_snoc.
Qed.

Lemma split_flushes_unterminated_section_witness :
  last (splitRepoSections (JS.lit "@@HAPI_REPO a
x
@@HAPI_REPO_END
@@HAPI_REPO my%20repo
? one.txt
? two.txt")) =
  Some {| repo := Some (JS.lit "my repo"); output := JS.lit "? one.txt
? two.txt" |}.
Proof.
  apply (split_flushes_unterminated_section _
           [JS.lit "@@HAPI_REPO a"; JS.lit "x"; JS.lit "@@HAPI_REPO_END"]
           (JS.lit "@@HAPI_REPO my%20repo")
           [JS.lit "? one.txt"; JS.lit "? two.txt"]).
  - reflexivity.
  - reflexivity.
  - apply plainLines_check. vm_compute. reflexivity.
Defined.

End FramingClaims.

(** ** Status records and the status table *)

Section StatusTable.

Lemma getFileStatus_other statusChar :
  statusChar ∉ tableChars -> getFileStatus statusChar = modified.
Proof.
  intros H. unfold tableChars in H. simpl in H.
  repeat (apply not_elem_of_cons in H as [? H]).
  unfold getFileStatus, JS.str_eqb.
  repeat (rewrite bool_decide_false by assumption). reflexivity.
Qed.

(** C9, as the code has it. The sample line parses to one ordinary record
    with index [.], worktree [M] and path [src/app.ts], whose worktree side
    maps to "modified"; the table is M to modified, A to added, D to deleted,
    R and C to renamed, U to conflicted and [?] to untracked, and every
    other status string maps to modified. *)
Theorem status_line_and_table (statusChar : jsstr) :
  statusChar ∉ List.map JS.lit ["M"; "A"; "D"; "R"; "C"; "?"; "U"]%string ->
  files (parseStatusSummaryV2 sample_status_line)
    = [ {| path := JS.lit "src/app.ts"; index := JS.lit ".";
           workingDir := JS.lit "M"; from := None |} ]
  /\ List.map (fun f => getFileStatus (workingDir f))
              (files (parseStatusSummaryV2 sample_status_line)) = [modified]
  /\ getFileStatus (JS.lit "M") = modified
  /\ getFileStatus (JS.lit "A") = added_status
  /\ getFileStatus (JS.lit "D") = deleted
  /\ getFileStatus (JS.lit "R") = renamed
  /\ getFileStatus (JS.lit "C") = renamed
  /\ getFileStatus (JS.lit "U") = conflicted
  /\ getFileStatus (JS.lit "?") = untracked
  /\ getFileStatus statusChar = modified.
Proof.
  intros H. repeat split; try (vm_compute; reflexivity).
  now apply getFileStatus_other.
Qed.

Lemma status_line_and_table_witness :
  getFileStatus (JS.lit "T") = modified.
Proof.
  assert (Hn : JS.lit "T" ∉ List.map JS.lit ["M"; "A"; "D"; "R"; "C"; "?"; "U"]%string).
  { vm_compute. intros H.
    repeat (apply elem_of_cons in H as [H|H]; [discriminate H|]).
    now apply elem_of_nil in H. }
  destruct (status_line_and_table (JS.lit "T") Hn) as (_ & _ & _ & _ & _ & _ & _ & _ & _ & H).
  exact H.
Defined.

(** C9 as stated fails: [?] is none of M, A, D, R, C, U and does not map to
    modified. *)
Lemma status_table_question_mark :
  (JS.lit "?" ∉ List.map JS.lit ["M"; "A"; "D"; "R"; "C"; "U"]%string)
  /\ getFileStatus (JS.lit "?") = untracked
  /\ getFileStatus (JS.lit "?") <> modified.
Proof.
  split; [|split; [reflexivity|discriminate]].
  vm_compute. intros H.
  repeat (apply elem_of_cons in H as [H|H]; [discriminate H|]).
  now apply elem_of_nil in H.
Qed.

End StatusTable.

(** ** Percent-encoding round trip *)

Module URIFacts.
Import URI.

Ltac lia_div := zify; Z.to_euclidean_division_equations; lia.

(** Decides the comparisons of a goal whose operands linear arithmetic can
    order. *)
Ltac decide_cmp :=
  repeat match goal with
  | |- context [(?a <? ?b)%N] =>
      first [ rewrite (proj2 (N.ltb_lt a b)) by lia_div
            | rewrite (proj2 (N.ltb_ge a b)) by lia_div ]
  | |- context [(?a <=? ?b)%N] =>
      first [ rewrite (proj2 (N.leb_le a b)) by lia_div
            | rewrite (proj2 (N.leb_gt a b)) by lia_div ]
  | |- context [(?a =? ?b)%N] =>
      first [ rewrite (proj2 (N.eqb_eq a b)) by lia_div
            | rewrite (proj2 (N.eqb_neq a b)) by lia_div ]
  end.

Lemma inRange_true lo hi c : inRange lo hi c = true <-> (lo <= c <= hi)%N.
Proof. unfold inRange. rewrite andb_true_iff, !N.leb_le. tauto. Qed.

Lemma inRange_false lo hi c : inRange lo hi c = false <-> (c < lo \/ hi < c)%N.
Proof. unfold inRange. rewrite andb_false_iff, !N.leb_gt. tauto. Qed.

Lemma hexVal_hexDigit n : (n < 16)%N -> hexVal (hexDigit n) = Some n.
Proof.
  intros H. unfold hexDigit, hexVal, inRange.
  destruct (N.ltb_spec n 10).
  - decide_cmp. simpl. f_equal. lia.
  - decide_cmp. simpl. decide_cmp. simpl. f_equal. lia.
Qed.

Lemma parseHexOctet_hexDigit b :
  (b < 256)%N -> parseHexOctet (hexDigit (b / 16)) (hexDigit (b mod 16)) = Some b.
Proof.
  intros H. unfold parseHexOctet.
  rewrite !hexVal_hexDigit by lia_div. simpl. f_equal. lia_div.
Qed.

Lemma readEscape_escapeOctet b t :
  (b < 256)%N -> readEscape (escapeOctet b ++ t) = Some (b, t).
Proof.
  intros H. unfold escapeOctet, readEscape. simpl.
  now rewrite parseHexOctet_hexDigit.
Qed.

Lemma readEscapes_escapeOctets bs t :
  Forall (fun b => (b < 256)%N) bs ->
  readEscapes (length bs) (concat (List.map escapeOctet bs) ++ t) = Some (bs, t).
Proof.
  induction 1 as [|b bs Hb _ IH]; [reflexivity|].
  cbn [length List.map concat readEscapes]. rewrite <- app_assoc.
  rewrite readEscape_escapeOctet by exact Hb. cbn. now rewrite IH.
Qed.

Lemma Decode_percent f b t :
  Decode (S f) (escapeOctet b ++ t) =
  '(b', rest) ← readEscape (escapeOctet b ++ t);
  match leadingOnes b' with
  | 0 => cons b' <$> Decode f rest
  | 1 => None
  | S n' =>
      if (4 <? leadingOnes b')%nat then None else
      '(bs, rest') ← readEscapes n' rest;
      cp ← utf8Decode (b' :: bs);
      app (UTF16EncodeCodePoint cp) <$> Decode f rest'
  end.
Proof. reflexivity. Qed.

Lemma Decode_ascii f b rest :
  (b < 0x80)%N ->
  Decode (S f) (escapeOctet b ++ rest) = cons b <$> Decode f rest.
Proof.
  intros H. rewrite Decode_percent, readEscape_escapeOctet by lia.
  cbn. unfold leadingOnes. now decide_cmp.
Qed.

Lemma Decode_octets f b bs rest cp :
  (b < 256)%N -> Forall (fun x => (x < 256)%N) bs ->
  leadingOnes b = S (length bs) -> (1 <= length bs <= 3)%nat ->
  utf8Decode (b :: bs) = Some cp ->
  Decode (S f) (concat (List.map escapeOctet (b :: bs)) ++ rest) =
  app (UTF16EncodeCodePoint cp) <$> Decode f rest.
Proof.
  intros Hb Hbs Hn Hlen Hdec.
  cbn [List.map concat]. rewrite <- app_assoc.
  rewrite Decode_percent, readEscape_escapeOctet by exact Hb.
  cbn [mbind option_bind]. rewrite Hn.
  destruct (length bs) as [|n] eqn:El; [lia|].
  replace (4 <? S (S n))%nat with false by (symmetry; apply Nat.ltb_ge; lia).
  rewrite <- El, readEscapes_escapeOctets by exact Hbs.
  cbn [mbind option_bind]. now rewrite Hdec.
Qed.

(** The four shapes of the UTF-8 transformation. *)
Lemma utf8_facts cp :
  isScalar cp -> (0x80 <= cp)%N ->
  exists b bs, utf8 cp = b :: bs /\ (b < 256)%N /\ Forall (fun x => (x < 256)%N) bs
    /\ leadingOnes b = S (length bs) /\ (1 <= length bs <= 3)%nat
    /\ utf8Decode (b :: bs) = Some cp.
Proof.
  intros [Hmax Hsur] Hlo. apply inRange_false in Hsur.
  unfold utf8.
  destruct (N.ltb_spec cp 0x80); [lia|].
  destruct (N.ltb_spec cp 0x800); [|destruct (N.ltb_spec cp 0x10000)].
  all: eexists _, _; split; [reflexivity|].
  all: split; [lia_div|].
  all: split; [repeat constructor; lia_div|].
  all: split; [unfold leadingOnes; decide_cmp; reflexivity|].
  all: split; [simpl; lia|].
  all: unfold utf8Decode, isContinuation, inRange; cbv zeta.
  all: match goal with |- context [if _ then Some ?x else None] =>
         replace x with cp by lia_div end.
  all: destruct Hsur; decide_cmp; reflexivity.
Qed.

Lemma Decode_escapeCodePoint f cp rest :
  isScalar cp ->
  Decode (S f) (escapeCodePoint cp ++ rest) =
  app (UTF16EncodeCodePoint cp) <$> Decode f rest.
Proof.
  intros Hs. unfold escapeCodePoint.
  destruct (N.ltb_spec cp 0x80) as [Hlt|Hge].
  - unfold utf8. decide_cmp. cbn [List.map concat]. rewrite app_nil_r.
    rewrite Decode_ascii by exact Hlt.
    unfold UTF16EncodeCodePoint. decide_cmp. reflexivity.
  - destruct (utf8_facts cp Hs Hge) as (b & bs & -> & Hb & Hbs & Hn & Hlen & Hdec).
    now apply Decode_octets.
Qed.

Lemma unreserved_cases c :
  isUnreserved c = true -> (0x21 <= c <= 0x7E)%N /\ c <> 0x25%N.
Proof.
  unfold isUnreserved.
  let l := eval vm_compute in (JS.lit "-_.!~*'()") in
    change (JS.lit "-_.!~*'()") with l.
  cbn [existsb].
  rewrite !orb_true_iff, !inRange_true, !N.eqb_eq. lia.
Qed.

Lemma unreserved_notBlank c : isUnreserved c = true -> notBlank c.
Proof.
  intros H. apply unreserved_cases in H as [H _].
  unfold notBlank, JS.isWhiteSpace. now decide_cmp.
Qed.

Lemma hexDigit_notBlank n : (n < 16)%N -> notBlank (hexDigit n).
Proof.
  intros H. unfold notBlank, hexDigit, JS.isWhiteSpace.
  destruct (N.ltb_spec n 10); now decide_cmp.
Qed.

Lemma escapeOctet_notBlank b : (b < 256)%N -> Forall notBlank (escapeOctet b).
Proof.
  intros H. unfold escapeOctet.
  repeat constructor; try (apply hexDigit_notBlank; lia_div).
Qed.

Lemma utf8_octets cp : isScalar cp -> Forall (fun x => (x < 256)%N) (utf8 cp).
Proof.
  intros Hs. destruct (N.ltb_spec cp 0x80) as [Hlt|Hge].
  - unfold utf8. decide_cmp. repeat constructor. lia.
  - destruct (utf8_facts cp Hs Hge) as (b & bs & -> & Hb & Hbs & _). now constructor.
Qed.

Lemma escapeCodePoint_notBlank cp : isScalar cp -> Forall notBlank (escapeCodePoint cp).
Proof.
  intros Hs. unfold escapeCodePoint.
  induction (utf8_octets cp Hs) as [|b bs Hb _ IH]; [constructor|].
  cbn [List.map concat]. apply Forall_app. split; [now apply escapeOctet_notBlank|exact IH].
Qed.

Lemma escapeCodePoint_length cp : (1 <= length (escapeCodePoint cp))%nat.
Proof.
  unfold escapeCodePoint, utf8.
  repeat match goal with |- context [if ?b then _ else _] => destruct b end; simpl; lia.
Qed.

Lemma pair_scalar hi lo :
  isLeadingSurrogate hi = true -> isTrailingSurrogate lo = true ->
  isScalar (pairToCodePoint hi lo)
  /\ UTF16EncodeCodePoint (pairToCodePoint hi lo) = [hi; lo].
Proof.
  unfold isLeadingSurrogate, isTrailingSurrogate. rewrite !inRange_true.
  intros Hh Hl. unfold isScalar, pairToCodePoint, UTF16EncodeCodePoint.
  split; [split; [lia|apply inRange_false; lia]|].
  decide_cmp. f_equal; [|f_equal]; lia_div.
Qed.

(** Percent-encoding a well-formed string succeeds, yields no blank, and is
    undone by decoding. *)
Lemma encode_decode s :
  isWellFormed s = true ->
  exists e, encodeURIComponent s = Some e /\ Forall notBlank e
            /\ forall f, (length e <= f)%nat -> Decode f e = Some s.
Proof.
  induction s as [s IH] using (induction_ltof1 _ (@length N)). unfold ltof in IH.
  destruct s as [|c t]; [intros _; exists []; repeat split; [constructor|now destruct f]|].
  cbn [isWellFormed encodeURIComponent].
  destruct (isUnreserved c) eqn:Hu.
  { destruct (unreserved_cases c Hu) as [Hr Hp].
    unfold isTrailingSurrogate, isLeadingSurrogate, inRange. decide_cmp. cbn [andb].
    intros Hwf.
    destruct (IH t ltac:(simpl; lia) Hwf) as (e & -> & Hnb & Hdec).
    exists (c :: e). split; [reflexivity|]. split.
    - constructor; [now apply unreserved_notBlank|exact Hnb].
    - intros [|f] Hf; [simpl in Hf; lia|]. cbn [Decode].
      rewrite (proj2 (N.eqb_neq c 0x25) Hp), Hdec by (simpl in Hf; lia). reflexivity. }
  destruct (isTrailingSurrogate c) eqn:Ht; [discriminate|].
  destruct (isLeadingSurrogate c) eqn:Hl.
  { destruct t as [|d t']; [discriminate|].
    destruct (isTrailingSurrogate d) eqn:Hd; [|discriminate].
    cbn [andb]. intros Hwf.
    destruct (IH t' ltac:(simpl; lia) Hwf) as (e & -> & Hnb & Hdec).
    destruct (pair_scalar c d Hl Hd) as [Hs Hu16].
    eexists. split; [reflexivity|]. split.
    - apply Forall_app. split; [now apply escapeCodePoint_notBlank|exact Hnb].
    - intros f Hf. rewrite length_app in Hf.
      pose proof (escapeCodePoint_length (pairToCodePoint c d)).
      destruct f as [|f]; [lia|].
      rewrite Decode_escapeCodePoint by exact Hs.
      rewrite Hdec by lia. cbn. now rewrite Hu16. }
  intros Hwf. apply andb_true_iff in Hwf as [Hc Hwf]. apply N.ltb_lt in Hc.
  destruct (IH t ltac:(simpl; lia) Hwf) as (e & -> & Hnb & Hdec).
  assert (Hs : isScalar c).
  { split; [lia|]. unfold isTrailingSurrogate, isLeadingSurrogate in *.
    apply inRange_false in Ht, Hl. apply inRange_false. lia. }
  eexists. split; [reflexivity|]. split.
  - apply Forall_app. split; [now apply escapeCodePoint_notBlank|exact Hnb].
  - intros f Hf. rewrite length_app in Hf.
    pose proof (escapeCodePoint_length c).
    destruct f as [|f]; [lia|].
    rewrite Decode_escapeCodePoint by exact Hs.
    rewrite Hdec by lia. cbn. unfold UTF16EncodeCodePoint. now decide_cmp.
Qed.
End URIFacts.

(** ** Section framing: wrapping then splitting *)

Section WrapSplit.
Import URIFacts.

Lemma trimStart_notBlank s : Forall notBlank s -> JS.trimStart s = s.
Proof. destruct 1 as [|c t Hc _]; [reflexivity|]. now apply trimStart_id. Qed.

Lemma trim_notBlank s : Forall notBlank s -> JS.trim s = s.
Proof.
  intros H. unfold JS.trim, JS.trimEnd.
  rewrite (trimStart_notBlank s H), trimStart_notBlank, rev_involutive; [reflexivity|].
  now apply Forall_rev.
Qed.

Lemma notBlank_no_LF s : Forall notBlank s -> JS.LF ∉ s.
Proof.
  intros H Hin. rewrite Forall_forall in H. specialize (H _ Hin). discriminate H.
Qed.

Lemma startsWith_app p s : JS.startsWith (p ++ s) p = true.
Proof. induction p as [|c p IH]; [now destruct s|]. simpl. now rewrite N.eqb_refl. Qed.

Lemma decodeRepoSectionName_encoded repoName e :
  URI.isWellFormed repoName = true -> URI.encodeURIComponent repoName = Some e ->
  Forall notBlank e
  /\ decodeRepoSectionName
       (JS.trim (JS.slice_from (length HAPI_REPO_SECTION_PREFIX)
                               (HAPI_REPO_SECTION_PREFIX ++ e))) = repoName.
Proof.
  intros Hwf He. destruct (encode_decode repoName Hwf) as (e' & He' & Hnb & Hdec).
  rewrite He in He'. inversion He'; subst e'. split; [exact Hnb|].
  unfold JS.slice_from. rewrite drop_app_length, trim_notBlank by exact Hnb.
  unfold decodeRepoSectionName, URI.decodeURIComponent. now rewrite Hdec.
Qed.

Lemma header_no_LF e : Forall notBlank e -> JS.LF ∉ HAPI_REPO_SECTION_PREFIX ++ e.
Proof.
  intros H. rewrite elem_of_app. intros [Hin|Hin].
  - vm_compute in Hin.
    repeat (apply elem_of_cons in Hin as [Hin|Hin]; [discriminate Hin|]).
    now apply elem_of_nil in Hin.
  - now apply notBlank_no_LF in Hin.
Qed.

Lemma end_marker_lines : JS.split JS.LF HAPI_REPO_SECTION_END = [HAPI_REPO_SECTION_END].
Proof. reflexivity. Qed.

Lemma splitStep_end st :
  splitStep st HAPI_REPO_SECTION_END = flushCurrentSection (sawMarker st).
Proof. reflexivity. Qed.

(** C1, as the code has it. For a well-formed repository name (no unpaired
    surrogate) and a body whose trimmed text has no line that starts with the
    start marker and no end-marker line, wrapping and then splitting yields
    exactly one section, with the original name and the trimmed body. *)
Theorem wrap_split_roundtrip (repoName body : jsstr) :
  URI.isWellFormed repoName = true ->
  Forall (fun line => isStartMarker line = false /\ isEndMarker line = false)
         (JS.split JS.LF (JS.trim body)) ->
  exists framed,
    wrapRepoSectionOutput repoName body = Some framed
    /\ splitRepoSections framed = [ {| repo := Some repoName; output := JS.trim body |} ].
Proof.
  intros Hwf Hplain.
  destruct (encode_decode repoName Hwf) as (e & He & Hnb & _).
  destruct (decodeRepoSectionName_encoded repoName e Hwf He) as [_ Hname].
  pose proof (header_no_LF e Hnb) as Hh.
  unfold wrapRepoSectionOutput. rewrite He. cbn [mbind option_bind].
  destruct (JS.trim body) as [|c b] eqn:Hb; cbn [JS.truthy negb].
  - eexists. split; [reflexivity|].
    unfold splitRepoSections. cbn [app].
    rewrite app_assoc, split_app_sep, (split_nosep _ _ Hh), end_marker_lines.
    cbn [app fold_left].
    rewrite (splitStep_start splitInit (HAPI_REPO_SECTION_PREFIX ++ e))
      by apply startsWith_app.
    rewrite Hname, splitStep_end. reflexivity.
  - eexists. split; [reflexivity|].
    unfold splitRepoSections.
    change ([JS.LF] ++ (c :: b) ++ [JS.LF] ++ HAPI_REPO_SECTION_END)
      with (JS.LF :: (c :: b) ++ JS.LF :: HAPI_REPO_SECTION_END).
    rewrite app_assoc, split_app_sep, (split_nosep _ _ Hh).
    rewrite split_app_sep, end_marker_lines.
    cbn [app]. cbn [fold_left]. rewrite fold_left_app.
    rewrite (splitStep_start splitInit (HAPI_REPO_SECTION_PREFIX ++ e))
      by apply startsWith_app.
    rewrite Hname.
    erewrite (fold_plain_open (JS.split JS.LF (c :: b)) _ repoName Hplain) by reflexivity.
    cbn [fold_left]. rewrite splitStep_end.
    unfold flushCurrentSection, sawMarker, splitInit.
    cbn [currentRepo sections currentLines hasMarkers app].
    rewrite join_split, <- Hb, trim_fix. reflexivity.
Qed.

Lemma wrap_split_roundtrip_witness :
  exists framed,
    wrapRepoSectionOutput (JS.lit "my repo/sub dir") (JS.lit "
# branch.head main
? new file.txt

") = Some framed
    /\ splitRepoSections framed =
       [ {| repo := Some (JS.lit "my repo/sub dir");
            output := JS.lit "# branch.head main
? new file.txt" |} ].
Proof.
  apply (wrap_split_roundtrip (JS.lit "my repo/sub dir") (JS.lit "
# branch.head main
? new file.txt

")).
  - reflexivity.
  - apply plainLines_check. vm_compute. reflexivity.
Defined.

(** C1 as stated fails twice: a body with an end-marker line of its own is
    cut there, and a name with an unpaired surrogate cannot be wrapped. *)
Lemma wrap_split_not_every_input :
  (wrapRepoSectionOutput (JS.lit "r") (JS.lit "a
@@HAPI_REPO_END
b") = Some (JS.lit "@@HAPI_REPO r
a
@@HAPI_REPO_END
b
@@HAPI_REPO_END")
   /\ splitRepoSections (JS.lit "@@HAPI_REPO r
a
@@HAPI_REPO_END
b
@@HAPI_REPO_END") = [ {| repo := Some (JS.lit "r"); output := JS.lit "a" |} ]
   /\ JS.trim (JS.lit "a
@@HAPI_REPO_END
b") <> JS.lit "a")
  /\ wrapRepoSectionOutput [0xD800%N] (JS.lit "a") = None.
Proof. repeat split; try reflexivity. discriminate. Qed.

End WrapSplit.

(** ** The aggregator: branch and repos *)

Section Aggregator.

Lemma buildStep_inv multi u s st sec st' :
  buildStep multi u s st sec = Some st' ->
  exists stagedText unstagedText,
    outputOrEmpty (PlainObject.get STRING_VALUES s (getRepoKey (repo sec))) = Some stagedText
    /\ outputOrEmpty (PlainObject.get STRING_VALUES u (getRepoKey (repo sec)))
       = Some unstagedText
    /\ let summary := parseStatusSummaryV2 (output sec) in
       let perFile := List.map (fileEntries (repo sec)
                                  (createDiffStatsMap (parseNumStat stagedText))
                                  (createDiffStatsMap (parseNumStat unstagedText)))
                               (files summary) in
       st' = {| b_stagedFiles := b_stagedFiles st ++ concat (List.map fst perFile);
                b_unstagedFiles := b_unstagedFiles st ++ concat (List.map snd perFile)
                                   ++ concat (List.map (untrackedEntries (repo sec))
                                                       (notAdded summary));
                b_repos := if isNamed sec then b_repos st ++ [repoEntry sec]
                           else b_repos st;
                branchName := if isNamed sec then branchName st
                              else if negb multi then getCurrentBranchV2 summary
                              else branchName st |}.
Proof.
  unfold buildStep. cbv zeta.
  destruct (outputOrEmpty (PlainObject.get STRING_VALUES s _)) as [a|]; [|discriminate].
  destruct (outputOrEmpty (PlainObject.get STRING_VALUES u _)) as [b|]; [|discriminate].
  cbn. intros E. inversion E; subst st'; clear E.
  exists a, b. split; [reflexivity|]. split; [reflexivity|].
  unfold isNamed, repoEntry. reflexivity.
Qed.

Lemma buildLoop_repos multi u s secs : forall st st',
  buildLoop multi u s secs st = Some st' ->
  b_repos st' = b_repos st ++ List.map repoEntry (List.filter isNamed secs).
Proof.
  induction secs as [|sec secs IH]; intros st st' H; cbn in H.
  - inversion H. cbn. now rewrite app_nil_r.
  - destruct (buildStep multi u s st sec) as [st1|] eqn:E; [|discriminate]. cbn in H.
    rewrite (IH _ _ H).
    apply buildStep_inv in E as (a & b & _ & _ & ->). cbn [b_repos List.filter].
    destruct (isNamed sec); cbn [List.map]; [now rewrite <- app_assoc|reflexivity].
Qed.

(** A key that is not a property name of [Object.prototype] finds a string
    or nothing in a map of strings. *)
Lemma get_string_ordinary (m : PlainObject.t jsstr) key :
  key ∉ PlainObject.OBJECT_PROTOTYPE_NAMES ->
  exists text, outputOrEmpty (PlainObject.get STRING_VALUES m key) = Some text.
Proof.
  intros Hkey. unfold PlainObject.get, JS.str_eqb.
  case_bool_decide as E.
  - exfalso. apply Hkey. rewrite E.
    vm_compute. repeat first [apply list_elem_of_here | apply list_elem_of_further].
  - destruct (PlainObject.own m !! key); [now eexists|].
    unfold PlainObject.inherited, STRING_VALUES.
    rewrite (bool_decide_false _ Hkey).
    destruct (PlainObject.proto m); now eexists.
Qed.

Lemma buildLoop_returns multi u s secs : forall st,
  Forall (fun sec => getRepoKey (repo sec) ∉ PlainObject.OBJECT_PROTOTYPE_NAMES) secs ->
  exists st', buildLoop multi u s secs st = Some st'.
Proof.
  induction secs as [|sec secs IH]; intros st H; [now eexists|].
  inversion H as [|? ? Hsec Hrest]; subst. cbn [buildLoop].
  unfold buildStep at 1. cbv zeta.
  destruct (get_string_ordinary s _ Hsec) as [a ->].
  destruct (get_string_ordinary u _ Hsec) as [b ->]. cbn.
  now apply IH.
Qed.

Lemma hasMulti_false secs :
  existsb (fun section => bool_decide (repo section <> None)) secs = false ->
  Forall (fun sec => repo sec = None) secs.
Proof.
  induction secs as [|sec secs IH]; simpl; [constructor|].
  intros H. apply orb_false_iff in H as [H1 H2].
  constructor; [|now apply IH].
  apply bool_decide_eq_false in H1. now destruct (repo sec); [exfalso; apply H1|].
Qed.

Lemma hasMulti_true secs sec :
  sec ∈ secs -> repo sec <> None ->
  existsb (fun section => bool_decide (repo section <> None)) secs = true.
Proof.
  intros Hin Hr. apply existsb_exists. exists sec. split.
  - now apply list_elem_of_In.
  - now apply bool_decide_eq_true.
Qed.

(** Without marker lines the status is one unnamed section, and the
    aggregation is the one of that section. *)
Lemma buildGitStatusFiles_unframed statusOutput unstagedDiffOutput stagedDiffOutput :
  Forall (fun line => isStartMarker line = false /\ isEndMarker line = false)
         (JS.split JS.LF statusOutput) ->
  exists stagedText unstagedText,
    outputOrEmpty (PlainObject.get STRING_VALUES
                     (buildRepoOutputMap (splitRepoSections stagedDiffOutput)) [])
      = Some stagedText
    /\ outputOrEmpty (PlainObject.get STRING_VALUES
                        (buildRepoOutputMap (splitRepoSections unstagedDiffOutput)) [])
       = Some unstagedText
    /\ let summary := parseStatusSummaryV2 (JS.trim statusOutput) in
       let perFile := List.map (fileEntries None
                                  (createDiffStatsMap (parseNumStat stagedText))
                                  (createDiffStatsMap (parseNumStat unstagedText)))
                               (files summary) in
       let staged := concat (List.map fst perFile) in
       let unstaged := concat (List.map snd perFile)
                       ++ concat (List.map (untrackedEntries None) (notAdded summary)) in
       buildGitStatusFiles statusOutput unstagedDiffOutput stagedDiffOutput
       = Some {| stagedFiles := staged; unstagedFiles := unstaged;
                 result_branch := getCurrentBranchV2 summary; repos := [];
                 totalStaged := length staged; totalUnstaged := length unstaged |}.
Proof.
  intros H.
  assert (Hkey : [] ∉ PlainObject.OBJECT_PROTOTYPE_NAMES).
  { vm_compute. intros Hin.
    repeat (apply elem_of_cons in Hin as [Hin|Hin]; [discriminate Hin|]).
    now apply elem_of_nil in Hin. }
  destruct (get_string_ordinary (buildRepoOutputMap (splitRepoSections stagedDiffOutput))
              [] Hkey) as [a Ha].
  destruct (get_string_ordinary (buildRepoOutputMap (splitRepoSections unstagedDiffOutput))
              [] Hkey) as [b Hb].
  exists a, b. split; [exact Ha|]. split; [exact Hb|]. cbv zeta.
  unfold buildGitStatusFiles. rewrite (split_no_markers _ H).
  cbn [existsb repo orb]. rewrite bool_decide_false by (intros Hx; now apply Hx).
  cbn [buildLoop]. unfold buildStep. cbv zeta.
  cbn [repo output truthyOpt getRepoKey default]. cbv [id].
  rewrite Ha, Hb. reflexivity.
Qed.

(** C4. For the inputs on which the aggregator returns, which are at
    least those whose status sections are not named like a property of
    [Object.prototype]: the branch of the result is set only when the status
    input was parsed as exactly one unnamed section; as soon as a status
    section carries a repository name, be it the empty one, the branch is
    null; and the sections with a non-empty name contribute their
    {name, branch} pairs to [repos] in order.  Without framing markers
    (legacy mode) the aggregator returns, [repos] is empty and the branch is
    the parsed head name, the heads "(detached)" and "(initial)" giving
    null. *)
Theorem aggregator_branch_and_repos
    (statusOutput unstagedDiffOutput stagedDiffOutput : jsstr) :
  let aggregate := buildGitStatusFiles statusOutput unstagedDiffOutput stagedDiffOutput in
  let secs := splitRepoSections statusOutput in
  let parsedHead := head (branch (parseStatusSummaryV2 (JS.trim statusOutput))) in
  (Forall (fun sec => getRepoKey (repo sec) ∉ PlainObject.OBJECT_PROTOTYPE_NAMES) secs ->
   exists result, aggregate = Some result)
  /\ (forall result, aggregate = Some result ->
        (result_branch result <> None ->
           secs = [ {| repo := None; output := JS.trim statusOutput |} ])
        /\ ((exists sec, sec ∈ secs /\ repo sec <> None) -> result_branch result = None)
        /\ repos result = List.map repoEntry (List.filter isNamed secs))
  /\ (Forall (fun line => isStartMarker line = false /\ isEndMarker line = false)
             (JS.split JS.LF statusOutput) ->
      exists result,
        aggregate = Some result
        /\ repos result = []
        /\ (forall h, parsedHead = Some h -> h <> [] ->
              h <> JS.lit "(detached)" -> h <> JS.lit "(initial)" ->
              result_branch result = Some h)
        /\ (parsedHead = Some (JS.lit "(detached)") -> result_branch result = None)
        /\ (parsedHead = Some (JS.lit "(initial)") -> result_branch result = None)
        /\ (parsedHead = None -> result_branch result = None)).
Proof.
  cbv zeta. split; [|split].
  - intros Hkeys. unfold buildGitStatusFiles.
    set (multi := existsb _ (splitRepoSections statusOutput)).
    destruct (buildLoop_returns multi
                (buildRepoOutputMap (splitRepoSections unstagedDiffOutput))
                (buildRepoOutputMap (splitRepoSections stagedDiffOutput))
                (splitRepoSections statusOutput)
                {| b_stagedFiles := []; b_unstagedFiles := []; b_repos := [];
                   branchName := None |} Hkeys) as [st ->].
    now eexists.
  - intros result. unfold buildGitStatusFiles.
    set (multi := existsb _ (splitRepoSections statusOutput)).
    destruct (buildLoop multi _ _ (splitRepoSections statusOutput) _) as [st|] eqn:Eloop;
      [|discriminate].
    cbn. intros E. inversion E; subst result; clear E. cbn [result_branch repos].
    split; [|split].
    + intros Hb.
      destruct multi eqn:Hm; [congruence|].
      destruct (splitRepoSections_cases statusOutput) as [[Hsecs _]|Hnamed]; [exact Hsecs|].
      apply hasMulti_false in Hm.
      destruct (splitRepoSections statusOutput) as [|sec secs].
      * cbn in Eloop. inversion Eloop; subst st. now cbn in Hb.
      * inversion Hm; inversion Hnamed; subst. congruence.
    + intros (sec & Hin & Hr). unfold multi. now rewrite (hasMulti_true _ sec Hin Hr).
    + now rewrite (buildLoop_repos _ _ _ _ _ _ Eloop).
  - intros H.
    destruct (buildGitStatusFiles_unframed statusOutput unstagedDiffOutput
                stagedDiffOutput H) as (a & b & _ & _ & Hres).
    cbv zeta in Hres. eexists. split; [exact Hres|]. cbn [repos result_branch].
    split; [reflexivity|]. unfold getCurrentBranchV2.
    split; [|split; [|split]].
    + intros h Hh Hne Hd Hi. rewrite Hh. unfold JS.str_eqb.
      rewrite !bool_decide_false by assumption.
      destruct h; [congruence|reflexivity].
    + intros Hh. now rewrite Hh.
    + intros Hh. now rewrite Hh.
    + intros Hh. now rewrite Hh.
Qed.

End Aggregator.

(** ** Regular-expression matching *)

Module RegexFacts.
Import Regex.

Lemma take_after {A} pos (a rest : list A) : take (pos + length a - pos) (a ++ rest) = a.
Proof.
  replace (pos + length a - pos) with (length a) by lia.
  now rewrite take_app_length.
Qed.

Lemma accepts_Chr p c t pos cs :
  p c = true -> accepts (Chr p) pos (c :: t) cs (S pos) t cs.
Proof. intros Hp k z Hk. simpl. now rewrite Hp. Qed.

Lemma accepts_chr c t pos cs : accepts (chr c) pos (c :: t) cs (S pos) t cs.
Proof. apply accepts_Chr, N.eqb_refl. Qed.

Lemma rejects_Chr p c t pos cs : p c = false -> rejects (Chr p) pos (c :: t) cs.
Proof. intros Hp k. simpl. now rewrite Hp. Qed.

Lemma rejects_Chr_nil p pos cs : rejects (Chr p) pos [] cs.
Proof. intros k. reflexivity. Qed.

Lemma accepts_Seq a b pos s cs pos1 s1 cs1 pos2 s2 cs2 :
  accepts a pos s cs pos1 s1 cs1 -> accepts b pos1 s1 cs1 pos2 s2 cs2 ->
  accepts (Seq a b) pos s cs pos2 s2 cs2.
Proof. intros Ha Hb k z Hk. simpl. apply Ha. now apply Hb. Qed.

Lemma rejects_Seq_l a b pos s cs : rejects a pos s cs -> rejects (Seq a b) pos s cs.
Proof. intros Ha k. simpl. apply Ha. Qed.

Lemma accepts_Alt_l a b pos s cs pos1 s1 cs1 :
  accepts a pos s cs pos1 s1 cs1 -> accepts (Alt a b) pos s cs pos1 s1 cs1.
Proof. intros Ha k z Hk. simpl. now rewrite (Ha k z Hk). Qed.

Lemma accepts_Alt_r a b pos s cs pos1 s1 cs1 :
  rejects a pos s cs -> accepts b pos s cs pos1 s1 cs1 ->
  accepts (Alt a b) pos s cs pos1 s1 cs1.
Proof. intros Ha Hb k z Hk. simpl. rewrite (Ha k). simpl. now apply Hb. Qed.

Lemma accepts_Group i a pos s cs pos1 s1 cs1 :
  accepts a pos s cs pos1 s1 cs1 ->
  accepts (Group i a) pos s cs pos1 s1 ((i, take (pos1 - pos) s) :: cs1).
Proof. intros Ha k z Hk. simpl. now apply Ha. Qed.

Lemma accepts_Group_eq i a pos s cs pos1 s1 cs1 v :
  accepts a pos s cs pos1 s1 cs1 -> take (pos1 - pos) s = v ->
  accepts (Group i a) pos s cs pos1 s1 ((i, v) :: cs1).
Proof. intros Ha <-. now apply accepts_Group. Qed.

Lemma accepts_Bol s cs : accepts Bol 0 s cs 0 s cs.
Proof. intros k z Hk. exact Hk. Qed.

Lemma accepts_Eol pos cs : accepts Eol pos [] cs pos [] cs.
Proof. intros k z Hk. exact Hk. Qed.

Lemma Chr_stops p rest pos cs k : stops p rest -> rmatch (Chr p) pos rest cs k = None.
Proof. destruct rest as [|c t]; simpl; [reflexivity|]. now intros ->. Qed.

Lemma Chr_cons p c t pos cs k :
  p c = true -> rmatch (Chr p) pos (c :: t) cs k = k (S pos) t cs.
Proof. intros Hp. simpl. now rewrite Hp. Qed.

Section ClassRuns.

(** One iteration of a quantified character class [p]. *)
Variable p : N -> bool.
Variable m : nat -> jsstr -> caps -> cont -> option (nat * caps).
Hypothesis m_cons : forall c t pos cs k, p c = true -> m pos (c :: t) cs k = k (S pos) t cs.
Hypothesis m_stops : forall rest pos cs k, stops p rest -> m pos rest cs k = None.

(** A greedy quantifier over a character class runs to the end of the run
    before it lets the continuation try. *)
Lemma RepeatMatcher_greedy_run (k : cont) w : forall fuel lo pos rest cs z,
  Forall (fun c => p c = true) w -> lo <= length w -> stops p rest ->
  length w + 1 <= fuel ->
  k (pos + length w) rest cs = Some z ->
  RepeatMatcher m k true fuel lo None pos (w ++ rest) cs = Some z.
Proof.
  induction w as [|c w IH]; intros fuel lo pos rest cs z Hw Hlo Hstop Hfuel Hk.
  - destruct fuel as [|fuel]; [simpl in Hfuel; lia|].
    assert (lo = 0) as -> by (simpl in Hlo; lia).
    cbn [RepeatMatcher Nat.eqb negb app]. rewrite m_stops by exact Hstop.
    cbn [length] in Hk. rewrite Nat.add_0_r in Hk. exact Hk.
  - inversion Hw as [|? ? Hc Hw']; subst. cbn [length] in Hlo, Hfuel, Hk.
    destruct fuel as [|fuel]; [lia|].
    assert (Hrec : RepeatMatcher m k true fuel (Nat.pred lo) None
                     (S pos) (w ++ rest) cs = Some z).
    { apply IH; try assumption; try lia.
      now replace (S pos + length w) with (pos + S (length w)) by lia. }
    destruct lo as [|lo].
    + cbn [RepeatMatcher fmap option_fmap option_map app].
      change (0 =? 0) with true. cbn [negb andb].
      rewrite m_cons by exact Hc.
      rewrite (proj2 (Nat.eqb_neq (S pos) pos)) by lia.
      now rewrite Hrec.
    + cbn [RepeatMatcher fmap option_fmap option_map app].
      change (S lo =? 0) with false. cbn [negb andb].
      rewrite m_cons by exact Hc. exact Hrec.
Qed.

Lemma RepeatMatcher_required_stops (k : cont) g fuel lo pos rest cs :
  stops p rest -> RepeatMatcher m k g (S fuel) (S lo) None pos rest cs = None.
Proof.
  intros Hstop. cbn [RepeatMatcher]. change (S lo =? 0) with false. cbn [negb].
  now apply m_stops.
Qed.

End ClassRuns.

Lemma accepts_greedy_run p lo w rest pos cs :
  Forall (fun c => p c = true) w -> lo <= length w -> stops p rest ->
  accepts (Rep true lo None (Chr p)) pos (w ++ rest) cs (pos + length w) rest cs.
Proof.
  intros Hw Hlo Hstop k z Hk. cbn [rmatch].
  apply (RepeatMatcher_greedy_run p); try assumption.
  - intros. now apply Chr_cons.
  - intros. now apply Chr_stops.
  - rewrite length_app. lia.
Qed.

Lemma accepts_greedy_all p lo w pos cs :
  Forall (fun c => p c = true) w -> lo <= length w ->
  accepts (Rep true lo None (Chr p)) pos w cs (pos + length w) [] cs.
Proof.
  intros Hw Hlo. rewrite <- (app_nil_r w) at 1.
  now apply accepts_greedy_run.
Qed.

Lemma rejects_plus_stops p rest pos cs : stops p rest -> rejects (plus (Chr p)) pos rest cs.
Proof.
  intros Hstop k. unfold plus. cbn [rmatch].
  replace (1 + length rest + 1) with (S (S (length rest))) by lia.
  apply (RepeatMatcher_required_stops p); [|exact Hstop].
  intros. now apply Chr_stops.
Qed.

Lemma match_at_accepts r pos s cs e s' :
  accepts r pos s [] e s' cs -> match_at r pos s = Some (e, cs).
Proof. intros H. unfold match_at. now apply H. Qed.


Lemma exec_accepts r s cs e s' :
  accepts r 0 s [] e s' cs -> exec r s = Some cs.
Proof.
  intros H. unfold exec. destruct s; simpl; now rewrite (match_at_accepts _ _ _ _ _ _ H).
Qed.

End RegexFacts.


Module NumstatFacts.
Import Regex RegexFacts Patterns.

Ltac lia_div := zify; Z.to_euclidean_division_equations; lia.

Lemma parseInt_acc_snoc w d acc :
  Forall (fun c => JS.isDigit c = true) w -> JS.isDigit d = true ->
  JS.parseInt_acc acc (w ++ [d]) = (10 * JS.parseInt_acc acc w + (d - 0x30))%N.
Proof.
  intros Hw Hd. revert acc. induction Hw as [|c w Hc _ IH]; intros acc; simpl.
  - now rewrite Hd.
  - rewrite Hc. apply IH.
Qed.

Lemma isDigit_spec c : JS.isDigit c = true <-> (0x30 <= c <= 0x39)%N.
Proof. unfold JS.isDigit. rewrite andb_true_iff, !N.leb_le. tauto. Qed.

Lemma decimal_rev_spec fuel : forall n,
  (n < 10 ^ N.of_nat fuel)%N ->
  Forall (fun c => JS.isDigit c = true) (rev (decimal_rev fuel n))
  /\ (fuel <> 0 -> decimal_rev fuel n <> [])
  /\ JS.parseInt_acc 0%N (rev (decimal_rev fuel n)) = n.
Proof.
  induction fuel as [|fuel IH]; intros n Hn.
  - simpl in Hn. assert (n = 0%N) as -> by lia. repeat split; [constructor|congruence].
  - cbn [decimal_rev]. destruct (N.ltb_spec n 10) as [Hlt|Hge].
    + repeat split; [|discriminate|].
      * repeat constructor. apply isDigit_spec. lia.
      * simpl. rewrite (proj2 (isDigit_spec _)) by lia. lia.
    + assert (Hq : (n / 10 < 10 ^ N.of_nat fuel)%N).
      { rewrite Nat2N.inj_succ, N.pow_succ_r' in Hn. lia_div. }
      destruct (IH _ Hq) as (Hd & _ & Hv).
      assert (Hlast : JS.isDigit (48 + n mod 10)%N = true) by (apply isDigit_spec; lia_div).
      repeat split; [|discriminate|].
      * cbn [rev]. apply Forall_app. split; [exact Hd|]. now repeat constructor.
      * cbn [rev]. rewrite parseInt_acc_snoc by assumption. rewrite Hv. lia_div.
Qed.

Lemma decimal_spec n :
  decimal n <> [] /\ Forall (fun c => JS.isDigit c = true) (decimal n)
  /\ JS.parseInt10 (decimal n) = JS.toNumber n.
Proof.
  unfold decimal, JS.parseInt10.
  assert (Hn : (n < 10 ^ N.of_nat (S (N.to_nat (N.log2 n))))%N).
  { rewrite Nat2N.inj_succ, N2Nat.id.
    destruct (N.eq_dec n 0%N) as [->|Hpos]; [reflexivity|].
    apply N.lt_le_trans with (2 ^ N.succ (N.log2 n))%N.
    - apply N.log2_spec. lia.
    - apply N.pow_le_mono_l. lia. }
  destruct (decimal_rev_spec _ _ Hn) as (Hd & Hne & Hv).
  repeat split; try assumption.
  - intros E. apply (f_equal (@rev N)) in E. rewrite rev_involutive in E.
    now apply Hne.
  - now rewrite Hv.
Qed.

(** On the samples the conversion and the addition are those of the
    Standard Library's IEEE 754 specification. *)
Lemma toNumber_binary64_samples :
  List.map (fun n => numberOf (binary64 n)) NUMBER_SAMPLES
  = List.map (fun n => Some (JS.toNumber n)) NUMBER_SAMPLES.
Proof. vm_compute. reflexivity. Qed.

Lemma add_binary64_samples :
  List.map (fun n => numberOf (binary64_add (binary64 n) (binary64 (2 ^ 53 - 1))))
           NUMBER_SAMPLES
  = List.map (fun n => Some (JS.add (JS.toNumber n) (JS.toNumber (2 ^ 53 - 1))))
             NUMBER_SAMPLES.
Proof. vm_compute. reflexivity. Qed.

(** Below 2^53 the conversion and the addition are exact. *)
Lemma toNumber_exact n : (n < EXACT_BOUND)%N -> JS.toNumber n = JS.finite n.
Proof. intros H. unfold JS.toNumber. apply N.ltb_lt in H. unfold EXACT_BOUND in H. now rewrite H. Qed.

Lemma add_exact x y :
  (x + y < EXACT_BOUND)%N -> JS.add (JS.finite x) (JS.finite y) = JS.finite (x + y).
Proof. intros H. unfold JS.add. now apply toNumber_exact. Qed.

Lemma fold_add_exact ns : forall acc,
  (acc + total ns < EXACT_BOUND)%N ->
  fold_left JS.add (List.map JS.finite ns) (JS.finite acc) = JS.finite (acc + total ns).
Proof.
  induction ns as [|x ns IH]; intros acc H; cbn [fold_left List.map].
  - cbn. now rewrite N.add_0_r.
  - change (total (x :: ns)) with (x + total ns)%N in *.
    rewrite add_exact by lia. rewrite IH by lia. f_equal. lia.
Qed.

Lemma sumOf_map (f : DiffFileStat -> JS.number) l : forall acc,
  fold_left (fun a x => JS.add a (f x)) l acc = fold_left JS.add (List.map f l) acc.
Proof. induction l as [|x l IH]; intros acc; [reflexivity|]. cbn. apply IH. Qed.

Lemma sumOf_exact (f : DiffFileStat -> JS.number) l ns :
  List.map f l = List.map JS.finite ns -> (total ns < EXACT_BOUND)%N ->
  sumOf f l = JS.finite (total ns).
Proof.
  intros Hmap Hlt. unfold sumOf. rewrite sumOf_map, Hmap.
  change (JS.toNumber 0) with (JS.finite 0).
  now rewrite fold_add_exact.
Qed.

Lemma countOf_exact l :
  (N.of_nat (length l) < EXACT_BOUND)%N -> countOf l = JS.finite (N.of_nat (length l)).
Proof.
  unfold countOf. change (JS.toNumber 0) with (JS.finite 0).
  change (JS.toNumber 1) with (JS.finite 1).
  assert (H : forall acc, (acc + N.of_nat (length l) < EXACT_BOUND)%N ->
            fold_left (fun a (_ : DiffFileStat) => JS.add a (JS.finite 1)) l (JS.finite acc)
            = JS.finite (acc + N.of_nat (length l))).
  { induction l as [|x l IH]; intros acc Hacc; cbn [fold_left length] in *.
    - now rewrite N.add_0_r.
    - rewrite add_exact by lia. rewrite IH by lia. f_equal. lia. }
  intros Hlt. now rewrite H.
Qed.

Lemma decimal_countField n : countField (decimal n).
Proof. left. destruct (decimal_spec n) as (H1 & H2 & _). now split. Qed.

(** The group "(\d+|-)" in front of a tab. *)
Lemma accepts_count_group i a rest pos cs :
  countField a ->
  accepts (Group i (Alt (plus digit) (chr 0x2D))) pos (a ++ JS.TAB :: rest) cs
          (pos + length a) (JS.TAB :: rest) ((i, a) :: cs).
Proof.
  intros Ha.
  apply accepts_Group_eq; [|apply take_after].
  destruct Ha as [[Hne Hd]| ->].
  - apply accepts_Alt_l. apply accepts_greedy_run; [exact Hd| |reflexivity].
    destruct a; [congruence|simpl; lia].
  - apply accepts_Alt_r.
    + apply rejects_plus_stops. reflexivity.
    + replace (pos + length (JS.lit "-")) with (S pos) by (simpl; lia).
      apply accepts_chr.
Qed.

Lemma numstat_accepts a b p :
  countField a -> countField b -> oneLine p ->
  exists e, accepts NUMSTAT_REGEX 0 (a ++ JS.TAB :: b ++ JS.TAB :: p) []
              e [] [(3, p); (2, b); (1, a)].
Proof.
  intros Ha Hb Hp. eexists. unfold NUMSTAT_REGEX. cbn [seq].
  eapply accepts_Seq; [apply accepts_Bol|].
  eapply accepts_Seq; [now apply accepts_count_group|].
  eapply accepts_Seq; [apply accepts_chr|].
  eapply accepts_Seq; [now apply accepts_count_group|].
  eapply accepts_Seq; [apply accepts_chr|].
  eapply accepts_Seq; [|apply accepts_Eol].
  eapply accepts_Group_eq.
  - apply accepts_greedy_all; [|lia].
    eapply Forall_impl; [exact Hp|]. simpl. now intros c ->.
  - rewrite <- (app_nil_r p) at 2. apply take_after.
Qed.

Lemma numstat_exec a b p :
  countField a -> countField b -> oneLine p ->
  exec NUMSTAT_REGEX (a ++ JS.TAB :: b ++ JS.TAB :: p) = Some [(3, p); (2, b); (1, a)].
Proof.
  intros Ha Hb Hp. destruct (numstat_accepts a b p Ha Hb Hp) as [e He].
  exact (exec_accepts _ _ _ _ _ He).
Qed.

Lemma digits_not_dash a :
  a <> [] -> Forall (fun c => JS.isDigit c = true) a -> a <> JS.lit "-".
Proof. intros _ Hd ->. inversion Hd; subst. discriminate. Qed.


Lemma parseNumStatLine_counts n m p :
  oneLine p ->
  parseNumStatLine (decimal n ++ JS.TAB :: decimal m ++ JS.TAB :: p)
  = Some {| file := p; changes := JS.add (JS.toNumber n) (JS.toNumber m);
            insertions := JS.toNumber n; deletions := JS.toNumber m;
            binary := false |}.
Proof.
  intros Hp. unfold parseNumStatLine.
  rewrite numstat_exec by (try apply decimal_countField; exact Hp).
  cbv zeta. unfold group. cbn [cap Nat.eqb default].
  destruct (decimal_spec n) as (Hn1 & Hn2 & Hn3).
  destruct (decimal_spec m) as (Hm1 & Hm2 & Hm3).
  unfold JS.str_eqb.
  rewrite !bool_decide_false by now apply digits_not_dash.
  cbn [orb]. cbv [id]. now rewrite Hn3, Hm3.
Qed.

Lemma parseNumStatLine_binary a b p :
  countField a -> countField b -> a = JS.lit "-" \/ b = JS.lit "-" -> oneLine p ->
  parseNumStatLine (a ++ JS.TAB :: b ++ JS.TAB :: p)
  = Some {| file := p; changes := JS.finite 0; insertions := JS.finite 0;
            deletions := JS.finite 0; binary := true |}.
Proof.
  intros Ha Hb Hdash Hp. unfold parseNumStatLine.
  rewrite numstat_exec by assumption.
  cbv zeta. unfold group. cbn [cap Nat.eqb default]. unfold JS.str_eqb.
  destruct Hdash as [-> | ->].
  - rewrite bool_decide_true by reflexivity. reflexivity.
  - rewrite (bool_decide_true (JS.lit "-" = JS.lit "-")) by reflexivity.
    rewrite orb_true_r. reflexivity.
Qed.

Lemma parseNumStatLine_binary_zero line f :
  parseNumStatLine line = Some f -> binary f = true ->
  insertions f = JS.finite 0 /\ deletions f = JS.finite 0 /\ changes f = JS.finite 0.
Proof.
  unfold parseNumStatLine. destruct (exec NUMSTAT_REGEX line) as [m|]; [|discriminate].
  intros Hf. inversion Hf; subst f; clear Hf. cbn [binary insertions deletions changes].
  now intros ->.
Qed.

Lemma numStat_fold lines : forall acc,
  fold_left numStatStep lines acc =
  let fs := omap parseNumStatLine lines in
  {| dfiles := dfiles acc ++ fs;
     total_insertions := fold_left (fun a x => JS.add a (insertions x)) fs
                                   (total_insertions acc);
     total_deletions := fold_left (fun a x => JS.add a (deletions x)) fs
                                  (total_deletions acc);
     total_changes := fold_left (fun a x => JS.add a (changes x)) fs (total_changes acc);
     changed := fold_left (fun a _ => JS.add a (JS.toNumber 1)) fs (changed acc) |}.
Proof.
  induction lines as [|l ls IH]; intros acc.
  - cbn. rewrite app_nil_r. now destruct acc.
  - cbn [fold_left omap list_omap]. rewrite IH. unfold numStatStep.
    destruct (parseNumStatLine l) as [f|]; [|reflexivity].
    cbv zeta.
    cbn [dfiles total_insertions total_deletions total_changes changed fold_left].
    now rewrite <- app_assoc.
Qed.

(** *** A line within a body *)

Lemma trimEnd_app_nonblank s d t :
  JS.isWhiteSpace d = false ->
  exists t' w, t = t' ++ w /\ Forall (fun c => JS.isWhiteSpace c = true) w
               /\ JS.trimEnd (s ++ d :: t) = s ++ d :: t'
               /\ (t' = [] \/ exists r x, t' = r ++ [x] /\ JS.isWhiteSpace x = false).
Proof.
  intros Hd. unfold JS.trimEnd.
  assert (E : rev (s ++ d :: t) = rev t ++ d :: rev s).
  { rewrite rev_app_distr. cbn [rev]. now rewrite <- app_assoc. }
  rewrite E, trimStart_app_nonblank by exact Hd.
  destruct (trimStart_last_nonblank (rev t) d Hd) as [u Hu].
  destruct (trimStart_suffix (rev t ++ [d])) as (w & Hw & Hall).
  rewrite Hu in Hw |- *.
  assert (Ht : rev t = w ++ u).
  { rewrite app_assoc in Hw. now apply app_inj_tail in Hw as [Hw _]. }
  exists (rev u), (rev w). split; [|split; [|split]].
  - apply (f_equal (@rev N)) in Ht. now rewrite rev_involutive, rev_app_distr in Ht.
  - apply Forall_forall. intros c Hc. rewrite forallb_forall in Hall. apply Hall.
    apply list_elem_of_In in Hc. now apply in_rev.
  - rewrite rev_app_distr, rev_app_distr. cbn [rev app]. now rewrite rev_involutive.
  - destruct u as [|x u]; [now left|right].
    exists (rev u), x. split; [reflexivity|].
    apply (trimStart_head (rev t ++ [d]) x (u ++ [d])). now rewrite Hu.
Qed.

Lemma trimStart_before s c t :
  JS.isWhiteSpace c = false ->
  exists s', JS.trimStart (s ++ c :: t) = s' ++ c :: t
             /\ (s' = [] \/ exists x, last s = Some x /\ last s' = Some x).
Proof.
  intros Hc. rewrite trimStart_app_nonblank by exact Hc.
  destruct (trimStart_last_nonblank s c Hc) as [u Hu]. rewrite Hu.
  exists u. rewrite <- app_assoc. split; [reflexivity|].
  destruct (trimStart_suffix (s ++ [c])) as (w & Hw & _). rewrite Hu in Hw.
  rewrite app_assoc in Hw. apply app_inj_tail in Hw as [Hw _].
  destruct u as [|x u] using rev_ind; [now left|]. right. clear IHu.
  exists x. split; [|apply last_snoc]. rewrite Hw, app_assoc. apply last_snoc.
Qed.

Lemma join_cons_more sep x y (rest : list jsstr) :
  JS.join sep (x :: y :: rest) = x ++ sep ++ JS.join sep (y :: rest).
Proof. reflexivity. Qed.

(** The text around one line of a joined body. *)
Lemma join_around l1 line l2 :
  JS.join [JS.LF] (l1 ++ line :: l2)
  = match l1 with [] => [] | _ => JS.join [JS.LF] l1 ++ [JS.LF] end
    ++ line ++ match l2 with [] => [] | _ => JS.LF :: JS.join [JS.LF] l2 end.
Proof.
  induction l1 as [|x l1 IH].
  - destruct l2 as [|y l2]; cbn [app]; [cbn; now rewrite app_nil_r|].
    now rewrite join_cons_more.
  - destruct l1 as [|y l1].
    + cbn [app] in *. rewrite join_cons_more, IH. cbn [JS.join].
      now rewrite <- !app_assoc.
    + change ((x :: y :: l1) ++ line :: l2) with (x :: y :: (l1 ++ line :: l2)).
      rewrite join_cons_more.
      change (y :: l1 ++ line :: l2) with ((y :: l1) ++ line :: l2). rewrite IH.
      rewrite join_cons_more. now rewrite <- !app_assoc.
Qed.

(** A line of a body is still a line once the body is trimmed, perhaps
    without the white space at its end: [core] is the line up to its last
    unit that is not white space. *)
Lemma line_survives_trim body core blanks :
  core ++ blanks ∈ JS.split JS.LF body ->
  (exists c u d, core = c :: u ++ [d]
                 /\ JS.isWhiteSpace c = false /\ JS.isWhiteSpace d = false) ->
  Forall (fun c => JS.isWhiteSpace c = true) blanks ->
  core ++ blanks ∈ nonEmptyLines body \/ core ∈ nonEmptyLines body.
Proof.
  intros Hin (c & u & d & Hcore & Hc & Hd) Hblanks.
  set (line := core ++ blanks) in *.
  assert (Hno : JS.LF ∉ line).
  { pose proof (split_pieces_nosep JS.LF body) as Hall.
    rewrite Forall_forall in Hall. now apply Hall. }
  assert (Hnoc : JS.LF ∉ core).
  { intros H. apply Hno. apply elem_of_app. now left. }
  apply list_elem_of_split in Hin as (l1 & l2 & Hsplit).
  pose proof (join_split JS.LF body) as Hbody. rewrite Hsplit in Hbody.
  assert (Hshape : exists pre post,
            body = pre ++ line ++ post
            /\ (pre = [] \/ last pre = Some JS.LF)
            /\ (post = [] \/ exists q, post = JS.LF :: q)).
  { exists (match l1 with [] => [] | _ => JS.join [JS.LF] l1 ++ [JS.LF] end),
           (match l2 with [] => [] | _ => JS.LF :: JS.join [JS.LF] l2 end).
    split; [|split].
    - rewrite <- Hbody. apply join_around.
    - destruct l1; [now left|right]. now rewrite last_snoc.
    - destruct l2; [now left|right; now eexists]. }
  destruct Hshape as (pre & post & -> & Hpre & Hpost). clear Hsplit Hbody.
  assert (Hmember : forall pre' tail, (pre' = [] \/ exists p0, pre' = p0 ++ [JS.LF]) ->
            forall l, JS.LF ∉ l -> l <> [] ->
            (tail = [] \/ exists q0, tail = JS.LF :: q0) ->
            l ∈ List.filter JS.truthy (JS.split JS.LF (pre' ++ l ++ tail))).
  { intros pre' tail Hp l Hl Hne Ht.
    apply list_elem_of_In, filter_In. split; [|now destruct l].
    apply list_elem_of_In.
    destruct Hp as [->|[p0 ->]], Ht as [->|[q0 ->]].
    - cbn [app]. rewrite app_nil_r, split_nosep by exact Hl. apply list_elem_of_here.
    - cbn [app]. rewrite split_app_sep, split_nosep by exact Hl.
      apply list_elem_of_here.
    - rewrite app_nil_r, <- app_assoc. cbn [app]. rewrite split_app_sep.
      rewrite (split_nosep _ l) by exact Hl. apply elem_of_app. right.
      apply list_elem_of_here.
    - rewrite <- app_assoc. cbn [app]. rewrite split_app_sep, split_app_sep.
      rewrite (split_nosep _ l) by exact Hl. apply elem_of_app. right.
      apply list_elem_of_here. }
  unfold nonEmptyLines, JS.trim.
  assert (Hbody : pre ++ line ++ post = pre ++ c :: (u ++ d :: blanks ++ post)).
  { unfold line. rewrite Hcore. cbn [app]. now rewrite <- !app_assoc. }
  rewrite Hbody.
  destruct (trimStart_before pre c (u ++ d :: blanks ++ post) Hc) as (pre' & -> & Hpre').
  replace (pre' ++ c :: u ++ d :: blanks ++ post)
    with ((pre' ++ c :: u) ++ d :: (blanks ++ post)) by now rewrite <- app_assoc.
  destruct (trimEnd_app_nonblank (pre' ++ c :: u) d (blanks ++ post) Hd)
    as (t' & w & Ht & Hw & -> & Ht').
  assert (Hpre2 : pre' = [] \/ exists p0, pre' = p0 ++ [JS.LF]).
  { destruct Hpre' as [->|(x & Hx & Hx')]; [now left|right].
    destruct Hpre as [->|Hpre]; [discriminate Hx|].
    rewrite Hpre in Hx. inversion Hx; subst x.
    destruct pre' as [|y p0] using rev_ind; [discriminate Hx'|].
    rewrite last_snoc in Hx'. inversion Hx'; subst. now exists p0. }
  assert (Hcore2 : (pre' ++ c :: u) ++ d :: t' = pre' ++ core ++ t').
  { rewrite Hcore. cbn [app]. now rewrite <- !app_assoc. }
  rewrite Hcore2.
  assert (Hcne : core <> []) by (rewrite Hcore; discriminate).
  destruct Ht' as [->|(r & x & Hr & Hx)].
  - right. now apply Hmember; [| | |left].
  - left.
    apply app_eq_app in Ht as [l [[Hb Hp]|[Hb Hp]]].
    + exfalso. rewrite Forall_forall in Hblanks.
      rewrite (Hblanks x) in Hx; [discriminate|].
      rewrite Hb, Hr. apply elem_of_app. left. apply elem_of_app. right.
      apply list_elem_of_singleton. reflexivity.
    + destruct l as [|y l].
      { exfalso. rewrite app_nil_r in Hb. rewrite Forall_forall in Hblanks.
        rewrite (Hblanks x) in Hx; [discriminate|].
        rewrite <- Hb, Hr. apply elem_of_app. right.
        apply list_elem_of_singleton. reflexivity. }
      destruct Hpost as [->|[q Hq]]; [discriminate Hp|].
      rewrite Hq in Hp. inversion Hp; subst y.
      rewrite Hb. unfold line.
      replace (pre' ++ core ++ blanks ++ JS.LF :: l)
        with (pre' ++ (core ++ blanks) ++ JS.LF :: l) by now rewrite <- app_assoc.
      apply Hmember; [exact Hpre2|exact Hno| |right; now eexists].
      intros E. apply app_eq_nil in E as [E _]. contradiction.
Qed.

Lemma countField_head a :
  countField a -> exists c t, a = c :: t /\ JS.isWhiteSpace c = false.
Proof.
  intros [[Hne Hd]| ->].
  - destruct a as [|c t]; [congruence|]. exists c, t. split; [reflexivity|].
    inversion Hd; subst. apply isDigit_spec in H1.
    unfold JS.isWhiteSpace.
    repeat match goal with
           | |- context [(c =? ?k)%N] => destruct (N.eqb_spec c k); [lia|]
           end.
    cbn. try reflexivity.
    repeat match goal with
           | |- context [(?lo <=? c)%N] => destruct (N.leb_spec lo c); [lia|]
           end. reflexivity.
  - now exists 0x2D%N, [].
Qed.

Lemma visible_parts p :
  visible p ->
  exists u d blanks, JS.trimEnd p = u ++ [d] /\ JS.isWhiteSpace d = false
                     /\ p = JS.trimEnd p ++ blanks
                     /\ Forall (fun c => JS.isWhiteSpace c = true) blanks.
Proof.
  unfold visible, JS.trimEnd. intros Hne.
  destruct (trimStart_suffix (rev p)) as (w & Hw & Hall).
  destruct (JS.trimStart (rev p)) as [|d u] eqn:E; [now cbn in Hne|].
  exists (rev u), d, (rev w). split; [reflexivity|].
  split; [exact (trimStart_head _ _ _ E)|]. split.
  - apply (f_equal (@rev N)) in Hw. now rewrite rev_involutive, rev_app_distr in Hw.
  - apply Forall_forall. intros c Hc. rewrite forallb_forall in Hall. apply Hall.
    apply list_elem_of_In in Hc. now apply in_rev.
Qed.

Lemma oneLine_trimEnd p : oneLine p -> oneLine (JS.trimEnd p).
Proof.
  intros Hp. unfold JS.trimEnd.
  destruct (trimStart_suffix (rev p)) as (w & Hw & _).
  apply Forall_forall. intros c Hc. unfold oneLine in Hp. rewrite Forall_forall in Hp.
  apply Hp. apply list_elem_of_In, in_rev. rewrite Hw. apply in_or_app. right.
  apply list_elem_of_In in Hc. now apply in_rev in Hc.
Qed.

(** A numstat line with a visible path is one of the lines the parser
    walks, perhaps without the white space at the end of the path, and is
    parsed as a line on its own is. *)
Lemma numstat_line_parsed body a b p (stat : jsstr -> DiffFileStat) :
  countField a -> countField b -> oneLine p -> visible p ->
  a ++ JS.TAB :: b ++ JS.TAB :: p ∈ JS.split JS.LF body ->
  (forall q, oneLine q -> parseNumStatLine (a ++ JS.TAB :: b ++ JS.TAB :: q) = Some (stat q)) ->
  stat p ∈ dfiles (parseNumStat body) \/ stat (JS.trimEnd p) ∈ dfiles (parseNumStat body).
Proof.
  intros Ha Hb Hone Hp Hin Hstat.
  unfold parseNumStat. rewrite numStat_fold. cbv zeta. cbn [dfiles emptyDiffSummary app].
  destruct (countField_head a Ha) as (c & t & Hac & Hc).
  destruct (visible_parts p Hp) as (u & d & blanks & Hu & Hd & Hpb & Hblanks).
  destruct (line_survives_trim body (a ++ JS.TAB :: b ++ JS.TAB :: JS.trimEnd p) blanks)
    as [H|H].
  - rewrite <- !app_assoc. cbn [app]. rewrite <- !app_assoc. cbn [app].
    now rewrite <- Hpb.
  - exists c, (t ++ JS.TAB :: b ++ JS.TAB :: u), d. split; [|now split].
    rewrite Hac, Hu. cbn [app]. rewrite <- !app_assoc. cbn [app]. now rewrite <- app_assoc.
  - exact Hblanks.
  - left. apply list_elem_of_omap. exists (a ++ JS.TAB :: b ++ JS.TAB :: p).
    split; [|now apply Hstat].
    rewrite <- !app_assoc in H. cbn [app] in H. rewrite <- !app_assoc in H. cbn [app] in H.
    now rewrite <- Hpb in H.
  - right. apply list_elem_of_omap. exists (a ++ JS.TAB :: b ++ JS.TAB :: JS.trimEnd p).
    split; [exact H|]. apply Hstat. now apply oneLine_trimEnd.
Qed.

End NumstatFacts.

Section NumstatClaims.
Import NumstatFacts.

(** C7. A line [<n> TAB <m> TAB <path>] of a numstat body, with decimal
    counts and a path that has no line terminator and is not white space
    only, parses to a stat with binary false whose insertions and deletions
    are the Numbers for n and m: n and m themselves below 2^53, the nearest
    doubles beyond.  The file of the stat is the path, or the path without
    the white space at its end, which the trimming of the body removes when
    the line is its last.  Such a line with a dash in a count position
    parses with binary true; every parsed stat with binary true has
    insertions and deletions 0; and the running totals of a body are the
    sums, and the file count the number, of its parsed lines, added up as
    Numbers, which is exact while the sums stay below 2^53. *)
Theorem numstat_parsing (body : jsstr) (n m : N) (a b path : jsstr) :
  oneLine path -> visible path -> countField a -> countField b ->
  a = JS.lit "-" \/ b = JS.lit "-" ->
  let summary := parseNumStat body in
  (decimal n ++ JS.TAB :: decimal m ++ JS.TAB :: path ∈ JS.split JS.LF body ->
   exists name,
     (name = path \/ name = JS.trimEnd path)
     /\ {| file := name; changes := JS.add (JS.toNumber n) (JS.toNumber m);
           insertions := JS.toNumber n; deletions := JS.toNumber m; binary := false |}
        ∈ dfiles summary)
  /\ ((n + m < EXACT_BOUND)%N ->
      JS.toNumber n = JS.finite n /\ JS.toNumber m = JS.finite m
      /\ JS.add (JS.toNumber n) (JS.toNumber m) = JS.finite (n + m))
  /\ (a ++ JS.TAB :: b ++ JS.TAB :: path ∈ JS.split JS.LF body ->
      exists name,
        (name = path \/ name = JS.trimEnd path)
        /\ {| file := name; changes := JS.finite 0; insertions := JS.finite 0;
              deletions := JS.finite 0; binary := true |} ∈ dfiles summary)
  /\ dfiles summary = omap parseNumStatLine (nonEmptyLines body)
  /\ Forall (fun f => binary f = true ->
                      insertions f = JS.finite 0 /\ deletions f = JS.finite 0)
            (dfiles summary)
  /\ total_insertions summary = sumOf insertions (dfiles summary)
  /\ total_deletions summary = sumOf deletions (dfiles summary)
  /\ total_changes summary = sumOf changes (dfiles summary)
  /\ changed summary = countOf (dfiles summary)
  /\ (forall (field : DiffFileStat -> JS.number) (ns : list N),
        List.map field (dfiles summary) = List.map JS.finite ns ->
        (total ns < EXACT_BOUND)%N ->
        sumOf field (dfiles summary) = JS.finite (total ns))
  /\ ((N.of_nat (length (dfiles summary)) < EXACT_BOUND)%N ->
      changed summary = JS.finite (N.of_nat (length (dfiles summary)))).
Proof.
  intros Hp Hvis Ha Hb Hdash. cbv zeta.
  assert (Hsum : parseNumStat body
                 = let fs := omap parseNumStatLine (nonEmptyLines body) in
                   {| dfiles := fs; total_insertions := sumOf insertions fs;
                      total_deletions := sumOf deletions fs;
                      total_changes := sumOf changes fs; changed := countOf fs |}).
  { unfold parseNumStat. now rewrite numStat_fold. }
  split.
  { intros Hin.
    destruct (numstat_line_parsed body (decimal n) (decimal m) path
                (fun q => {| file := q;
                             changes := JS.add (JS.toNumber n) (JS.toNumber m);
                             insertions := JS.toNumber n; deletions := JS.toNumber m;
                             binary := false |})) as [H|H];
      try apply decimal_countField; try assumption.
    - intros q Hq. now apply parseNumStatLine_counts.
    - exists path. split; [now left|exact H].
    - exists (JS.trimEnd path). split; [now right|exact H]. }
  split.
  { intros Hlt. rewrite !toNumber_exact by lia.
    split; [reflexivity|]. split; [reflexivity|]. now apply add_exact. }
  split.
  { intros Hin.
    destruct (numstat_line_parsed body a b path
                (fun q => {| file := q; changes := JS.finite 0; insertions := JS.finite 0;
                             deletions := JS.finite 0; binary := true |})) as [H|H];
      try assumption.
    - intros q Hq. now apply parseNumStatLine_binary.
    - exists path. split; [now left|exact H].
    - exists (JS.trimEnd path). split; [now right|exact H]. }
  rewrite Hsum. cbv zeta.
  cbn [dfiles total_insertions total_deletions total_changes changed].
  split; [reflexivity|].
  split.
  { apply Forall_forall. intros f Hin.
    apply list_elem_of_omap in Hin as (line & _ & Hline).
    intros Hbin. destruct (parseNumStatLine_binary_zero _ _ Hline Hbin) as (? & ? & _).
    now split. }
  repeat (split; [reflexivity|]).
  split.
  - intros field ns Hmap Hlt. now apply sumOf_exact.
  - intros Hlt. now apply countOf_exact.
Qed.

End NumstatClaims.

Lemma numstat_parsing_witness :
  let summary := parseNumStat sample_numstat in
  {| file := JS.lit "src/app.ts"; changes := JS.finite 3; insertions := JS.finite 2;
     deletions := JS.finite 1; binary := false |} ∈ dfiles summary
  /\ {| file := JS.lit "bin/file"; changes := JS.finite 0; insertions := JS.finite 0;
        deletions := JS.finite 0; binary := true |} ∈ dfiles summary
  /\ total_insertions summary = JS.finite 2
  /\ changed summary = JS.finite 2.
Proof.
  assert (Hone : forall s, oneLine (JS.lit s) <-> forallb (fun c => negb (JS.isLineTerminator c)) (JS.lit s) = true).
  { intros s. unfold oneLine. rewrite forallb_forall, Forall_forall. split.
    - intros H c Hc. apply negb_true_iff, H. now apply list_elem_of_In.
    - intros H c Hc. apply negb_true_iff, H. now apply list_elem_of_In. }
  assert (Hd : countField (JS.lit "-")) by (right; reflexivity).
  destruct (numstat_parsing sample_numstat 2%N 1%N (JS.lit "-") (JS.lit "-")
              (JS.lit "src/app.ts")) as (H1 & _);
    [now apply Hone|discriminate|exact Hd|exact Hd|now left|].
  destruct (numstat_parsing sample_numstat 2%N 1%N (JS.lit "-") (JS.lit "-")
              (JS.lit "bin/file ")) as (_ & _ & H3 & _ & _ & H6 & _ & _ & _ & H10 & H11);
    [now apply Hone|discriminate|exact Hd|exact Hd|now left|].
  cbv zeta. split; [|split; [|split]].
  - destruct H1 as (name & [-> | ->] & H); [|exact H|exact H].
    vm_compute. apply list_elem_of_here.
  - destruct H3 as (name & [-> | ->] & H); [| |exact H].
    + vm_compute. apply list_elem_of_further, list_elem_of_here.
    + exfalso. revert H. vm_compute. intros H.
      repeat (apply elem_of_cons in H as [H|H]; [discriminate H|]).
      now apply elem_of_nil in H.
  - rewrite H6. apply (H10 insertions [2%N; 0%N]); vm_compute; reflexivity.
  - apply H11. vm_compute. reflexivity.
Defined.

(** C7 as stated fails twice: a last line whose path is white space is cut
    short by the trimming of the body and yields no stat, and a count that
    no Number holds is rounded. *)
Lemma numstat_not_every_line :
  dfiles (parseNumStat (JS.lit "5" ++ JS.TAB :: JS.lit "3" ++ JS.TAB :: JS.lit " ")) = []
  /\ dfiles (parseNumStat (JS.lit "9007199254740993" ++ JS.TAB :: JS.lit "0"
                            ++ JS.TAB :: JS.lit "f"))
     = [ {| file := JS.lit "f"; changes := JS.finite 9007199254740992;
            insertions := JS.finite 9007199254740992; deletions := JS.finite 0;
            binary := false |} ].
Proof. split; vm_compute; reflexivity. Qed.

(** ** Rename paths and the stats map *)

Module RenameFacts.
Import Regex RegexFacts Patterns.

Section LazyRuns.

Variable p : N -> bool.
Variable m : nat -> jsstr -> caps -> cont -> option (nat * caps).
Hypothesis m_cons : forall c t pos cs k, p c = true -> m pos (c :: t) cs k = k (S pos) t cs.


Hypothesis m_stops : forall rest pos cs k, stops p rest -> m pos rest cs k = None.

(** A greedy quantifier fails when the continuation fails at every place of
    the run. *)
Lemma RepeatMatcher_greedy_none (k : cont) w : forall fuel pos rest cs,
  Forall (fun c => p c = true) w -> stops p rest ->
  (forall j, j <= length w -> k (pos + j) (drop j w ++ rest) cs = None) ->
  RepeatMatcher m k true fuel 0 None pos (w ++ rest) cs = None.
Proof.
  induction w as [|c w IH]; intros fuel pos rest cs Hw Hstop Hk.
  - destruct fuel as [|fuel]; [reflexivity|].
    cbn [RepeatMatcher app]. change (0 =? 0) with true. cbn [negb].
    rewrite m_stops by exact Hstop. cbn [orelse].
    specialize (Hk 0 ltac:(lia)). now rewrite Nat.add_0_r in Hk.
  - inversion Hw as [|? ? Hc Hw']; subst.
    destruct fuel as [|fuel]; [reflexivity|].
    cbn [RepeatMatcher fmap option_fmap option_map app].
    change (0 =? 0) with true. cbn [negb andb].
    rewrite m_cons by exact Hc.
    rewrite (proj2 (Nat.eqb_neq (S pos) pos)) by lia.
    cbn [Nat.pred]. rewrite IH; try assumption.
    + cbn [orelse]. specialize (Hk 0 ltac:(lia)). now rewrite Nat.add_0_r in Hk.
    + intros j Hj. specialize (Hk (S j) ltac:(simpl; lia)).
      now replace (S pos + j) with (pos + S j) by lia.
Qed.

End LazyRuns.




(** *** What trimming leaves alone *)








Lemma trim_single c : JS.isWhiteSpace c = false -> JS.trim [c] = [c].
Proof. intros Hc. unfold JS.trim, JS.trimEnd. simpl. rewrite Hc. simpl. now rewrite Hc. Qed.

(** *** Substring tests *)



Lemma includes_unfold s p :
  JS.includes s p = JS.startsWith s p || match s with [] => false | _ :: t => JS.includes t p end.
Proof. now destruct s. Qed.



(** *** The two rename patterns *)

Lemma rejects_arrow_lit X c t pos cs :
  c <> 0x3D%N -> rejects (Seq (str (JS.lit "=>")) X) pos (c :: t) cs.
Proof.
  intros Hc. apply rejects_Seq_l. change (str (JS.lit "=>")) with (Seq (chr 0x3D) (chr 0x3E)).
  apply rejects_Seq_l, rejects_Chr. apply N.eqb_neq. congruence.
Qed.

Lemma rejects_arrow_lit_nil X pos cs : rejects (Seq (str (JS.lit "=>")) X) pos [] cs.
Proof. intros k. reflexivity. Qed.

Lemma rejects_arrow_lit_head X s pos cs :
  (forall c t, s = c :: t -> c <> 0x3D%N) -> rejects (Seq (str (JS.lit "=>")) X) pos s cs.
Proof.
  intros H. destruct s as [|c t]; [apply rejects_arrow_lit_nil|].
  apply rejects_arrow_lit. now apply (H c t).
Qed.


























End RenameFacts.

Section StatsMap.

Lemma statAt_get stats k st :
  statAt stats k = Some st <-> PlainObject.get STAT_FIELDS stats k = PlainObject.found st.
Proof.
  unfold statAt. destruct (PlainObject.get STAT_FIELDS stats k); split; congruence.
Qed.

Lemma statAt_empty k : statAt PlainObject.empty k = None.
Proof.
  unfold statAt, PlainObject.get, PlainObject.empty. cbn [PlainObject.own PlainObject.proto].
  destruct (JS.str_eqb k PlainObject.PROTO); [reflexivity|].
  rewrite lookup_empty.
  now match goal with |- context [if ?b then _ else _] => destruct b end.
Qed.

(** An assignment is read back under its key, whatever the key. *)
Lemma statAt_set_eq stats k st :
  statAt (PlainObject.set STAT_FIELDS k st stats) k = Some st.
Proof.
  unfold statAt, PlainObject.get, PlainObject.set.
  destruct (JS.str_eqb k PlainObject.PROTO) eqn:E; cbn [STAT_FIELDS PlainObject.proto PlainObject.own].
  - reflexivity.
  - now rewrite lookup_insert_eq.
Qed.

(** An assignment does not change which stat another name leads to. *)
Lemma statAt_set_ne stats k k' st :
  k <> k' -> statAt (PlainObject.set STAT_FIELDS k' st stats) k = statAt stats k.
Proof.
  intros Hne. unfold statAt, PlainObject.get, PlainObject.set, JS.str_eqb.
  case_bool_decide as Ek; case_bool_decide as Ek';
    cbn [STAT_FIELDS PlainObject.proto PlainObject.own].
  - congruence.
  - reflexivity.
  - destruct (PlainObject.own stats !! k); [reflexivity|].
    repeat match goal with |- context [if ?b then _ else _] => destruct b end;
      reflexivity.
  - rewrite lookup_insert_ne by congruence.
    destruct (PlainObject.own stats !! k); [reflexivity|].
    repeat match goal with |- context [if ?b then _ else _] => destruct b end;
      reflexivity.
Qed.

Lemma diffStatsStep_lookups (stats : PlainObject.t LineStat) f :
  let stats' := diffStatsStep stats f in
  let paths := normalizeNumstatPath (file f) in
  statAt stats' (file f) = Some (statOf f)
  /\ (newPath paths <> [] -> statAt stats' (newPath paths) = Some (statOf f))
  /\ (forall op, oldPath paths = Some op -> op <> [] -> statAt stats' op = Some (statOf f)).
Proof.
  cbv zeta. unfold diffStatsStep. fold (statOf f).
  set (paths := normalizeNumstatPath (file f)).
  set (s1 := PlainObject.set STAT_FIELDS (file f) (statOf f) stats).
  set (s2 := if JS.truthy (newPath paths) && negb (JS.str_eqb (newPath paths) (file f))
             then PlainObject.set STAT_FIELDS (newPath paths) (statOf f) s1 else s1).
  assert (Hset : forall o k k', statAt o k = Some (statOf f) ->
            statAt (PlainObject.set STAT_FIELDS k' (statOf f) o) k = Some (statOf f)).
  { intros o k k' Hk. destruct (decide (k = k')) as [->|Hne].
    - apply statAt_set_eq.
    - now rewrite statAt_set_ne. }
  assert (H1 : statAt s1 (file f) = Some (statOf f)) by apply statAt_set_eq.
  assert (H2 : statAt s2 (file f) = Some (statOf f)).
  { unfold s2. destruct (_ && _); [|exact H1]. now apply Hset. }
  assert (H2n : newPath paths <> [] -> statAt s2 (newPath paths) = Some (statOf f)).
  { intros Hne. unfold s2, JS.str_eqb.
    destruct (newPath paths) as [|c t] eqn:En; [congruence|]. cbn [JS.truthy andb].
    case_bool_decide as Heq; cbn [negb].
    - rewrite Heq. exact H1.
    - apply statAt_set_eq. }
  assert (Hkeep : forall k, statAt s2 k = Some (statOf f) ->
            statAt match oldPath paths with
                   | Some op =>
                       if JS.truthy op && negb (JS.str_eqb op (file f))
                          && negb (JS.str_eqb op (newPath paths))
                       then PlainObject.set STAT_FIELDS op (statOf f) s2 else s2
                   | None => s2
                   end k = Some (statOf f)).
  { intros k Hk. destruct (oldPath paths) as [op|]; [|exact Hk].
    destruct (JS.truthy op && negb (JS.str_eqb op (file f))
              && negb (JS.str_eqb op (newPath paths))); [|exact Hk].
    now apply Hset. }
  split; [now apply Hkeep|]. split; [intros Hne; now apply Hkeep, H2n|].
  intros op Hop Hne. rewrite Hop. unfold JS.str_eqb.
  destruct op as [|c t]; [congruence|]. cbn [JS.truthy andb].
  case_bool_decide as E1; cbn [negb andb].
  - rewrite E1. exact H2.
  - case_bool_decide as E2; cbn [negb].
    + rewrite E2. apply H2n. rewrite <- E2. discriminate.
    + apply statAt_set_eq.
Qed.

Lemma createDiffStatsMap_last summary fs f :
  dfiles summary = fs ++ [f] ->
  createDiffStatsMap summary = diffStatsStep (fold_left diffStatsStep fs PlainObject.empty) f.
Proof. intros H. unfold createDiffStatsMap. now rewrite H, fold_left_app. Qed.

Lemma diffStatsStep_key (stats : PlainObject.t LineStat) f k :
  k ∈ statKeys f -> statAt (diffStatsStep stats f) k = Some (statOf f).
Proof.
  destruct (diffStatsStep_lookups stats f) as (H1 & H2 & H3).
  unfold statKeys. cbv zeta. rewrite elem_of_cons, elem_of_app.
  intros [->|[Hk|Hk]]; [exact H1| |].
  - destruct (newPath (normalizeNumstatPath (file f))) as [|c t] eqn:E;
      cbn [JS.truthy] in Hk; [now apply elem_of_nil in Hk|].
    apply list_elem_of_singleton in Hk. subst k. now apply H2.
  - destruct (oldPath (normalizeNumstatPath (file f))) as [op|] eqn:E;
      [|now apply elem_of_nil in Hk].
    destruct op as [|c t]; cbn [JS.truthy] in Hk; [now apply elem_of_nil in Hk|].
    apply list_elem_of_singleton in Hk. subst k. now apply H3.
Qed.

Lemma diffStatsStep_other (stats : PlainObject.t LineStat) g k :
  k ∉ statKeys g -> statAt (diffStatsStep stats g) k = statAt stats k.
Proof.
  unfold statKeys, diffStatsStep. cbv zeta.
  rewrite not_elem_of_cons, not_elem_of_app. intros (Hraw & Hnew & Hold).
  set (paths := normalizeNumstatPath (file g)) in *.
  set (stat := {| added := insertions g; removed := deletions g; stat_binary := binary g |}).
  assert (H2 : statAt (if JS.truthy (newPath paths)
                          && negb (JS.str_eqb (newPath paths) (file g))
                       then PlainObject.set STAT_FIELDS (newPath paths) stat
                              (PlainObject.set STAT_FIELDS (file g) stat stats)
                       else PlainObject.set STAT_FIELDS (file g) stat stats) k
               = statAt stats k).
  { destruct (JS.truthy (newPath paths)) eqn:Et; cbn [andb].
    - destruct (negb _).
      + rewrite !statAt_set_ne; [reflexivity|congruence|].
        intros E. apply Hnew. rewrite E. apply list_elem_of_singleton. reflexivity.
      + now rewrite statAt_set_ne by congruence.
    - now rewrite statAt_set_ne by congruence. }
  destruct (oldPath paths) as [op|]; [|exact H2].
  destruct (JS.truthy op) eqn:Et; cbn [andb]; [|exact H2].
  destruct (negb (JS.str_eqb op (file g)) && negb (JS.str_eqb op (newPath paths)));
    [|exact H2].
  rewrite statAt_set_ne; [exact H2|].
  intros E. apply Hold. rewrite E. apply list_elem_of_singleton. reflexivity.
Qed.



End StatsMap.

Section RenameClaims.
Import RenameFacts.


End RenameClaims.



(** ** Fan-out over the discovered repositories *)

Section FanOutFacts.
Import URIFacts.

Context {World : Type}.
Variable runGitCommand :
  list jsstr -> fspath -> option N -> World -> GitCommandResponse * World.

Lemma wrap_succeeds repoName out :
  URI.isWellFormed repoName = true ->
  exists text, wrapRepoSectionOutput repoName out = Some text.
Proof.
  intros Hwf. destruct (encode_decode repoName Hwf) as (e & He & _).
  unfold wrapRepoSectionOutput. rewrite He. cbn [mbind option_bind].
  destruct (negb _); eauto.
Qed.

Lemma fanLoop_spec args timeout fallback rs : forall st w results w',
  runAll World runGitCommand args timeout rs w = (results, w') ->
  Forall (fun r => URI.isWellFormed (relativePath r) = true) rs ->
  exists texts,
    mapM wrapResult (succeeded (zip rs results)) = Some texts
    /\ fanLoop World runGitCommand args timeout fallback rs st w
       = Some ({| outputs := outputs st ++ texts;
                  errors := errors st
                            ++ List.map (errorOf fallback) (failed (zip rs results));
                  hasSuccess := hasSuccess st
                                || match succeeded (zip rs results) with
                                   | [] => false | _ :: _ => true end |}, w').
Proof.
  induction rs as [|r rs IH]; intros st w results w' Hrun Hwf.
  - cbn in Hrun. inversion Hrun; subst. exists []. split; [reflexivity|].
    cbn. rewrite !app_nil_r, orb_false_r. now destruct st.
  - inversion Hwf as [|? ? Hr Hrs]; subst.
    cbn [runAll] in Hrun.
    destruct (runGitCommand args (absolutePath r) timeout w) as [result w1] eqn:E1.
    destruct (runAll World runGitCommand args timeout rs w1) as [results1 w2] eqn:E2.
    inversion Hrun; subst results w'.
    cbn [fanLoop]. rewrite E1. cbv beta iota.
    unfold succeeded, failed. cbn [zip zip_with List.filter snd].
    destruct (success result) eqn:Es; cbn [negb].
    + destruct (wrap_succeeds (relativePath r) (default [] (stdout result)) Hr)
        as [text Ht].
      destruct (IH {| outputs := outputs st ++ [text]; errors := errors st;
                      hasSuccess := true |} w1 results1 w2 E2 Hrs)
        as (texts & Hm & Hloop).
      exists (text :: texts). split.
      * cbn [mapM].
        change (wrapResult (r, result))
          with (wrapRepoSectionOutput (relativePath r) (default [] (stdout result))).
        rewrite Ht.
        cbn [mbind option_bind]. fold (succeeded (zip rs results1)). rewrite Hm.
        reflexivity.
      * rewrite Ht. cbn [mbind option_bind].
        rewrite Hloop. cbn [outputs errors hasSuccess].
        rewrite <- app_assoc, orb_true_r. reflexivity.
    + destruct (IH {| outputs := outputs st;
                      errors := errors st ++ [errorLine fallback r result];
                      hasSuccess := hasSuccess st |} w1 results1 w2 E2 Hrs)
        as (texts & Hm & Hloop).
      exists texts. split; [exact Hm|].
      rewrite Hloop. cbn [outputs errors hasSuccess List.map].
      rewrite <- app_assoc. reflexivity.
Qed.

Lemma fanOut_spec args fallback unavailable r rs timeout w results w' :
  runAll World runGitCommand args timeout (r :: rs) w = (results, w') ->
  Forall (fun r => URI.isWellFormed (relativePath r) = true) (r :: rs) ->
  exists texts,
    mapM wrapResult (succeeded (zip (r :: rs) results)) = Some texts
    /\ fanOut World runGitCommand args fallback unavailable (r :: rs) timeout w
       = Some (fanOutResult fallback unavailable (zip (r :: rs) results) texts, w').
Proof.
  intros Hrun Hwf.
  destruct (fanLoop_spec args timeout fallback (r :: rs)
              {| outputs := []; errors := []; hasSuccess := false |}
              w results w' Hrun Hwf) as (texts & Hm & Hloop).
  exists texts. split; [exact Hm|].
  unfold fanOut. rewrite Hloop. cbn [mbind option_bind outputs errors hasSuccess app orb].
  unfold fanOutResult, rpcError.
  destruct (succeeded (zip (r :: rs) results)); reflexivity.
Qed.

Lemma runAll_length args timeout rs : forall w results w',
  runAll World runGitCommand args timeout rs w = (results, w') ->
  length results = length rs.
Proof.
  induction rs as [|r rs IH]; intros w results w' H; cbn [runAll] in H.
  - now inversion H.
  - destruct (runGitCommand args (absolutePath r) timeout w) as [result w1].
    destruct (runAll World runGitCommand args timeout rs w1) as [results1 w2] eqn:E.
    inversion H; subst. cbn [length]. f_equal. exact (IH _ _ _ E).
Qed.

(** What the overall result says, spelled out. *)
Lemma fanOut_result args fallback unavailable r rs timeout w results w' :
  runAll World runGitCommand args timeout (r :: rs) w = (results, w') ->
  Forall (fun r => URI.isWellFormed (relativePath r) = true) (r :: rs) ->
  let pairs := zip (r :: rs) results in
  let errs := List.map (errorOf fallback) (failed pairs) in
  exists texts resp,
    mapM wrapResult (succeeded pairs) = Some texts
    /\ fanOut World runGitCommand args fallback unavailable (r :: rs) timeout w
       = Some (resp, w')
    /\ stderr resp = Some (JS.join [JS.LF] errs)
    /\ (succeeded pairs <> [] ->
        success resp = true /\ stdout resp = Some (JS.join [JS.LF] texts)
        /\ error resp = None)
    /\ (succeeded pairs = [] ->
        success resp = false
        /\ exists first more, errs = first :: more /\ error resp = Some first).
Proof.
  intros Hrun Hwf pairs errs.
  destruct (fanOut_spec args fallback unavailable r rs timeout w results w' Hrun Hwf)
    as (texts & Hm & Hout).
  exists texts, (fanOutResult fallback unavailable pairs texts).
  split; [exact Hm|]. split; [exact Hout|].
  unfold fanOutResult. fold errs.
  destruct (succeeded pairs) as [|p ps] eqn:Es.
  - split; [reflexivity|]. split; [congruence|]. intros _. split; [reflexivity|].
    pose proof (runAll_length _ _ _ _ _ _ Hrun) as Hlen.
    destruct results as [|res results]; [discriminate Hlen|].
    unfold errs, failed, pairs in *. unfold succeeded in Es.
    cbn [zip zip_with List.filter snd] in *.
    destruct (success res); [discriminate Es|]. cbn [negb List.map].
    eexists _, _. split; reflexivity.
  - split; [reflexivity|]. split; [|congruence]. intros _. now repeat split.
Qed.

End FanOutFacts.

Section FanOutClaims.

Context {World : Type}.
Variable runGitCommand :
  list jsstr -> fspath -> option N -> World -> GitCommandResponse * World.

(** C2, as the code has it. For a non-empty list of discovered repositories
    (with well-formed relative paths), the status and the numstat fan-out run
    the query in every repository, one after the other in list order; every
    successful result, empty or not, is wrapped by the section framer and
    the wrapped outputs are joined with newlines.  If at least one
    repository succeeds the overall result is a success with that text as
    stdout and the joined error messages of the failed repositories as
    stderr; if every repository fails it is a failure that carries the first
    error message, with all error messages joined in stderr. *)
Theorem fanout_results (r : DiscoveredGitRepo) (rs : list DiscoveredGitRepo)
    (staged : bool) (timeout : option N) (w : World)
    (statusResults numstatResults : list GitCommandResponse) (w1 w2 : World) :
  Forall (fun r => URI.isWellFormed (relativePath r) = true) (r :: rs) ->
  runAll World runGitCommand GIT_STATUS_ARGS timeout (r :: rs) w = (statusResults, w1) ->
  runAll World runGitCommand (numstatArgs staged) timeout (r :: rs) w
    = (numstatResults, w2) ->
  (let pairs := zip (r :: rs) statusResults in
   let errs := List.map (errorOf (JS.lit "status failed")) (failed pairs) in
   exists texts resp,
     mapM wrapResult (succeeded pairs) = Some texts
     /\ runNestedStatusFallback World runGitCommand (r :: rs) timeout w = Some (resp, w1)
     /\ stderr resp = Some (JS.join [JS.LF] errs)
     /\ (succeeded pairs <> [] ->
         success resp = true /\ stdout resp = Some (JS.join [JS.LF] texts)
         /\ error resp = None)
     /\ (succeeded pairs = [] ->
         success resp = false
         /\ exists first more, errs = first :: more /\ error resp = Some first))
  /\
  (let pairs := zip (r :: rs) numstatResults in
   let errs := List.map (errorOf (JS.lit "diff failed")) (failed pairs) in
   exists texts resp,
     mapM wrapResult (succeeded pairs) = Some texts
     /\ runNestedNumstatFallback World runGitCommand (r :: rs) staged timeout w
        = Some (resp, w2)
     /\ stderr resp = Some (JS.join [JS.LF] errs)
     /\ (succeeded pairs <> [] ->
         success resp = true /\ stdout resp = Some (JS.join [JS.LF] texts)
         /\ error resp = None)
     /\ (succeeded pairs = [] ->
         success resp = false
         /\ exists first more, errs = first :: more /\ error resp = Some first)).
Proof.
  intros Hwf Hstatus Hnumstat. split.
  - exact (fanOut_result runGitCommand GIT_STATUS_ARGS (JS.lit "status failed")
             (JS.lit "Nested git status unavailable") r rs timeout w
             statusResults w1 Hstatus Hwf).
  - exact (fanOut_result runGitCommand (numstatArgs staged) (JS.lit "diff failed")
             (JS.lit "Nested git diff unavailable") r rs timeout w
             numstatResults w2 Hnumstat Hwf).
Qed.

End FanOutClaims.

(** ** Repository discovery *)

Section DiscoveryFacts.

Variable hasGitMetadata : fspath -> bool.
Variable readdir : fspath -> option (list Dirent).
Variable baseCwd : jsstr.

Local Abbreviation step := (scanStep hasGitMetadata readdir).
Local Abbreviation loop := (scanLoop hasGitMetadata readdir).
Local Abbreviation Inv := (scanInv hasGitMetadata baseCwd).

Lemma properPrefix_snoc anc l (x : jsstr) :
  properPrefix anc (l ++ [x]) -> anc = l \/ properPrefix anc l.
Proof.
  intros (more & Hne & H).
  destruct (exists_last Hne) as (more' & y & ->).
  rewrite app_assoc in H. apply app_inj_tail in H as [H _].
  destruct more' as [|m ms].
  - left. now rewrite app_nil_r in H.
  - right. exists (m :: ms). split; [discriminate|exact H].
Qed.

Lemma fspath_eta p : {| root := root p; names := names p |} = p.
Proof. now destruct p. Qed.

Lemma scanInit_inv : Inv (scanInit baseCwd).
Proof.
  split; cbn; try lia; [|constructor].
  repeat constructor; unfold MAX_DISCOVERY_DEPTH; cbn; try lia.
  intros anc _ (more & Hne & H). symmetry in H.
  apply app_eq_nil in H as [_ H]. congruence.
Qed.

Lemma children_ok current entries :
  queuedOk hasGitMetadata baseCwd current ->
  depth current < MAX_DISCOVERY_DEPTH ->
  (0 <? depth current) && hasGitMetadata (q_path current) = false ->
  Forall (queuedOk hasGitMetadata baseCwd) (children current entries).
Proof.
  intros (Hd & Hlen & Hroot & Hanc) Hlt Hnot. unfold children.
  apply Forall_forall. intros e He.
  apply list_elem_of_In, in_map_iff in He as (entry & <- & _).
  unfold queuedOk. cbn [depth q_path join names root].
  split; [lia|]. split; [rewrite length_app; simpl; lia|]. split; [exact Hroot|].
  intros anc Hne Hpre. apply properPrefix_snoc in Hpre as [->|Hpre].
  - apply andb_false_iff in Hnot as [Hz|Hg].
    + apply Nat.ltb_ge in Hz. destruct (names (q_path current)); [congruence|].
      simpl in Hlen. lia.
    + rewrite <- Hroot, fspath_eta. exact Hg.
  - now apply Hanc.
Qed.

Lemma scanStep_inv st st' : step st = Some st' -> Inv st -> Inv st'.
Proof.
  unfold scanStep. intros Hstep [Hi Hs Hd Hr Hq Hf].
  destruct (q_index st <? length (queue st)) eqn:E1; [|discriminate]. cbn [negb] in Hstep.
  destruct (MAX_DISCOVERY_REPOS <=? length (discovered st)) eqn:E2; [discriminate|].
  destruct (MAX_DISCOVERY_DIRECTORIES <=? scannedDirectories st) eqn:E3; [discriminate|].
  apply Nat.ltb_lt in E1. apply Nat.leb_gt in E2, E3.
  destruct (queue st !! q_index st) as [current|] eqn:Ec; [|discriminate].
  assert (Hcur : queuedOk hasGitMetadata baseCwd current).
  { rewrite Forall_forall in Hq. apply Hq. eapply list_elem_of_lookup_2. exact Ec. }
  destruct ((0 <? depth current) && hasGitMetadata (q_path current)) eqn:Eg.
  - apply andb_true_iff in Eg as [Ez Eg]. apply Nat.ltb_lt in Ez.
    destruct (JS.truthy (relativePosix (q_path current))
              && negb (JS.startsWith (relativePosix (q_path current)) (JS.lit ".."))) eqn:Er;
      inversion Hstep; subst st'; clear Hstep;
      split; cbn [queue q_index discovered scannedDirectories]; try lia; try assumption.
    + rewrite length_app. simpl. lia.
    + apply Forall_app. split; [exact Hf|]. repeat constructor;
        cbn [relativePath absolutePath].
      * apply andb_true_iff in Er as [Er _].
        destruct (relativePosix (q_path current)); [discriminate|discriminate].
      * apply andb_true_iff in Er as [_ Er]. now apply negb_true_iff in Er.
      * exact Eg.
      * destruct Hcur as (_ & Hlen & _). destruct (names (q_path current)); [|discriminate].
        simpl in Hlen. lia.
      * apply Hcur.
  - destruct (MAX_DISCOVERY_DEPTH <=? depth current) eqn:Ed.
    + inversion Hstep; subst st'; clear Hstep.
      split; cbn [queue q_index discovered scannedDirectories]; try lia; assumption.
    + apply Nat.leb_gt in Ed.
      destruct (readdir (q_path current)) as [entries|];
        inversion Hstep; subst st'; clear Hstep;
        split; cbn [queue q_index discovered scannedDirectories]; try lia; try assumption.
      * rewrite length_app. lia.
      * apply Forall_app. split; [exact Hq|]. now apply children_ok.
Qed.

Lemma scanLoop_inv turns : forall st, Inv st -> Inv (loop turns st).
Proof.
  induction turns as [|n IH]; intros st Hst; cbn [scanLoop]; [exact Hst|].
  destruct (step st) as [st'|] eqn:E; [|exact Hst].
  apply IH. exact (scanStep_inv _ _ E Hst).
Qed.

(** The loop has been left after at most as many turns as directories may
    be scanned. *)
Lemma scanStep_scanned st st' :
  step st = Some st' -> scannedDirectories st' = scannedDirectories st + 1.
Proof.
  unfold scanStep. intros H.
  repeat match type of H with
         | (if ?b then _ else _) = _ => destruct b; try discriminate H
         | match ?x with _ => _ end = _ => destruct x; try discriminate H
         end; now inversion H.
Qed.

Lemma scanLoop_progress turns : forall st,
  step (loop turns st) = None
  \/ scannedDirectories (loop turns st) = scannedDirectories st + turns.
Proof.
  induction turns as [|n IH]; intros st; cbn [scanLoop]; [right; lia|].
  destruct (step st) as [st'|] eqn:E; [|now left].
  destruct (IH st') as [H|H]; [now left|]. right.
  rewrite H, (scanStep_scanned _ _ E). lia.
Qed.

Lemma scanFinal_exits : step (scanFinal hasGitMetadata readdir baseCwd) = None.
Proof.
  unfold scanFinal.
  destruct (scanLoop_progress MAX_DISCOVERY_DIRECTORIES (scanInit baseCwd)) as [H|H];
    [exact H|].
  cbn [scanInit scannedDirectories Nat.add] in H.
  unfold scanStep. rewrite H.
  destruct (negb _); [reflexivity|]. destruct (_ <=? length _); [reflexivity|].
  now rewrite Nat.leb_refl.
Qed.

Lemma scanLoop_add a b st : loop (a + b) st = loop b (loop a st).
Proof.
  revert st. induction a as [|a IH]; intros st; [reflexivity|].
  cbn [Nat.add scanLoop]. destruct (step st) as [st'|] eqn:E; [apply IH|].
  destruct b; cbn [scanLoop]; [reflexivity|]. now rewrite E.
Qed.

Lemma scanLoop_stopped turns st : step st = None -> loop turns st = st.
Proof. intros H. destruct turns; cbn [scanLoop]; [reflexivity|]. now rewrite H. Qed.

Lemma scanStep_discovered st st' :
  step st = Some st' -> exists more, discovered st' = discovered st ++ more.
Proof.
  unfold scanStep. intros H.
  repeat match type of H with
         | (if ?b then _ else _) = _ => destruct b; try discriminate H
         | match ?x with _ => _ end = _ => destruct x; try discriminate H
         end; inversion H; cbn [discovered];
    first [now eexists | exists []; now rewrite app_nil_r].
Qed.

Lemma scanLoop_discovered turns : forall st,
  exists more, discovered (loop turns st) = discovered st ++ more.
Proof.
  induction turns as [|n IH]; intros st; cbn [scanLoop].
  - exists []. now rewrite app_nil_r.
  - destruct (step st) as [st'|] eqn:E.
    + destruct (scanStep_discovered _ _ E) as [m1 H1].
      destruct (IH st') as [m2 H2]. exists (m1 ++ m2).
      now rewrite H2, H1, app_assoc.
    + exists []. now rewrite app_nil_r.
Qed.

(** Whatever has been recorded after some number of turns is still there
    when the loop is left. *)
Lemma partial_results_kept turns :
  exists more,
    discovered (scanFinal hasGitMetadata readdir baseCwd)
    = discovered (loop turns (scanInit baseCwd)) ++ more.
Proof.
  unfold scanFinal.
  destruct (Nat.le_gt_cases turns MAX_DISCOVERY_DIRECTORIES) as [Hle|Hgt].
  - replace MAX_DISCOVERY_DIRECTORIES with (turns + (MAX_DISCOVERY_DIRECTORIES - turns)) by lia.
    rewrite scanLoop_add. apply scanLoop_discovered.
  - replace turns with (MAX_DISCOVERY_DIRECTORIES + (turns - MAX_DISCOVERY_DIRECTORIES)) by lia.
    rewrite scanLoop_add.
    rewrite (scanLoop_stopped _ _ scanFinal_exits).
    exists []. now rewrite app_nil_r.
Qed.

End DiscoveryFacts.


Section SortFacts.

Context {A : Type} (cmp : A -> A -> Z).

Lemma insertSorted_perm x l : Permutation (insertSorted cmp x l) (x :: l).
Proof.
  induction l as [|y l IH]; cbn [insertSorted]; [reflexivity|].
  destruct (0 <? cmp x y)%Z; [|reflexivity].
  rewrite IH. apply perm_swap.
Qed.

Lemma sortBy_perm l : Permutation (sortBy cmp l) l.
Proof.
  induction l as [|x l IH]; cbn [sortBy fold_right]; [reflexivity|].
  fold (sortBy cmp l). rewrite insertSorted_perm. now apply perm_skip.
Qed.

Hypothesis cmp_consistent : forall a b, (0 < cmp a b)%Z -> (cmp b a <= 0)%Z.
Hypothesis cmp_trans :
  forall a b c, (cmp a b <= 0)%Z -> (cmp b c <= 0)%Z -> (cmp a c <= 0)%Z.

Lemma insertSorted_sorted x l :
  StronglySorted (fun a b => (cmp a b <= 0)%Z) l ->
  StronglySorted (fun a b => (cmp a b <= 0)%Z) (insertSorted cmp x l).
Proof.
  induction 1 as [|y l Hs IH Hy]; cbn [insertSorted].
  - repeat constructor.
  - destruct (Z.ltb_spec 0 (cmp x y)) as [Hgt|Hle].
    + constructor; [exact IH|].
      rewrite insertSorted_perm. constructor; [now apply cmp_consistent|exact Hy].
    + constructor; [now constructor|].
      constructor; [exact Hle|].
      eapply Forall_impl; [exact Hy|]. intros z Hz. now apply (cmp_trans x y z).
Qed.

Lemma sortBy_sorted l : StronglySorted (fun a b => (cmp a b <= 0)%Z) (sortBy cmp l).
Proof.
  induction l as [|x l IH]; cbn [sortBy fold_right]; [constructor|].
  now apply insertSorted_sorted.
Qed.

End SortFacts.

Section OrdinalFacts.

Lemma ordinalCompare_flip a : forall b, ordinalCompare b a = (- ordinalCompare a b)%Z.
Proof.
  induction a as [|x a IH]; intros [|y b]; cbn [ordinalCompare]; try reflexivity.
  rewrite (N.compare_antisym x y). destruct (x ?= y)%N; cbn [CompOpp]; auto.
Qed.

Lemma ordinalCompare_consistent a b :
  (0 < ordinalCompare a b)%Z -> (ordinalCompare b a <= 0)%Z.
Proof. rewrite (ordinalCompare_flip a b). lia. Qed.

Lemma ordinalCompare_trans a : forall b c,
  (ordinalCompare a b <= 0)%Z -> (ordinalCompare b c <= 0)%Z ->
  (ordinalCompare a c <= 0)%Z.
Proof.
  induction a as [|x a IH]; intros [|y b] [|z c]; cbn [ordinalCompare]; try lia.
  destruct (N.compare_spec x y) as [->|Hxy|Hxy]; try lia.
  - destruct (N.compare_spec y z); try lia. apply IH.
  - intros _. destruct (N.compare_spec y z) as [->|Hyz|Hyz]; try lia.
    + intros _. destruct (N.compare_spec x z); lia.
    + intros _. destruct (N.compare_spec x z); lia.
Qed.

End OrdinalFacts.

Section DiscoveryClaims.

Variable hasGitMetadata : fspath -> bool.
Variable readdir : fspath -> option (list Dirent).
Variable localeCompare : jsstr -> jsstr -> Z.
Variable baseCwd : jsstr.

(** C3. Whatever the directory tree, the scan is left after at most 2000
    directories; no directory it queued lies under a directory it recorded
    as a repository; every reported relative path is non-empty and does not
    start with [..]; no queued directory lies deeper than 4; at most 64
    repositories are returned; and whatever had been recorded at any turn
    of the loop is among the repositories returned. *)
Theorem discovery_bounds :
  let st := scanFinal hasGitMetadata readdir baseCwd in
  let result := discoverNestedGitRepos hasGitMetadata readdir localeCompare baseCwd in
  scanStep hasGitMetadata readdir st = None
  /\ (forall d e, d ∈ result -> e ∈ queue st ->
        ~ properPrefix (names (absolutePath d)) (names (q_path e)))
  /\ (forall d, d ∈ result ->
        relativePath d <> [] /\ JS.startsWith (relativePath d) (JS.lit "..") = false)
  /\ (forall e, e ∈ queue st ->
        depth e <= MAX_DISCOVERY_DEPTH /\ depth e = length (names (q_path e)))
  /\ scannedDirectories st <= MAX_DISCOVERY_DIRECTORIES
  /\ length result <= MAX_DISCOVERY_REPOS
  /\ (forall turns d,
        d ∈ discovered (scanLoop hasGitMetadata readdir turns (scanInit baseCwd)) ->
        d ∈ result).
Proof.
  cbv zeta. unfold discoverNestedGitRepos.
  set (cmp := fun a b => localeCompare (relativePath a) (relativePath b)).
  pose proof (scanLoop_inv hasGitMetadata readdir baseCwd MAX_DISCOVERY_DIRECTORIES
                _ (scanInit_inv hasGitMetadata baseCwd)) as Hinv.
  fold (scanFinal hasGitMetadata readdir baseCwd) in Hinv.
  destruct Hinv as [Hi Hs Hd Hr Hq Hf].
  pose proof (sortBy_perm cmp (discovered (scanFinal hasGitMetadata readdir baseCwd)))
    as Hperm.
  rewrite Forall_forall in Hq. rewrite Forall_forall in Hf.
  split; [apply scanFinal_exits|].
  split.
  { intros d e Hd' He Hpre. rewrite Hperm in Hd'.
    destruct (Hf d Hd') as (_ & _ & Hgit & Hne & Hroot & _).
    destruct (Hq e He) as (_ & _ & _ & Hanc).
    specialize (Hanc _ Hne Hpre). rewrite <- Hroot, fspath_eta in Hanc. congruence. }
  split.
  { intros d Hd'. rewrite Hperm in Hd'. destruct (Hf d Hd') as (H1 & H2 & _). now split. }
  split.
  { intros e He. destruct (Hq e He) as (H1 & H2 & _). now split. }
  split; [exact Hd|].
  split; [now rewrite Hperm|].
  intros turns d Hd'. rewrite Hperm.
  destruct (partial_results_kept hasGitMetadata readdir baseCwd turns) as [more ->].
  apply elem_of_app. now left.
Qed.

(** C5, as the code has it. For a host collation that is a consistent
    comparator, the repositories are returned in ascending order of their
    relative paths under that collation. *)
Theorem discovery_sorted_by_collation :
  (forall a b, (0 < localeCompare a b)%Z -> (localeCompare b a <= 0)%Z) ->
  (forall a b c, (localeCompare a b <= 0)%Z -> (localeCompare b c <= 0)%Z ->
                 (localeCompare a c <= 0)%Z) ->
  StronglySorted
    (fun a b => (localeCompare (relativePath a) (relativePath b) <= 0)%Z)
    (discoverNestedGitRepos hasGitMetadata readdir localeCompare baseCwd).
Proof.
  intros Hcons Htrans. unfold discoverNestedGitRepos.
  apply (sortBy_sorted (fun a b => localeCompare (relativePath a) (relativePath b))).
  - intros a b. apply Hcons.
  - intros a b c. apply Htrans.
Qed.

End DiscoveryClaims.

Lemma discovery_bounds_witness :
  let result := discoverNestedGitRepos twoRepos_git twoRepos_dir ordinalCompare
                  (JS.lit "/work") in
  let repoB := {| absolutePath := {| root := JS.lit "/work"; names := [JS.lit "B"] |};
                  relativePath := JS.lit "B" |} in
  repoB ∈ result
  /\ relativePath repoB <> []
  /\ JS.startsWith (relativePath repoB) (JS.lit "..") = false
  /\ length result <= MAX_DISCOVERY_REPOS.
Proof.
  intros result repoB.
  destruct (discovery_bounds twoRepos_git twoRepos_dir ordinalCompare (JS.lit "/work"))
    as (_ & _ & Hrel & _ & _ & Hlen & Hkept).
  assert (Hin : repoB ∈ result).
  { apply (Hkept 2). vm_compute. apply list_elem_of_here. }
  destruct (Hrel repoB Hin) as [H1 H2].
  repeat split; assumption.
Defined.

Lemma discovery_sorted_by_collation_witness :
  StronglySorted
    (fun a b => (ordinalCompare (relativePath a) (relativePath b) <= 0)%Z)
    (discoverNestedGitRepos twoRepos_git twoRepos_dir ordinalCompare (JS.lit "/work")).
Proof.
  apply (discovery_sorted_by_collation twoRepos_git twoRepos_dir ordinalCompare
           (JS.lit "/work")).
  - exact ordinalCompare_consistent.
  - exact ordinalCompare_trans.
Defined.

(** C5 as stated fails: under a collation that puts [a] before [B], the
    repositories [B] and [a] come back as [a], [B], which is not ascending
    in code-unit order. *)
Lemma discovery_not_ordinal :
  List.map relativePath
    (discoverNestedGitRepos twoRepos_git twoRepos_dir alphabeticCompare (JS.lit "/work"))
  = [JS.lit "a"; JS.lit "B"]
  /\ (0 < ordinalCompare (JS.lit "a") (JS.lit "B"))%Z
  /\ ~ StronglySorted
         (fun a b => (ordinalCompare (relativePath a) (relativePath b) <= 0)%Z)
         (discoverNestedGitRepos twoRepos_git twoRepos_dir alphabeticCompare
            (JS.lit "/work")).
Proof.
  split; [reflexivity|]. split; [reflexivity|].
  intros H. vm_compute in H.
  inversion H as [|? ? _ Hall]; subst.
  inversion Hall as [|? ? Hle _]; subst.
  apply Hle. reflexivity.
Qed.

(** ** Worked examples *)

Lemma fanout_results_witness :
  exists resp,
    runNestedStatusFallback (list jsstr) loggingRunner
      [sampleRepo "a"; sampleRepo "b"] None []
    = Some (resp, [JS.lit "a"; JS.lit "b"])
    /\ success resp = true
    /\ stdout resp = Some (JS.lit "@@HAPI_REPO a
# branch.head main
@@HAPI_REPO_END")
    /\ stderr resp = Some (JS.lit "[b] Command failed").
Proof.
  assert (Hwf : Forall (fun r => URI.isWellFormed (relativePath r) = true)
                       [sampleRepo "a"; sampleRepo "b"]).
  { repeat constructor. }
  destruct (fanout_results loggingRunner (sampleRepo "a") [sampleRepo "b"] false None []
              (fst (runAll (list jsstr) loggingRunner GIT_STATUS_ARGS None
                      [sampleRepo "a"; sampleRepo "b"] []))
              (fst (runAll (list jsstr) loggingRunner (numstatArgs false) None
                      [sampleRepo "a"; sampleRepo "b"] []))
              [JS.lit "a"; JS.lit "b"] [JS.lit "a"; JS.lit "b"]
              Hwf eq_refl eq_refl)
    as [(texts & resp & Hm & Hrun & Herr & Hok & _) _].
  vm_compute in Hm. inversion Hm; subst texts; clear Hm.
  destruct Hok as (Hs & Hout & _); [vm_compute; discriminate|].
  exists resp. repeat split; assumption.
Defined.

(** C2 as stated fails: a repository whose command succeeds with no output
    still contributes a wrapped (empty) section, so stdout is not the
    concatenation of the wrapped non-empty results. *)
Lemma fanout_wraps_empty_results :
  runNestedNumstatFallback unit quietRunner [sampleRepo "a"] false None tt
  = Some ({| success := true;
             stdout := Some (JS.lit "@@HAPI_REPO a
@@HAPI_REPO_END");
             stderr := Some []; exitCode := Some 0%Z; error := None |}, tt)
  /\ stdoutOfNonEmptyResults
       (zip [sampleRepo "a"]
            (fst (runAll unit quietRunner (numstatArgs false) None [sampleRepo "a"] tt)))
     = Some []
  /\ JS.lit "@@HAPI_REPO a
@@HAPI_REPO_END" <> [].
Proof.
  split; [vm_compute; reflexivity|].
  split; [vm_compute; reflexivity|discriminate].
Qed.

Lemma aggregator_branch_and_repos_witness :
  (exists result,
     buildGitStatusFiles legacy_status [] [] = Some result
     /\ repos result = [] /\ result_branch result = Some (JS.lit "main"))
  /\ (exists result,
        buildGitStatusFiles framed_status [] [] = Some result
        /\ result_branch result = None
        /\ repos result = [ {| name := JS.lit "repo-a"; repo_branch := Some (JS.lit "main") |};
                            {| name := JS.lit "repo-b";
                               repo_branch := Some (JS.lit "feature") |} ]).
Proof.
  destruct (aggregator_branch_and_repos legacy_status [] []) as (_ & _ & Hlegacy).
  pose proof (aggregator_branch_and_repos framed_status [] []) as (Hret & Hnamed & _).
  split.
  - destruct Hlegacy as (result & Hres & Hrepos & Hbranch & _).
    { apply plainLines_check. vm_compute. reflexivity. }
    exists result. split; [exact Hres|]. split; [exact Hrepos|].
    apply Hbranch; [vm_compute; reflexivity|discriminate..].
  - assert (E : splitRepoSections framed_status
                = [ {| repo := Some (JS.lit "repo-a");
                       output := JS.lit "# branch.oid 1111111
# branch.head main
1 .M N... 100644 100644 100644 1111111 1111111 src/a.ts" |};
                    {| repo := Some (JS.lit "repo-b");
                       output := JS.lit "# branch.oid 2222222
# branch.head feature
? new-b.ts" |} ]) by (vm_compute; reflexivity).
    rewrite E in Hret, Hnamed.
    destruct Hret as [result Hres].
    { repeat (constructor; [not_in_list|]). constructor. }
    exists result. split; [exact Hres|].
    destruct (Hnamed result Hres) as (_ & Hnull & Hrepos).
    split.
    + apply Hnull. eexists. split; [apply list_elem_of_here|discriminate].
    + rewrite Hrepos. vm_compute. reflexivity.
Defined.

(** C4 as stated fails twice: a section that carries the empty name makes
    the branch null but contributes no pair, since the pair is pushed under
    [if (section.repo)]; and for a section named [__proto__] there is no
    result at all, since the lookup in the per-repository output map gives
    [Object.prototype] and parseNumStat throws a TypeError on it. *)
Lemma aggregator_not_every_section :
  splitRepoSections empty_name_status
    = [ {| repo := Some []; output := JS.lit "# branch.head main" |} ]
  /\ buildGitStatusFiles empty_name_status [] []
     = Some {| stagedFiles := []; unstagedFiles := []; result_branch := None;
               repos := []; totalStaged := 0; totalUnstaged := 0 |}
  /\ buildGitStatusFiles proto_name_status [] [] = None.
Proof. repeat split; vm_compute; reflexivity. Qed.

(** ** The turn bounds of the loops are never reached *)

Module FuelFacts.
Import Regex.

Lemma agreeFrom_here pos s k k' cs : agreeFrom pos s k k' -> k pos s cs = k' pos s cs.
Proof. intros H. apply H; lia. Qed.

Lemma agreeFrom_later pos s pos' s' k k' :
  agreeFrom pos s k k' -> length s' <= length s -> pos' = pos + (length s - length s') ->
  agreeFrom pos' s' k k'.
Proof. intros H Hl Hp pos'' s'' cs'' Hl' Hp'. apply H; lia. Qed.

(** The repeat matcher does not depend on its number of turns once that is
    at least [lo + length s + 1]: the turns never run out. *)
Lemma RepeatMatcher_fuel m g :
  forwardOnly m ->
  forall f1 f2 lo hi pos s cs k k',
    agreeFrom pos s k k' ->
    lo + length s + 1 <= f1 -> lo + length s + 1 <= f2 ->
    RepeatMatcher m k g f1 lo hi pos s cs = RepeatMatcher m k' g f2 lo hi pos s cs.
Proof.
  intros Hm. induction f1 as [|f1 IH]; intros f2 lo hi pos s cs k k' Hk H1 H2; [lia|].
  destruct f2 as [|f2]; [lia|]. cbn [RepeatMatcher].
  pose proof (agreeFrom_here _ _ _ _ cs Hk) as Hhere.
  assert (Hd : agreeFrom pos s
            (fun pos' s' cs' =>
               if Nat.eqb lo 0 && Nat.eqb pos' pos then None
               else RepeatMatcher m k g f1 (Nat.pred lo) (Nat.pred <$> hi) pos' s' cs')
            (fun pos' s' cs' =>
               if Nat.eqb lo 0 && Nat.eqb pos' pos then None
               else RepeatMatcher m k' g f2 (Nat.pred lo) (Nat.pred <$> hi) pos' s' cs')).
  { intros pos' s' cs' Hl Hp.
    destruct (Nat.eqb lo 0 && Nat.eqb pos' pos) eqn:E; [reflexivity|].
    apply IH.
    - now apply (agreeFrom_later pos s).
    - apply andb_false_iff in E as [E|E].
      + apply Nat.eqb_neq in E. lia.
      + apply Nat.eqb_neq in E. lia.
    - apply andb_false_iff in E as [E|E].
      + apply Nat.eqb_neq in E. lia.
      + apply Nat.eqb_neq in E. lia. }
  rewrite (Hm pos s cs _ _ Hd), Hhere.
  destruct hi as [[|h]|]; reflexivity.
Qed.

Lemma rmatch_forwardOnly r : forwardOnly (rmatch r).
Proof.
  induction r as [p|a IHa b IHb|a IHa b IHb|g lo hi a IHa|i a IHa| |];
    intros pos s cs k k' Hk; cbn [rmatch].
  - destruct s as [|c t]; [reflexivity|]. destruct (p c); [|reflexivity].
    apply Hk; simpl; lia.
  - apply IHa. intros pos' s' cs' Hl Hp. apply IHb.
    now apply (agreeFrom_later pos s).
  - now rewrite (IHa _ _ _ _ _ Hk), (IHb _ _ _ _ _ Hk).
  - now apply RepeatMatcher_fuel.
  - apply IHa. intros pos' s' cs' Hl Hp. now apply Hk.
  - destruct (Nat.eqb pos 0); [|reflexivity]. now apply agreeFrom_here.
  - destruct s; [|reflexivity]. now apply agreeFrom_here.
Qed.

(** More turns than [rmatch] allows a quantifier change nothing. *)
Lemma rmatch_Rep_fuel g lo hi a fuel pos s cs k :
  lo + length s + 1 <= fuel ->
  RepeatMatcher (rmatch a) k g fuel lo hi pos s cs = rmatch (Rep g lo hi a) pos s cs k.
Proof.
  intros H. cbn [rmatch]. apply RepeatMatcher_fuel; [apply rmatch_forwardOnly| |exact H|lia].
  intros pos' s' cs' _ _. reflexivity.
Qed.

End FuelFacts.

Module DecodeFuel.
Import URI.

Lemma readEscape_shorter s b t : readEscape s = Some (b, t) -> length t < length s.
Proof.
  destruct s as [|p [|x [|y t']]]; try discriminate. cbn [readEscape].
  destruct (p =? 0x25)%N; [|discriminate].
  destruct (parseHexOctet x y); [|discriminate].
  cbn. intros H. inversion H; subst. simpl. lia.
Qed.

Lemma readEscapes_shorter n : forall s bs t,
  readEscapes n s = Some (bs, t) -> length t <= length s.
Proof.
  induction n as [|n IH]; intros s bs t; cbn [readEscapes].
  - intros H. inversion H; subst. lia.
  - destruct (readEscape s) as [[b t1]|] eqn:E1; [|discriminate]. cbn.
    destruct (readEscapes n t1) as [[bs1 t2]|] eqn:E2; [|discriminate]. cbn.
    intros H. inversion H; subst.
    apply readEscape_shorter in E1. apply IH in E2. lia.
Qed.

(** The decoding loop does not depend on its number of turns once that is
    at least the length of the input. *)
Lemma Decode_fuel f1 : forall f2 s,
  length s <= f1 -> length s <= f2 -> Decode f1 s = Decode f2 s.
Proof.
  induction f1 as [|f1 IH]; intros f2 s H1 H2.
  - destruct s; [|simpl in H1; lia]. now destruct f2.
  - destruct s as [|c t]; [now destruct f2|].
    destruct f2 as [|f2]; [simpl in H2; lia|].
    cbn [Decode]. simpl in H1, H2.
    destruct (c =? 0x25)%N.
    + destruct (readEscape (c :: t)) as [[b rest]|] eqn:E; [|reflexivity].
      cbn [mbind option_bind].
      pose proof (readEscape_shorter _ _ _ E) as Hr. simpl in Hr.
      destruct (leadingOnes b) as [|[|n]].
      * now rewrite (IH f2 rest) by lia.
      * reflexivity.
      * destruct (4 <? S (S n)); [reflexivity|].
        destruct (readEscapes (S n) rest) as [[bs rest']|] eqn:E2; [|reflexivity].
        cbn [mbind option_bind].
        pose proof (readEscapes_shorter _ _ _ _ E2) as Hr2.
        destruct (utf8Decode (b :: bs)); [|reflexivity]. cbn [mbind option_bind].
        now rewrite (IH f2 rest') by lia.
    + now rewrite (IH f2 t) by lia.
Qed.

End DecodeFuel.

(** * Further properties of the code *)

(** ** Framing: sequences of sections *)

Section FramedSequences.
Import URIFacts.

Lemma split_join_concat sep ts :
  ts <> [] -> JS.split sep (JS.join [sep] ts) = concat (List.map (JS.split sep) ts).
Proof.
  induction ts as [|t ts IH]; intros Hne; [congruence|].
  destruct ts as [|t' ts'].
  - simpl. now rewrite app_nil_r.
  - change (JS.join [sep] (t :: t' :: ts')) with (t ++ sep :: JS.join [sep] (t' :: ts')).
    rewrite split_app_sep, IH by discriminate. reflexivity.
Qed.

(** The lines of one framed text. *)
Lemma wrap_lines item :
  framable item ->
  exists text e lines,
    wrapItem item = Some text
    /\ Forall notBlank e
    /\ decodeRepoSectionName
         (JS.trim (JS.slice_from (length HAPI_REPO_SECTION_PREFIX)
                                 (HAPI_REPO_SECTION_PREFIX ++ e))) = fst item
    /\ JS.split JS.LF text = (HAPI_REPO_SECTION_PREFIX ++ e) :: lines ++ [HAPI_REPO_SECTION_END]
    /\ Forall plainLine lines
    /\ JS.trim (JS.join [JS.LF] lines) = JS.trim (snd item).
Proof.
  destruct item as [repoName body]. intros [Hwf Hplain]. cbn [fst snd] in *.
  destruct (encode_decode repoName Hwf) as (e & He & Hnb & _).
  destruct (decodeRepoSectionName_encoded repoName e Hwf He) as [_ Hname].
  pose proof (header_no_LF e Hnb) as Hh.
  unfold wrapItem, wrapRepoSectionOutput. cbn [fst snd]. rewrite He. cbn [mbind option_bind].
  destruct (JS.trim body) as [|c b] eqn:Hb; cbn [JS.truthy negb].
  - exists (HAPI_REPO_SECTION_PREFIX ++ e ++ [JS.LF] ++ HAPI_REPO_SECTION_END), e, [].
    split; [reflexivity|]. split; [exact Hnb|]. split; [exact Hname|].
    split; [|split; [constructor|reflexivity]].
    cbn [app]. now rewrite app_assoc, split_app_sep, (split_nosep _ _ Hh), end_marker_lines.
  - exists (HAPI_REPO_SECTION_PREFIX ++ e ++ [JS.LF] ++ (c :: b) ++ [JS.LF]
            ++ HAPI_REPO_SECTION_END), e, (JS.split JS.LF (c :: b)).
    split; [reflexivity|]. split; [exact Hnb|]. split; [exact Hname|].
    split; [|split; [exact Hplain|]].
    + change ([JS.LF] ++ (c :: b) ++ [JS.LF] ++ HAPI_REPO_SECTION_END)
        with (JS.LF :: (c :: b) ++ JS.LF :: HAPI_REPO_SECTION_END).
      rewrite app_assoc, split_app_sep, (split_nosep _ _ Hh).
      now rewrite split_app_sep, end_marker_lines.
    + now rewrite join_split, <- Hb, trim_fix.
Qed.

(** One framed text, read between two sections, adds its section. *)
Lemma fold_section st header lines :
  currentRepo st = None ->
  isStartMarker header = true ->
  Forall plainLine lines ->
  fold_left splitStep (header :: lines ++ [HAPI_REPO_SECTION_END]) st =
  closedWith (sections st ++
    [ {| repo := Some (decodeRepoSectionName
                         (JS.trim (JS.slice_from (length HAPI_REPO_SECTION_PREFIX) header)));
         output := JS.trim (JS.join [JS.LF] lines) |} ]).
Proof.
  intros Hclosed Hh Hplain. cbn [fold_left]. rewrite fold_left_app.
  rewrite (splitStep_start st header Hh).
  erewrite (fold_plain_open lines _ _ Hplain) by reflexivity.
  cbn [fold_left]. rewrite splitStep_end.
  unfold flushCurrentSection, sawMarker.
  cbn [currentRepo sections currentLines hasMarkers app]. now rewrite Hclosed.
Qed.

Lemma fold_framed items : forall texts st,
  currentRepo st = None ->
  items <> [] ->
  Forall framable items ->
  mapM wrapItem items = Some texts ->
  fold_left splitStep (concat (List.map (JS.split JS.LF) texts)) st
  = closedWith (sections st ++ List.map sectionOf items).
Proof.
  induction items as [|item items IH]; intros texts st Hclosed Hne Hall Hm; [congruence|].
  inversion Hall as [|? ? Hitem Hitems]; subst.
  destruct (wrap_lines item Hitem) as (text & e & lines & Hw & Hnb & Hname & Hlines & Hpl & Hbody).
  cbn [mapM] in Hm. rewrite Hw in Hm. cbn [mbind option_bind] in Hm.
  destruct (mapM wrapItem items) as [texts'|] eqn:Hm'; [|discriminate Hm].
  cbn in Hm. inversion Hm; subst texts. clear Hm.
  cbn [List.map concat]. rewrite fold_left_app, Hlines.
  rewrite (fold_section st _ lines Hclosed (startsWith_app _ _) Hpl), Hname, Hbody.
  destruct items as [|item' items'].
  - cbn in Hm'. inversion Hm'; subst. reflexivity.
  - rewrite (IH texts' (closedWith _) eq_refl ltac:(discriminate) Hitems eq_refl).
    cbn [closedWith sections]. now rewrite <- app_assoc.
Qed.

Lemma mapM_wrap_framable items :
  Forall framable items -> exists texts, mapM wrapItem items = Some texts
                                         /\ length texts = length items.
Proof.
  induction 1 as [|item items Hitem _ (texts & IH & Hlen)].
  - now exists [].
  - destruct (wrap_lines item Hitem) as (text & _ & _ & Hw & _).
    exists (text :: texts). cbn [mapM]. rewrite Hw, IH. cbn. now rewrite Hlen.
Qed.

(** X1. Framing any number of results and joining the framed texts with
    newlines, as the fan-out does, is undone by the splitter: for a
    non-empty list of well-formed names with bodies that have no marker line
    of their own, splitting the joined text gives one section per pair, in
    the same order, with the original name and the trimmed body. *)
Theorem framed_join_split (items : list (jsstr * jsstr)) :
  items <> [] ->
  Forall framable items ->
  exists texts,
    mapM wrapItem items = Some texts
    /\ splitRepoSections (JS.join [JS.LF] texts) = List.map sectionOf items.
Proof.
  intros Hne Hall.
  destruct (mapM_wrap_framable items Hall) as (texts & Hm & Hlen).
  exists texts. split; [exact Hm|].
  unfold splitRepoSections.
  rewrite split_join_concat by (destruct texts, items; cbn in *; congruence).
  rewrite (fold_framed items texts splitInit eq_refl Hne Hall Hm).
  reflexivity.
Qed.

Lemma framed_join_split_witness :
  exists texts,
    mapM wrapItem [ (JS.lit "api", JS.lit "# branch.head main
");
                    (JS.lit "web app", JS.lit "");
                    (JS.lit "tools/cli", JS.lit "? a.txt
? b.txt") ] = Some texts
    /\ splitRepoSections (JS.join [JS.LF] texts) =
       [ {| repo := Some (JS.lit "api"); output := JS.lit "# branch.head main" |};
         {| repo := Some (JS.lit "web app"); output := [] |};
         {| repo := Some (JS.lit "tools/cli"); output := JS.lit "? a.txt
? b.txt" |} ].
Proof.
  apply (framed_join_split [ (JS.lit "api", JS.lit "# branch.head main
");
                    (JS.lit "web app", JS.lit "");
                    (JS.lit "tools/cli", JS.lit "? a.txt
? b.txt") ]).
  - discriminate.
  - repeat constructor; apply plainLines_check; vm_compute; reflexivity.
Defined.

End FramedSequences.

(** ** From the fan-out to the aggregation *)

Section FanOutComposition.
Import URIFacts.

Context {World : Type}.
Variable runGitCommand :
  list jsstr -> fspath -> option N -> World -> GitCommandResponse * World.

Lemma mapM_wrapResult pairs : mapM wrapItem (List.map resultItem pairs) = mapM wrapResult pairs.
Proof. induction pairs as [|p ps IH]; [reflexivity|]. cbn [List.map mapM]. now rewrite IH. Qed.

Lemma nonEmptyLines_trim text : nonEmptyLines (JS.trim text) = nonEmptyLines text.
Proof. unfold nonEmptyLines. now rewrite trim_fix. Qed.

Lemma parseStatusSummaryV2_trim text :
  parseStatusSummaryV2 (JS.trim text) = parseStatusSummaryV2 text.
Proof. unfold parseStatusSummaryV2. now rewrite nonEmptyLines_trim. Qed.

Lemma filter_all {A} (f : A -> bool) l : Forall (fun x => f x = true) l -> List.filter f l = l.
Proof. induction 1 as [|x l Hx _ IH]; [reflexivity|]. cbn. now rewrite Hx, IH. Qed.

(** X2. The status fan-out and the web parser fit together: when at least
    one repository answers, the standard output of the fan-out is split by
    the parser into one section per successful repository, in scan order,
    named by the repository's relative path and holding its trimmed output;
    when no relative path is a property name of [Object.prototype], the
    aggregator returns on it, whatever the two numstat inputs, and its
    result lists exactly these repositories, each with the branch parsed
    from its own output, and has no top-level branch. *)
Theorem fanout_status_aggregated (r : DiscoveredGitRepo) (rs : list DiscoveredGitRepo)
    (timeout : option N) (w : World) (results : list GitCommandResponse) (w' : World)
    (unstagedDiffOutput stagedDiffOutput : list N) :
  runAll World runGitCommand GIT_STATUS_ARGS timeout (r :: rs) w = (results, w') ->
  Forall (fun r => URI.isWellFormed (relativePath r) = true /\ relativePath r <> []
                   /\ relativePath r ∉ PlainObject.OBJECT_PROTOTYPE_NAMES)
         (r :: rs) ->
  succeeded (zip (r :: rs) results) <> [] ->
  Forall (fun p => Forall plainLine
                     (JS.split JS.LF (JS.trim (default [] (stdout (snd p))))))
         (succeeded (zip (r :: rs) results)) ->
  exists resp out result,
    runNestedStatusFallback World runGitCommand (r :: rs) timeout w = Some (resp, w')
    /\ success resp = true
    /\ stdout resp = Some out
    /\ splitRepoSections out
       = List.map (fun p => sectionOf (resultItem p)) (succeeded (zip (r :: rs) results))
    /\ buildGitStatusFiles out unstagedDiffOutput stagedDiffOutput = Some result
    /\ result_branch result = None
    /\ repos result
       = List.map (fun p =>
           {| name := relativePath (fst p);
              repo_branch := getCurrentBranchV2
                               (parseStatusSummaryV2 (default [] (stdout (snd p)))) |})
           (succeeded (zip (r :: rs) results)).
Proof.
  intros Hrun Hrepos Hsome Hplain.
  set (pairs := zip (r :: rs) results) in *.
  assert (Hwf : Forall (fun r => URI.isWellFormed (relativePath r) = true) (r :: rs)).
  { eapply Forall_impl; [exact Hrepos|]. now intros ? [? _]. }
  destruct (fanOut_result runGitCommand GIT_STATUS_ARGS (JS.lit "status failed")
              (JS.lit "Nested git status unavailable") r rs timeout w results w' Hrun Hwf)
    as (texts & resp & Hm & Hout & _ & Hok & _).
  fold pairs in Hm, Hok. destruct (Hok Hsome) as (Hs & Hstdout & _).
  assert (Hin : forall p, p ∈ succeeded pairs -> fst p ∈ r :: rs).
  { intros [d res] Hp. unfold succeeded in Hp.
    apply list_elem_of_In, filter_In in Hp as [Hp _]. apply list_elem_of_In in Hp.
    unfold pairs in Hp. apply elem_of_zip_l in Hp. exact Hp. }
  assert (Hitems : Forall framable (List.map resultItem (succeeded pairs))).
  { apply Forall_map. apply Forall_forall. intros p Hp. split.
    - rewrite Forall_forall in Hrepos. exact (proj1 (Hrepos _ (Hin p Hp))).
    - rewrite Forall_forall in Hplain. exact (Hplain p Hp). }
  assert (Hsecs : splitRepoSections (JS.join [JS.LF] texts)
                  = List.map (fun p => sectionOf (resultItem p)) (succeeded pairs)).
  { rewrite <- mapM_wrapResult in Hm.
    assert (Hne : List.map resultItem (succeeded pairs) <> []).
    { destruct (succeeded pairs); [congruence|discriminate]. }
    unfold splitRepoSections.
    rewrite split_join_concat.
    - rewrite (fold_framed _ texts splitInit eq_refl Hne Hitems Hm).
      cbn. now rewrite map_map.
    - intros ->. destruct (succeeded pairs); [congruence|].
      cbn [List.map mapM] in Hm.
      destruct (wrapItem _); [|discriminate Hm]. cbn in Hm.
      destruct (mapM wrapItem _); discriminate Hm. }
  assert (Hkeys : Forall (fun sec => getRepoKey (repo sec)
                                      ∉ PlainObject.OBJECT_PROTOTYPE_NAMES)
                         (List.map (fun p => sectionOf (resultItem p)) (succeeded pairs))).
  { apply Forall_map. apply Forall_forall. intros p Hp.
    rewrite Forall_forall in Hrepos. exact (proj2 (proj2 (Hrepos _ (Hin p Hp)))). }
  set (multi := existsb (fun section => bool_decide (repo section <> None))
                        (List.map (fun p => sectionOf (resultItem p)) (succeeded pairs))).
  destruct (buildLoop_returns multi
              (buildRepoOutputMap (splitRepoSections unstagedDiffOutput))
              (buildRepoOutputMap (splitRepoSections stagedDiffOutput))
              _ {| b_stagedFiles := []; b_unstagedFiles := []; b_repos := [];
                   branchName := None |} Hkeys) as [st Hst].
  eexists resp, (JS.join [JS.LF] texts), _.
  split; [exact Hout|]. split; [exact Hs|]. split; [exact Hstdout|].
  split; [exact Hsecs|].
  split.
  { unfold buildGitStatusFiles. rewrite Hsecs. fold multi. rewrite Hst. reflexivity. }
  cbn [result_branch repos]. split.
  - unfold multi. destruct (succeeded pairs) as [|p ps] eqn:Ep; [congruence|].
    cbn [List.map existsb sectionOf repo].
    rewrite bool_decide_true by discriminate. reflexivity.
  - rewrite (buildLoop_repos _ _ _ _ _ _ Hst). cbn [b_repos app].
    rewrite filter_all.
    + rewrite map_map. apply map_ext. intros p.
      unfold repoEntry, sectionOf, resultItem. cbn [repo output fst snd getRepoKey default].
      now rewrite parseStatusSummaryV2_trim.
    + apply Forall_map. apply Forall_forall. intros p Hp.
      unfold isNamed, sectionOf, resultItem. cbn [repo fst truthyOpt].
      rewrite Forall_forall in Hrepos. destruct (Hrepos _ (Hin p Hp)) as (_ & Hne & _).
      destruct (relativePath (fst p)); [congruence|reflexivity].
Qed.

End FanOutComposition.

Lemma fanout_status_aggregated_witness :
  exists resp out result,
    runNestedStatusFallback (list (list N)) loggingRunner [sampleRepo "a"; sampleRepo "b"] None []
      = Some (resp, [JS.lit "a"; JS.lit "b"])
    /\ success resp = true
    /\ stdout resp = Some out
    /\ splitRepoSections out
       = [ {| repo := Some (JS.lit "a"); output := JS.lit "# branch.head main" |} ]
    /\ buildGitStatusFiles out [] [] = Some result
    /\ result_branch result = None
    /\ repos result
       = [ {| name := JS.lit "a"; repo_branch := Some (JS.lit "main") |} ].
Proof.
  apply (fanout_status_aggregated loggingRunner (sampleRepo "a") [sampleRepo "b"] None []
           (fst (runAll _ loggingRunner GIT_STATUS_ARGS None [sampleRepo "a"; sampleRepo "b"] []))
           [JS.lit "a"; JS.lit "b"] [] []).
  - reflexivity.
  - repeat (constructor; [split; [reflexivity|split; [discriminate|not_in_list]]|]).
    constructor.
  - discriminate.
  - repeat constructor; apply plainLines_check; vm_compute; reflexivity.
Defined.

(** ** The splitter outside its sections, and marker names *)

Section OutsideLines.

Lemma fold_plain_closed lines st :
  Forall plainLine lines -> currentRepo st = None -> hasMarkers st = true ->
  fold_left splitStep lines st = st.
Proof.
  intros H Hr Hm. induction H as [|l ls [Hs He] _ IH]; [reflexivity|].
  cbn [fold_left].
  assert (Hstep : splitStep st l = st).
  { unfold splitStep. rewrite Hs, He, Hr, Hm.
    rewrite bool_decide_false by (intros Hx; now apply Hx). reflexivity. }
  now rewrite Hstep.
Qed.

Lemma fold_plain_legacy lines : forall st,
  Forall plainLine lines -> currentRepo st = None -> hasMarkers st = false ->
  fold_left splitStep lines st =
  {| sections := sections st; currentRepo := None;
     currentLines := currentLines st ++ lines; hasMarkers := false |}.
Proof.
  induction lines as [|l ls IH]; intros st H Hr Hm.
  - cbn. rewrite app_nil_r. destruct st; cbn in *; congruence.
  - inversion H as [|? ? [Hs He] Hls]; subst. cbn [fold_left].
    assert (Hstep : splitStep st l = pushLine st l).
    { unfold splitStep. rewrite Hs, He, Hr, Hm.
      rewrite bool_decide_false by (intros Hx; now apply Hx). reflexivity. }
    rewrite Hstep, IH by (auto; exact Hls). cbn. now rewrite <- app_assoc.
Qed.

Lemma splitStep_closer st closer :
  isStartMarker closer = false -> isEndMarker closer = true ->
  splitStep st closer = flushCurrentSection (sawMarker st).
Proof. intros Hs He. unfold splitStep. now rewrite Hs, He. Qed.

(** What the splitter returns, from the state the line loop ends in. *)
Lemma splitRepoSections_framed rawOutput st :
  fold_left splitStep (JS.split JS.LF rawOutput) splitInit = st ->
  hasMarkers st = true ->
  splitRepoSections rawOutput = sections (flushCurrentSection st).
Proof. intros Hst Hm. unfold splitRepoSections. now rewrite Hst, Hm. Qed.

Lemma fold_hasMarkers_mono lines : forall st,
  hasMarkers st = true -> hasMarkers (fold_left splitStep lines st) = true.
Proof.
  induction lines as [|l ls IH]; intros st H; cbn [fold_left]; [exact H|].
  apply IH. unfold splitStep.
  destruct (isStartMarker l); [cbn; now rewrite flush_hasMarkers|].
  destruct (isEndMarker l); [now rewrite flush_hasMarkers|].
  destruct (bool_decide _); [exact H|]; now destruct (negb _).
Qed.

(** X3. Once an input has a marker, the lines outside its sections count
    for nothing: the lines before the first start marker, and the lines that
    follow an end marker up to the next marker, can be removed without
    changing what the splitter returns. *)
Theorem split_drops_lines_outside_sections (junk : list jsstr) :
  Forall (fun line => isStartMarker line = false /\ isEndMarker line = false) junk ->
  Forall singleLine junk ->
  (forall marker after,
     isStartMarker marker = true -> Forall singleLine (marker :: after) ->
     splitRepoSections (JS.join [JS.LF] (junk ++ marker :: after))
     = splitRepoSections (JS.join [JS.LF] (marker :: after)))
  /\ (forall before closer after,
     isStartMarker closer = false -> isEndMarker closer = true ->
     Forall singleLine (before ++ closer :: after) ->
     splitRepoSections (JS.join [JS.LF] (before ++ closer :: junk ++ after))
     = splitRepoSections (JS.join [JS.LF] (before ++ closer :: after))).
Proof.
  intros Hplain Hjunk. split.
  - intros marker after Hm Hlines.
    assert (Hstart : splitStep (fold_left splitStep junk splitInit) marker
                     = splitStep splitInit marker).
    { rewrite (fold_plain_legacy junk splitInit Hplain eq_refl eq_refl).
      now rewrite !(splitStep_start _ _ Hm). }
    assert (Hall : Forall singleLine (junk ++ marker :: after)).
    { apply Forall_app. now split. }
    unfold splitRepoSections.
    rewrite !split_join by
      first [exact Hall | exact Hlines | discriminate | destruct junk; discriminate].
    rewrite fold_left_app. cbn [fold_left]. rewrite Hstart.
    assert (Hmark : forall ls, hasMarkers (fold_left splitStep ls (splitStep splitInit marker))
                               = true).
    { intros ls. apply fold_hasMarkers_mono. now rewrite (splitStep_start _ _ Hm). }
    now rewrite !Hmark.
  - intros before closer after Hs He Hlines.
    apply Forall_app in Hlines as [Hb Hca]. inversion Hca as [|? ? Hc Ha]; subst.
    assert (Hall : Forall singleLine (before ++ closer :: junk ++ after)).
    { apply Forall_app. split; [exact Hb|]. constructor; [exact Hc|].
      apply Forall_app. now split. }
    assert (Hall' : Forall singleLine (before ++ closer :: after)).
    { apply Forall_app. now split. }
    unfold splitRepoSections.
    rewrite !split_join by
      first [exact Hall | exact Hall' | destruct before; discriminate].
    rewrite !fold_left_app. cbn [fold_left]. rewrite fold_left_app.
    rewrite (splitStep_closer _ closer Hs He).
    rewrite (fold_plain_closed junk _ Hplain);
      [|apply flush_currentRepo|now rewrite flush_hasMarkers].
    rewrite (fold_hasMarkers_mono after) by now rewrite flush_hasMarkers.
    reflexivity.
Qed.

Lemma split_drops_lines_outside_sections_witness :
  splitRepoSections (JS.lit "warning: something
hint: more
@@HAPI_REPO a
? x
@@HAPI_REPO_END")
  = splitRepoSections (JS.lit "@@HAPI_REPO a
? x
@@HAPI_REPO_END")
  /\ splitRepoSections (JS.lit "@@HAPI_REPO a
? x
@@HAPI_REPO_END
warning: something
hint: more
@@HAPI_REPO b")
  = splitRepoSections (JS.lit "@@HAPI_REPO a
? x
@@HAPI_REPO_END
@@HAPI_REPO b").
Proof.
  destruct (split_drops_lines_outside_sections
              [JS.lit "warning: something"; JS.lit "hint: more"]) as [H1 H2].
  - apply plainLines_check. vm_compute. reflexivity.
  - repeat constructor; unfold singleLine; vm_compute; intros H;
      repeat (apply elem_of_cons in H as [H|H]; [discriminate H|]);
      now apply elem_of_nil in H.
  - split.
    + apply (H1 (JS.lit "@@HAPI_REPO a") [JS.lit "? x"; JS.lit "@@HAPI_REPO_END"]).
      * reflexivity.
      * repeat constructor; unfold singleLine; vm_compute; intros H;
          repeat (apply elem_of_cons in H as [H|H]; [discriminate H|]);
          now apply elem_of_nil in H.
    + apply (H2 [JS.lit "@@HAPI_REPO a"; JS.lit "? x"] (JS.lit "@@HAPI_REPO_END")
                [JS.lit "@@HAPI_REPO b"]).
      * reflexivity.
      * reflexivity.
      * repeat constructor; unfold singleLine; vm_compute; intros H;
          repeat (apply elem_of_cons in H as [H|H]; [discriminate H|]);
          now apply elem_of_nil in H.
Defined.

(** Every section the splitter returns has a trimmed body: trimming it
    again changes nothing. *)
Lemma split_outputs_trimmed (rawOutput : jsstr) :
  Forall (fun sec => JS.trim (output sec) = output sec) (splitRepoSections rawOutput).
Proof.
  assert (Hflush : forall st,
            Forall (fun sec => JS.trim (output sec) = output sec) (sections st) ->
            Forall (fun sec => JS.trim (output sec) = output sec)
                   (sections (flushCurrentSection st))).
  { intros st H. unfold flushCurrentSection. destruct (currentRepo st); [|exact H].
    cbn [sections]. apply Forall_app. split; [exact H|].
    repeat constructor. apply trim_fix. }
  assert (Hstep : forall st line,
            Forall (fun sec => JS.trim (output sec) = output sec) (sections st) ->
            Forall (fun sec => JS.trim (output sec) = output sec)
                   (sections (splitStep st line))).
  { intros st line H. unfold splitStep.
    destruct (isStartMarker line); [cbn [sections]; now apply (Hflush (sawMarker st))|].
    destruct (isEndMarker line); [now apply (Hflush (sawMarker st))|].
    destruct (bool_decide _); [exact H|]. destruct (negb _); exact H. }
  assert (Hfold : forall lines st,
            Forall (fun sec => JS.trim (output sec) = output sec) (sections st) ->
            Forall (fun sec => JS.trim (output sec) = output sec)
                   (sections (fold_left splitStep lines st))).
  { induction lines as [|l ls IH]; intros st H; cbn [fold_left]; [exact H|].
    apply IH, Hstep, H. }
  unfold splitRepoSections. destruct (hasMarkers _).
  - apply Hflush, Hfold. constructor.
  - repeat constructor. apply trim_fix.
Qed.

(** X5. An input with an end-marker line but no start marker yields no
    section at all: the text is not returned as an unnamed section either. *)
Theorem split_end_markers_only (rawOutput : jsstr) :
  Forall (fun line => isStartMarker line = false) (JS.split JS.LF rawOutput) ->
  Exists (fun line => isEndMarker line = true) (JS.split JS.LF rawOutput) ->
  splitRepoSections rawOutput = [].
Proof.
  intros Hno Hend.
  assert (Hfold : forall lines st,
            Forall (fun line => isStartMarker line = false) lines ->
            sections st = [] -> currentRepo st = None ->
            sections (fold_left splitStep lines st) = []
            /\ currentRepo (fold_left splitStep lines st) = None
            /\ (hasMarkers st = true \/ Exists (fun line => isEndMarker line = true) lines ->
                hasMarkers (fold_left splitStep lines st) = true)).
  { induction lines as [|l ls IH]; intros st Hall Hs Hr; cbn [fold_left].
    - split; [exact Hs|]. split; [exact Hr|]. intros [H|H]; [exact H|inversion H].
    - inversion Hall as [|? ? Hl Hls]; subst.
      assert (Hstep : sections (splitStep st l) = [] /\ currentRepo (splitStep st l) = None
                      /\ (hasMarkers st = true \/ isEndMarker l = true ->
                          hasMarkers (splitStep st l) = true)).
      { unfold splitStep. rewrite Hl.
        destruct (isEndMarker l).
        - unfold flushCurrentSection, sawMarker. cbn [currentRepo]. rewrite Hr. cbn.
          now rewrite Hs.
        - rewrite Hr. rewrite bool_decide_false by (intros Hx; now apply Hx).
          destruct (hasMarkers st) eqn:Hm; cbn; rewrite ?Hs, ?Hr, ?Hm.
          + now repeat split.
          + split; [reflexivity|]. split; [reflexivity|]. intros [H|H]; discriminate H. }
      destruct Hstep as (Hs' & Hr' & Hm').
      destruct (IH _ Hls Hs' Hr') as (H1 & H2 & H3).
      split; [exact H1|]. split; [exact H2|].
      intros [H|H]; apply H3.
      + left. apply Hm'. now left.
      + inversion H; subst; [left; apply Hm'; now right|now right]. }
  destruct (Hfold _ splitInit Hno eq_refl eq_refl) as (Hs & Hr & Hm).
  unfold splitRepoSections. rewrite Hm by now right.
  unfold flushCurrentSection. now rewrite Hr.
Qed.

Lemma split_end_markers_only_witness :
  splitRepoSections (JS.lit "fatal: not a git repository
  @@HAPI_REPO_END  
tail") = [].
Proof.
  assert (E : JS.split JS.LF (JS.lit "fatal: not a git repository
  @@HAPI_REPO_END  
tail") = [JS.lit "fatal: not a git repository"; JS.lit "  @@HAPI_REPO_END  "; JS.lit "tail"])
    by (vm_compute; reflexivity).
  apply split_end_markers_only; rewrite E.
  - repeat (constructor; [vm_compute; reflexivity|]). constructor.
  - apply Exists_cons_tl, Exists_cons_hd. vm_compute. reflexivity.
Defined.

End OutsideLines.

Section MarkerNames.

Lemma Decode_plain s : forall fuel,
  0x25%N ∉ s -> length s <= fuel -> URI.Decode fuel s = Some s.
Proof.
  induction s as [|c t IH]; intros fuel Hno Hlen; [now destruct fuel|].
  apply not_elem_of_cons in Hno as [Hc Ht].
  destruct fuel as [|fuel]; [cbn in Hlen; lia|].
  cbn [URI.Decode]. destruct (N.eqb_spec c 0x25) as [->|_]; [congruence|].
  rewrite IH by (auto; cbn in Hlen; lia). reflexivity.
Qed.

Lemma Decode_broken pre : forall fuel rest,
  0x25%N ∉ pre ->
  match rest with a :: b :: _ => URI.parseHexOctet a b = None | _ => True end ->
  URI.Decode fuel (pre ++ 0x25%N :: rest) = None.
Proof.
  induction pre as [|c t IH]; intros fuel rest Hno Hrest.
  - cbn [app]. destruct fuel; [reflexivity|]. cbn [URI.Decode].
    rewrite N.eqb_refl. unfold URI.readEscape. rewrite N.eqb_refl.
    destruct rest as [|a [|b rest']]; try reflexivity. now rewrite Hrest.
  - apply not_elem_of_cons in Hno as [Hc Ht].
    cbn [app]. destruct fuel; [reflexivity|]. cbn [URI.Decode].
    destruct (N.eqb_spec c 0x25) as [->|_]; [congruence|].
    now rewrite IH.
Qed.

(** X6. A marker name without a percent sign is taken literally, and a
    name whose first percent sign is not followed by two hexadecimal digits,
    which decodeURIComponent rejects, is kept as written. *)
Theorem decodeRepoSectionName_literal (name : jsstr) :
  0x25%N ∉ name \/ brokenEscape name ->
  decodeRepoSectionName name = name
  /\ (brokenEscape name -> URI.decodeURIComponent name = None).
Proof.
  intros H. split.
  - unfold decodeRepoSectionName, URI.decodeURIComponent.
    destruct H as [Hno|(pre & rest & -> & Hno & Hrest)].
    + now rewrite Decode_plain.
    + now rewrite Decode_broken.
  - intros (pre & rest & -> & Hno & Hrest). unfold URI.decodeURIComponent.
    now apply Decode_broken.
Qed.

Lemma decodeRepoSectionName_literal_witness :
  (decodeRepoSectionName (JS.lit "packages/web app") = JS.lit "packages/web app"
   /\ (brokenEscape (JS.lit "packages/web app") ->
       URI.decodeURIComponent (JS.lit "packages/web app") = None))
  /\ (decodeRepoSectionName (JS.lit "100%_done") = JS.lit "100%_done"
      /\ (brokenEscape (JS.lit "100%_done") ->
          URI.decodeURIComponent (JS.lit "100%_done") = None)).
Proof.
  split.
  - apply (decodeRepoSectionName_literal (JS.lit "packages/web app")). left.
    vm_compute. intros H.
    repeat (apply elem_of_cons in H as [H|H]; [discriminate H|]).
    now apply elem_of_nil in H.
  - apply (decodeRepoSectionName_literal (JS.lit "100%_done")). right.
    exists (JS.lit "100"), (JS.lit "_done"). split; [reflexivity|]. split; [|reflexivity].
    vm_compute. intros H.
    repeat (apply elem_of_cons in H as [H|H]; [discriminate H|]).
    now apply elem_of_nil in H.
Defined.

Lemma encode_defined s : forall n, length s <= n ->
  Forall (fun c => (c < 0x10000)%N) s ->
  (URI.encodeURIComponent s = None <-> URI.isWellFormed s = false).
Proof.
  intros n. revert s. induction n as [|n IH]; intros s Hlen Hunits.
  - destruct s; [|cbn in Hlen; lia]. cbn. split; discriminate.
  - destruct s as [|c t]; [cbn; split; discriminate|].
    inversion Hunits as [|? ? Hc Ht]; subst.
    cbn [URI.encodeURIComponent URI.isWellFormed].
    assert (Hu : URI.isUnreserved c = true ->
                 URI.isTrailingSurrogate c = false /\ URI.isLeadingSurrogate c = false).
    { intros Hun. destruct (URIFacts.unreserved_cases c Hun) as [Hlt _].
      unfold URI.isTrailingSurrogate, URI.isLeadingSurrogate, URI.inRange.
      split; apply andb_false_iff; left; apply N.leb_gt; lia. }
    assert (Htail : URI.encodeURIComponent t = None <-> URI.isWellFormed t = false).
    { apply IH; [cbn in Hlen; lia|exact Ht]. }
    destruct (URI.isUnreserved c) eqn:Hun.
    + destruct (Hu eq_refl) as [-> ->].
      apply N.ltb_lt in Hc. rewrite Hc. cbn [andb].
      destruct (URI.encodeURIComponent t); cbn; rewrite <- Htail; split; congruence.
    + destruct (URI.isTrailingSurrogate c); [split; reflexivity|].
      destruct (URI.isLeadingSurrogate c).
      * destruct t as [|d t']; [split; reflexivity|].
        inversion Ht as [|? ? Hd Ht']; subst.
        destruct (URI.isTrailingSurrogate d); [|split; reflexivity].
        cbn [andb].
        assert (Htail' : URI.encodeURIComponent t' = None <-> URI.isWellFormed t' = false).
        { apply IH; [cbn in Hlen; lia|exact Ht']. }
        destruct (URI.encodeURIComponent t'); cbn; rewrite <- Htail'; split; congruence.
      * apply N.ltb_lt in Hc. rewrite Hc. cbn [andb].
        destruct (URI.encodeURIComponent t); cbn; rewrite <- Htail; split; congruence.
Qed.

(** X7. Framing fails, with the URIError of encodeURIComponent, exactly
    for the repository names that have an unpaired surrogate; the output to
    frame plays no part in it. *)
Theorem wrap_fails_on_lone_surrogates (repoName output : jsstr) :
  Forall (fun c => (c < 0x10000)%N) repoName ->
  (wrapRepoSectionOutput repoName output = None <-> URI.isWellFormed repoName = false).
Proof.
  intros Hunits.
  rewrite <- (encode_defined repoName (length repoName) (le_n _) Hunits).
  unfold wrapRepoSectionOutput.
  destruct (URI.encodeURIComponent repoName); cbn [mbind option_bind].
  - destruct (negb _); split; discriminate.
  - split; reflexivity.
Qed.

Lemma wrap_fails_on_lone_surrogates_witness :
  wrapRepoSectionOutput [0x61%N; 0xDC00%N; 0x62%N] (JS.lit "x") = None
  <-> URI.isWellFormed [0x61%N; 0xDC00%N; 0x62%N] = false.
Proof.
  apply (wrap_fails_on_lone_surrogates [0x61%N; 0xDC00%N; 0x62%N] (JS.lit "x")).
  repeat constructor.
Defined.

End MarkerNames.

(** ** Discovery and the directory tree *)

Section TraceFacts.

Variable hasGitMetadata : fspath -> bool.
Variable readdir : fspath -> option (list Dirent).
Variable baseCwd : jsstr.

Local Abbreviation step := (scanStep hasGitMetadata readdir).
Local Abbreviation loop := (scanLoop hasGitMetadata readdir).
Local Abbreviation Trace := (scanTrace hasGitMetadata readdir baseCwd).
Local Abbreviation Listed := (listed hasGitMetadata readdir baseCwd).

Lemma expanded_mono q q' d d' e :
  (forall x, x ∈ q -> x ∈ q') -> (forall x, x ∈ d -> x ∈ d') ->
  expanded hasGitMetadata readdir q d e -> expanded hasGitMetadata readdir q' d' e.
Proof.
  unfold expanded. intros Hq Hd H.
  destruct ((0 <? depth e) && hasGitMetadata (q_path e)).
  - intros H1 H2. apply Hd. now apply H.
  - intros H1 entries H2 c Hc. apply Hq. now apply (H H1 entries H2).
Qed.

Lemma scanInit_trace : Trace (scanInit baseCwd).
Proof.
  split; cbn [scanInit queue q_index discovered].
  - reflexivity.
  - repeat constructor.
  - constructor.
  - intros i e Hi. lia.
  - intros i j a b _ Ha Hb.
    apply list_lookup_singleton_Some in Ha as [_ <-].
    apply list_lookup_singleton_Some in Hb as [_ <-]. lia.
  - intros cur e Hc He. apply list_elem_of_singleton in He. subst e.
    cbn in Hc. inversion Hc. cbn. lia.
Qed.

Lemma children_traced current entries :
  tracedEntry hasGitMetadata readdir baseCwd current ->
  depth current < MAX_DISCOVERY_DEPTH ->
  (0 <? depth current) && hasGitMetadata (q_path current) = false ->
  readdir (q_path current) = Some entries ->
  Forall (fun c => tracedEntry hasGitMetadata readdir baseCwd c
                   /\ depth c = depth current + 1)
         (children current entries).
Proof.
  intros (Hl & Hroot & Hlen) Hlt Hnot Hread. unfold children.
  apply Forall_forall. intros c Hc.
  apply list_elem_of_In, in_map_iff in Hc as (entry & <- & Hentry).
  apply filter_In in Hentry as [Hin Hentry].
  apply andb_true_iff in Hentry as [Hdir Hskip]. apply negb_true_iff in Hskip.
  split; [|reflexivity].
  unfold tracedEntry. cbn [depth q_path join names root].
  split; [|split; [exact Hroot|rewrite length_app; cbn; lia]].
  assert (Hp : {| root := baseCwd; names := names (q_path current) |} = q_path current).
  { rewrite <- Hroot. apply fspath_eta. }
  apply (listed_child hasGitMetadata readdir baseCwd _ entries entry); auto.
  - lia.
  - now rewrite Hp, <- Hlen.
  - now rewrite Hp.
  - now apply list_elem_of_In.
Qed.

Lemma scanStep_trace st st' : step st = Some st' -> Trace st -> Trace st'.
Proof.
  unfold scanStep. intros Hstep [Hroot Hl Hf Hdone Hord Hfront].
  destruct (q_index st <? length (queue st)) eqn:E1; [|discriminate]. cbn [negb] in Hstep.
  destruct (MAX_DISCOVERY_REPOS <=? length (discovered st)); [discriminate|].
  destruct (MAX_DISCOVERY_DIRECTORIES <=? scannedDirectories st); [discriminate|].
  apply Nat.ltb_lt in E1.
  destruct (queue st !! q_index st) as [current|] eqn:Ec; [|discriminate].
  assert (Hcur : tracedEntry hasGitMetadata readdir baseCwd current).
  { rewrite Forall_forall in Hl. apply Hl. eapply list_elem_of_lookup_2. exact Ec. }
  assert (Hin : current ∈ queue st) by (eapply list_elem_of_lookup_2; exact Ec).
  (* what stays true whenever the queue is left alone *)
  assert (Hsame : forall d',
            (forall x, x ∈ discovered st -> x ∈ d') ->
            Forall (tracedRepo hasGitMetadata (queue st)) d' ->
            expanded hasGitMetadata readdir (queue st) d' current ->
            Trace {| queue := queue st; q_index := q_index st + 1; discovered := d';
                     scannedDirectories := scannedDirectories st + 1 |}).
  { intros d' Hsub Hf' Hexp.
    split; cbn [queue q_index discovered]; try assumption.
    - intros i e Hi He.
      destruct (Nat.eq_dec i (q_index st)) as [->|Hne].
      + rewrite Ec in He. inversion He; subst e. exact Hexp.
      + eapply expanded_mono; [| |apply (Hdone i e); [lia|exact He]]; auto.
    - intros cur e Hc He.
      pose proof (Hord (q_index st) (q_index st + 1) current cur ltac:(lia) Ec Hc) as Hle.
      pose proof (Hfront _ _ eq_refl He). lia. }
  destruct ((0 <? depth current) && hasGitMetadata (q_path current)) eqn:Eg.
  - apply andb_true_iff in Eg as [Ez Eg']. apply Nat.ltb_lt in Ez.
    destruct (JS.truthy (relativePosix (q_path current))
              && negb (JS.startsWith (relativePosix (q_path current)) (JS.lit ".."))) eqn:Er;
      inversion Hstep; subst st'; clear Hstep; apply Hsame.
    + intros x Hx. apply elem_of_app. now left.
    + apply Forall_app. split; [exact Hf|]. repeat constructor.
      exists current. cbn [absolutePath relativePath]. now repeat split.
    + unfold expanded. replace (0 <? depth current) with true
        by (symmetry; now apply Nat.ltb_lt). rewrite Eg'. cbn [andb].
      intros _ _. apply elem_of_app. right. apply list_elem_of_singleton. reflexivity.
    + auto.
    + exact Hf.
    + unfold expanded. replace (0 <? depth current) with true
        by (symmetry; now apply Nat.ltb_lt). rewrite Eg'. cbn [andb].
      intros H1 H2. apply andb_false_iff in Er as [Er|Er].
      * destruct (relativePosix (q_path current)); [congruence|discriminate Er].
      * rewrite H2 in Er. discriminate Er.
  - destruct (MAX_DISCOVERY_DEPTH <=? depth current) eqn:Ed.
    + inversion Hstep; subst st'; clear Hstep. apply Hsame; auto.
      unfold expanded. rewrite Eg. apply Nat.leb_le in Ed. intros Hlt. lia.
    + apply Nat.leb_gt in Ed.
      destruct (readdir (q_path current)) as [entries|] eqn:Eread;
        inversion Hstep; subst st'; clear Hstep.
      * pose proof (children_traced current entries Hcur Ed Eg Eread) as Hch.
        rewrite Forall_forall in Hch.
        assert (Hold : forall i e, queue st !! i = Some e ->
                        (queue st ++ children current entries) !! i = Some e).
        { intros i e He. now apply lookup_app_l_Some. }
        split; cbn [queue q_index discovered].
        -- now apply Hold.
        -- apply Forall_app. split; [exact Hl|].
           apply Forall_forall. intros c Hc. now apply Hch.
        -- eapply Forall_impl; [exact Hf|].
           intros d (e & He & Hrest). exists e. split; [|exact Hrest].
           apply elem_of_app. now left.
        -- intros i e Hi He.
           assert (Hlt : i < length (queue st)) by lia.
           rewrite lookup_app_l in He by exact Hlt.
           destruct (Nat.eq_dec i (q_index st)) as [->|Hne].
           ++ rewrite Ec in He. inversion He; subst e.
              unfold expanded. rewrite Eg. intros _ entries' Hread c Hc.
              rewrite Eread in Hread. inversion Hread; subst entries'.
              apply elem_of_app. now right.
           ++ eapply expanded_mono; [| |apply (Hdone i e); [lia|exact He]]; auto.
              intros x Hx. apply elem_of_app. now left.
        -- intros i j a b Hij Ha Hb.
           destruct (Nat.lt_ge_cases j (length (queue st))) as [Hj|Hj].
           ++ rewrite lookup_app_l in Ha by lia. rewrite lookup_app_l in Hb by lia.
              exact (Hord i j a b Hij Ha Hb).
           ++ rewrite lookup_app_r in Hb by lia.
              apply list_elem_of_lookup_2 in Hb. destruct (Hch b Hb) as [_ Hdb].
              destruct (Nat.lt_ge_cases i (length (queue st))) as [Hi|Hi].
              ** rewrite lookup_app_l in Ha by lia.
                 apply list_elem_of_lookup_2 in Ha.
                 pose proof (Hfront _ _ eq_refl Ha). lia.
              ** rewrite lookup_app_r in Ha by lia.
                 apply list_elem_of_lookup_2 in Ha. destruct (Hch a Ha) as [_ Hda]. lia.
        -- intros cur e Hc He.
           assert (Hcd : depth current <= depth cur).
           { destruct (Nat.lt_ge_cases (q_index st + 1) (length (queue st))) as [Hj|Hj].
             - rewrite lookup_app_l in Hc by lia.
               exact (Hord (q_index st) (q_index st + 1) current cur ltac:(lia) Ec Hc).
             - rewrite lookup_app_r in Hc by lia.
               apply list_elem_of_lookup_2 in Hc. destruct (Hch cur Hc) as [_ Hdc]. lia. }
           apply elem_of_app in He as [He|He].
           ++ pose proof (Hfront _ _ eq_refl He). lia.
           ++ destruct (Hch e He) as [_ Hde]. lia.
      * apply Hsame; auto. unfold expanded. rewrite Eg. intros _ entries Hread.
        rewrite Eread in Hread. discriminate Hread.
Qed.

Lemma scanLoop_trace turns : forall st, Trace st -> Trace (loop turns st).
Proof.
  induction turns as [|n IH]; intros st Hst; cbn [scanLoop]; [exact Hst|].
  destruct (step st) as [st'|] eqn:E; [|exact Hst].
  apply IH. exact (scanStep_trace _ _ E Hst).
Qed.

Lemma scanFinal_trace : Trace (scanFinal hasGitMetadata readdir baseCwd).
Proof. apply scanLoop_trace, scanInit_trace. Qed.

Lemma shouldSkip_false name :
  shouldSkipDirectory name = false ->
  (name ∉ SKIPPED_DIRECTORY_NAMES) /\ JS.startsWith name (JS.lit ".") = false.
Proof.
  unfold shouldSkipDirectory. intros H.
  destruct (JS.str_eqb name (JS.lit ".git")); [discriminate|].
  destruct (bool_decide (name ∈ SKIPPED_DIRECTORY_NAMES)) eqn:E; [discriminate|].
  apply bool_decide_eq_false in E. now split.
Qed.

Lemma listed_names ns :
  Listed ns ->
  length ns <= MAX_DISCOVERY_DEPTH
  /\ Forall (fun n => shouldSkipDirectory n = false) ns
  /\ (forall anc, anc <> [] -> properPrefix anc ns ->
        hasGitMetadata {| root := baseCwd; names := anc |} = false).
Proof.
  induction 1 as [|ns entries entry Hl (IH1 & IH2 & IH3) Hlt Hgit Hread Hin Hdir Hskip].
  - split; [cbn; lia|]. split; [constructor|].
    intros anc _ (more & Hne & H). symmetry in H.
    apply app_eq_nil in H as [_ H]. congruence.
  - split; [rewrite length_app; cbn; lia|].
    split; [apply Forall_app; split; [exact IH2|now repeat constructor]|].
    intros anc Hne Hpre. apply properPrefix_snoc in Hpre as [->|Hpre].
    + apply andb_false_iff in Hgit as [Hz|Hg]; [|exact Hg].
      apply Nat.ltb_ge in Hz. destruct ns; [congruence|cbn in Hz; lia].
    + now apply IH3.
Qed.

Lemma relativePosix_not_above n0 rest :
  JS.startsWith n0 (JS.lit ".") = false ->
  JS.startsWith (JS.join (JS.lit "/") (n0 :: rest)) (JS.lit "..") = false.
Proof.
  change (JS.lit ".") with [0x2E%N]. change (JS.lit "..") with [0x2E%N; 0x2E%N].
  change (JS.lit "/") with [0x2F%N].
  intros H. destruct n0 as [|c n0].
  - destruct rest; reflexivity.
  - assert (Hc : (0x2E =? c)%N = false).
    { cbn [JS.startsWith] in H. destruct (0x2E =? c)%N; [|reflexivity].
      destruct n0; discriminate H. }
    destruct rest; cbn [JS.join app JS.startsWith]; now rewrite Hc.
Qed.

(** When the loop is left with neither bound reached, the whole queue has
    been worked through. *)
Lemma scanFinal_exhausted :
  let st := scanFinal hasGitMetadata readdir baseCwd in
  length (discovered st) < MAX_DISCOVERY_REPOS ->
  scannedDirectories st < MAX_DISCOVERY_DIRECTORIES ->
  length (queue st) <= q_index st.
Proof.
  cbv zeta. intros Hr Hd.
  pose proof (scanFinal_exits hasGitMetadata readdir baseCwd) as Hexit.
  unfold scanStep in Hexit.
  destruct (q_index _ <? length _) eqn:E1; [|apply Nat.ltb_ge in E1; exact E1].
  exfalso. cbn [negb] in Hexit.
  apply Nat.leb_gt in Hr, Hd. rewrite Hr, Hd in Hexit.
  apply Nat.ltb_lt in E1. apply lookup_lt_is_Some_2 in E1 as [cur Hcur].
  rewrite Hcur in Hexit.
  repeat match type of Hexit with
         | (if ?b then _ else _) = _ => destruct b
         | match ?x with _ => _ end = _ => destruct x
         end; discriminate Hexit.
Qed.

Lemma listed_queued :
  let st := scanFinal hasGitMetadata readdir baseCwd in
  length (discovered st) < MAX_DISCOVERY_REPOS ->
  scannedDirectories st < MAX_DISCOVERY_DIRECTORIES ->
  forall ns, Listed ns ->
    {| q_path := {| root := baseCwd; names := ns |}; depth := length ns |} ∈ queue st.
Proof.
  cbv zeta. intros Hr Hd ns Hns.
  pose proof (scanFinal_exhausted Hr Hd) as Hall.
  destruct scanFinal_trace as [Hroot _ _ Hdone _ _].
  induction Hns as [|ns entries entry Hl IH Hlt Hgit Hread Hin Hdir Hskip].
  - eapply list_elem_of_lookup_2. exact Hroot.
  - apply list_elem_of_lookup_1 in IH as [i Hi].
    pose proof (lookup_lt_Some _ _ _ Hi) as Hlen.
    pose proof (Hdone i _ ltac:(lia) Hi) as Hexp.
    unfold expanded in Hexp. cbn [depth q_path] in Hexp. rewrite Hgit in Hexp.
    apply (Hexp Hlt entries Hread).
    unfold children. apply list_elem_of_In, in_map_iff. exists entry. split.
    + unfold join. cbn [q_path depth root names]. rewrite length_app. reflexivity.
    + apply filter_In. split; [now apply list_elem_of_In|].
      now rewrite Hdir, Hskip.
Qed.

End TraceFacts.

Section DiscoveryExtras.

Variable hasGitMetadata : fspath -> bool.
Variable readdir : fspath -> option (list Dirent).
Variable localeCompare : jsstr -> jsstr -> Z.
Variable baseCwd : jsstr.

(** X8. Every repository the discovery returns was reached from the scan
    root through directories that readdir listed as directories and whose
    names are not skipped, at most four levels down; it has repository
    metadata while none of the directories between the root and it has; its
    absolute path lies under the scan root and its relative path is its
    names joined with slashes. *)
Theorem discovery_reports_listed_repositories (d : DiscoveredGitRepo) :
  d ∈ discoverNestedGitRepos hasGitMetadata readdir localeCompare baseCwd ->
  listed hasGitMetadata readdir baseCwd (names (absolutePath d))
  /\ names (absolutePath d) <> []
  /\ length (names (absolutePath d)) <= MAX_DISCOVERY_DEPTH
  /\ root (absolutePath d) = baseCwd
  /\ hasGitMetadata (absolutePath d) = true
  /\ (forall anc, anc <> [] -> properPrefix anc (names (absolutePath d)) ->
        hasGitMetadata {| root := baseCwd; names := anc |} = false)
  /\ relativePath d = JS.join (JS.lit "/") (names (absolutePath d)).
Proof.
  unfold discoverNestedGitRepos. rewrite sortBy_perm. intros Hd.
  destruct (scanFinal_trace hasGitMetadata readdir baseCwd) as [_ Hl Hf _ _ _].
  rewrite Forall_forall in Hf. destruct (Hf d Hd) as (e & He & Hp & Hz & Hg & Hrel).
  rewrite Forall_forall in Hl. destruct (Hl e He) as (Hlisted & Hroot & Hlen).
  rewrite Hp in Hlisted, Hroot, Hlen, Hg.
  destruct (listed_names hasGitMetadata readdir baseCwd _ Hlisted) as (Hdepth & _ & Hanc).
  split; [exact Hlisted|]. split.
  { intros Hnil. rewrite Hnil in Hlen. cbn in Hlen. lia. }
  split; [exact Hdepth|]. split; [exact Hroot|]. split; [exact Hg|].
  split; [exact Hanc|exact Hrel].
Qed.

(** X9. No directory on the way to a returned repository has a skipped
    name: none of the names below the scan root is in the skip list, and
    none starts with a dot. *)
Theorem discovery_avoids_skipped_names (d : DiscoveredGitRepo) (name : jsstr) :
  d ∈ discoverNestedGitRepos hasGitMetadata readdir localeCompare baseCwd ->
  name ∈ names (absolutePath d) ->
  shouldSkipDirectory name = false
  /\ (name ∉ SKIPPED_DIRECTORY_NAMES)
  /\ JS.startsWith name (JS.lit ".") = false.
Proof.
  unfold discoverNestedGitRepos. rewrite sortBy_perm. intros Hd Hname.
  destruct (scanFinal_trace hasGitMetadata readdir baseCwd) as [_ Hl Hf _ _ _].
  rewrite Forall_forall in Hf. destruct (Hf d Hd) as (e & He & Hp & _).
  rewrite Forall_forall in Hl. destruct (Hl e He) as (Hlisted & _).
  rewrite Hp in Hlisted.
  destruct (listed_names hasGitMetadata readdir baseCwd _ Hlisted) as (_ & Hnames & _).
  rewrite Forall_forall in Hnames. specialize (Hnames name Hname).
  split; [exact Hnames|]. now apply shouldSkip_false.
Qed.

(** X10. When the scan ends with neither the repository bound nor the
    directory bound reached, nothing is missed: every directory that can be
    reached from the root through listed, unskipped directories none of
    which (below the root) is a repository, that lies at most four levels
    down and has repository metadata, is returned, provided its relative
    path is not empty. *)
Theorem discovery_complete_within_bounds (ns : list jsstr) :
  let st := scanFinal hasGitMetadata readdir baseCwd in
  length (discovered st) < MAX_DISCOVERY_REPOS ->
  scannedDirectories st < MAX_DISCOVERY_DIRECTORIES ->
  listed hasGitMetadata readdir baseCwd ns ->
  ns <> [] ->
  hasGitMetadata {| root := baseCwd; names := ns |} = true ->
  JS.join (JS.lit "/") ns <> [] ->
  {| absolutePath := {| root := baseCwd; names := ns |};
     relativePath := JS.join (JS.lit "/") ns |}
  ∈ discoverNestedGitRepos hasGitMetadata readdir localeCompare baseCwd.
Proof.
  cbv zeta. intros Hr Hd Hns Hne Hgit Hrel.
  unfold discoverNestedGitRepos. rewrite sortBy_perm.
  pose proof (listed_queued hasGitMetadata readdir baseCwd Hr Hd ns Hns) as Hq.
  pose proof (scanFinal_exhausted hasGitMetadata readdir baseCwd Hr Hd) as Hall.
  destruct (scanFinal_trace hasGitMetadata readdir baseCwd) as [_ _ _ Hdone _ _].
  apply list_elem_of_lookup_1 in Hq as [i Hi].
  pose proof (lookup_lt_Some _ _ _ Hi) as Hlen.
  pose proof (Hdone i _ ltac:(lia) Hi) as Hexp.
  unfold expanded in Hexp. cbn [depth q_path] in Hexp. rewrite Hgit in Hexp.
  destruct ns as [|n0 rest]; [congruence|].
  cbn [length Nat.ltb Nat.leb andb] in Hexp.
  apply Hexp; [exact Hrel|].
  apply relativePosix_not_above.
  destruct (listed_names hasGitMetadata readdir baseCwd _ Hns) as (_ & Hnames & _).
  inversion Hnames as [|? ? Hn0 _]; subst. now apply shouldSkip_false.
Qed.

(** X11. The scan is breadth-first: depths never decrease along the
    queue, so no directory is examined before one that lies nearer the
    root. *)
Theorem discovery_breadth_first (i j : nat) (a b : QueueEntry) :
  i <= j ->
  queue (scanFinal hasGitMetadata readdir baseCwd) !! i = Some a ->
  queue (scanFinal hasGitMetadata readdir baseCwd) !! j = Some b ->
  depth a <= depth b.
Proof.
  intros Hij Ha Hb.
  destruct (scanFinal_trace hasGitMetadata readdir baseCwd) as [_ _ _ _ Hord _].
  exact (Hord i j a b Hij Ha Hb).
Qed.

End DiscoveryExtras.

Lemma discovery_reports_listed_repositories_witness :
  listed twoRepos_git twoRepos_dir (JS.lit "/work") [JS.lit "a"]
  /\ [JS.lit "a"] <> []
  /\ 1 <= MAX_DISCOVERY_DEPTH
  /\ JS.lit "/work" = JS.lit "/work"
  /\ twoRepos_git {| root := JS.lit "/work"; names := [JS.lit "a"] |} = true
  /\ (forall anc, anc <> [] -> properPrefix anc [JS.lit "a"] ->
        twoRepos_git {| root := JS.lit "/work"; names := anc |} = false)
  /\ JS.lit "a" = JS.join (JS.lit "/") [JS.lit "a"].
Proof.
  apply (discovery_reports_listed_repositories twoRepos_git twoRepos_dir ordinalCompare
           (JS.lit "/work")
           {| absolutePath := {| root := JS.lit "/work"; names := [JS.lit "a"] |};
              relativePath := JS.lit "a" |}).
  vm_compute. apply list_elem_of_further, list_elem_of_here.
Defined.

Lemma discovery_avoids_skipped_names_witness :
  shouldSkipDirectory (JS.lit "B") = false
  /\ (JS.lit "B" ∉ SKIPPED_DIRECTORY_NAMES)
  /\ JS.startsWith (JS.lit "B") (JS.lit ".") = false.
Proof.
  apply (discovery_avoids_skipped_names twoRepos_git twoRepos_dir ordinalCompare
           (JS.lit "/work")
           {| absolutePath := {| root := JS.lit "/work"; names := [JS.lit "B"] |};
              relativePath := JS.lit "B" |}).
  - vm_compute. apply list_elem_of_here.
  - apply list_elem_of_here.
Defined.

Lemma discovery_complete_within_bounds_witness :
  {| absolutePath := {| root := JS.lit "/work"; names := [JS.lit "B"] |};
     relativePath := JS.join (JS.lit "/") [JS.lit "B"] |}
  ∈ discoverNestedGitRepos twoRepos_git twoRepos_dir ordinalCompare (JS.lit "/work").
Proof.
  apply (discovery_complete_within_bounds twoRepos_git twoRepos_dir ordinalCompare
           (JS.lit "/work") [JS.lit "B"]).
  - vm_compute. lia.
  - vm_compute. lia.
  - apply (listed_child twoRepos_git twoRepos_dir (JS.lit "/work") []
             [ {| d_name := JS.lit "B"; isDirectory := true |};
               {| d_name := JS.lit "a"; isDirectory := true |};
               {| d_name := JS.lit "README"; isDirectory := false |} ]
             {| d_name := JS.lit "B"; isDirectory := true |}).
    + constructor.
    + unfold MAX_DISCOVERY_DEPTH. cbn. lia.
    + reflexivity.
    + reflexivity.
    + apply list_elem_of_here.
    + reflexivity.
    + reflexivity.
  - discriminate.
  - reflexivity.
  - discriminate.
Defined.

Lemma discovery_breadth_first_witness :
  depth {| q_path := {| root := JS.lit "/work"; names := [] |}; depth := 0 |}
  <= depth {| q_path := {| root := JS.lit "/work"; names := [JS.lit "a"] |}; depth := 1 |}.
Proof.
  apply (discovery_breadth_first twoRepos_git twoRepos_dir (JS.lit "/work") 0 2).
  - lia.
  - reflexivity.
  - vm_compute. reflexivity.
Defined.

(** ** Discovery meets no directory twice *)

Section DistinctFacts.

Variable hasGitMetadata : fspath -> bool.
Variable readdir : fspath -> option (list Dirent).
Variable baseCwd : jsstr.

Hypothesis names_distinct :
  forall p entries, readdir p = Some entries -> NoDup (List.map d_name entries).

Local Abbreviation step := (scanStep hasGitMetadata readdir).
Local Abbreviation loop := (scanLoop hasGitMetadata readdir).
Local Abbreviation Trace := (scanTrace hasGitMetadata readdir baseCwd).

Lemma NoDup_map_filter {A B} (f : A -> B) (P : A -> bool) l :
  NoDup (List.map f l) -> NoDup (List.map f (List.filter P l)).
Proof.
  induction l as [|x l IH]; cbn [List.map List.filter]; [auto|].
  intros H. apply NoDup_cons in H as [Hx Hl].
  destruct (P x); [|auto]. cbn [List.map]. apply NoDup_cons. split; [|auto].
  intros Hin. apply Hx.
  apply list_elem_of_In, in_map_iff in Hin as (y & Hy & Hin).
  apply filter_In in Hin as [Hin _].
  apply list_elem_of_In, in_map_iff. now exists y.
Qed.

Lemma children_paths current entries :
  List.map q_path (children current entries)
  = List.map (fun entry => join (q_path current) (d_name entry))
      (List.filter (fun entry => isDirectory entry && negb (shouldSkipDirectory (d_name entry)))
                   entries).
Proof. unfold children. now rewrite map_map. Qed.

Lemma children_distinct current entries :
  NoDup (List.map d_name entries) -> NoDup (List.map q_path (children current entries)).
Proof.
  intros H. rewrite children_paths.
  apply (NoDup_map_filter d_name
           (fun entry => isDirectory entry && negb (shouldSkipDirectory (d_name entry)))) in H.
  revert H. generalize (List.filter (fun entry => isDirectory entry
                                       && negb (shouldSkipDirectory (d_name entry))) entries).
  induction l as [|x l IH]; cbn [List.map]; intros H; [constructor|].
  apply NoDup_cons in H as [Hx Hl]. apply NoDup_cons. split; [|auto].
  intros Hin. apply Hx.
  apply list_elem_of_In, in_map_iff in Hin as (y & Hy & Hin).
  apply list_elem_of_In, in_map_iff. exists y. split; [|exact Hin].
  unfold join in Hy. inversion Hy as [Hn]. now apply app_inj_tail in Hn as [_ ?].
Qed.

Lemma scanStep_distinct st st' :
  step st = Some st' -> Trace st -> scanDistinct st -> scanDistinct st'.
Proof.
  unfold scanStep. intros Hstep [_ Hl _ _ _ _] [Hq Hpar Hfound Hrepos].
  destruct (q_index st <? length (queue st)) eqn:E1; [|discriminate]. cbn [negb] in Hstep.
  destruct (MAX_DISCOVERY_REPOS <=? length (discovered st)); [discriminate|].
  destruct (MAX_DISCOVERY_DIRECTORIES <=? scannedDirectories st); [discriminate|].
  apply Nat.ltb_lt in E1.
  destruct (queue st !! q_index st) as [current|] eqn:Ec; [|discriminate].
  rewrite Forall_forall in Hl.
  (* an entry with the path of the current one is the current one *)
  assert (Hclash : forall i e, i < q_index st -> queue st !! i = Some e ->
                     q_path e = q_path current -> False).
  { intros i e Hi He Hp.
    assert (H1 : List.map q_path (queue st) !! i = Some (q_path current)).
    { change (List.map q_path (queue st)) with (q_path <$> queue st).
      rewrite list_lookup_fmap, He. cbn. now rewrite Hp. }
    assert (H2 : List.map q_path (queue st) !! q_index st = Some (q_path current)).
    { change (List.map q_path (queue st)) with (q_path <$> queue st).
      now rewrite list_lookup_fmap, Ec. }
    pose proof (NoDup_lookup _ _ _ _ Hq H1 H2). lia. }
  assert (Hsame : forall d',
            (forall d, d ∈ d' -> exists i e, i < q_index st + 1 /\ queue st !! i = Some e
                                             /\ q_path e = absolutePath d) ->
            NoDup (List.map absolutePath d') ->
            scanDistinct {| queue := queue st; q_index := q_index st + 1; discovered := d';
                            scannedDirectories := scannedDirectories st + 1 |}).
  { intros d' Hf' Hr'. split; cbn [queue q_index discovered]; try assumption.
    intros e ns x He Hn. destruct (Hpar e ns x He Hn) as (i & p & Hi & Hp & Hnp).
    exists i, p. split; [lia|]. now split. }
  assert (Hfound' : forall d, d ∈ discovered st ->
            exists i e, i < q_index st + 1 /\ queue st !! i = Some e
                        /\ q_path e = absolutePath d).
  { intros d Hd. destruct (Hfound d Hd) as (i & e & Hi & He & Hp).
    exists i, e. split; [lia|]. now split. }
  destruct ((0 <? depth current) && hasGitMetadata (q_path current)) eqn:Eg.
  - destruct (JS.truthy (relativePosix (q_path current))
              && negb (JS.startsWith (relativePosix (q_path current)) (JS.lit "..")));
      inversion Hstep; subst st'; clear Hstep; apply Hsame; auto.
    + intros d Hd. apply elem_of_app in Hd as [Hd|Hd]; [now apply Hfound'|].
      apply list_elem_of_singleton in Hd. subst d.
      exists (q_index st), current. split; [lia|]. now split.
    + rewrite map_app. cbn [List.map absolutePath]. apply NoDup_app.
      split; [exact Hrepos|]. split; [|apply NoDup_singleton].
      intros x Hx Hx'. apply list_elem_of_singleton in Hx'. subst x.
      apply list_elem_of_In, in_map_iff in Hx as (d & Hd & Hin).
      apply list_elem_of_In in Hin.
      destruct (Hfound d Hin) as (i & e & Hi & He & Hp).
      apply (Hclash i e Hi He). congruence.
  - destruct (MAX_DISCOVERY_DEPTH <=? depth current).
    + inversion Hstep; subst st'; clear Hstep. apply Hsame; auto.
    + destruct (readdir (q_path current)) as [entries|] eqn:Eread;
        inversion Hstep; subst st'; clear Hstep; [|apply Hsame; auto].
      assert (Hroot : forall e, e ∈ queue st -> root (q_path e) = baseCwd).
      { intros e He. now destruct (Hl e He) as (_ & ? & _). }
      assert (Hcin : current ∈ queue st) by (eapply list_elem_of_lookup_2; exact Ec).
      split; cbn [queue q_index discovered].
      * rewrite map_app. apply NoDup_app. split; [exact Hq|]. split.
        -- intros x Hx Hx'.
           apply list_elem_of_In, in_map_iff in Hx as (e & He & Hin).
           apply list_elem_of_In in Hin.
           rewrite children_paths in Hx'.
           apply list_elem_of_In, in_map_iff in Hx' as (entry & Hentry & _).
           subst x.
           assert (Hn : names (q_path e) = names (q_path current) ++ [d_name entry]).
           { now rewrite <- Hentry. }
           destruct (Hpar e _ _ Hin Hn) as (i & p & Hi & Hp & Hnp).
           apply (Hclash i p Hi Hp).
           pose proof (Hroot p ltac:(eapply list_elem_of_lookup_2; exact Hp)) as Hrp.
           pose proof (Hroot current Hcin) as Hrc.
           destruct (q_path p), (q_path current); cbn in *; congruence.
        -- apply children_distinct. exact (names_distinct _ _ Eread).
      * intros e ns x He Hn. apply elem_of_app in He as [He|He].
        -- destruct (Hpar e ns x He Hn) as (i & p & Hi & Hp & Hnp).
           exists i, p. split; [lia|]. split; [|exact Hnp].
           now apply lookup_app_l_Some.
        -- unfold children in He.
           apply list_elem_of_In, in_map_iff in He as (entry & <- & _).
           cbn [q_path join names] in Hn. apply app_inj_tail in Hn as [Hn _].
           exists (q_index st), current. split; [lia|]. split; [|exact Hn].
           now apply lookup_app_l_Some.
      * intros d Hd. destruct (Hfound' d Hd) as (i & e & Hi & He & Hp).
        exists i, e. split; [exact Hi|]. split; [|exact Hp].
        now apply lookup_app_l_Some.
      * exact Hrepos.
Qed.

Lemma scanInit_distinct : scanDistinct (scanInit baseCwd).
Proof.
  split; cbn [scanInit queue q_index discovered List.map].
  - apply NoDup_singleton.
  - intros e ns x He Hn. apply list_elem_of_singleton in He. subst e.
    cbn in Hn. now destruct ns.
  - intros d Hd. now apply elem_of_nil in Hd.
  - constructor.
Qed.

Lemma scanLoop_distinct turns : forall st,
  Trace st -> scanDistinct st -> scanDistinct (loop turns st).
Proof.
  induction turns as [|n IH]; intros st Ht Hd; cbn [scanLoop]; [exact Hd|].
  destruct (step st) as [st'|] eqn:E; [|exact Hd].
  apply IH.
  - exact (scanStep_trace hasGitMetadata readdir baseCwd _ _ E Ht).
  - exact (scanStep_distinct _ _ E Ht Hd).
Qed.

End DistinctFacts.

Section DistinctResult.

Variable hasGitMetadata : fspath -> bool.
Variable readdir : fspath -> option (list Dirent).
Variable localeCompare : jsstr -> jsstr -> Z.
Variable baseCwd : jsstr.

(** X12. On a file system whose directory listings do not repeat a name,
    no directory is queued twice and no repository is returned twice. *)
Theorem discovery_reports_no_repository_twice :
  (forall p entries, readdir p = Some entries -> NoDup (List.map d_name entries)) ->
  NoDup (List.map q_path (queue (scanFinal hasGitMetadata readdir baseCwd)))
  /\ NoDup (List.map absolutePath
              (discoverNestedGitRepos hasGitMetadata readdir localeCompare baseCwd)).
Proof.
  intros Hnames.
  destruct (scanLoop_distinct hasGitMetadata readdir baseCwd Hnames
              MAX_DISCOVERY_DIRECTORIES (scanInit baseCwd)
              (scanInit_trace hasGitMetadata readdir baseCwd)
              (scanInit_distinct baseCwd)) as [Hq _ _ Hr].
  split; [exact Hq|].
  unfold discoverNestedGitRepos.
  pose proof (Permutation_map absolutePath
                (sortBy_perm (fun a b => localeCompare (relativePath a) (relativePath b))
                   (discovered (scanFinal hasGitMetadata readdir baseCwd)))) as Hp.
  rewrite Hp. exact Hr.
Qed.

End DistinctResult.

Lemma discovery_reports_no_repository_twice_witness :
  NoDup (List.map q_path (queue (scanFinal twoRepos_git twoRepos_dir (JS.lit "/work"))))
  /\ NoDup (List.map absolutePath
              (discoverNestedGitRepos twoRepos_git twoRepos_dir ordinalCompare
                 (JS.lit "/work"))).
Proof.
  apply (discovery_reports_no_repository_twice twoRepos_git twoRepos_dir ordinalCompare
           (JS.lit "/work")).
  intros p entries. unfold twoRepos_dir.
  destruct (bool_decide (names p = [])); intros H; inversion H; subst; cbn [List.map d_name].
  - repeat (apply NoDup_cons; split;
            [vm_compute; intros Hin;
             repeat (apply elem_of_cons in Hin as [Hin|Hin]; [discriminate Hin|]);
             now apply elem_of_nil in Hin|]).
    constructor.
  - constructor.
Defined.

(** ** The command runner, the cache and the single-file fallback *)

Section RunnerFacts.

Context {World : Type}.
Variable execFileAsync : list jsstr -> fspath -> N -> World -> ExecOutcome * World.

Lemma orElse_nonempty a b : b <> [] -> orElse a b <> [].
Proof. unfold orElse. destruct a; cbn; [auto|discriminate]. Qed.

(** X13. Whatever the child process does, runGitCommand answers with a
    result that has a standard output, a standard error and an exit code;
    it reports success exactly when the process was not rejected, and then
    with exit code 0 and the captured texts.  A failure carries a non-empty
    error message, which is the one the fan-out quotes for the repository
    (its own fallback wording never shows); for a process that timed out
    or was killed the message is "Command timed out" and the exit code is
    the numeric code of the error, or -1; for any other failure the
    standard error is not empty and the exit code is the numeric code, or
    1.  Without a timeout of the caller the process gets 10 seconds. *)
Theorem runGitCommand_result (args : list jsstr) (cwd : fspath) (timeout : option N)
    (w : World) :
  let outcome := fst (execFileAsync args cwd (default 10000%N timeout) w) in
  let resp := fst (runGitCommand World execFileAsync args cwd timeout w) in
  snd (runGitCommand World execFileAsync args cwd timeout w)
    = snd (execFileAsync args cwd (default 10000%N timeout) w)
  /\ runGitCommand World execFileAsync args cwd None w
     = runGitCommand World execFileAsync args cwd (Some 10000%N) w
  /\ stdout resp <> None /\ stderr resp <> None /\ exitCode resp <> None
  /\ (forall out err, outcome = resolved out err ->
        resp = {| success := true; stdout := Some out; stderr := Some err;
                  exitCode := Some 0%Z; error := None |})
  /\ (forall e, outcome = rejected e ->
        success resp = false
        /\ (exists msg, error resp = Some msg /\ msg <> []
              /\ forall fallback r,
                   errorLine fallback r resp
                   = JS.lit "[" ++ relativePath r ++ JS.lit "] " ++ msg)
        /\ (isTimeout e = true ->
              error resp = Some (JS.lit "Command timed out")
              /\ exitCode resp = Some (numericCodeOr (code e) (-1)))
        /\ (isTimeout e = false ->
              exitCode resp = Some (numericCodeOr (code e) 1)
              /\ exists text, stderr resp = Some text /\ text <> [])).
Proof.
  cbv zeta. unfold runGitCommand.
  destruct (execFileAsync args cwd (default 10000%N timeout) w) as [outcome w'] eqn:E.
  cbn [fst snd]. split; [reflexivity|]. split; [reflexivity|].
  destruct outcome as [out err|e].
  - cbn [stdout stderr exitCode].
    split; [discriminate|]. split; [discriminate|]. split; [discriminate|]. split.
    + intros out' err' H. inversion H; subst.
      unfold textOr. now destruct out', err'.
    + intros e H. discriminate H.
  - assert (Hmsg : orElse (message e) (JS.lit "Command failed") <> []).
    { apply orElse_nonempty. discriminate. }
    destruct (isTimeout e) eqn:Et; unfold rpcErrorWith; cbn [stdout stderr exitCode];
      (split; [discriminate|]); (split; [discriminate|]); (split; [discriminate|]);
      (split; [intros out err H; discriminate H|]);
      intros e' H; inversion H; subst e'; rewrite Et; cbn [success error];
      (split; [reflexivity|]); split.
    + exists (JS.lit "Command timed out"). split; [reflexivity|].
      split; [discriminate|]. intros fallback r. reflexivity.
    + split; [intros _; now split|discriminate].
    + exists (orElse (message e) (JS.lit "Command failed")). split; [reflexivity|].
      split; [exact Hmsg|]. intros fallback r. reflexivity.
    + split; [discriminate|]. intros _. split; [reflexivity|].
      eexists. split; [reflexivity|].
      unfold textOr. destruct (e_stderr e) as [[|c s]|]; cbn; auto; discriminate.
Qed.

End RunnerFacts.

Section CacheFacts.

Lemma getNestedRepos_hit hasGitMetadata readdir localeCompare baseCwd now cache c :
  cache !! baseCwd = Some c -> (now < expiresAt c)%Z ->
  getNestedRepos hasGitMetadata readdir localeCompare baseCwd now cache
  = (cached_repos c, cache).
Proof.
  intros Hc Hlt. unfold getNestedRepos. rewrite Hc.
  destruct (Z.ltb_spec now (expiresAt c)); [reflexivity|lia].
Qed.

Lemma getNestedRepos_miss hasGitMetadata readdir localeCompare baseCwd now cache :
  (forall c, cache !! baseCwd = Some c -> (expiresAt c <= now)%Z) ->
  getNestedRepos hasGitMetadata readdir localeCompare baseCwd now cache
  = (discoverNestedGitRepos hasGitMetadata readdir localeCompare baseCwd,
     <[baseCwd := {| cached_repos :=
                       discoverNestedGitRepos hasGitMetadata readdir localeCompare baseCwd;
                     expiresAt := (now + DISCOVERY_CACHE_TTL_MS)%Z |}]> cache).
Proof.
  intros Hmiss. unfold getNestedRepos.
  destruct (cache !! baseCwd) as [c|] eqn:Ec; [|reflexivity].
  specialize (Hmiss c eq_refl).
  destruct (Z.ltb_spec now (expiresAt c)); [lia|reflexivity].
Qed.

(** X14. The discovery cache. When a call of getNestedRepos is not
    served from the cache it scans and returns what the scan finds; every
    later call for the same root less than 3000 ms after it returns the same
    list and leaves the cache as it is, whatever the file system has become
    in the meantime; a call 3000 ms or more after it scans again and
    stores the new list with a new expiry time.  Entries for other roots
    are never touched. *)
Theorem nested_repos_cached_for_ttl
    (hasGit1 hasGit2 : fspath -> bool) (readdir1 readdir2 : fspath -> option (list Dirent))
    (localeCompare : jsstr -> jsstr -> Z) (baseCwd : jsstr) (now1 now2 : Z)
    (cache : gmap (list N) RepoDiscoveryCacheEntry) :
  (forall c, cache !! baseCwd = Some c -> (expiresAt c <= now1)%Z) ->
  let first := getNestedRepos hasGit1 readdir1 localeCompare baseCwd now1 cache in
  let second := getNestedRepos hasGit2 readdir2 localeCompare baseCwd now2 (snd first) in
  fst first = discoverNestedGitRepos hasGit1 readdir1 localeCompare baseCwd
  /\ ((now2 < now1 + 3000)%Z -> second = first)
  /\ ((now1 + 3000 <= now2)%Z ->
        fst second = discoverNestedGitRepos hasGit2 readdir2 localeCompare baseCwd
        /\ snd second !! baseCwd
           = Some {| expiresAt := (now2 + 3000)%Z; cached_repos := fst second |})
  /\ (forall other, other <> baseCwd ->
        snd first !! other = cache !! other /\ snd second !! other = cache !! other).
Proof.
  intros Hmiss. cbv zeta.
  rewrite (getNestedRepos_miss hasGit1 readdir1 localeCompare baseCwd now1 cache Hmiss).
  cbn [fst snd]. split; [reflexivity|].
  unfold DISCOVERY_CACHE_TTL_MS.
  destruct (Z.lt_ge_cases now2 (now1 + 3000)) as [Hlt|Hge].
  - erewrite getNestedRepos_hit by (try apply lookup_insert_eq; exact Hlt).
    cbn [cached_repos snd].
    split; [intros _; reflexivity|]. split; [intros; lia|].
    intros other Hne.
    rewrite !lookup_insert_ne by (intros E; apply Hne; now rewrite E). now split.
  - rewrite getNestedRepos_miss.
    + cbn [fst snd]. unfold DISCOVERY_CACHE_TTL_MS.
      split; [intros; lia|]. split.
      * intros _. split; [reflexivity|]. now rewrite lookup_insert_eq.
      * intros other Hne.
        rewrite !lookup_insert_ne by (intros E; apply Hne; now rewrite E). now split.
    + intros c Hc. rewrite lookup_insert_eq in Hc. inversion Hc; subst c. cbn. exact Hge.
Qed.

End CacheFacts.

Lemma nested_repos_cached_for_ttl_witness :
  let first := getNestedRepos twoRepos_git twoRepos_dir ordinalCompare (JS.lit "/work")
                 1000 ∅ in
  let second := getNestedRepos (fun _ => false) (fun _ => None) ordinalCompare
                  (JS.lit "/work") 3999 (snd first) in
  fst first = discoverNestedGitRepos twoRepos_git twoRepos_dir ordinalCompare (JS.lit "/work")
  /\ ((3999 < 1000 + 3000)%Z -> second = first)
  /\ ((1000 + 3000 <= 3999)%Z ->
        fst second = discoverNestedGitRepos (fun _ => false) (fun _ => None) ordinalCompare
                       (JS.lit "/work")
        /\ snd second !! JS.lit "/work"
           = Some {| expiresAt := (3999 + 3000)%Z; cached_repos := fst second |})
  /\ (forall other, other <> JS.lit "/work" ->
        snd first !! other = (∅ : gmap (list N) RepoDiscoveryCacheEntry) !! other
        /\ snd second !! other = (∅ : gmap (list N) RepoDiscoveryCacheEntry) !! other).
Proof.
  apply (nested_repos_cached_for_ttl twoRepos_git (fun _ => false) twoRepos_dir
           (fun _ => None) ordinalCompare (JS.lit "/work") 1000 3999 ∅).
  intros c H. rewrite lookup_empty in H. discriminate H.
Defined.

Section DiffFileFacts.

Context {World : Type}.
Variable runCommand :
  list jsstr -> fspath -> option N -> World -> GitCommandResponse * World.
Variable resolve : jsstr -> jsstr.
Variable resolveIn : jsstr -> jsstr -> jsstr.
Variable relative : jsstr -> jsstr -> jsstr.
Variable isAbsolute : jsstr -> bool.
Variable pathString : fspath -> jsstr.

Local Abbreviation inside := (isPathInside resolve relative isAbsolute).
Local Abbreviation matching := (matchingRepos resolve relative isAbsolute pathString).
Local Abbreviation fallback :=
  (runNestedDiffFileFallback World runCommand resolve resolveIn relative isAbsolute
     pathString).

Lemma matching_member rs abs r :
  r ∈ matching rs abs <-> r ∈ rs /\ inside abs (pathString (absolutePath r)) = true.
Proof.
  unfold matchingRepos. rewrite sortBy_perm.
  rewrite list_elem_of_In, filter_In, <- list_elem_of_In. reflexivity.
Qed.

Lemma matching_head_longest rs abs target rest :
  matching rs abs = target :: rest ->
  forall r, r ∈ matching rs abs ->
    length (pathString (absolutePath r)) <= length (pathString (absolutePath target)).
Proof.
  intros Hm r Hr.
  pose proof (sortBy_sorted
                (fun a b => (Z.of_nat (length (pathString (absolutePath b)))
                             - Z.of_nat (length (pathString (absolutePath a))))%Z)
                ltac:(intros; lia) ltac:(intros; lia)
                (List.filter (fun r => inside abs (pathString (absolutePath r))) rs))
    as Hsorted.
  fold (matching rs abs) in Hsorted. rewrite Hm in Hsorted, Hr.
  apply StronglySorted_inv in Hsorted as [_ Hall].
  apply elem_of_cons in Hr as [->|Hr]; [lia|].
  rewrite Forall_forall in Hall. specialize (Hall r Hr). lia.
Qed.

(** X15. The single-file fallback. With no repository at all, or with
    none the file lies in, it fails with the message for that case and runs
    no command.  Otherwise it picks, among the repositories the file lies
    in, one whose absolute path is longest, and runs one diff there for the
    file's path relative to that repository, returning the command's result
    as it is; only a file path that is the repository directory itself is
    refused as invalid.  (The path library is taken to resolve the
    arguments of [relative] itself, as Node's does.) *)
Theorem diff_file_fallback_target (rs : list DiscoveredGitRepo) (baseCwd filePath : jsstr)
    (staged : option bool) (timeout : option N) (w : World) :
  (forall a b, relative (resolve a) (resolve b) = relative a b) ->
  let abs := resolveIn baseCwd filePath in
  let result := fallback rs baseCwd filePath staged timeout w in
  (rs = [] ->
     result = (rpcError (JS.lit "Not a git repository and no nested git repositories were found")
                        None, w))
  /\ (rs <> [] ->
      (forall r, r ∈ rs -> inside abs (pathString (absolutePath r)) = false) ->
      result = (rpcError (JS.lit "File '" ++ filePath
                          ++ JS.lit "' is not inside a nested git repository") None, w))
  /\ ((exists r, r ∈ rs /\ inside abs (pathString (absolutePath r)) = true) ->
      exists target,
        target ∈ rs
        /\ inside abs (pathString (absolutePath target)) = true
        /\ (forall r, r ∈ rs -> inside abs (pathString (absolutePath r)) = true ->
              length (pathString (absolutePath r))
              <= length (pathString (absolutePath target)))
        /\ (relative (pathString (absolutePath target)) abs = [] ->
              result = (rpcError (JS.lit "Invalid git diff file path '" ++ filePath
                                  ++ JS.lit "'") None, w))
        /\ (relative (pathString (absolutePath target)) abs <> [] ->
              result = runCommand
                         (diffFileArgs staged (relative (pathString (absolutePath target)) abs))
                         (absolutePath target) timeout w)).
Proof.
  intros Hrel. cbv zeta. split; [|split].
  - intros ->. reflexivity.
  - intros Hne Hnone. destruct rs as [|r0 rs']; [congruence|].
    unfold runNestedDiffFileFallback.
    destruct (matching (r0 :: rs') (resolveIn baseCwd filePath)) as [|t ts] eqn:Em;
      [reflexivity|].
    assert (Ht : t ∈ matching (r0 :: rs') (resolveIn baseCwd filePath)).
    { rewrite Em. apply list_elem_of_here. }
    apply matching_member in Ht as [Hin Hins]. rewrite (Hnone t Hin) in Hins. discriminate.
  - intros (r & Hr & Hins).
    assert (Hmem : r ∈ matching rs (resolveIn baseCwd filePath)).
    { apply matching_member. now split. }
    destruct (matching rs (resolveIn baseCwd filePath)) as [|target rest] eqn:Em.
    { now apply elem_of_nil in Hmem. }
    assert (Ht : target ∈ matching rs (resolveIn baseCwd filePath)).
    { rewrite Em. apply list_elem_of_here. }
    apply matching_member in Ht as [Htin Htins].
    exists target. split; [exact Htin|]. split; [exact Htins|]. split.
    { intros r' Hr' Hins'. apply (matching_head_longest rs _ target rest Em).
      apply matching_member. now split. }
    assert (Hcond : negb (JS.truthy (relative (pathString (absolutePath target))
                                              (resolveIn baseCwd filePath)))
                    || JS.startsWith (relative (pathString (absolutePath target))
                                               (resolveIn baseCwd filePath)) (JS.lit "..")
                    || isAbsolute (relative (pathString (absolutePath target))
                                            (resolveIn baseCwd filePath))
                    = negb (JS.truthy (relative (pathString (absolutePath target))
                                                (resolveIn baseCwd filePath)))).
    { unfold isPathInside in Htins. rewrite Hrel in Htins.
      destruct (negb (JS.truthy _)); [reflexivity|].
      destruct (JS.startsWith _ _); [discriminate Htins|].
      destruct (isAbsolute _); [discriminate Htins|reflexivity]. }
    unfold runNestedDiffFileFallback. destruct rs as [|r0 rs']; [now apply elem_of_nil in Hr|].
    rewrite Em, Hcond. split.
    + intros ->. reflexivity.
    + intros Hne. destruct (relative _ _); [congruence|reflexivity].
Qed.

End DiffFileFacts.

Lemma diff_file_fallback_target_witness :
  runNestedDiffFileFallback (list jsstr) loggingRunner (fun p => p) sampleResolveIn
    sampleRelative sampleIsAbsolute samplePathString
    [sampleRepo "a"; sampleRepo "b"] (JS.lit "/work") (JS.lit "a/src/x.ts") None None []
  = loggingRunner (List.map JS.lit ["diff"; "--no-ext-diff"; "--"; "src/x.ts"]%string)
      {| root := JS.lit "/work"; names := [JS.lit "a"] |} None [].
Proof.
  destruct (diff_file_fallback_target loggingRunner (fun p => p) sampleResolveIn
              sampleRelative sampleIsAbsolute samplePathString
              [sampleRepo "a"; sampleRepo "b"] (JS.lit "/work") (JS.lit "a/src/x.ts")
              None None [] (fun a b => eq_refl)) as (_ & _ & H).
  destruct H as (target & Hin & Hins & _ & _ & Hrun).
  - exists (sampleRepo "a"). split; [apply list_elem_of_here|].
    vm_compute. reflexivity.
  - apply elem_of_cons in Hin as [->|Hin].
    + apply Hrun. vm_compute. discriminate.
    + apply list_elem_of_singleton in Hin. subst target.
      vm_compute in Hins. discriminate Hins.
Defined.

(** ** Bounded and backtracking quantifiers *)

Module BoundedRuns.
Import Regex RegexFacts.

Section Runs.

Variable p : N -> bool.
Variable m : nat -> jsstr -> caps -> cont -> option (nat * caps).
Hypothesis m_cons : forall c t pos cs k, p c = true -> m pos (c :: t) cs k = k (S pos) t cs.
Hypothesis m_stops : forall rest pos cs k, stops p rest -> m pos rest cs k = None.

(** A greedy quantifier with an upper bound takes a run that fills the
    bound, or that ends where the class no longer matches. *)
Lemma RepeatMatcher_bounded_run (k : cont) w : forall fuel lo h pos rest cs z,
  Forall (fun c => p c = true) w -> lo <= length w -> length w <= h ->
  length w = h \/ stops p rest ->
  length w + 1 <= fuel ->
  k (pos + length w) rest cs = Some z ->
  RepeatMatcher m k true fuel lo (Some h) pos (w ++ rest) cs = Some z.
Proof.
  induction w as [|c w IH]; intros fuel lo h pos rest cs z Hw Hlo Hh Hend Hfuel Hk.
  - destruct fuel as [|fuel]; [simpl in Hfuel; lia|].
    assert (lo = 0) as -> by (simpl in Hlo; lia).
    cbn [length] in Hk. rewrite Nat.add_0_r in Hk.
    destruct h as [|h]; [exact Hk|].
    destruct Hend as [Hend|Hend]; [discriminate Hend|].
    cbn [RepeatMatcher Nat.eqb negb app]. now rewrite m_stops by exact Hend.
  - inversion Hw as [|? ? Hc Hw']; subst. cbn [length] in Hlo, Hfuel, Hk, Hh, Hend.
    destruct fuel as [|fuel]; [lia|].
    destruct h as [|h]; [lia|].
    assert (Hrec : RepeatMatcher m k true fuel (Nat.pred lo) (Some h)
                     (S pos) (w ++ rest) cs = Some z).
    { apply IH; try assumption; try lia.
      - destruct Hend as [Hend|Hend]; [left; lia|now right].
      - now replace (S pos + length w) with (pos + S (length w)) by lia. }
    destruct lo as [|lo].
    + cbn [RepeatMatcher fmap option_fmap option_map app Nat.pred].
      change (0 =? 0) with true. cbn [negb andb].
      rewrite m_cons by exact Hc.
      rewrite (proj2 (Nat.eqb_neq (S pos) pos)) by lia.
      cbn [Nat.pred] in Hrec. now rewrite Hrec.
    + cbn [RepeatMatcher fmap option_fmap option_map app Nat.pred].
      change (S lo =? 0) with false. cbn [negb andb].
      rewrite m_cons by exact Hc. exact Hrec.
Qed.

(** A greedy quantifier gives back what it took, one unit at a time, until
    the continuation succeeds. *)
Lemma RepeatMatcher_greedy_backtrack (k : cont) w u : forall fuel lo pos rest cs z,
  Forall (fun c => p c = true) w -> Forall (fun c => p c = true) u -> stops p rest ->
  lo <= length w -> length w + length u + 1 <= fuel ->
  (forall j, 0 < j <= length u ->
     k (pos + length w + j) (drop j u ++ rest) cs = None) ->
  k (pos + length w) (u ++ rest) cs = Some z ->
  RepeatMatcher m k true fuel lo None pos (w ++ u ++ rest) cs = Some z.
Proof.
  induction w as [|c w IH]; intros fuel lo pos rest cs z Hw Hu Hstop Hlo Hfuel Hlater Hk.
  - destruct fuel as [|fuel]; [simpl in Hfuel; lia|].
    assert (lo = 0) as -> by (simpl in Hlo; lia).
    cbn [length] in Hk, Hlater. rewrite Nat.add_0_r in Hk.
    cbn [app]. destruct u as [|c u].
    + cbn [RepeatMatcher Nat.eqb negb app]. rewrite m_stops by exact Hstop. exact Hk.
    + inversion Hu as [|? ? Hc Hu']; subst.
      cbn [RepeatMatcher fmap option_fmap option_map app Nat.pred].
      change (0 =? 0) with true. cbn [negb andb].
      rewrite m_cons by exact Hc.
      rewrite (proj2 (Nat.eqb_neq (S pos) pos)) by lia.
      rewrite (RenameFacts.RepeatMatcher_greedy_none p m m_cons m_stops k u);
        [exact Hk|exact Hu'|exact Hstop|].
      intros j Hj. specialize (Hlater (S j) ltac:(cbn [length]; lia)).
      cbn [drop] in Hlater.
      now replace (S pos + j) with (pos + 0 + S j) by lia.
  - inversion Hw as [|? ? Hc Hw']; subst. cbn [length] in Hlo, Hfuel, Hk, Hlater.
    destruct fuel as [|fuel]; [lia|].
    assert (Hrec : RepeatMatcher m k true fuel (Nat.pred lo) None
                     (S pos) (w ++ u ++ rest) cs = Some z).
    { apply IH; try assumption; try lia.
      - intros j Hj. specialize (Hlater j Hj).
        now replace (S pos + length w + j) with (pos + S (length w) + j) by lia.
      - now replace (S pos + length w) with (pos + S (length w)) by lia. }
    destruct lo as [|lo].
    + cbn [RepeatMatcher fmap option_fmap option_map app].
      change (0 =? 0) with true. cbn [negb andb].
      rewrite m_cons by exact Hc.
      rewrite (proj2 (Nat.eqb_neq (S pos) pos)) by lia.
      now rewrite Hrec.
    + cbn [RepeatMatcher fmap option_fmap option_map app].
      change (S lo =? 0) with false. cbn [negb andb].
      rewrite m_cons by exact Hc. exact Hrec.
Qed.

End Runs.

Lemma accepts_bounded p lo h w rest pos cs :
  Forall (fun c => p c = true) w -> lo <= length w -> length w <= h ->
  length w = h \/ stops p rest ->
  accepts (Rep true lo (Some h) (Chr p)) pos (w ++ rest) cs (pos + length w) rest cs.
Proof.
  intros Hw Hlo Hh Hend k z Hk. cbn [rmatch].
  apply (RepeatMatcher_bounded_run p); try assumption.
  - intros. now apply Chr_cons.
  - intros. now apply Chr_stops.
  - rewrite length_app. lia.
Qed.

Lemma accepts_times p n w rest pos cs :
  Forall (fun c => p c = true) w -> length w = n ->
  accepts (times n (Chr p)) pos (w ++ rest) cs (pos + length w) rest cs.
Proof. intros Hw Hn. apply accepts_bounded; auto; lia. Qed.

(** "(.+)" followed by something the rest of the run cannot give: the
    group ends at the last place where what follows matches. *)
Lemma accepts_greedy_group_then i p r2 w u pos cs pos2 s2 cs2 :
  Forall (fun c => p c = true) w -> Forall (fun c => p c = true) u -> w <> [] ->
  (forall j cs', 0 < j <= length u -> rejects r2 (pos + length w + j) (drop j u) cs') ->
  accepts r2 (pos + length w) u ((i, w) :: cs) pos2 s2 cs2 ->
  accepts (Seq (Group i (plus (Chr p))) r2) pos (w ++ u) cs pos2 s2 cs2.
Proof.
  intros Hw Hu Hne Hlater Hend k z Hk.
  rewrite <- (app_nil_r u). cbn [rmatch plus].
  apply (RepeatMatcher_greedy_backtrack p).
  - intros. now apply Chr_cons.
  - intros. now apply Chr_stops.
  - exact Hw.
  - exact Hu.
  - exact I.
  - destruct w; [congruence|simpl; lia].
  - rewrite !length_app. cbn [length]. lia.
  - intros j Hj. rewrite app_nil_r. apply Hlater. exact Hj.
  - rewrite app_nil_r.
    replace (pos + length w - pos) with (length w) by lia.
    rewrite take_app_length. now apply Hend.
Qed.

Lemma take_one {A} pos (c : A) t : take (S pos - pos) (c :: t) = [c].
Proof. replace (S pos - pos) with 1 by lia. reflexivity. Qed.

Lemma accepts_dot_group i c t pos cs :
  dotUnit c -> accepts (Group i dot) pos (c :: t) cs (S pos) t ((i, [c]) :: cs).
Proof.
  intros Hc. apply accepts_Group_eq; [|apply take_one].
  apply accepts_Chr. unfold dotUnit in Hc. now rewrite Hc.
Qed.

Lemma accepts_sp t pos cs : accepts Patterns.sp pos (SP :: t) cs (S pos) t cs.
Proof. apply accepts_chr. Qed.

(** A group that takes exactly [n] units of a class. *)
Lemma accepts_times_group i p n w rest pos cs :
  Forall (fun c => p c = true) w -> length w = n ->
  accepts (Group i (times n (Chr p))) pos (w ++ rest) cs (pos + n) rest ((i, w) :: cs).
Proof.
  intros Hw Hn. subst n. apply accepts_Group_eq; [|apply take_after].
  now apply accepts_times.
Qed.

(** A group that takes a run of a class up to a unit outside the class. *)
Lemma accepts_run_group i p w c rest pos cs :
  Forall (fun c => p c = true) w -> w <> [] -> p c = false ->
  accepts (Group i (plus (Chr p))) pos (w ++ c :: rest) cs
          (pos + length w) (c :: rest) ((i, w) :: cs).
Proof.
  intros Hw Hne Hc. apply accepts_Group_eq; [|apply take_after].
  apply accepts_greedy_run; [exact Hw| |exact Hc].
  destruct w; [congruence|simpl; lia].
Qed.

(** "(.+)$" *)
Lemma accepts_path_end i w pos cs :
  pathField w ->
  accepts (Seq (Group i (plus dot)) Eol) pos w cs (pos + length w) [] ((i, w) :: cs).
Proof.
  intros [Hne Hw]. eapply accepts_Seq; [|apply accepts_Eol].
  apply accepts_Group_eq.
  - apply accepts_greedy_all.
    + eapply Forall_impl; [exact Hw|]. cbn. now intros c ->.
    + destruct w; [congruence|simpl; lia].
  - rewrite <- (app_nil_r w) at 2. apply take_after.
Qed.

Lemma oneLine_dot w : oneLine w -> Forall (fun c => negb (JS.isLineTerminator c) = true) w.
Proof. intros H. eapply Forall_impl; [exact H|]. cbn. now intros c ->. Qed.

End BoundedRuns.

(** ** Status record lines *)

Module StatusLines.
Import Regex RegexFacts Patterns BoundedRuns.

Ltac field_step :=
  first
    [ eapply accepts_Seq; [apply accepts_sp|]
    | eapply accepts_Seq; [apply accepts_dot_group; assumption|]
    | eapply accepts_Seq;
        [apply (accepts_times_group _ (fun c => negb (JS.isLineTerminator c)));
           [apply oneLine_dot; assumption|assumption]|]
    | eapply accepts_Seq;
        [apply (accepts_times_group _ JS.isDigit); [assumption|assumption]|]
    | eapply accepts_Seq;
        [apply (accepts_run_group _ (fun c => URI.inRange 0x30 0x39 c || URI.inRange 0x61 0x66 c));
           [assumption|assumption|reflexivity]|] ].

Lemma ordinary_accepts X Y sub mH mI mW hH hI path :
  dotUnit X -> dotUnit Y -> length sub = 4 -> oneLine sub ->
  digitsOf 6 mH -> digitsOf 6 mI -> digitsOf 6 mW ->
  objectName hH -> objectName hI -> pathField path ->
  exists e, accepts ORDINARY_CHANGE_REGEX 0 (ordinaryLine X Y sub mH mI mW hH hI path) []
              e []
              [(9, path); (8, hI); (7, hH); (6, mW); (5, mI); (4, mH); (3, sub);
               (2, [Y]); (1, [X])].
Proof.
  intros HX HY Hsub1 Hsub2 [HmH1 HmH2] [HmI1 HmI2] [HmW1 HmW2] [HhH1 HhH2] [HhI1 HhI2] Hpath.
  eexists. unfold ORDINARY_CHANGE_REGEX, ordinaryLine. cbn [seq str app].
  change (JS.lit "1 ") with [0x31%N; 0x20%N]. cbn [app].
  eapply accepts_Seq; [apply accepts_Bol|].
  eapply accepts_Seq; [eapply accepts_Seq; apply accepts_chr|].
  do 15 field_step.
  now apply accepts_path_end.
Qed.


Lemma unmerged_accepts X Y sub m1 m2 m3 mW h1 h2 h3 path :
  dotUnit X -> dotUnit Y -> length sub = 4 -> oneLine sub ->
  digitsOf 6 m1 -> digitsOf 6 m2 -> digitsOf 6 m3 -> digitsOf 6 mW ->
  objectName h1 -> objectName h2 -> objectName h3 -> pathField path ->
  exists e, accepts UNMERGED_REGEX 0 (unmergedLine X Y sub m1 m2 m3 mW h1 h2 h3 path) []
              e []
              [(11, path); (10, h3); (9, h2); (8, h1); (7, mW); (6, m3); (5, m2); (4, m1);
               (3, sub); (2, [Y]); (1, [X])].
Proof.
  intros HX HY Hsub1 Hsub2 [Hm11 Hm12] [Hm21 Hm22] [Hm31 Hm32] [HmW1 HmW2]
         [Hh11 Hh12] [Hh21 Hh22] [Hh31 Hh32] Hpath.
  eexists. unfold UNMERGED_REGEX, unmergedLine. cbn [seq str app].
  change (JS.lit "u ") with [0x75%N; 0x20%N]. cbn [app].
  eapply accepts_Seq; [apply accepts_Bol|].
  eapply accepts_Seq; [eapply accepts_Seq; apply accepts_chr|].
  do 19 field_step.
  now apply accepts_path_end.
Qed.

Lemma rename_accepts X Y sub mH mI mW hH hI kind score first second :
  dotUnit X -> dotUnit Y -> length sub = 4 -> oneLine sub ->
  digitsOf 6 mH -> digitsOf 6 mI -> digitsOf 6 mW ->
  objectName hH -> objectName hI ->
  kind = 0x52%N \/ kind = 0x43%N ->
  1 <= length score <= 3 -> Forall (fun c => JS.isDigit c = true) score ->
  pathField first -> pathField second -> JS.TAB ∉ second ->
  exists e, accepts RENAME_COPY_REGEX 0
              (renameLine X Y sub mH mI mW hH hI kind score first second) []
              e []
              [(12, second); (11, first); (10, score); (9, [kind]); (8, hI); (7, hH);
               (6, mW); (5, mI); (4, mH); (3, sub); (2, [Y]); (1, [X])].
Proof.
  intros HX HY Hsub1 Hsub2 [HmH1 HmH2] [HmI1 HmI2] [HmW1 HmW2] [HhH1 HhH2] [HhI1 HhI2]
         Hkind Hscore1 Hscore2 [Hf1 Hf2] Hsecond Htab.
  eexists. unfold RENAME_COPY_REGEX, renameLine. cbn [seq str app].
  change (JS.lit "2 ") with [0x32%N; 0x20%N]. cbn [app].
  eapply accepts_Seq; [apply accepts_Bol|].
  eapply accepts_Seq; [eapply accepts_Seq; apply accepts_chr|].
  do 15 field_step.
  eapply accepts_Seq.
  { apply accepts_Group_eq; [|apply take_one].
    apply accepts_Chr. destruct Hkind as [-> | ->]; reflexivity. }
  eapply accepts_Seq.
  { apply accepts_Group_eq; [|apply take_after].
    apply accepts_bounded; [exact Hscore2|lia|lia|right; reflexivity]. }
  eapply accepts_Seq; [apply accepts_sp|].
  change (first ++ JS.TAB :: second) with (first ++ (JS.TAB :: second)).
  apply accepts_greedy_group_then.
  - now apply oneLine_dot.
  - constructor; [reflexivity|]. apply oneLine_dot. apply Hsecond.
  - exact Hf1.
  - intros j cs' Hj. apply rejects_Seq_l.
    destruct j as [|j]; [lia|]. cbn [drop].
    destruct (drop j second) as [|c t] eqn:Ed; [apply rejects_Chr_nil|].
    apply rejects_Chr. apply N.eqb_neq. intros E. subst c. apply Htab.
    rewrite <- (take_drop j second), Ed. apply elem_of_app. right.
    apply list_elem_of_here.
  - eapply accepts_Seq; [apply accepts_chr|].
    now apply accepts_path_end.
Qed.

Lemma statusStep_tag1 result t :
  statusStep result (0x31%N :: 0x20%N :: t)
  = match exec ORDINARY_CHANGE_REGEX (0x31%N :: 0x20%N :: t) with
    | Some m => pushFile result (parseOrdinaryChange m)
    | None => result
    end.
Proof. destruct t; reflexivity. Qed.

Lemma statusStep_tag2 result t :
  statusStep result (0x32%N :: 0x20%N :: t)
  = match exec RENAME_COPY_REGEX (0x32%N :: 0x20%N :: t) with
    | Some m => pushFile result (parseRenameCopy m)
    | None => result
    end.
Proof. destruct t; reflexivity. Qed.

Lemma statusStep_tagu result t :
  statusStep result (0x75%N :: 0x20%N :: t)
  = match exec UNMERGED_REGEX (0x75%N :: 0x20%N :: t) with
    | Some m => pushFile result (parseUnmerged m)
    | None => result
    end.
Proof. destruct t; reflexivity. Qed.

End StatusLines.

Section StatusRecords.
Import Regex RegexFacts Patterns BoundedRuns StatusLines.

(** X16. An ordinary change record. A line "1 XY sub mH mI mW hH hI path"
    whose fields have the shapes the pattern asks for (X and Y any units but
    line terminators, four units of submodule state, three modes of six
    digits, two object names in lower-case hexadecimal, a non-empty path)
    adds one entry to the files, with index X, worktree status Y, the path,
    and no origin. *)
Theorem status_ordinary_record (result : GitStatusSummaryV2) (X Y : N)
    (sub mH mI mW hH hI path : jsstr) :
  dotUnit X -> dotUnit Y -> length sub = 4 -> oneLine sub ->
  digitsOf 6 mH -> digitsOf 6 mI -> digitsOf 6 mW ->
  objectName hH -> objectName hI -> pathField path ->
  statusStep result (ordinaryLine X Y sub mH mI mW hH hI path)
  = {| files := files result ++ [ {| path := path; index := [X]; workingDir := [Y];
                                     from := None |} ];
       notAdded := notAdded result; ignored := ignored result; branch := branch result |}.
Proof.
  intros HX HY Hs1 Hs2 HmH HmI HmW HhH HhI Hpath.
  destruct (ordinary_accepts X Y sub mH mI mW hH hI path HX HY Hs1 Hs2 HmH HmI HmW HhH HhI
              Hpath) as [e He].
  pose proof (exec_accepts _ _ _ _ _ He) as Hexec.
  unfold ordinaryLine in *. change (JS.lit "1 ") with [0x31%N; 0x20%N] in *.
  cbn [app] in *. rewrite statusStep_tag1, Hexec.
  unfold parseOrdinaryChange, group. cbn [cap Nat.eqb default JS.truthy negb orb].
  destruct Hpath as [Hne _]. destruct path; [congruence|reflexivity].
Qed.

(** X17. A rename or copy record. A line
    "2 XY sub mH mI mW hH hI Rscore first TAB second" with fields of the
    shapes the pattern asks for, whose last field has no tab, adds one
    entry with index X and worktree status Y; the text before the tab
    becomes the entry's origin ([from]) and the text after it the entry's
    path.  (git writes the new path before the tab and the original path
    after it.) *)
Theorem status_rename_record (result : GitStatusSummaryV2) (X Y : N)
    (sub mH mI mW hH hI : jsstr) (kind : N) (score first second : jsstr) :
  dotUnit X -> dotUnit Y -> length sub = 4 -> oneLine sub ->
  digitsOf 6 mH -> digitsOf 6 mI -> digitsOf 6 mW ->
  objectName hH -> objectName hI ->
  kind = 0x52%N \/ kind = 0x43%N ->
  1 <= length score <= 3 -> Forall (fun c => JS.isDigit c = true) score ->
  pathField first -> pathField second -> JS.TAB ∉ second ->
  statusStep result (renameLine X Y sub mH mI mW hH hI kind score first second)
  = {| files := files result ++ [ {| path := second; index := [X]; workingDir := [Y];
                                     from := Some first |} ];
       notAdded := notAdded result; ignored := ignored result; branch := branch result |}.
Proof.
  intros HX HY Hs1 Hs2 HmH HmI HmW HhH HhI Hkind Hsc1 Hsc2 Hfirst Hsecond Htab.
  destruct (rename_accepts X Y sub mH mI mW hH hI kind score first second
              HX HY Hs1 Hs2 HmH HmI HmW HhH HhI Hkind Hsc1 Hsc2 Hfirst Hsecond Htab)
    as [e He].
  pose proof (exec_accepts _ _ _ _ _ He) as Hexec.
  unfold renameLine in *. change (JS.lit "2 ") with [0x32%N; 0x20%N] in *.
  cbn [app] in *. rewrite statusStep_tag2, Hexec.
  unfold parseRenameCopy, group. cbn [cap Nat.eqb default JS.truthy negb orb].
  destruct Hfirst as [Hne1 _], Hsecond as [Hne2 _].
  destruct first; [congruence|]. destruct second; [congruence|reflexivity].
Qed.

(** X18. An unmerged record. A line
    "u XY sub m1 m2 m3 mW h1 h2 h3 path" with fields of the shapes the
    pattern asks for adds one entry with index X, worktree status Y and
    the path; both sides of such an entry are shown as conflicted when the
    status letters are U. *)
Theorem status_unmerged_record (result : GitStatusSummaryV2) (X Y : N)
    (sub m1 m2 m3 mW h1 h2 h3 path : jsstr) :
  dotUnit X -> dotUnit Y -> length sub = 4 -> oneLine sub ->
  digitsOf 6 m1 -> digitsOf 6 m2 -> digitsOf 6 m3 -> digitsOf 6 mW ->
  objectName h1 -> objectName h2 -> objectName h3 -> pathField path ->
  statusStep result (unmergedLine X Y sub m1 m2 m3 mW h1 h2 h3 path)
  = {| files := files result ++ [ {| path := path; index := [X]; workingDir := [Y];
                                     from := None |} ];
       notAdded := notAdded result; ignored := ignored result; branch := branch result |}
  /\ (X = 0x55%N -> getFileStatus [X] = conflicted)
  /\ (Y = 0x55%N -> getFileStatus [Y] = conflicted).
Proof.
  intros HX HY Hs1 Hs2 Hm1 Hm2 Hm3 HmW Hh1 Hh2 Hh3 Hpath.
  split; [|split; intros ->; reflexivity].
  destruct (unmerged_accepts X Y sub m1 m2 m3 mW h1 h2 h3 path HX HY Hs1 Hs2
              Hm1 Hm2 Hm3 HmW Hh1 Hh2 Hh3 Hpath) as [e He].
  pose proof (exec_accepts _ _ _ _ _ He) as Hexec.
  unfold unmergedLine in *. change (JS.lit "u ") with [0x75%N; 0x20%N] in *.
  cbn [app] in *. rewrite statusStep_tagu, Hexec.
  unfold parseUnmerged, group. cbn [cap Nat.eqb default JS.truthy negb orb].
  destruct Hpath as [Hne _]. destruct path; [congruence|reflexivity].
Qed.

End StatusRecords.

Ltac field_ok :=
  solve [ reflexivity
        | split; [first [reflexivity | discriminate]|];
          repeat (constructor; [reflexivity|]); constructor
        | repeat (constructor; [reflexivity|]); constructor ].

Lemma status_ordinary_record_witness :
  statusStep emptySummary
    (ordinaryLine 0x4D 0x2E (JS.lit "N...") (JS.lit "100644") (JS.lit "100644")
       (JS.lit "100755") (JS.lit "0a1b2c3") (JS.lit "4d5e6f7") (JS.lit "docs/read me.md"))
  = {| files := [ {| path := JS.lit "docs/read me.md"; index := JS.lit "M";
                     workingDir := JS.lit "."; from := None |} ];
       notAdded := []; ignored := []; branch := emptyBranch |}.
Proof.
  apply (status_ordinary_record emptySummary 0x4D 0x2E (JS.lit "N...") (JS.lit "100644")
           (JS.lit "100644") (JS.lit "100755") (JS.lit "0a1b2c3") (JS.lit "4d5e6f7")
           (JS.lit "docs/read me.md")); field_ok.
Defined.

Lemma status_rename_record_witness :
  statusStep emptySummary
    (renameLine 0x52 0x2E (JS.lit "N...") (JS.lit "100644") (JS.lit "100644")
       (JS.lit "100644") (JS.lit "0a1b2c3") (JS.lit "0a1b2c3") 0x52 (JS.lit "100")
       (JS.lit "src/new.ts") (JS.lit "src/old.ts"))
  = {| files := [ {| path := JS.lit "src/old.ts"; index := JS.lit "R";
                     workingDir := JS.lit "."; from := Some (JS.lit "src/new.ts") |} ];
       notAdded := []; ignored := []; branch := emptyBranch |}.
Proof.
  apply (status_rename_record emptySummary 0x52 0x2E (JS.lit "N...") (JS.lit "100644")
           (JS.lit "100644") (JS.lit "100644") (JS.lit "0a1b2c3") (JS.lit "0a1b2c3")
           0x52 (JS.lit "100") (JS.lit "src/new.ts") (JS.lit "src/old.ts"));
    try field_ok.
  - left. reflexivity.
  - cbn. lia.
  - vm_compute. intros H.
    repeat (apply elem_of_cons in H as [H|H]; [discriminate H|]).
    now apply elem_of_nil in H.
Defined.

Lemma status_unmerged_record_witness :
  statusStep emptySummary
    (unmergedLine 0x55 0x55 (JS.lit "N...") (JS.lit "100644") (JS.lit "100644")
       (JS.lit "100644") (JS.lit "100644") (JS.lit "0a1b2c3") (JS.lit "4d5e6f7")
       (JS.lit "8a9b0c1") (JS.lit "src/both.ts"))
  = {| files := [ {| path := JS.lit "src/both.ts"; index := JS.lit "U";
                     workingDir := JS.lit "U"; from := None |} ];
       notAdded := []; ignored := []; branch := emptyBranch |}
  /\ (0x55%N = 0x55%N -> getFileStatus [0x55%N] = conflicted)
  /\ (0x55%N = 0x55%N -> getFileStatus [0x55%N] = conflicted).
Proof.
  apply (status_unmerged_record emptySummary 0x55 0x55 (JS.lit "N...") (JS.lit "100644")
           (JS.lit "100644") (JS.lit "100644") (JS.lit "100644") (JS.lit "0a1b2c3")
           (JS.lit "4d5e6f7") (JS.lit "8a9b0c1") (JS.lit "src/both.ts")); field_ok.
Defined.

(** ** Status header lines, untracked and ignored paths *)

Module HeaderLines.
Import Regex RegexFacts Patterns BoundedRuns.

Lemma accepts_str s : forall rest pos cs,
  s <> [] -> accepts (str s) pos (s ++ rest) cs (pos + length s) rest cs.
Proof.
  induction s as [|c s IH]; intros rest pos cs Hne; [congruence|].
  destruct s as [|d s].
  - cbn [str app length]. replace (pos + 1) with (S pos) by lia. apply accepts_chr.
  - change (str (c :: d :: s)) with (Seq (chr c) (str (d :: s))).
    cbn [app]. eapply accepts_Seq; [apply accepts_chr|].
    replace (pos + length (c :: d :: s)) with (S pos + length (d :: s)) by (cbn; lia).
    apply (IH rest (S pos) cs). discriminate.
Qed.

(** "^tag(.+)$" *)
Lemma tagged_accepts tag p :
  tag <> [] -> pathField p ->
  exists e, accepts (seq [Bol; str tag; Group 1 (plus dot); Eol]) 0 (tag ++ p) [] e []
              [(1, p)].
Proof.
  intros Ht Hp. eexists. cbn [seq].
  eapply accepts_Seq; [apply accepts_Bol|].
  eapply accepts_Seq; [now apply accepts_str|].
  now apply accepts_path_end.
Qed.

Lemma ab_accepts a b :
  a <> [] -> Forall (fun c => JS.isDigit c = true) a ->
  b <> [] -> Forall (fun c => JS.isDigit c = true) b ->
  exists e, accepts BRANCH_AB_REGEX 0
              (JS.lit "# branch.ab +" ++ a ++ JS.lit " -" ++ b) [] e [] [(2, b); (1, a)].
Proof.
  intros Ha1 Ha2 Hb1 Hb2. eexists. unfold BRANCH_AB_REGEX. cbn [seq].
  eapply accepts_Seq; [apply accepts_Bol|].
  eapply accepts_Seq; [apply accepts_str; discriminate|].
  change (JS.lit " -" ++ b) with (0x20%N :: 0x2D%N :: b).
  eapply accepts_Seq; [apply (accepts_run_group _ JS.isDigit); [assumption|assumption|reflexivity]|].
  eapply accepts_Seq.
  { change (str (JS.lit " -")) with (Seq (chr 0x20) (chr 0x2D)).
    eapply accepts_Seq; apply accepts_chr. }
  eapply accepts_Seq; [|apply accepts_Eol].
  apply accepts_Group_eq.
  - apply accepts_greedy_all; [exact Hb2|]. destruct b; [congruence|simpl; lia].
  - rewrite <- (app_nil_r b) at 2. apply take_after.
Qed.

Lemma statusStep_oid result t :
  statusStep result (JS.lit "# branch.oid " ++ t)
  = match exec BRANCH_OID_REGEX (JS.lit "# branch.oid " ++ t) with
    | Some m => withBranch result
        {| oid := cap m 1; head := head (branch result);
           upstream := upstream (branch result);
           ahead := ahead (branch result); behind := behind (branch result) |}
    | None => result
    end.
Proof. destruct t; reflexivity. Qed.

Lemma statusStep_head result t :
  statusStep result (JS.lit "# branch.head " ++ t)
  = match exec BRANCH_HEAD_REGEX (JS.lit "# branch.head " ++ t) with
    | Some m => withBranch result
        {| oid := oid (branch result); head := cap m 1;
           upstream := upstream (branch result);
           ahead := ahead (branch result); behind := behind (branch result) |}
    | None => result
    end.
Proof. destruct t; reflexivity. Qed.

Lemma statusStep_upstream result t :
  statusStep result (JS.lit "# branch.upstream " ++ t)
  = match exec BRANCH_UPSTREAM_REGEX (JS.lit "# branch.upstream " ++ t) with
    | Some m => withBranch result
        {| oid := oid (branch result); head := head (branch result);
           upstream := cap m 1;
           ahead := ahead (branch result); behind := behind (branch result) |}
    | None => result
    end.
Proof. destruct t; reflexivity. Qed.

Lemma statusStep_ab result t :
  statusStep result (JS.lit "# branch.ab " ++ t)
  = match exec BRANCH_AB_REGEX (JS.lit "# branch.ab " ++ t) with
    | Some m => withBranch result
        {| oid := oid (branch result); head := head (branch result);
           upstream := upstream (branch result);
           ahead := Some (JS.parseInt10 (group m 1));
           behind := Some (JS.parseInt10 (group m 2)) |}
    | None => result
    end.
Proof. destruct t; reflexivity. Qed.



End HeaderLines.

Section HeaderRecords.
Import Regex RegexFacts Patterns BoundedRuns HeaderLines.

(** X19. The branch header lines. "# branch.oid", "# branch.head" and
    "# branch.upstream" followed by a blank and a non-empty text set the
    object name, the head and the upstream of the branch information to
    that text, and "# branch.ab +a -b" with decimal numerals sets ahead
    and behind to the Numbers for a and b, which are a and b themselves
    below 2^53 and the nearest doubles beyond; each leaves everything else
    as it was.  The branch shown for a head is the head's name, except that
    the heads "(detached)" and "(initial)" give none. *)
Theorem status_branch_headers (result : GitStatusSummaryV2) (text : jsstr) (a b : N) :
  text <> [] -> oneLine text ->
  let br := branch result in
  statusStep result (JS.lit "# branch.oid " ++ text)
    = withBranch result {| oid := Some text; head := head br; upstream := upstream br;
                           ahead := ahead br; behind := behind br |}
  /\ statusStep result (JS.lit "# branch.head " ++ text)
    = withBranch result {| oid := oid br; head := Some text; upstream := upstream br;
                           ahead := ahead br; behind := behind br |}
  /\ statusStep result (JS.lit "# branch.upstream " ++ text)
    = withBranch result {| oid := oid br; head := head br; upstream := Some text;
                           ahead := ahead br; behind := behind br |}
  /\ statusStep result (JS.lit "# branch.ab +" ++ decimal a ++ JS.lit " -" ++ decimal b)
    = withBranch result {| oid := oid br; head := head br; upstream := upstream br;
                           ahead := Some (JS.toNumber a);
                           behind := Some (JS.toNumber b) |}
  /\ (forall n, (n < EXACT_BOUND)%N -> JS.toNumber n = JS.finite n)
  /\ getCurrentBranchV2 (statusStep result (JS.lit "# branch.head " ++ text))
    = (if bool_decide (text = JS.lit "(detached)") || bool_decide (text = JS.lit "(initial)")
       then None else Some text).
Proof.
  intros Hne Hone. cbv zeta.
  assert (Hp : pathField text) by now split.
  assert (Hhead : statusStep result (JS.lit "# branch.head " ++ text)
                  = withBranch result {| oid := oid (branch result); head := Some text;
                                         upstream := upstream (branch result);
                                         ahead := ahead (branch result);
                                         behind := behind (branch result) |}).
  { destruct (tagged_accepts (JS.lit "# branch.head ") text ltac:(discriminate) Hp)
      as [e He].
    rewrite statusStep_head.
    unfold BRANCH_HEAD_REGEX. now rewrite (exec_accepts _ _ _ _ _ He). }
  split.
  { destruct (tagged_accepts (JS.lit "# branch.oid ") text ltac:(discriminate) Hp)
      as [e He].
    rewrite statusStep_oid.
    unfold BRANCH_OID_REGEX. now rewrite (exec_accepts _ _ _ _ _ He). }
  split; [exact Hhead|].
  split.
  { destruct (tagged_accepts (JS.lit "# branch.upstream ") text ltac:(discriminate) Hp)
      as [e He].
    rewrite statusStep_upstream.
    unfold BRANCH_UPSTREAM_REGEX. now rewrite (exec_accepts _ _ _ _ _ He). }
  split.
  { destruct (NumstatFacts.decimal_spec a) as (Ha1 & Ha2 & Ha3).
    destruct (NumstatFacts.decimal_spec b) as (Hb1 & Hb2 & Hb3).
    destruct (ab_accepts (decimal a) (decimal b) Ha1 Ha2 Hb1 Hb2) as [e He].
    change (JS.lit "# branch.ab +" ++ decimal a ++ JS.lit " -" ++ decimal b)
      with (JS.lit "# branch.ab " ++ (0x2B%N :: decimal a ++ JS.lit " -" ++ decimal b)).
    rewrite statusStep_ab.
    change (JS.lit "# branch.ab " ++ (0x2B%N :: decimal a ++ JS.lit " -" ++ decimal b))
      with (JS.lit "# branch.ab +" ++ decimal a ++ JS.lit " -" ++ decimal b).
    rewrite (exec_accepts _ _ _ _ _ He).
    unfold group. cbn [cap Nat.eqb default]. cbv [id]. now rewrite Ha3, Hb3. }
  split; [exact NumstatFacts.toNumber_exact|].
  rewrite Hhead. unfold getCurrentBranchV2, withBranch. cbn [branch head].
  unfold JS.str_eqb. destruct text; [congruence|reflexivity].
Qed.


End HeaderRecords.

Lemma status_branch_headers_witness :
  statusStep emptySummary (JS.lit "# branch.head " ++ JS.lit "(detached)")
    = withBranch emptySummary {| oid := None; head := Some (JS.lit "(detached)");
                                 upstream := None; ahead := None; behind := None |}
  /\ statusStep emptySummary (JS.lit "# branch.ab +" ++ decimal 12 ++ JS.lit " -" ++ decimal 0)
    = withBranch emptySummary {| oid := None; head := None; upstream := None;
                                 ahead := Some (JS.finite 12);
                                 behind := Some (JS.finite 0) |}
  /\ getCurrentBranchV2 (statusStep emptySummary (JS.lit "# branch.head " ++ JS.lit "(detached)"))
    = None.
Proof.
  destruct (status_branch_headers emptySummary (JS.lit "(detached)") 12 0)
    as (_ & H2 & _ & H4 & _ & H5).
  - discriminate.
  - repeat (constructor; [reflexivity|]). constructor.
  - split; [exact H2|]. split; [exact H4|exact H5].
Defined.


(** ** What a pattern matched: inversion *)

Module MatchInversion.
Import Regex RegexFacts Patterns.

Lemma orelse_Some {A} (x y : option A) z :
  orelse x y = Some z -> x = Some z \/ (x = None /\ y = Some z).
Proof. destruct x; cbn; auto. Qed.

Lemma Chr_inv p pos s cs k z :
  rmatch (Chr p) pos s cs k = Some z ->
  exists c t, s = c :: t /\ p c = true /\ k (S pos) t cs = Some z.
Proof.
  cbn. destruct s as [|c t]; [discriminate|].
  destruct (p c) eqn:E; [|discriminate]. intros H. now exists c, t.
Qed.

Lemma chr_inv c pos s cs k z :
  rmatch (chr c) pos s cs k = Some z ->
  exists t, s = c :: t /\ k (S pos) t cs = Some z.
Proof.
  intros H. apply Chr_inv in H as (d & t & -> & Hd & Hk).
  apply N.eqb_eq in Hd. subst d. now exists t.
Qed.

Lemma Bol_inv pos s cs k z : rmatch Bol pos s cs k = Some z -> pos = 0 /\ k 0 s cs = Some z.
Proof. cbn. destruct pos; [now split|discriminate]. Qed.

Lemma Eol_inv pos s cs k z : rmatch Eol pos s cs k = Some z -> s = [] /\ k pos [] cs = Some z.
Proof. cbn. destruct s; [now split|discriminate]. Qed.

Section Runs.

Variable p : N -> bool.
Variable m : nat -> jsstr -> caps -> cont -> option (nat * caps).
Hypothesis m_inv : forall pos s cs k z, m pos s cs k = Some z ->
  exists c t, s = c :: t /\ p c = true /\ k (S pos) t cs = Some z.

(** Whatever a quantified character class matched is a run of the class of
    an admissible length, and the continuation answered after it. *)
Lemma RepeatMatcher_inv (k : cont) g fuel : forall lo hi pos s cs z,
  (forall h, hi = Some h -> lo <= h) ->
  RepeatMatcher m k g fuel lo hi pos s cs = Some z ->
  exists w rest, s = w ++ rest /\ Forall (fun c => p c = true) w /\ lo <= length w
    /\ (forall h, hi = Some h -> length w <= h)
    /\ k (pos + length w) rest cs = Some z.
Proof.
  induction fuel as [|fuel IH]; intros lo hi pos s cs z Hhi H; [discriminate H|].
  assert (Hstop : k pos s cs = Some z -> lo = 0 ->
            exists w rest, s = w ++ rest /\ Forall (fun c => p c = true) w
              /\ lo <= length w /\ (forall h, hi = Some h -> length w <= h)
              /\ k (pos + length w) rest cs = Some z).
  { intros Hk ->. exists [], s. cbn. rewrite Nat.add_0_r.
    repeat split; auto; intros; lia. }
  assert (Hmore : m pos s cs
            (fun pos' s' cs' =>
               if Nat.eqb lo 0 && Nat.eqb pos' pos then None
               else RepeatMatcher m k g fuel (Nat.pred lo) (Nat.pred <$> hi) pos' s' cs')
            = Some z -> hi <> Some 0 ->
            exists w rest, s = w ++ rest /\ Forall (fun c => p c = true) w
              /\ lo <= length w /\ (forall h, hi = Some h -> length w <= h)
              /\ k (pos + length w) rest cs = Some z).
  { intros Hm Hnz. apply m_inv in Hm as (c & t & -> & Hc & Hd).
    rewrite (proj2 (Nat.eqb_neq (S pos) pos)) in Hd by lia.
    rewrite andb_false_r in Hd.
    apply IH in Hd as (w & rest & -> & Hw & Hlo & Hh & Hk).
    - exists (c :: w), rest. cbn [app length].
      split; [reflexivity|]. split; [now constructor|]. split; [lia|]. split.
      + intros h ->. destruct h as [|h]; [congruence|].
        specialize (Hh h eq_refl). lia.
      + now replace (pos + S (length w)) with (S pos + length w) by lia.
    - intros h Hh. destruct hi as [[|h']|]; cbn in Hh; inversion Hh; subst.
      + congruence.
      + specialize (Hhi _ eq_refl). lia. }
  cbn [RepeatMatcher] in H.
  destruct hi as [[|h]|].
  - apply Hstop; [exact H|]. specialize (Hhi 0 eq_refl). lia.
  - destruct (Nat.eqb lo 0) eqn:El; cbn [negb] in H.
    + apply Nat.eqb_eq in El. destruct g; apply orelse_Some in H as [H|[_ H]];
        first [apply Hmore; [exact H|discriminate] | apply Hstop; [exact H|exact El]].
    + apply Hmore; [exact H|discriminate].
  - destruct (Nat.eqb lo 0) eqn:El; cbn [negb] in H.
    + apply Nat.eqb_eq in El. destruct g; apply orelse_Some in H as [H|[_ H]];
        first [apply Hmore; [exact H|discriminate] | apply Hstop; [exact H|exact El]].
    + apply Hmore; [exact H|discriminate].
Qed.

End Runs.

Lemma Rep_Chr_inv g lo hi p pos s cs k z :
  (forall h, hi = Some h -> lo <= h) ->
  rmatch (Rep g lo hi (Chr p)) pos s cs k = Some z ->
  exists w rest, s = w ++ rest /\ Forall (fun c => p c = true) w /\ lo <= length w
    /\ (forall h, hi = Some h -> length w <= h)
    /\ k (pos + length w) rest cs = Some z.
Proof.
  intros Hhi H. cbn [rmatch] in H.
  eapply (RepeatMatcher_inv p); [|exact Hhi|exact H].
  intros. now apply Chr_inv.
Qed.

(** A group around a quantified class records the run. *)
Lemma Group_Rep_inv i g lo hi p pos s cs k z :
  (forall h, hi = Some h -> lo <= h) ->
  rmatch (Group i (Rep g lo hi (Chr p))) pos s cs k = Some z ->
  exists w rest, s = w ++ rest /\ Forall (fun c => p c = true) w /\ lo <= length w
    /\ (forall h, hi = Some h -> length w <= h)
    /\ k (pos + length w) rest ((i, w) :: cs) = Some z.
Proof.
  intros Hhi H. change (rmatch (Group i (Rep g lo hi (Chr p))) pos s cs k)
    with (rmatch (Rep g lo hi (Chr p)) pos s cs
            (fun pos' s' cs' => k pos' s' ((i, take (pos' - pos) s) :: cs'))) in H.
  apply Rep_Chr_inv in H as (w & rest & -> & Hw & Hlo & Hh & Hk); [|exact Hhi].
  exists w, rest. rewrite take_after in Hk. now repeat split.
Qed.

Lemma Group_Chr_inv i p pos s cs k z :
  rmatch (Group i (Chr p)) pos s cs k = Some z ->
  exists c t, s = c :: t /\ p c = true /\ k (S pos) t ((i, [c]) :: cs) = Some z.
Proof.
  intros H. change (rmatch (Group i (Chr p)) pos s cs k)
    with (rmatch (Chr p) pos s cs
            (fun pos' s' cs' => k pos' s' ((i, take (pos' - pos) s) :: cs'))) in H.
  apply Chr_inv in H as (c & t & -> & Hc & Hk).
  exists c, t. replace (S pos - pos) with 1 in Hk by lia. now repeat split.
Qed.

(** The leftmost match of an anchored pattern starts at the beginning. *)
Lemma exec_from_Bol r s : forall pos, exec_from (Seq Bol r) (S pos) s = None.
Proof. induction s as [|c t IH]; intros pos; cbn; [reflexivity|apply IH]. Qed.

Lemma exec_Bol_inv r s cs :
  exec (Seq Bol r) s = Some cs ->
  exists e, rmatch r 0 s [] (fun pos' _ cs' => Some (pos', cs')) = Some (e, cs).
Proof.
  unfold exec. destruct s as [|c t]; cbn [exec_from].
  - unfold match_at. cbn [rmatch Nat.eqb].
    destruct (rmatch r 0 [] [] _) as [[e cs']|] eqn:E; [|discriminate].
    intros H. inversion H; subst. now exists e.
  - unfold match_at at 1. cbn [rmatch Nat.eqb].
    destruct (rmatch r 0 (c :: t) [] _) as [[e cs']|] eqn:E.
    + intros H. inversion H; subst. now exists e.
    + now rewrite exec_from_Bol.
Qed.

(** The group "(\d+|-)". *)
Lemma count_group_inv i pos s cs k z :
  rmatch (Group i (Alt (plus digit) (chr 0x2D))) pos s cs k = Some z ->
  exists a rest, s = a ++ rest /\ countField a
    /\ k (pos + length a) rest ((i, a) :: cs) = Some z.
Proof.
  intros H.
  change (rmatch (Group i (Alt (plus digit) (chr 0x2D))) pos s cs k)
    with (orelse
            (rmatch (Group i (plus digit)) pos s cs k)
            (rmatch (Group i (chr 0x2D)) pos s cs k)) in H.
  apply orelse_Some in H as [H|[_ H]].
  - apply Group_Rep_inv in H as (w & rest & -> & Hw & Hlo & _ & Hk); [|discriminate].
    exists w, rest. split; [reflexivity|]. split; [|exact Hk].
    left. split; [|exact Hw]. destruct w; [cbn in Hlo; lia|discriminate].
  - apply Group_Chr_inv in H as (c & t & -> & Hc & Hk).
    apply N.eqb_eq in Hc. subst c.
    exists (JS.lit "-"), t. split; [reflexivity|]. split; [now right|].
    now replace (pos + length (JS.lit "-")) with (S pos) by (cbn; lia).
Qed.

Lemma rmatch_Seq a b pos s cs k :
  rmatch (Seq a b) pos s cs k
  = rmatch a pos s cs (fun pos' s' cs' => rmatch b pos' s' cs' k).
Proof. reflexivity. Qed.

Lemma numstat_inv line cs :
  exec NUMSTAT_REGEX line = Some cs ->
  exists a b p, countField a /\ countField b /\ oneLine p
    /\ line = a ++ JS.TAB :: b ++ JS.TAB :: p
    /\ cs = [(3, p); (2, b); (1, a)].
Proof.
  unfold NUMSTAT_REGEX. cbn [seq]. intros H.
  apply exec_Bol_inv in H as [e H].
  rewrite rmatch_Seq in H.
  apply count_group_inv in H as (a & r1 & -> & Ha & H). rewrite rmatch_Seq in H.
  apply chr_inv in H as (r2 & -> & H). rewrite rmatch_Seq in H.
  apply count_group_inv in H as (b & r3 & -> & Hb & H). rewrite rmatch_Seq in H.
  apply chr_inv in H as (r4 & -> & H). rewrite rmatch_Seq in H.
  apply Group_Rep_inv in H as (p & r5 & -> & Hp & _ & _ & H); [|discriminate].
  apply Eol_inv in H as [-> H]. inversion H; subst.
  exists a, b, p. rewrite app_nil_r. repeat split; try assumption.
  eapply Forall_impl; [exact Hp|]. cbn. intros c Hc. now apply negb_true_iff in Hc.
Qed.

End MatchInversion.

Section NumstatLines.
Import MatchInversion.

(** X21. Which lines the numstat parser takes. A line yields a stat
    exactly when it consists of a count field, a tab, a count field, a tab
    and a path without a line terminator, a count field being a decimal
    numeral or a single dash; the stat then holds the path and, for the
    numerals of n and m, the Numbers for n and m (the nearest doubles, which
    are n and m below 2^53) and their sum as Numbers, or zeros and the
    binary mark when either count is a dash.  In particular a line without
    a tab yields nothing. *)
Theorem numstat_line_shape (line : jsstr) (f : DiffFileStat) :
  (parseNumStatLine line = Some f <->
   exists a b p, countField a /\ countField b /\ oneLine p
     /\ line = a ++ JS.TAB :: b ++ JS.TAB :: p /\ f = statOfFields a b p)
  /\ (forall n m p,
        statOfFields (decimal n) (decimal m) p
        = {| file := p; changes := JS.add (JS.toNumber n) (JS.toNumber m);
             insertions := JS.toNumber n; deletions := JS.toNumber m;
             binary := false |})
  /\ (forall a b p, a = JS.lit "-" \/ b = JS.lit "-" ->
        statOfFields a b p
        = {| file := p; changes := JS.finite 0; insertions := JS.finite 0;
             deletions := JS.finite 0; binary := true |})
  /\ (JS.TAB ∉ line -> parseNumStatLine line = None).
Proof.
  assert (Hfwd : forall g, parseNumStatLine line = Some g ->
            exists a b p, countField a /\ countField b /\ oneLine p
              /\ line = a ++ JS.TAB :: b ++ JS.TAB :: p /\ g = statOfFields a b p).
  { intros g H. unfold parseNumStatLine in H.
    destruct (Regex.exec Patterns.NUMSTAT_REGEX line) as [cs|] eqn:E; [|discriminate].
    apply numstat_inv in E as (a & b & p & Ha & Hb & Hp & -> & ->).
    exists a, b, p. repeat split; try assumption.
    inversion H. reflexivity. }
  split; [split; [apply Hfwd|]|split; [|split]].
  - intros (a & b & p & Ha & Hb & Hp & -> & ->).
    unfold parseNumStatLine. rewrite (NumstatFacts.numstat_exec a b p Ha Hb Hp).
    reflexivity.
  - intros n m p. unfold statOfFields, JS.str_eqb.
    destruct (NumstatFacts.decimal_spec n) as (Hn1 & Hn2 & Hn3).
    destruct (NumstatFacts.decimal_spec m) as (Hm1 & Hm2 & Hm3).
    rewrite !bool_decide_false by now apply NumstatFacts.digits_not_dash.
    cbn [orb]. now rewrite Hn3, Hm3.
  - intros a b p [-> | ->]; unfold statOfFields, JS.str_eqb.
    + rewrite bool_decide_true by reflexivity. reflexivity.
    + rewrite (bool_decide_true (JS.lit "-" = JS.lit "-")) by reflexivity.
      rewrite orb_true_r. reflexivity.
  - intros Hno. destruct (parseNumStatLine line) as [g|] eqn:E; [|reflexivity].
    exfalso. destruct (Hfwd g eq_refl) as (a & b & p & _ & _ & _ & -> & _).
    apply Hno. apply elem_of_app. right. apply list_elem_of_here.
Qed.

End NumstatLines.

(** ** The shape of parsed status entries *)

Module StatusInversion.
Import Regex RegexFacts Patterns MatchInversion.

Lemma dots_oneLine w :
  Forall (fun c => negb (JS.isLineTerminator c) = true) w -> oneLine w.
Proof.
  intros H. eapply Forall_impl; [exact H|]. cbn. intros c Hc.
  now apply negb_true_iff in Hc.
Qed.

Lemma dots_pathField w :
  Forall (fun c => negb (JS.isLineTerminator c) = true) w -> 1 <= length w -> pathField w.
Proof.
  intros H Hlen. split; [|now apply dots_oneLine].
  destruct w; [cbn in Hlen; lia|discriminate].
Qed.

Ltac bound_ok := first [discriminate | intros ? E; inversion E; subst; lia].

Ltac inv_one H :=
  first
    [ apply chr_inv in H as (? & -> & H)
    | apply Group_Chr_inv in H as (? & ? & -> & ? & H)
    | apply Group_Rep_inv in H as (? & ? & -> & ? & ? & ? & H); [|bound_ok] ].

Ltac inv_seq H := rewrite rmatch_Seq in H; inv_one H; cbv beta in H.

Lemma ordinary_inv line cs :
  exec ORDINARY_CHANGE_REGEX line = Some cs ->
  exists entry, parseOrdinaryChange cs = Some entry /\ entryShape entry.
Proof.
  unfold ORDINARY_CHANGE_REGEX. change (JS.lit "1 ") with [0x31%N; 0x20%N].
  cbn [seq str]. intros H.
  apply exec_Bol_inv in H as [e H].
  rewrite rmatch_Seq in H. rewrite rmatch_Seq in H.
  inv_one H. cbv beta in H. inv_one H. cbv beta in H.
  do 15 inv_seq H.
  rewrite rmatch_Seq in H. inv_one H. cbv beta in H.
  apply Eol_inv in H as [-> H]. inversion H; subst.
  unfold parseOrdinaryChange, group. cbn [cap Nat.eqb default JS.truthy negb orb].
  match goal with
  | Hp : Forall _ ?w, Hl : 1 <= length ?w |- context [JS.truthy ?w] =>
      pose proof (dots_pathField w Hp Hl) as Hpath
  end.
  destruct Hpath as [Hne Hone].
  match type of Hne with ?w <> [] => destruct w; [congruence|] end.
  cbn [JS.truthy negb orb]. eexists. split; [reflexivity|].
  unfold entryShape. cbn [index workingDir path from length].
  repeat split; try reflexivity; try discriminate; try assumption;
    repeat constructor; now apply negb_true_iff.
Qed.


Lemma unmerged_inv line cs :
  exec UNMERGED_REGEX line = Some cs ->
  exists entry, parseUnmerged cs = Some entry /\ entryShape entry.
Proof.
  unfold UNMERGED_REGEX. change (JS.lit "u ") with [0x75%N; 0x20%N].
  cbn [seq str]. intros H.
  apply exec_Bol_inv in H as [e H].
  rewrite rmatch_Seq in H. rewrite rmatch_Seq in H.
  inv_one H. cbv beta in H. inv_one H. cbv beta in H.
  do 19 inv_seq H.
  rewrite rmatch_Seq in H. inv_one H. cbv beta in H.
  apply Eol_inv in H as [-> H]. inversion H; subst.
  unfold parseUnmerged, group. cbn [cap Nat.eqb default JS.truthy negb orb].
  match goal with
  | Hp : Forall _ ?w, Hl : 1 <= length ?w |- context [JS.truthy ?w] =>
      pose proof (dots_pathField w Hp Hl) as Hpath
  end.
  destruct Hpath as [Hne Hone].
  match type of Hne with ?w <> [] => destruct w; [congruence|] end.
  cbn [JS.truthy negb orb]. eexists. split; [reflexivity|].
  unfold entryShape. cbn [index workingDir path from length].
  repeat split; try reflexivity; try discriminate; try assumption;
    repeat constructor; now apply negb_true_iff.
Qed.

Lemma rename_inv line cs :
  exec RENAME_COPY_REGEX line = Some cs ->
  exists entry, parseRenameCopy cs = Some entry /\ entryShape entry.
Proof.
  unfold RENAME_COPY_REGEX. change (JS.lit "2 ") with [0x32%N; 0x20%N].
  cbn [seq str]. intros H.
  apply exec_Bol_inv in H as [e H].
  rewrite rmatch_Seq in H. rewrite rmatch_Seq in H.
  inv_one H. cbv beta in H. inv_one H. cbv beta in H.
  do 15 inv_seq H.
  inv_seq H. inv_seq H. inv_seq H.
  rewrite rmatch_Seq in H.
  apply Group_Rep_inv in H as (first & r1 & -> & Hf1 & Hf2 & _ & H); [|discriminate].
  cbv beta in H. inv_seq H.
  rewrite rmatch_Seq in H.
  apply Group_Rep_inv in H as (second & r2 & -> & Hs1 & Hs2 & _ & H); [|discriminate].
  cbv beta in H.
  apply Eol_inv in H as [-> H]. inversion H; subst.
  unfold parseRenameCopy, group. cbn [cap Nat.eqb default JS.truthy negb orb].
  destruct (dots_pathField first Hf1 Hf2) as [Hne1 Hone1].
  destruct (dots_pathField second Hs1 Hs2) as [Hne2 Hone2].
  destruct first as [|cf first]; [congruence|].
  destruct second as [|cs second]; [congruence|].
  cbn [JS.truthy negb orb]. eexists. split; [reflexivity|].
  unfold entryShape. cbn [index workingDir path from length].
  repeat split; try reflexivity; try discriminate; try assumption;
    repeat constructor; now apply negb_true_iff.
Qed.

(** "^tag(.+)$" *)
Lemma tagged_inv tag line cs :
  tag <> [] ->
  exec (seq [Bol; str tag; Group 1 (plus dot); Eol]) line = Some cs ->
  exists p, pathField p /\ cs = [(1, p)].
Proof.
  intros Ht. cbn [seq]. intros H.
  apply exec_Bol_inv in H as [e H].
  rewrite rmatch_Seq in H.
  assert (Hstr : forall s pos cs k z, tag <> [] -> rmatch (str tag) pos s cs k = Some z ->
            exists pos' s', k pos' s' cs = Some z).
  { clear. induction tag as [|c t IH]; intros s pos cs k z Hne Hm; [congruence|].
    destruct t as [|d t].
    - apply chr_inv in Hm as (r & -> & Hm). eauto.
    - change (str (c :: d :: t)) with (Seq (chr c) (str (d :: t))) in Hm.
      rewrite rmatch_Seq in Hm. apply chr_inv in Hm as (r & -> & Hm).
      apply IH in Hm; [exact Hm|discriminate]. }
  apply Hstr in H as (pos' & s' & H); [|exact Ht].
  rewrite rmatch_Seq in H.
  apply Group_Rep_inv in H as (p & r & -> & Hp1 & Hp2 & _ & H); [|discriminate].
  apply Eol_inv in H as [-> H]. inversion H; subst.
  exists p. split; [now apply dots_pathField|reflexivity].
Qed.

End StatusInversion.

Section StatusShape.
Import StatusInversion.

Lemma statusStep_shape result line :
  exists addedFiles addedPaths addedIgnored,
    files (statusStep result line) = files result ++ addedFiles
    /\ notAdded (statusStep result line) = notAdded result ++ addedPaths
    /\ ignored (statusStep result line) = ignored result ++ addedIgnored
    /\ Forall entryShape addedFiles
    /\ Forall pathField addedPaths /\ Forall pathField addedIgnored.
Proof.
  assert (Hsame : forall r, r = result ->
            exists addedFiles addedPaths addedIgnored,
              files r = files result ++ addedFiles
              /\ notAdded r = notAdded result ++ addedPaths
              /\ ignored r = ignored result ++ addedIgnored
              /\ Forall entryShape addedFiles
              /\ Forall pathField addedPaths /\ Forall pathField addedIgnored).
  { intros r ->. exists [], [], []. rewrite !app_nil_r. now repeat split. }
  assert (Hbranch : forall b,
            exists addedFiles addedPaths addedIgnored,
              files (withBranch result b) = files result ++ addedFiles
              /\ notAdded (withBranch result b) = notAdded result ++ addedPaths
              /\ ignored (withBranch result b) = ignored result ++ addedIgnored
              /\ Forall entryShape addedFiles
              /\ Forall pathField addedPaths /\ Forall pathField addedIgnored).
  { intros b. exists [], [], []. cbn. rewrite !app_nil_r. now repeat split. }
  assert (Hpush : forall entry, entryShape entry ->
            exists addedFiles addedPaths addedIgnored,
              files (pushFile result (Some entry)) = files result ++ addedFiles
              /\ notAdded (pushFile result (Some entry)) = notAdded result ++ addedPaths
              /\ ignored (pushFile result (Some entry)) = ignored result ++ addedIgnored
              /\ Forall entryShape addedFiles
              /\ Forall pathField addedPaths /\ Forall pathField addedIgnored).
  { intros entry He. exists [entry], [], []. cbn. rewrite !app_nil_r.
    repeat split; auto. }
  unfold statusStep.
  repeat match goal with
         | |- context [if ?b then _ else _] => destruct b
         | |- context [match Regex.exec ?r ?l with _ => _ end] =>
             destruct (Regex.exec r l) as [m|] eqn:?
         end;
    try (apply Hsame; reflexivity); try apply Hbranch.
  - destruct (ordinary_inv _ _ Heqo) as (entry & -> & He). now apply Hpush.
  - destruct (rename_inv _ _ Heqo) as (entry & -> & He). now apply Hpush.
  - destruct (unmerged_inv _ _ Heqo) as (entry & -> & He). now apply Hpush.
  - destruct (tagged_inv (JS.lit "? ") _ _ ltac:(discriminate) Heqo) as (p & Hp & ->).
    exists [], [p], []. cbn. rewrite !app_nil_r. repeat split; auto.
  - destruct (tagged_inv (JS.lit "! ") _ _ ltac:(discriminate) Heqo) as (p & Hp & ->).
    exists [], [], [p]. cbn. rewrite !app_nil_r. repeat split; auto.
Qed.

(** X22. Whatever text is parsed as a status, every entry of the result
    has exactly one unit of index status and one of worktree status, a
    non-empty path on one line, and a non-empty origin when it has one; the
    untracked and the ignored paths are not empty either.  (So the checks
    for missing fields in the three record parsers never reject a line the
    patterns matched.) *)
Theorem status_entries_shape (statusOutput : jsstr) :
  Forall entryShape (files (parseStatusSummaryV2 statusOutput))
  /\ Forall pathField (notAdded (parseStatusSummaryV2 statusOutput))
  /\ Forall pathField (ignored (parseStatusSummaryV2 statusOutput)).
Proof.
  unfold parseStatusSummaryV2.
  assert (Hfold : forall lines result,
            Forall entryShape (files result) -> Forall pathField (notAdded result) ->
            Forall pathField (ignored result) ->
            Forall entryShape (files (fold_left statusStep lines result))
            /\ Forall pathField (notAdded (fold_left statusStep lines result))
            /\ Forall pathField (ignored (fold_left statusStep lines result))).
  { induction lines as [|l ls IH]; intros result H1 H2 H3; cbn [fold_left]; [auto|].
    destruct (statusStep_shape result l) as (a1 & a2 & a3 & E1 & E2 & E3 & S1 & S2 & S3).
    apply IH.
    - rewrite E1. apply Forall_app. now split.
    - rewrite E2. apply Forall_app. now split.
    - rewrite E3. apply Forall_app. now split. }
  apply Hfold; constructor.
Qed.

End StatusShape.

(** ** Stats map, output map and aggregated entries *)

Section StatsKeys.

Lemma statKeys_dec (k : jsstr) f : {k ∈ statKeys f} + {k ∉ statKeys f}.
Proof. destruct (decide (k ∈ statKeys f)); [now left|now right]. Qed.

Lemma diffStats_fold_keys k fs :
  (statAt (fold_left diffStatsStep fs PlainObject.empty) k = None
   <-> Forall (fun f => k ∉ statKeys f) fs)
  /\ (forall st, statAt (fold_left diffStatsStep fs PlainObject.empty) k = Some st ->
        exists f, f ∈ fs /\ k ∈ statKeys f /\ st = statOf f).
Proof.
  induction fs as [|f fs [IH1 IH2]] using rev_ind.
  - cbn. rewrite statAt_empty. split; [split; [constructor|reflexivity]|].
    intros st H. discriminate H.
  - rewrite fold_left_app. cbn [fold_left].
    destruct (statKeys_dec k f) as [Hin|Hout].
    + rewrite (diffStatsStep_key _ f k Hin). split.
      * split; [discriminate|]. intros H. apply Forall_app in H as [_ H].
        inversion H; subst. contradiction.
      * intros st E. inversion E; subst. exists f. split; [|now split].
        apply elem_of_app. right. apply list_elem_of_here.
    + rewrite (diffStatsStep_other _ f k Hout). split.
      * rewrite IH1. split.
        -- intros H. apply Forall_app. split; [exact H|now repeat constructor].
        -- intros H. now apply Forall_app in H as [H _].
      * intros st E. destruct (IH2 st E) as (g & Hg & Hk & Hst).
        exists g. split; [|now split]. apply elem_of_app. now left.
Qed.

(** The prototype of a stats map is the one [Object.prototype] until a
    file is indexed under [__proto__]. *)
Lemma stats_proto fs :
  PlainObject.proto (fold_left diffStatsStep fs PlainObject.empty) = None
  <-> Forall (fun f => PlainObject.PROTO ∉ statKeys f) fs.
Proof.
  rewrite <- (proj1 (diffStats_fold_keys PlainObject.PROTO fs)).
  unfold statAt, PlainObject.get, JS.str_eqb.
  rewrite bool_decide_true by reflexivity.
  destruct (PlainObject.proto _); split; congruence.
Qed.


(** X23. The names of the stats map. A lookup finds a stat exactly
    under the names some file of the summary is indexed under, and what it
    finds is the stat of such a file.  Under any other name it finds what
    the prototype chain holds: a property of [Object.prototype] for the
    twelve names of that object; a number or a boolean for "added",
    "removed" and "binary" once a file has been indexed under [__proto__],
    whose stat is then the prototype of the map; and nothing otherwise.  A
    file whose numstat path has no arrow is indexed under that path and, if
    it differs, under the trimmed path, and under nothing else. *)
Theorem stats_map_keys (summary : DiffSummary) (k : jsstr) :
  let stats := createDiffStatsMap summary in
  let unclaimed := Forall (fun f => k ∉ statKeys f) (dfiles summary) in
  ((forall st, PlainObject.get STAT_FIELDS stats k <> PlainObject.found st) <-> unclaimed)
  /\ (forall st, PlainObject.get STAT_FIELDS stats k = PlainObject.found st ->
        exists f, f ∈ dfiles summary /\ k ∈ statKeys f /\ st = statOf f)
  /\ (unclaimed -> k ∈ PlainObject.OBJECT_PROTOTYPE_NAMES ->
      PlainObject.get STAT_FIELDS stats k = PlainObject.alien)
  /\ (unclaimed -> k ∈ STAT_FIELD_NAMES ->
      Exists (fun f => PlainObject.PROTO ∈ statKeys f) (dfiles summary) ->
      PlainObject.get STAT_FIELDS stats k = PlainObject.alien)
  /\ (unclaimed -> k ∉ PlainObject.OBJECT_PROTOTYPE_NAMES ->
      k ∉ STAT_FIELD_NAMES
      \/ Forall (fun f => PlainObject.PROTO ∉ statKeys f) (dfiles summary) ->
      PlainObject.get STAT_FIELDS stats k = PlainObject.absent)
  /\ (forall f, JS.includes (JS.trim (file f)) (JS.lit "=>") = false ->
        normalizeNumstatPath (file f) = {| newPath := JS.trim (file f); oldPath := None |}
        /\ statKeys f = file f :: (if JS.truthy (JS.trim (file f))
                                   then [JS.trim (file f)] else [])).
Proof.
  cbv zeta. unfold createDiffStatsMap.
  destruct (diffStats_fold_keys k (dfiles summary)) as [H1 H2].
  pose proof (stats_proto (dfiles summary)) as Hproto.
  set (stats := fold_left diffStatsStep (dfiles summary) PlainObject.empty) in *.
  assert (Hnone : Forall (fun f => k ∉ statKeys f) (dfiles summary) ->
            PlainObject.get STAT_FIELDS stats k
            = if JS.str_eqb k PlainObject.PROTO then PlainObject.alien
              else if PlainObject.inherited STAT_FIELDS stats k
                   then PlainObject.alien else PlainObject.absent).
  { intros Hun. apply H1 in Hun. unfold statAt in Hun. revert Hun.
    unfold PlainObject.get. destruct (JS.str_eqb k PlainObject.PROTO).
    - destruct (PlainObject.proto stats); [discriminate|reflexivity].
    - destruct (PlainObject.own stats !! k); [discriminate|reflexivity]. }
  split.
  { rewrite <- H1. unfold statAt.
    destruct (PlainObject.get STAT_FIELDS stats k) as [st| |]; split; try congruence.
    intros H. now contradiction (H st). }
  split.
  { intros st Hst. apply H2. now apply statAt_get. }
  split.
  { intros Hun Hk. rewrite (Hnone Hun). destruct (JS.str_eqb k PlainObject.PROTO);
      [reflexivity|].
    unfold PlainObject.inherited. rewrite (bool_decide_true _ Hk).
    now rewrite orb_true_r. }
  split.
  { intros Hun Hk Hex. rewrite (Hnone Hun). destruct (JS.str_eqb k PlainObject.PROTO);
      [reflexivity|].
    unfold PlainObject.inherited. cbn [STAT_FIELDS].
    destruct (PlainObject.proto stats) eqn:Ep.
    - now rewrite (bool_decide_true _ Hk).
    - exfalso. pose proof (proj1 Hproto eq_refl) as Hall.
      apply Exists_exists in Hex as (f & Hf & Hin).
      rewrite Forall_forall in Hall. exact (Hall f Hf Hin). }
  split.
  { intros Hun Hk Hor. rewrite (Hnone Hun). unfold JS.str_eqb.
    rewrite bool_decide_false.
    2:{ intros ->. apply Hk. in_list. }
    unfold PlainObject.inherited. cbn [STAT_FIELDS].
    rewrite (bool_decide_false _ Hk), orb_false_r.
    destruct Hor as [Hf|Hall].
    - rewrite (bool_decide_false _ Hf). now destruct (PlainObject.proto stats).
    - apply (proj2 Hproto) in Hall. now rewrite Hall. }
  intros f Hno.
  assert (Hn : normalizeNumstatPath (file f)
               = {| newPath := JS.trim (file f); oldPath := None |}).
  { unfold normalizeNumstatPath. cbv zeta. rewrite Hno.
    now rewrite andb_false_r. }
  split; [exact Hn|]. unfold statKeys. cbv zeta. rewrite Hn. cbn [newPath oldPath].
  now rewrite app_nil_r.
Qed.

End StatsKeys.

Lemma stats_map_keys_witness :
  PlainObject.get STAT_FIELDS (createDiffStatsMap proto_summary) (JS.lit "toString")
    = PlainObject.alien
  /\ PlainObject.get STAT_FIELDS (createDiffStatsMap proto_summary) (JS.lit "added")
     = PlainObject.alien
  /\ PlainObject.get STAT_FIELDS (createDiffStatsMap emptyDiffSummary) (JS.lit "added")
     = PlainObject.absent.
Proof.
  destruct (stats_map_keys proto_summary (JS.lit "toString")) as (_ & _ & H3 & _).
  destruct (stats_map_keys proto_summary (JS.lit "added")) as (_ & _ & _ & H4 & _).
  destruct (stats_map_keys emptyDiffSummary (JS.lit "added")) as (_ & _ & _ & _ & H5 & _).
  split; [|split].
  - apply H3; [|in_list]. repeat (constructor; [not_in_list|]). constructor.
  - apply H4; [|in_list|].
    + repeat (constructor; [not_in_list|]). constructor.
    + apply Exists_cons_hd. in_list.
  - apply H5; [constructor|not_in_list|]. right. constructor.
Defined.

Section OutputMap.

Lemma buildRepoOutputMap_fold secs : forall (acc : PlainObject.t jsstr) k,
  let texts :=
    fold_left (fun result section =>
                 PlainObject.set STRING_VALUES (getRepoKey (repo section)) (output section)
                                 result) secs acc in
  PlainObject.proto texts = PlainObject.proto acc
  /\ (k <> PlainObject.PROTO ->
      PlainObject.own texts !! k
      = match last (sectionsFor k secs) with
        | Some sec => Some (output sec)
        | None => PlainObject.own acc !! k
        end).
Proof.
  cbv zeta.
  induction secs as [|sec secs IH] using rev_ind; intros acc k; [now split|].
  rewrite fold_left_app. cbn [fold_left]. unfold sectionsFor.
  rewrite List.filter_app. cbn [List.filter].
  destruct (IH acc k) as [IHp IHo].
  unfold PlainObject.set, JS.str_eqb, STRING_VALUES.
  case_bool_decide as Ep.
  - split; [exact IHp|]. intros Hk.
    rewrite bool_decide_false by congruence. rewrite app_nil_r. now apply IHo.
  - cbn [PlainObject.proto PlainObject.own]. split; [exact IHp|]. intros Hk.
    case_bool_decide as E.
    + rewrite last_snoc. rewrite <- E. apply lookup_insert_eq.
    + rewrite app_nil_r. rewrite lookup_insert_ne by exact E. now apply IHo.
Qed.

(** X24. The per-repository output map. Looking up a key other than
    [__proto__] gives the body of the last section with that key, the key
    of a section being its name, or the empty string when it has none; a
    key no section has gives a property of [Object.prototype] when it is one
    of that object's names, and nothing otherwise.  The key [__proto__]
    always gives [Object.prototype], also when a section has that name,
    since assigning a string to it is ignored.  So of two sections with the
    same name only the later counts, and an unnamed section shares its key
    with a section named by the empty string. *)
Theorem repo_output_map_lookup (secs : list RepoScopedOutput) (k : jsstr) :
  let texts := buildRepoOutputMap secs in
  (k <> PlainObject.PROTO ->
   PlainObject.get STRING_VALUES texts k
   = match last (sectionsFor k secs) with
     | Some sec => PlainObject.found (output sec)
     | None => if bool_decide (k ∈ PlainObject.OBJECT_PROTOTYPE_NAMES)
               then PlainObject.alien else PlainObject.absent
     end)
  /\ PlainObject.get STRING_VALUES texts PlainObject.PROTO = PlainObject.alien
  /\ (k ∉ PlainObject.OBJECT_PROTOTYPE_NAMES ->
      (PlainObject.get STRING_VALUES texts k = PlainObject.absent
       <-> Forall (fun sec => getRepoKey (repo sec) <> k) secs))
  /\ getRepoKey None = getRepoKey (Some []).
Proof.
  cbv zeta. unfold buildRepoOutputMap.
  destruct (buildRepoOutputMap_fold secs PlainObject.empty k) as [Hp Ho].
  destruct (buildRepoOutputMap_fold secs PlainObject.empty PlainObject.PROTO) as [Hp' _].
  cbv zeta in *.
  set (texts := fold_left _ secs PlainObject.empty) in *.
  cbn [PlainObject.empty PlainObject.proto PlainObject.own] in *.
  assert (Hget : k <> PlainObject.PROTO ->
            PlainObject.get STRING_VALUES texts k
            = match last (sectionsFor k secs) with
              | Some sec => PlainObject.found (output sec)
              | None => if bool_decide (k ∈ PlainObject.OBJECT_PROTOTYPE_NAMES)
                        then PlainObject.alien else PlainObject.absent
              end).
  { intros Hk. unfold PlainObject.get, JS.str_eqb.
    rewrite bool_decide_false by exact Hk. rewrite (Ho Hk), lookup_empty.
    destruct (last (sectionsFor k secs)); [reflexivity|].
    unfold PlainObject.inherited, STRING_VALUES. rewrite Hp. reflexivity. }
  split; [exact Hget|]. split.
  { unfold PlainObject.get, JS.str_eqb. rewrite bool_decide_true by reflexivity.
    now rewrite Hp. }
  split; [|reflexivity].
  intros Hk.
  assert (Hne : k <> PlainObject.PROTO) by (intros ->; apply Hk; in_list).
  rewrite (Hget Hne), (bool_decide_false _ Hk).
  unfold sectionsFor. split.
  - intros H. apply Forall_forall. intros sec Hin Hkey.
    assert (Hmem : sec ∈ List.filter
                     (fun sec => bool_decide (getRepoKey (repo sec) = k)) secs).
    { apply list_elem_of_In, filter_In. split; [now apply list_elem_of_In|].
      now apply bool_decide_eq_true. }
    destruct (List.filter _ secs) as [|x l] using rev_ind.
    + now apply elem_of_nil in Hmem.
    + rewrite last_snoc in H. discriminate H.
  - intros H.
    assert (Hnil : List.filter (fun sec => bool_decide (getRepoKey (repo sec) = k)) secs
                   = []).
    { clear -H. induction H as [|sec secs' Hsec _ IH]; [reflexivity|].
      cbn [List.filter]. now rewrite bool_decide_false, IH by exact Hsec. }
    now rewrite Hnil.
Qed.

End OutputMap.

Lemma repo_output_map_lookup_witness :
  let secs := [ {| repo := Some (JS.lit "api"); output := JS.lit "1" |};
                {| repo := Some (JS.lit "__proto__"); output := JS.lit "2" |};
                {| repo := Some (JS.lit "api"); output := JS.lit "3" |} ] in
  PlainObject.get STRING_VALUES (buildRepoOutputMap secs) (JS.lit "api")
    = PlainObject.found (JS.lit "3")
  /\ PlainObject.get STRING_VALUES (buildRepoOutputMap secs) (JS.lit "__proto__")
     = PlainObject.alien
  /\ PlainObject.get STRING_VALUES (buildRepoOutputMap secs) (JS.lit "constructor")
     = PlainObject.alien.
Proof.
  intros secs.
  destruct (repo_output_map_lookup secs (JS.lit "api")) as (H1 & H2 & _).
  destruct (repo_output_map_lookup secs (JS.lit "constructor")) as (H3 & _).
  split; [|split].
  - rewrite H1 by discriminate. vm_compute. reflexivity.
  - exact H2.
  - rewrite H3 by discriminate. vm_compute. reflexivity.
Defined.

Section EntryFacts.









End EntryFacts.

(** ** Legacy mode *)

Section LegacyMode.




End LegacyMode.



(** ** Skipped names; the fan-out over discovered repositories *)

Section SkipNames.

(** X27. Which directory names are skipped: the names that start with a
    dot, and node_modules, dist, build, target and coverage.  (The test for
    ".git" and the dotted names of the skip list add nothing to the test
    for a leading dot.) *)
Theorem shouldSkipDirectory_names (name : jsstr) :
  shouldSkipDirectory name = true
  <-> JS.startsWith name (JS.lit ".") = true \/ name ∈ skippedPlainNames.
Proof.
  unfold shouldSkipDirectory, JS.str_eqb, SKIPPED_DIRECTORY_NAMES, skippedPlainNames.
  split.
  - case_bool_decide as E1; [intros _; left; now rewrite E1|].
    case_bool_decide as E2; [|intros H; now left].
    intros _. apply elem_of_list_to_set in E2. cbn [List.map] in E2.
    repeat (apply elem_of_cons in E2 as [->|E2];
            [first [left; reflexivity
                   | right; vm_compute;
                     repeat first [apply list_elem_of_here | apply list_elem_of_further]]|]).
    now apply elem_of_nil in E2.
  - intros [H|H].
    + case_bool_decide; [reflexivity|]. case_bool_decide; [reflexivity|exact H].
    + case_bool_decide; [reflexivity|].
      rewrite bool_decide_true; [reflexivity|].
      apply elem_of_list_to_set. cbn [List.map] in *.
      repeat (apply elem_of_cons in H as [->|H];
              [repeat first [apply list_elem_of_here | apply list_elem_of_further]|]).
      now apply elem_of_nil in H.
Qed.

End SkipNames.

Section WellFormedPaths.

Lemma isWellFormed_app a : forall n b, length a <= n ->
  URI.isWellFormed a = true -> URI.isWellFormed b = true -> URI.isWellFormed (a ++ b) = true.
Proof.
  intros n. revert a. induction n as [|n IH]; intros a b Hlen Ha Hb.
  - destruct a; [exact Hb|cbn in Hlen; lia].
  - destruct a as [|c a]; [exact Hb|].
    cbn [app URI.isWellFormed] in *.
    destruct (URI.isTrailingSurrogate c); [discriminate|].
    destruct (URI.isLeadingSurrogate c).
    + destruct a as [|d a]; [discriminate|]. cbn [app].
      apply andb_true_iff in Ha as [Hd Ha]. rewrite Hd. cbn [andb].
      apply IH; [cbn in Hlen; lia|exact Ha|exact Hb].
    + apply andb_true_iff in Ha as [Hc Ha]. rewrite Hc. cbn [andb].
      apply IH; [cbn in Hlen; lia|exact Ha|exact Hb].
Qed.

Lemma isWellFormed_join ns :
  Forall (fun n => URI.isWellFormed n = true) ns ->
  URI.isWellFormed (JS.join (JS.lit "/") ns) = true.
Proof.
  induction 1 as [|n ns Hn Hns IH]; [reflexivity|].
  destruct ns as [|n' ns]; [exact Hn|].
  change (JS.join (JS.lit "/") (n :: n' :: ns))
    with (n ++ JS.lit "/" ++ JS.join (JS.lit "/") (n' :: ns)).
  apply (isWellFormed_app n (length n)); [lia|exact Hn|].
  apply (isWellFormed_app (JS.lit "/") 1); [cbn; lia|reflexivity|exact IH].
Qed.

Variable hasGitMetadata : fspath -> bool.
Variable readdir : fspath -> option (list Dirent).
Variable localeCompare : jsstr -> jsstr -> Z.
Variable baseCwd : jsstr.

Hypothesis names_wellFormed :
  forall p entries entry, readdir p = Some entries -> entry ∈ entries ->
    URI.isWellFormed (d_name entry) = true.

Lemma listed_wellFormed ns :
  listed hasGitMetadata readdir baseCwd ns -> Forall (fun n => URI.isWellFormed n = true) ns.
Proof.
  induction 1 as [|ns entries entry _ IH _ _ Hread Hin _ _]; [constructor|].
  apply Forall_app. split; [exact IH|]. repeat constructor.
  exact (names_wellFormed _ _ _ Hread Hin).
Qed.

Lemma discovered_wellFormed :
  Forall (fun r => URI.isWellFormed (relativePath r) = true)
         (discoverNestedGitRepos hasGitMetadata readdir localeCompare baseCwd).
Proof.
  unfold discoverNestedGitRepos. rewrite sortBy_perm.
  destruct (scanFinal_trace hasGitMetadata readdir baseCwd) as [_ Hl Hf _ _ _].
  rewrite Forall_forall in Hl. eapply Forall_impl; [exact Hf|].
  cbn. intros d (e & He & Hp & _ & _ & Hrel).
  destruct (Hl e He) as (Hlisted & _). rewrite Hp in Hlisted.
  rewrite Hrel. unfold relativePosix.
  apply isWellFormed_join, listed_wellFormed, Hlisted.
Qed.

End WellFormedPaths.

Section FallbackDefined.

Context {World : Type}.
Variable runGitCommand :
  list jsstr -> fspath -> option N -> World -> GitCommandResponse * World.
Variable hasGitMetadata : fspath -> bool.
Variable readdir : fspath -> option (list Dirent).
Variable localeCompare : jsstr -> jsstr -> Z.

(** X28. The fan-out never throws for repositories that discovery
    found: on a file system whose entry names are well-formed strings, the
    relative path of every discovered repository is well-formed, so framing
    it cannot fail, and both the status and the numstat fallback return a
    result, whatever the commands answer. *)
Theorem fallback_returns_for_discovered (baseCwd : jsstr) (staged : bool)
    (timeout : option N) (w : World) :
  (forall p entries entry, readdir p = Some entries -> entry ∈ entries ->
     URI.isWellFormed (d_name entry) = true) ->
  let found := discoverNestedGitRepos hasGitMetadata readdir localeCompare baseCwd in
  Forall (fun r => URI.isWellFormed (relativePath r) = true) found
  /\ (exists resp w', runNestedStatusFallback World runGitCommand found timeout w
                      = Some (resp, w'))
  /\ (exists resp w', runNestedNumstatFallback World runGitCommand found staged timeout w
                      = Some (resp, w')).
Proof.
  intros Hnames. cbv zeta.
  pose proof (discovered_wellFormed hasGitMetadata readdir localeCompare baseCwd Hnames)
    as Hwf.
  split; [exact Hwf|].
  unfold runNestedStatusFallback, runNestedNumstatFallback.
  destruct (discoverNestedGitRepos hasGitMetadata readdir localeCompare baseCwd)
    as [|r rs]; [split; eexists _, _; reflexivity|].
  split.
  - destruct (runAll World runGitCommand GIT_STATUS_ARGS timeout (r :: rs) w)
      as [results w'] eqn:Hrun.
    destruct (fanOut_spec runGitCommand GIT_STATUS_ARGS (JS.lit "status failed")
                (JS.lit "Nested git status unavailable") r rs timeout w results w'
                Hrun Hwf) as (texts & _ & Hout).
    eexists _, _. exact Hout.
  - destruct (runAll World runGitCommand (numstatArgs staged) timeout (r :: rs) w)
      as [results w'] eqn:Hrun.
    destruct (fanOut_spec runGitCommand (numstatArgs staged) (JS.lit "diff failed")
                (JS.lit "Nested git diff unavailable") r rs timeout w results w'
                Hrun Hwf) as (texts & _ & Hout).
    eexists _, _. exact Hout.
Qed.

End FallbackDefined.

Lemma fallback_returns_for_discovered_witness :
  let found := discoverNestedGitRepos twoRepos_git twoRepos_dir ordinalCompare
                 (JS.lit "/work") in
  Forall (fun r => URI.isWellFormed (relativePath r) = true) found
  /\ (exists resp w', runNestedStatusFallback (list jsstr) loggingRunner found None []
                      = Some (resp, w'))
  /\ (exists resp w', runNestedNumstatFallback (list jsstr) loggingRunner found true None []
                      = Some (resp, w')).
Proof.
  apply (fallback_returns_for_discovered loggingRunner twoRepos_git twoRepos_dir
           ordinalCompare (JS.lit "/work") true None []).
  intros p entries entry. unfold twoRepos_dir.
  destruct (bool_decide (names p = [])); intros H Hin; inversion H; subst.
  - repeat (apply elem_of_cons in Hin as [->|Hin]; [reflexivity|]).
    now apply elem_of_nil in Hin.
  - now apply elem_of_nil in Hin.
Defined.

(** ** The handlers *)

Section FallbackDecision.

Variable toLowerCase : jsstr -> jsstr.
Hypothesis toLowerCase_ascii : forall s, isAscii s -> toLowerCase s = List.map foldCase s.

Lemma startsWith_nil s : JS.startsWith s [] = true.
Proof. now destruct s. Qed.

Lemma startsWith_before_sep sep a : forall p b,
  sep ∉ p -> JS.startsWith (a ++ sep :: b) p = JS.startsWith a p.
Proof.
  induction a as [|x a IH]; intros p b Hp.
  - destruct p as [|c p]; [reflexivity|]. cbn.
    apply not_elem_of_cons in Hp as [Hc _].
    now rewrite (proj2 (N.eqb_neq c sep)) by (intros E; now apply Hc).
  - destruct p as [|c p]; [reflexivity|]. cbn [app JS.startsWith].
    apply not_elem_of_cons in Hp as [_ Hp]. now rewrite IH.
Qed.

(** A phrase without the separator is found in two texts put together
    around it exactly when it is found in one of the two. *)
Lemma includes_around_sep sep a p b :
  sep ∉ p -> p <> [] ->
  JS.includes (a ++ sep :: b) p = JS.includes a p || JS.includes b p.
Proof.
  intros Hp Hne. induction a as [|x a IH].
  - cbn [app]. rewrite (RenameFacts.includes_unfold (sep :: b)).
    change (sep :: b) with ([] ++ sep :: b) at 1.
    rewrite startsWith_before_sep by exact Hp.
    destruct p; [congruence|]. reflexivity.
  - cbn [app JS.includes]. rewrite IH.
    change (x :: a ++ sep :: b) with ((x :: a) ++ sep :: b).
    rewrite startsWith_before_sep by exact Hp. now rewrite orb_assoc.
Qed.

Lemma foldCase_LF : foldCase JS.LF = JS.LF.
Proof. reflexivity. Qed.

(** X29. Which failures count as "not a repository". A successful
    result never does.  For a failed result whose error and standard error
    are ASCII text, the decision is made on each of the two texts by itself,
    without regard to letter case: the result counts exactly when the error
    or the standard error, with its letters lowered, contains one of the
    four phrases. *)
Theorem fallback_decision (response : GitCommandResponse) :
  (success response = true -> shouldFallbackToNestedRepos toLowerCase response = false)
  /\ (success response = false ->
      isAscii (default [] (error response)) -> isAscii (default [] (stderr response)) ->
      shouldFallbackToNestedRepos toLowerCase response
      = existsb (fun phrase =>
                   JS.includes (List.map foldCase (default [] (error response))) phrase
                   || JS.includes (List.map foldCase (default [] (stderr response))) phrase)
                FALLBACK_PHRASES).
Proof.
  unfold shouldFallbackToNestedRepos. split; [now intros ->|].
  intros -> He Hs.
  rewrite toLowerCase_ascii.
  - rewrite map_app. cbn [List.map app]. rewrite foldCase_LF.
    cbn [FALLBACK_PHRASES List.map existsb].
    rewrite !includes_around_sep;
      try discriminate;
      try (vm_compute; intros H;
           repeat (apply elem_of_cons in H as [H|H]; [discriminate H|]);
           now apply elem_of_nil in H).
    now rewrite orb_false_r, !orb_assoc.
  - apply Forall_app. split; [exact He|]. apply Forall_app. split; [|exact Hs].
    repeat constructor.
Qed.

End FallbackDecision.

Lemma fallback_decision_witness :
  shouldFallbackToNestedRepos (List.map foldCase)
    {| success := false; stdout := Some [];
       stderr := Some (JS.lit "fatal: Not a git repository (or any of the parent directories): .git");
       exitCode := Some 128%Z; error := Some (JS.lit "Command failed") |}
  = true.
Proof.
  destruct (fallback_decision (List.map foldCase) (fun s _ => eq_refl)
              {| success := false; stdout := Some [];
                 stderr := Some (JS.lit "fatal: Not a git repository (or any of the parent directories): .git");
                 exitCode := Some 128%Z; error := Some (JS.lit "Command failed") |})
    as [_ H].
  rewrite H.
  - vm_compute. reflexivity.
  - reflexivity.
  - unfold isAscii. apply Forall_forall. intros c Hc.
    assert (Hall : forallb (fun c => (c <? 0x80)%N) (JS.lit "Command failed") = true)
      by (vm_compute; reflexivity).
    rewrite forallb_forall in Hall. apply N.ltb_lt, Hall, list_elem_of_In, Hc.
  - unfold isAscii. apply Forall_forall. intros c Hc.
    assert (Hall : forallb (fun c => (c <? 0x80)%N)
                     (JS.lit "fatal: Not a git repository (or any of the parent directories): .git")
                   = true) by (vm_compute; reflexivity).
    rewrite forallb_forall in Hall. apply N.ltb_lt, Hall, list_elem_of_In, Hc.
Defined.

Section HandlerFacts.

Context {World : Type}.
Variable runCommand :
  list jsstr -> fspath -> option N -> World -> GitCommandResponse * World.
Variable validatePath : jsstr -> jsstr -> PathValidation.
Variable toLowerCase : jsstr -> jsstr.
Variable hasGitMetadata : fspath -> bool.
Variable readdir : fspath -> option (list Dirent).
Variable localeCompare : jsstr -> jsstr -> Z.
Variable resolve : jsstr -> jsstr.
Variable resolveIn : jsstr -> jsstr -> jsstr.
Variable relative : jsstr -> jsstr -> jsstr.
Variable isAbsolute : jsstr -> bool.
Variable pathString : fspath -> jsstr.
Variable workingDirectory : jsstr.

Local Abbreviation statusHandler :=
  (gitStatusHandler World runCommand validatePath toLowerCase hasGitMetadata readdir
     localeCompare workingDirectory).
Local Abbreviation numstatHandler :=
  (gitDiffNumstatHandler World runCommand validatePath toLowerCase hasGitMetadata readdir
     localeCompare workingDirectory).
Local Abbreviation fileHandler :=
  (gitDiffFileHandler World runCommand validatePath toLowerCase hasGitMetadata readdir
     localeCompare resolve resolveIn relative isAbsolute pathString workingDirectory).
Local Abbreviation cwdOf := (fun requested : option jsstr => default workingDirectory requested).
Local Abbreviation keeps := (fun result : GitCommandResponse =>
  success result || negb (shouldFallbackToNestedRepos toLowerCase result)).

Lemma resolveCwd_rejects requested :
  truthyOpt (r_error (resolveCwd validatePath workingDirectory requested)) = true
  <-> valid (validatePath (cwdOf requested) workingDirectory) = false
      /\ v_error (validatePath (cwdOf requested) workingDirectory) <> Some [].
Proof.
  unfold resolveCwd. cbv zeta.
  destruct (valid (validatePath (cwdOf requested) workingDirectory)); cbn.
  - split; [discriminate|]. now intros [? _].
  - destruct (v_error _) as [[|c e]|]; cbn; split; try discriminate; try easy.
Qed.

(** X30. The three handlers do nothing they need not do. A request
    whose working directory the validator refuses is answered with the
    validator's message and neither runs a command nor touches the cache,
    and so is a file request whose file path is refused; a refusal counts
    only if its message is absent or not the empty string.  Otherwise the
    direct command is run once in the requested directory, and when it
    succeeds, or fails in a way that does not count as "not a repository",
    its result is returned as it is and no discovery takes place: the cache
    stays as it was. *)
Theorem handlers_direct_path (status : GitStatusRequest) (numstat : GitDiffNumstatRequest)
    (file : GitDiffFileRequest) (now : Z) (w : World)
    (cache : gmap (list N) RepoDiscoveryCacheEntry) :
  (forall requested,
     truthyOpt (r_error (resolveCwd validatePath workingDirectory requested)) = true
     <-> valid (validatePath (cwdOf requested) workingDirectory) = false
         /\ v_error (validatePath (cwdOf requested) workingDirectory) <> Some [])
  /\ (forall message,
        r_error (resolveCwd validatePath workingDirectory (status_cwd status)) = Some message ->
        message <> [] ->
        statusHandler status now w cache = Some (rpcError message None, w, cache))
  /\ (forall message,
        r_error (resolveCwd validatePath workingDirectory (numstat_cwd numstat)) = Some message ->
        message <> [] ->
        numstatHandler numstat now w cache = Some (rpcError message None, w, cache))
  /\ (forall message,
        r_error (resolveCwd validatePath workingDirectory (file_cwd file)) = Some message ->
        message <> [] ->
        fileHandler file now w cache = Some (rpcError message None, w, cache))
  /\ (forall message,
        truthyOpt (r_error (resolveCwd validatePath workingDirectory (file_cwd file))) = false ->
        validateFilePath validatePath workingDirectory (file_filePath file) = Some message ->
        message <> [] ->
        fileHandler file now w cache = Some (rpcError message None, w, cache))
  /\ (forall result w1,
        truthyOpt (r_error (resolveCwd validatePath workingDirectory (status_cwd status))) = false ->
        runCommand GIT_STATUS_ARGS (atRoot (cwdOf (status_cwd status)))
                   (status_timeout status) w = (result, w1) ->
        keeps result = true ->
        statusHandler status now w cache = Some (result, w1, cache))
  /\ (forall result w1,
        truthyOpt (r_error (resolveCwd validatePath workingDirectory (numstat_cwd numstat))) = false ->
        runCommand (numstatArgs (default false (numstat_staged numstat)))
                   (atRoot (cwdOf (numstat_cwd numstat)))
                   (numstat_timeout numstat) w = (result, w1) ->
        keeps result = true ->
        numstatHandler numstat now w cache = Some (result, w1, cache))
  /\ (forall result w1,
        truthyOpt (r_error (resolveCwd validatePath workingDirectory (file_cwd file))) = false ->
        truthyOpt (validateFilePath validatePath workingDirectory (file_filePath file)) = false ->
        runCommand (diffFileArgs (file_staged file) (file_filePath file))
                   (atRoot (cwdOf (file_cwd file)))
                   (file_timeout file) w = (result, w1) ->
        keeps result = true ->
        fileHandler file now w cache = Some (result, w1, cache)).
Proof.
  assert (Hcwd : forall requested,
            r_cwd (resolveCwd validatePath workingDirectory requested) = cwdOf requested).
  { intros requested. unfold resolveCwd. cbv zeta. now destruct (negb _). }
  split; [apply resolveCwd_rejects|].
  split.
  { intros message Hm Hne. unfold gitStatusHandler. cbv zeta. rewrite Hm.
    destruct message; [congruence|reflexivity]. }
  split.
  { intros message Hm Hne. unfold gitDiffNumstatHandler. cbv zeta. rewrite Hm.
    destruct message; [congruence|reflexivity]. }
  split.
  { intros message Hm Hne. unfold gitDiffFileHandler. cbv zeta. rewrite Hm.
    destruct message; [congruence|reflexivity]. }
  split.
  { intros message Hok Hm Hne. unfold gitDiffFileHandler. cbv zeta. rewrite Hok, Hm.
    destruct message; [congruence|reflexivity]. }
  split.
  { intros result w1 Hok Hrun Hkeep. unfold gitStatusHandler. cbv zeta.
    rewrite Hok, Hcwd, Hrun. cbv beta iota. now rewrite Hkeep. }
  split.
  { intros result w1 Hok Hrun Hkeep. unfold gitDiffNumstatHandler. cbv zeta.
    rewrite Hok, Hcwd, Hrun. cbv beta iota. now rewrite Hkeep. }
  intros result w1 Hok Hfile Hrun Hkeep. unfold gitDiffFileHandler. cbv zeta.
  rewrite Hok, Hfile, Hcwd, Hrun. cbv beta iota. now rewrite Hkeep.
Qed.

End HandlerFacts.

(** ** No exception leaves a handler *)

Section HandlersReturn.

Context {World : Type}.
Variable runCommand :
  list jsstr -> fspath -> option N -> World -> GitCommandResponse * World.
Variable validatePath : jsstr -> jsstr -> PathValidation.
Variable toLowerCase : jsstr -> jsstr.
Variable hasGitMetadata : fspath -> bool.
Variable readdir : fspath -> option (list Dirent).
Variable localeCompare : jsstr -> jsstr -> Z.
Variable resolve : jsstr -> jsstr.
Variable resolveIn : jsstr -> jsstr -> jsstr.
Variable relative : jsstr -> jsstr -> jsstr.
Variable isAbsolute : jsstr -> bool.
Variable pathString : fspath -> jsstr.
Variable workingDirectory : jsstr.

Lemma fanOut_returns args fallback unavailable rs timeout (w : World) :
  Forall (fun r => URI.isWellFormed (relativePath r) = true) rs ->
  exists resp w', fanOut World runCommand args fallback unavailable rs timeout w
                  = Some (resp, w').
Proof.
  intros Hwf. destruct rs as [|r rs]; [eexists _, _; reflexivity|].
  destruct (runAll World runCommand args timeout (r :: rs) w) as [results w'] eqn:Hrun.
  destruct (fanOut_spec runCommand args fallback unavailable r rs timeout w results w'
              Hrun Hwf) as (texts & _ & Hout).
  eexists _, _. exact Hout.
Qed.

Lemma getNestedRepos_wellFormed baseCwd now cache :
  (forall p entries entry, readdir p = Some entries -> entry ∈ entries ->
     URI.isWellFormed (d_name entry) = true) ->
  cacheWellFormed cache ->
  Forall (fun r => URI.isWellFormed (relativePath r) = true)
         (fst (getNestedRepos hasGitMetadata readdir localeCompare baseCwd now cache))
  /\ cacheWellFormed
       (snd (getNestedRepos hasGitMetadata readdir localeCompare baseCwd now cache)).
Proof.
  intros Hnames Hcache.
  pose proof (discovered_wellFormed hasGitMetadata readdir localeCompare baseCwd Hnames)
    as Hfound.
  assert (Hscan : cacheWellFormed
            (<[baseCwd := {| cached_repos :=
                               discoverNestedGitRepos hasGitMetadata readdir
                                 localeCompare baseCwd;
                             expiresAt := (now + DISCOVERY_CACHE_TTL_MS)%Z |}]> cache)).
  { intros k entry Hk. destruct (decide (baseCwd = k)) as [->|Hne].
    - rewrite lookup_insert_eq in Hk. inversion Hk; subst. exact Hfound.
    - rewrite lookup_insert_ne in Hk by exact Hne. exact (Hcache k entry Hk). }
  unfold getNestedRepos. destruct (cache !! baseCwd) as [c|] eqn:Ec; [|now split].
  destruct (now <? expiresAt c)%Z; [|now split].
  cbn [fst snd]. split; [exact (Hcache _ _ Ec)|exact Hcache].
Qed.

(** X4. No exception leaves a handler. On a file system whose entry
    names are well-formed strings, and with a cache whose lists have
    well-formed relative paths (as every list that discovery stores has),
    each of the three handlers returns a result, whatever the validator,
    the commands and the clock answer, and leaves the cache in such a
    state again. *)
Theorem handlers_return (status : GitStatusRequest) (numstat : GitDiffNumstatRequest)
    (file : GitDiffFileRequest) (now : Z) (w : World)
    (cache : gmap (list N) RepoDiscoveryCacheEntry) :
  (forall p entries entry, readdir p = Some entries -> entry ∈ entries ->
     URI.isWellFormed (d_name entry) = true) ->
  cacheWellFormed cache ->
  (exists resp w' cache',
     gitStatusHandler World runCommand validatePath toLowerCase hasGitMetadata readdir
       localeCompare workingDirectory status now w cache = Some (resp, w', cache')
     /\ cacheWellFormed cache')
  /\ (exists resp w' cache',
     gitDiffNumstatHandler World runCommand validatePath toLowerCase hasGitMetadata readdir
       localeCompare workingDirectory numstat now w cache = Some (resp, w', cache')
     /\ cacheWellFormed cache')
  /\ (exists resp w' cache',
     gitDiffFileHandler World runCommand validatePath toLowerCase hasGitMetadata readdir
       localeCompare resolve resolveIn relative isAbsolute pathString workingDirectory
       file now w cache = Some (resp, w', cache')
     /\ cacheWellFormed cache').
Proof.
  intros Hnames Hcache.
  assert (Hrepos : forall baseCwd,
            Forall (fun r => URI.isWellFormed (relativePath r) = true)
                   (fst (getNestedRepos hasGitMetadata readdir localeCompare baseCwd now cache))
            /\ cacheWellFormed
                 (snd (getNestedRepos hasGitMetadata readdir localeCompare baseCwd now cache))).
  { intros baseCwd. now apply getNestedRepos_wellFormed. }
  split; [|split].
  - unfold gitStatusHandler. cbv zeta.
    destruct (truthyOpt _); [eexists _, _, _; split; [reflexivity|exact Hcache]|].
    destruct (runCommand _ _ _ w) as [result w1].
    destruct (success result || _); [eexists _, _, _; split; [reflexivity|exact Hcache]|].
    destruct (Hrepos (r_cwd (resolveCwd validatePath workingDirectory (status_cwd status))))
      as [Hwf Hcache'].
    destruct (getNestedRepos _ _ _ _ now cache) as [rs cache'].
    cbn [fst snd] in Hwf, Hcache'.
    destruct (fanOut_returns GIT_STATUS_ARGS (JS.lit "status failed")
                (JS.lit "Nested git status unavailable") rs (status_timeout status) w1 Hwf)
      as (resp & w2 & Hout).
    unfold runNestedStatusFallback. rewrite Hout. cbn.
    eexists _, _, _. split; [reflexivity|exact Hcache'].
  - unfold gitDiffNumstatHandler. cbv zeta.
    destruct (truthyOpt _); [eexists _, _, _; split; [reflexivity|exact Hcache]|].
    destruct (runCommand _ _ _ w) as [result w1].
    destruct (success result || _); [eexists _, _, _; split; [reflexivity|exact Hcache]|].
    destruct (Hrepos (r_cwd (resolveCwd validatePath workingDirectory (numstat_cwd numstat))))
      as [Hwf Hcache'].
    destruct (getNestedRepos _ _ _ _ now cache) as [rs cache'].
    cbn [fst snd] in Hwf, Hcache'.
    destruct (fanOut_returns
                (numstatArgs (bool_decide (numstat_staged numstat = Some true)))
                (JS.lit "diff failed") (JS.lit "Nested git diff unavailable") rs
                (numstat_timeout numstat) w1 Hwf) as (resp & w2 & Hout).
    unfold runNestedNumstatFallback. rewrite Hout. cbn.
    eexists _, _, _. split; [reflexivity|exact Hcache'].
  - unfold gitDiffFileHandler. cbv zeta.
    destruct (truthyOpt _); [eexists _, _, _; split; [reflexivity|exact Hcache]|].
    destruct (truthyOpt _); [eexists _, _, _; split; [reflexivity|exact Hcache]|].
    destruct (runCommand _ _ _ w) as [result w1].
    destruct (success result || _); [eexists _, _, _; split; [reflexivity|exact Hcache]|].
    destruct (Hrepos (r_cwd (resolveCwd validatePath workingDirectory (file_cwd file))))
      as [_ Hcache'].
    destruct (getNestedRepos _ _ _ _ now cache) as [rs cache'].
    cbn [snd] in Hcache'.
    destruct (runNestedDiffFileFallback _ _ _ _ _ _ _ _ _ _ _ _ w1) as [resp w2].
    eexists _, _, _. split; [reflexivity|exact Hcache'].
Qed.

End HandlersReturn.

Lemma handlers_return_witness :
  (exists resp w' cache',
     gitStatusHandler (list jsstr) loggingRunner
       (fun _ _ => {| valid := true; v_error := None |}) (List.map foldCase)
       twoRepos_git twoRepos_dir ordinalCompare (JS.lit "/work")
       {| status_cwd := None; status_timeout := None |} 0 [] ∅
     = Some (resp, w', cache')
     /\ cacheWellFormed cache')
  /\ (exists resp w' cache',
     gitDiffNumstatHandler (list jsstr) loggingRunner
       (fun _ _ => {| valid := true; v_error := None |}) (List.map foldCase)
       twoRepos_git twoRepos_dir ordinalCompare (JS.lit "/work")
       {| numstat_cwd := None; numstat_staged := Some true; numstat_timeout := None |} 0 [] ∅
     = Some (resp, w', cache')
     /\ cacheWellFormed cache')
  /\ (exists resp w' cache',
     gitDiffFileHandler (list jsstr) loggingRunner
       (fun _ _ => {| valid := true; v_error := None |}) (List.map foldCase)
       twoRepos_git twoRepos_dir ordinalCompare (fun p => p) sampleResolveIn sampleRelative
       sampleIsAbsolute samplePathString (JS.lit "/work")
       {| file_cwd := None; file_filePath := JS.lit "a/x.ts"; file_staged := None;
          file_timeout := None |} 0 [] ∅
     = Some (resp, w', cache')
     /\ cacheWellFormed cache').
Proof.
  apply (handlers_return loggingRunner (fun _ _ => {| valid := true; v_error := None |})
           (List.map foldCase) twoRepos_git twoRepos_dir ordinalCompare (fun p => p)
           sampleResolveIn sampleRelative sampleIsAbsolute samplePathString (JS.lit "/work")
           {| status_cwd := None; status_timeout := None |}
           {| numstat_cwd := None; numstat_staged := Some true; numstat_timeout := None |}
           {| file_cwd := None; file_filePath := JS.lit "a/x.ts"; file_staged := None;
              file_timeout := None |} 0 [] ∅).
  - intros p entries entry. unfold twoRepos_dir.
    destruct (bool_decide (names p = [])); intros H Hin; inversion H; subst.
    + repeat (apply elem_of_cons in Hin as [->|Hin]; [reflexivity|]).
      now apply elem_of_nil in Hin.
    + now apply elem_of_nil in Hin.
  - intros k entry H. rewrite lookup_empty in H. discriminate H.
Defined.
